(** * Intent-to-trade pipeline: safety gate, risk engine, liquidity query
      and intent resolution loop

    A shallow embedding of the TypeScript sources
      - [lib/safety.ts]      (runSafetyChecks, validateTradeBeforeExecution,
                              calculateSpreadPercent)
      - [lib/payoff.ts]      (parseLeg, calculateTotalPnl, findBreakevens,
                              calculatePayoff, calculateEntryCost)
      - [lib/lyra-tools.ts]  (executeGetInstruments, executeGetMultipleTickers,
                              executeGetIndexPrice, executeFindLiquidOptions)
      - [lib/lyra-client.ts] (getTickersForInstruments, resolveInstruments,
                              parseInstrumentName, findClosestExpiry)
      - [lib/agent-parser.ts] (AgentParser.parseIntent, extractTradeSpec,
                              getAgentParser)
      - [lib/claude-parser.ts] (ClaudeParser.parseIntent)
      - [lib/debug-logger.ts] (DebugLogger)
      - [lib/schemas.ts]     (LegSchema, TradeSpecSchema, the request schemas)
      - [app/api/parse-intent/route.ts], [app/api/execute/route.ts],
        [app/api/get-prices/route.ts] (the POST handlers)

    Number model.  A JavaScript [number] is embedded as an exact rational
    ([Q], compared with [==]); NaN, the infinities and the rounding error of
    binary64 arithmetic are outside the model.  The one place where the code
    relies on an infinity ([Math.max()] of no argument) is modelled with an
    [option].  JavaScript strings are embedded as [string] (byte strings).

    Effects.  What the code reads from outside (the environment, the clock,
    the exchange, the model, [JSON.parse], number formatting) is a parameter
    of the definitions that use it.  A call to the exchange or to the model
    is a function of its arguments: within one run the same question gets
    the same answer.  A thrown [Error] is a value ([Agent.Thrown]).  Loops that the source does not bound carry fuel and
    return [None] when it runs out. *)

From Stdlib Require Import QArith Qround Qabs Qpower ZArith NArith List String.
From Stdlib Require Import Ascii Bool.
From Stdlib Require Import Lia Lqa Permutation Sorted.
From Stdlib Require DecimalString.
Import ListNotations.
Local Open Scope string_scope.
Local Open Scope Q_scope.

(** ** Shared data model ([lib/schemas.ts]) *)

Inductive Side := buy | sell.

Definition Side_eqb (a b : Side) : bool :=
  match a, b with
  | buy, buy | sell, sell => true
  | _, _ => false
  end.

Record Leg := mkLeg {
  instrument_name : string;
  side : Side;
  amount : Q
}.

Record TradeSpec := mkTradeSpec {
  underlying : string;
  strategy : string;
  expiry : string;
  legs : list Leg;
  max_cost_usd : Q;
  max_loss_usd : Q;
  explanation : string
}.

(** [a <= b], [a < b], [a > b] on numbers, as booleans. *)
Definition num_le (a b : Q) : bool := Qle_bool a b.
Definition num_lt (a b : Q) : bool := negb (Qle_bool b a).
Definition num_gt (a b : Q) : bool := num_lt b a.
Definition num_ge (a b : Q) : bool := num_le b a.

(** [Math.round(x * 100) / 100]: [Math.round] rounds to the nearest integer,
    halves towards plus infinity. *)
Definition Math_round (x : Q) : Q := inject_Z (Qfloor (x + (1 # 2))).
Definition round2 (x : Q) : Q := Math_round (x * 100) / 100.

(** A [parseFloat] for plain decimal literals (an optional minus sign,
    digits, an optional fraction), used to run the model on concrete
    strings; what [parseFloat] does on other strings is outside it. *)
Fixpoint decimal_digits (acc : Z) (s : string) : Z :=
  match s with
  | EmptyString => acc
  | String c rest =>
      decimal_digits (10 * acc + Z.of_nat (nat_of_ascii c - 48))%Z rest
  end.

Fixpoint decimal_split (s : string) : string * string :=
  match s with
  | EmptyString => (EmptyString, EmptyString)
  | String c rest =>
      if Ascii.eqb c "." then (EmptyString, rest)
      else let '(i, f) := decimal_split rest in (String c i, f)
  end.

Definition parseDecimal (s : string) : Q :=
  let '(neg, body) :=
    match s with
    | String c rest => if Ascii.eqb c "-" then (true, rest) else (false, s)
    | EmptyString => (false, s)
    end in
  let '(i, f) := decimal_split body in
  let v := Qred (inject_Z (decimal_digits 0 i)
                 + inject_Z (decimal_digits 0 f)
                   / inject_Z (10 ^ Z.of_nat (String.length f))) in
  if neg then - v else v.

(** ** binary64 arithmetic

    The rounding of a rational to the nearest binary64 number, ties to
    even, with 53 significant bits and an exponent without bounds: the
    model of one arithmetic operation of a JavaScript [number] where no
    overflow, no underflow and no NaN occur. *)

Module Binary64.

(** [floor (log2 q)] for [q > 0]. *)
Definition ilog2 (q : Q) : Z :=
  let l := (Z.log2 (Qnum q) - Z.log2 (Zpos (Qden q)))%Z in
  if Qle_bool (2 ^ l) q then l else (l - 1)%Z.

(** The integer nearest to [t], the even one of two equally near. *)
Definition rne (t : Q) : Z :=
  let f := Qfloor t in
  match Qcompare (t - inject_Z f) (1 # 2) with
  | Lt => f
  | Gt => (f + 1)%Z
  | Eq => if Z.even f then f else (f + 1)%Z
  end.

(** Rounding a positive number to 53 significant bits. *)
Definition round53 (q : Q) : Q :=
  let e := (ilog2 q - 52)%Z in
  inject_Z (rne (q * 2 ^ (- e))) * 2 ^ e.

(** Rounding to the nearest binary64 number, ties to even. *)
Definition fl64 (q : Q) : Q :=
  match Qnum q with
  | Z0 => 0
  | Zpos _ => Qred (round53 q)
  | Zneg _ => Qred (- round53 (- q))
  end.

(** The unit roundoff of binary64: half the distance from 1 to the next
    number. *)
Definition unit_roundoff : Q := 2 ^ (-53).

Definition fadd (a b : Q) : Q := fl64 (a + b).
Definition fsub (a b : Q) : Q := fl64 (a - b).
Definition fmul (a b : Q) : Q := fl64 (a * b).
Definition fdiv (a b : Q) : Q := fl64 (a / b).

End Binary64.

(** ** SafetyGate ([lib/safety.ts]) *)

Module Safety.

Record SafetyConfig := mkSafetyConfig {
  maxTradeCostUsd : Q;
  maxContractsPerLeg : Q;
  maxSpreadPercent : Q;
  safeModeEnabled : bool
}.

Record SafetyCheckResult := mkSafetyCheckResult {
  passes_max_cost : bool;
  passes_max_contracts : bool;
  passes_spread_check : bool;
  spread_percent : option Q;
  all_passed : bool;
  warnings : list string;
  errors : list string
}.

(** The four variables of [process.env] that [getSafetyConfig] reads. *)
Record ProcessEnv := mkProcessEnv {
  MAX_TRADE_COST_USD : option string;
  MAX_CONTRACTS_PER_LEG : option string;
  MAX_SPREAD_PERCENT : option string;
  SAFE_MODE : option string
}.

(** The part of a [TradePreview] that the re-check reads, with the fields
    around it. *)
Record PreviewLeg := mkPreviewLeg {
  pl_instrument_name : string;
  pl_side : Side;
  pl_amount : Q;
  pl_bid_price : option Q;
  pl_ask_price : option Q;
  pl_mark_price : Q;
  pl_estimated_cost : Q
}.

Record TradePreview := mkTradePreview {
  tradeSpec : TradeSpec;
  preview_legs : list PreviewLeg;
  total_estimated_cost : Q;
  max_loss : Q;
  max_gain : option Q;
  preview_breakevens : list Q;
  safety_checks : SafetyCheckResult
}.

Record Verdict := mkVerdict {
  canExecute : bool;
  reason : option string
}.

(** [Math.max(...xs)]: [None] stands for the [-Infinity] of no argument. *)
Fixpoint Math_max (xs : list Q) : option Q :=
  match xs with
  | [] => None
  | x :: rest =>
      match Math_max rest with
      | None => Some x
      | Some m => Some (if num_le m x then x else m)
      end
  end.

(** [e || d] on an optional environment string: the empty string is falsy. *)
Definition env_or (e : option string) (d : string) : string :=
  match e with
  | Some s => if String.eqb s "" then d else s
  | None => d
  end.

Section Gate.

(** JavaScript built-ins the checks call: [parseFloat], [Number.toFixed]
    and the default number formatting of template strings. *)
Variable parseFloat : string -> Q.
Variable toFixed : Q -> nat -> string.
Variable numToString : Q -> string.

Definition getSafetyConfig (env : ProcessEnv) : SafetyConfig :=
  {| maxTradeCostUsd := parseFloat (env_or (MAX_TRADE_COST_USD env) "200");
     maxContractsPerLeg := parseFloat (env_or (MAX_CONTRACTS_PER_LEG env) "10");
     maxSpreadPercent := parseFloat (env_or (MAX_SPREAD_PERCENT env) "5");
     safeModeEnabled :=
       match SAFE_MODE env with
       | Some s => negb (String.eqb s "false")
       | None => true
       end |}.

Definition costError (config : SafetyConfig) (estimatedCost : Q) : string :=
  "Trade cost ($" ++ toFixed estimatedCost 2 ++ ") exceeds maximum allowed ($"
    ++ numToString (maxTradeCostUsd config) ++ ")".

Definition contractsError (config : SafetyConfig) (maxContracts : Q) : string :=
  "Max contracts per leg (" ++ numToString maxContracts ++ ") exceeds limit ("
    ++ numToString (maxContractsPerLeg config) ++ ")".

Definition spreadWarning (config : SafetyConfig) (spreadPercent : Q) : string :=
  "Bid-ask spread (" ++ toFixed spreadPercent 1 ++ "%) exceeds threshold ("
    ++ numToString (maxSpreadPercent config) ++ "%)".

Definition maxLossWarning (config : SafetyConfig) (t : TradeSpec) : string :=
  "Max loss ($" ++ numToString (max_loss_usd t) ++ ") exceeds safety threshold ($"
    ++ numToString (maxTradeCostUsd config) ++ ")".

Definition runSafetyChecks (env : ProcessEnv) (t : TradeSpec)
    (estimatedCost : Q) (spreadPercent : option Q) : SafetyCheckResult :=
  let config := getSafetyConfig env in
  (* Check 1: max trade cost *)
  let passes_cost := num_le estimatedCost (maxTradeCostUsd config) in
  let errors1 := if passes_cost then [] else [costError config estimatedCost] in
  (* Check 2: max contracts per leg *)
  let maxContracts := Math_max (map amount (legs t)) in
  let passes_contracts :=
    match maxContracts with
    | None => true
    | Some m => num_le m (maxContractsPerLeg config)
    end in
  let errors2 :=
    match maxContracts with
    | Some m => if passes_contracts then errors1
                else (errors1 ++ [contractsError config m])%list
    | None => errors1
    end in
  (* Check 3: bid-ask spread *)
  let passes_spread :=
    match spreadPercent with
    | Some sp => num_le sp (maxSpreadPercent config)
    | None => true
    end in
  let warnings1 :=
    match spreadPercent with
    | Some sp => if passes_spread then [] else [spreadWarning config sp]
    | None => ["Could not calculate bid-ask spread - no liquidity data"]
    end in
  (* Check 4: max loss against the threshold *)
  let warnings2 :=
    if num_gt (max_loss_usd t) (maxTradeCostUsd config)
    then (warnings1 ++ [maxLossWarning config t])%list else warnings1 in
  {| passes_max_cost := passes_cost;
     passes_max_contracts := passes_contracts;
     passes_spread_check := passes_spread;
     spread_percent := spreadPercent;
     all_passed :=
       passes_cost && passes_contracts
         && (passes_spread || negb (safeModeEnabled config));
     warnings := warnings2;
     errors := errors2 |}.

Definition validateTradeBeforeExecution (env : ProcessEnv)
    (preview : TradePreview) : Verdict :=
  let config := getSafetyConfig env in
  if negb (safeModeEnabled config) then
    {| canExecute := true; reason := None |}
  else if negb (passes_max_cost (safety_checks preview)) then
    {| canExecute := false;
       reason := Some ("Trade cost exceeds maximum of $"
                         ++ numToString (maxTradeCostUsd config)) |}
  else if negb (passes_max_contracts (safety_checks preview)) then
    {| canExecute := false;
       reason := Some ("Contracts per leg exceeds maximum of "
                         ++ numToString (maxContractsPerLeg config)) |}
  else if (0 <? List.length (errors (safety_checks preview)))%nat then
    {| canExecute := false;
       reason := Some (String.concat "; " (errors (safety_checks preview))) |}
  else
    {| canExecute := true; reason := None |}.

End Gate.

(** [calculateSpreadPercent]: the spread in percent of the mid price, or
    [None] ([null]) without a two-sided quote with a positive bid and mid. *)
Definition calculateSpreadPercent (bidPrice askPrice : option Q) : option Q :=
  match bidPrice, askPrice with
  | Some b, Some a =>
      if num_le b 0 then None
      else
        let midPrice := (b + a) / 2 in
        if num_le midPrice 0 then None
        else Some ((a - b) / midPrice * 100)
  | _, _ => None
  end.

End Safety.

(** ** RiskEngine ([lib/payoff.ts]) *)

Module Payoff.

Record PayoffPoint := mkPayoffPoint {
  price : Q;
  pnl : Q
}.

Record PayoffAnalysis := mkPayoffAnalysis {
  points : list PayoffPoint;
  maxLoss : Q;
  maxGain : option Q;   (* [None] = unlimited *)
  breakevens : list Q
}.

Inductive OptionType := C | P.

(** [LegWithPrice extends Leg]: the leg's own fields are kept in [base]. *)
Record LegWithPrice := mkLegWithPrice {
  base : Leg;
  strike : Q;
  optionType : OptionType;
  premium : Q
}.

(** [Map<string, number>] of premiums, as the list of its entries. *)
Definition PremiumMap := list (string * Q).

Fixpoint Map_get (m : PremiumMap) (k : string) : option Q :=
  match m with
  | [] => None
  | (k', v) :: rest => if String.eqb k' k then Some v else Map_get rest k
  end.

(** [premiums.get(name) || 0]. *)
Definition premium_or_zero (premiums : PremiumMap) (name : string) : Q :=
  match Map_get premiums name with
  | Some p => p
  | None => 0
  end.

(** *** The instrument-name pattern [/^[A-Z]+-\d{8}-(\d+)-([CP])$/] *)

Definition is_upper (c : ascii) : bool :=
  let n := nat_of_ascii c in ((65 <=? n) && (n <=? 90))%nat.

Definition is_digit (c : ascii) : bool :=
  let n := nat_of_ascii c in ((48 <=? n) && (n <=? 57))%nat.

Fixpoint all_chars (f : ascii -> bool) (s : string) : bool :=
  match s with
  | EmptyString => true
  | String c rest => f c && all_chars f rest
  end.

(** The fields of [s] between the occurrences of [sep]. *)
Fixpoint split_on (sep : ascii) (s : string) : list string :=
  match s with
  | EmptyString => [EmptyString]
  | String c rest =>
      if Ascii.eqb c sep then EmptyString :: split_on sep rest
      else match split_on sep rest with
           | [] => [String c EmptyString]
           | f :: fs => String c f :: fs
           end
  end.

(** The integer that a string of decimal digits denotes. *)
Fixpoint parseInt_acc (acc : Z) (s : string) : Z :=
  match s with
  | EmptyString => acc
  | String c rest =>
      parseInt_acc (10 * acc + Z.of_nat (nat_of_ascii c - 48))%Z rest
  end.

Definition digitsValue (s : string) : Z := parseInt_acc 0%Z s.

(** [parseInt] on a string of decimal digits: the number nearest to the
    integer they denote. *)
Definition parseInt (s : string) : Q := Binary64.fl64 (inject_Z (digitsValue s)).

Definition parseLeg (leg : Leg) (premium : Q) : option LegWithPrice :=
  match split_on "-" (instrument_name leg) with
  | [und; exp; stk; typ] =>
      if negb (String.eqb und "") && all_chars is_upper und
         && (String.length exp =? 8)%nat && all_chars is_digit exp
         && negb (String.eqb stk "") && all_chars is_digit stk
      then
        if String.eqb typ "C" then
          Some {| base := leg; strike := parseInt stk;
                  optionType := C; premium := premium |}
        else if String.eqb typ "P" then
          Some {| base := leg; strike := parseInt stk;
                  optionType := P; premium := premium |}
        else None
      else None
  | _ => None
  end.

(** [Math.max(a, b)] and [Math.min(a, b)] of two numbers. *)
Definition Math_max2 (a b : Q) : Q := if num_le a b then b else a.
Definition Math_min2 (a b : Q) : Q := if num_le a b then a else b.

Definition calculateLegPnl (leg : LegWithPrice) (underlyingPrice : Q) : Q :=
  let intrinsicValue :=
    match optionType leg with
    | C => Math_max2 0 (underlyingPrice - strike leg)
    | P => Math_max2 0 (strike leg - underlyingPrice)
    end in
  let direction := match side (base leg) with buy => 1 | sell => -1 end in
  (intrinsicValue - premium leg) * amount (base leg) * direction.

Definition calculateTotalPnl (legs : list LegWithPrice) (underlyingPrice : Q) : Q :=
  fold_left (fun total leg => total + calculateLegPnl leg underlyingPrice) legs 0.

(** *** findBreakevens

    Both loops of [findBreakevens] are unbounded in the source (the scan
    never ends when [step] is 0).  [fuel] bounds the iterations of each
    loop; [None] means the bound was hit. *)

Definition crossed (prevPnl currentPnl : Q) : bool :=
  (num_lt prevPnl 0 && num_ge currentPnl 0)
  || (num_ge prevPnl 0 && num_lt currentPnl 0).

Definition same_side (prevPnl midPnl : Q) : bool :=
  (num_lt prevPnl 0 && num_lt midPnl 0)
  || (num_ge prevPnl 0 && num_ge midPnl 0).

(** The inner [while (high - low > tolerance)] loop; returns the final
    [(low, high)]. *)
Fixpoint bisect (fuel : nat) (legs : list LegWithPrice)
    (prevPnl low high tolerance : Q) : option (Q * Q) :=
  if num_gt (high - low) tolerance then
    match fuel with
    | O => None
    | S fuel' =>
        let mid := (low + high) / 2 in
        let midPnl := calculateTotalPnl legs mid in
        if same_side prevPnl midPnl
        then bisect fuel' legs prevPnl mid high tolerance
        else bisect fuel' legs prevPnl low mid tolerance
    end
  else Some (low, high).

(** The [for (price = minPrice + step; price <= maxPrice; price += step)]
    loop, from the state [(price, prevPnl, breakevens)].  The loop-carried
    [price] is kept in lowest terms ([Qred q == q]: the number is the same),
    so that a thousand additions do not pile up a thousand denominators. *)
Fixpoint scan (n fuel : nat) (legs : list LegWithPrice)
    (step maxPrice tolerance : Q) (price prevPnl : Q) (breakevens : list Q)
    : option (list Q) :=
  if num_le price maxPrice then
    match fuel with
    | O => None
    | S fuel' =>
        let currentPnl := calculateTotalPnl legs price in
        if crossed prevPnl currentPnl then
          match bisect n legs prevPnl (price - step) price tolerance with
          | None => None
          | Some (low, high) =>
              scan n fuel' legs step maxPrice tolerance (Qred (price + step))
                   currentPnl (breakevens ++ [round2 ((low + high) / 2)])
          end
        else
          scan n fuel' legs step maxPrice tolerance (Qred (price + step))
               currentPnl breakevens
    end
  else Some breakevens.

Definition default_tolerance : Q := 1 # 100.

Definition findBreakevens (n : nat) (legs : list LegWithPrice)
    (minPrice maxPrice tolerance : Q) : option (list Q) :=
  let step := (maxPrice - minPrice) / 1000 in
  let prevPnl := calculateTotalPnl legs minPrice in
  scan n n legs step maxPrice tolerance (Qred (minPrice + step)) prevPnl [].

(** *** calculatePayoff *)

(** [Math.min(...xs)] / [Math.max(...xs)] of a non-empty argument list. *)
Definition Math_min_list (x : Q) (xs : list Q) : Q := fold_left Math_min2 xs x.
Definition Math_max_list (x : Q) (xs : list Q) : Q := fold_left Math_max2 xs x.

(** The parsing loop at the head of [calculatePayoff]. *)
Fixpoint parseLegs (ls : list Leg) (premiums : PremiumMap) : list LegWithPrice :=
  match ls with
  | [] => []
  | leg :: rest =>
      match parseLeg leg (premium_or_zero premiums (instrument_name leg)) with
      | Some parsed => parsed :: parseLegs rest premiums
      | None => parseLegs rest premiums
      end
  end.

(** [a || b] on numbers: 0 is falsy. *)
Definition num_or (a b : Q) : Q := if Qeq_bool a 0 then b else a.

Definition numPoints : nat := 100.

(** The sampled price of index [i]. *)
Definition samplePrice (minPrice maxPrice : Q) (i : nat) : Q :=
  minPrice + (maxPrice - minPrice)
             * (inject_Z (Z.of_nat i) / inject_Z (Z.of_nat numPoints)).

(** State of the sampling loop: the points so far, [minPnl] and [maxPnl];
    [None] stands for the initial [Infinity] / [-Infinity]. *)
Record SampleState := mkSampleState {
  st_points : list PayoffPoint;
  st_minPnl : option Q;
  st_maxPnl : option Q
}.

Definition sampleStep (legs : list LegWithPrice) (minPrice maxPrice : Q)
    (st : SampleState) (i : nat) : SampleState :=
  let price := samplePrice minPrice maxPrice i in
  let pnl := calculateTotalPnl legs price in
  {| st_points :=
       st_points st ++ [ {| price := round2 price; pnl := round2 pnl |} ];
     st_minPnl := Some (match st_minPnl st with
                        | None => pnl | Some m => Math_min2 m pnl end);
     st_maxPnl := Some (match st_maxPnl st with
                        | None => pnl | Some m => Math_max2 m pnl end) |}.

Definition sampleLoop (legs : list LegWithPrice) (minPrice maxPrice : Q)
    : SampleState :=
  fold_left (sampleStep legs minPrice maxPrice) (seq 0 (S numPoints))
            {| st_points := []; st_minPnl := None; st_maxPnl := None |}.

Definition is_leg (s : Side) (o : OptionType) (l : LegWithPrice) : bool :=
  Side_eqb (side (base l)) s
  && match optionType l, o with C, C | P, P => true | _, _ => false end.

Definition calculatePayoff (n : nat) (tradeSpec : TradeSpec)
    (premiums : PremiumMap) (currentPrice : Q) : option PayoffAnalysis :=
  let parsedLegs := parseLegs (legs tradeSpec) premiums in
  match parsedLegs with
  | [] =>
      Some {| points := []; maxLoss := max_loss_usd tradeSpec;
              maxGain := None; breakevens := [] |}
  | l0 :: ls =>
      let minStrike := Math_min_list (strike l0) (map strike ls) in
      let maxStrike := Math_max_list (strike l0) (map strike ls) in
      let priceRange := num_or (maxStrike - minStrike) (currentPrice * (2 # 10)) in
      let minPrice := Math_max2 0 (minStrike - priceRange * (5 # 10)) in
      let maxPrice := maxStrike + priceRange * (5 # 10) in
      let st := sampleLoop parsedLegs minPrice maxPrice in
      let minPnl := match st_minPnl st with Some m => m | None => 0 end in
      let maxPnl := match st_maxPnl st with Some m => m | None => 0 end in
      match findBreakevens n parsedLegs minPrice maxPrice default_tolerance with
      | None => None
      | Some bes =>
          let hasShortCall := existsb (is_leg sell C) parsedLegs in
          let hasLongPut := existsb (is_leg buy P) parsedLegs in
          let pnlAtZero := calculateTotalPnl parsedLegs 0 in
          let effectiveMaxLoss := Qabs minPnl in
          let effectiveMaxGain0 : option Q := Some maxPnl in
          let effectiveMaxGain1 :=
            if negb hasShortCall && existsb (is_leg buy C) parsedLegs
            then None else effectiveMaxGain0 in
          let effectiveMaxGain2 :=
            if hasLongPut && negb (existsb (is_leg sell P) parsedLegs)
            then Some (Math_max2
                         (match effectiveMaxGain1 with
                          | Some g => num_or g 0
                          | None => 0
                          end) pnlAtZero)
            else effectiveMaxGain1 in
          Some {| points := st_points st;
                  maxLoss := round2 effectiveMaxLoss;
                  maxGain := option_map round2 effectiveMaxGain2;
                  breakevens := bes |}
      end
  end.

(** *** calculateEntryCost *)

Definition entryStep (premiums : PremiumMap) (totalCost : Q) (leg : Leg) : Q :=
  let premium := premium_or_zero premiums (instrument_name leg) in
  match side leg with
  | buy => totalCost + premium * amount leg
  | sell => totalCost - premium * amount leg
  end.

Definition calculateEntryCost (tradeSpec : TradeSpec) (premiums : PremiumMap) : Q :=
  round2 (fold_left (entryStep premiums) (legs tradeSpec) 0).

(** *** Vocabulary of the statements below *)

(** What one leg adds to the entry cost: its premium times its amount,
    counted as a debit for a bought leg and as a credit for a sold one. *)
Definition signedCost (premiums : PremiumMap) (leg : Leg) : Q :=
  let premium := premium_or_zero premiums (instrument_name leg) in
  match side leg with
  | buy => premium * amount leg
  | sell => - (premium * amount leg)
  end.

Fixpoint Qsum (xs : list Q) : Q :=
  match xs with
  | [] => 0
  | x :: rest => x + Qsum rest
  end.

(** The sampling domain of [calculatePayoff] for parsed legs [l0 :: ls]:
    [(minPrice, maxPrice)]. *)
Definition priceDomain (l0 : LegWithPrice) (ls : list LegWithPrice)
    (currentPrice : Q) : Q * Q :=
  let minStrike := Math_min_list (strike l0) (map strike ls) in
  let maxStrike := Math_max_list (strike l0) (map strike ls) in
  let priceRange := num_or (maxStrike - minStrike) (currentPrice * (2 # 10)) in
  (Math_max2 0 (minStrike - priceRange * (5 # 10)),
   maxStrike + priceRange * (5 # 10)).

(** The total P&L at each of the 101 sampled prices, before rounding. *)
Definition sampledPnls (parsedLegs : list LegWithPrice) (minPrice maxPrice : Q)
    : list Q :=
  map (fun i => calculateTotalPnl parsedLegs (samplePrice minPrice maxPrice i))
      (seq 0 (S numPoints)).

(** A bought call and no sold call; a bought put and no sold put. *)
Definition uncappedCall (parsedLegs : list LegWithPrice) : bool :=
  negb (existsb (is_leg sell C) parsedLegs) && existsb (is_leg buy C) parsedLegs.

Definition uncoveredPut (parsedLegs : list LegWithPrice) : bool :=
  existsb (is_leg buy P) parsedLegs && negb (existsb (is_leg sell P) parsedLegs).

(** Where the P&L of a single bought leg is zero. *)
Definition theoreticalBreakeven (lw : LegWithPrice) : Q :=
  match optionType lw with
  | C => strike lw + premium lw
  | P => strike lw - premium lw
  end.

(** [2 ^ n], and the number of halvings after which a width [w] is within
    [tol]: the fuel the bisection needs. *)
Definition pow2 (n : nat) : Q := inject_Z (2 ^ Z.of_nat n).

Definition halvings (w tol : Q) : nat := Z.to_nat (Qceiling (w / tol)).

Definition nat_Q (j : nat) : Q := inject_Z (Z.of_nat j).

(** The running maximum of the sampling loop, on its own. *)
Definition maxStep (pnlAt : nat -> Q) (acc : option Q) (i : nat) : option Q :=
  Some (match acc with None => pnlAt i | Some m => Math_max2 m (pnlAt i) end).

(** The trade [t] with the legs [ls] in place of its own. *)
Definition with_legs (t : TradeSpec) (ls : list Leg) : TradeSpec :=
  {| underlying := underlying t; strategy := strategy t; expiry := expiry t;
     legs := ls; max_cost_usd := max_cost_usd t;
     max_loss_usd := max_loss_usd t; explanation := explanation t |}.

(** *** Vocabulary of the statements on the analysis *)

(** The same leg seen from the other side of the trade. *)
Definition opposite (s : Side) : Side :=
  match s with buy => sell | sell => buy end.

Definition counterLeg (l : Leg) : Leg :=
  {| instrument_name := instrument_name l; side := opposite (side l);
     amount := amount l |}.

(** Whether the name of a leg matches the instrument-name pattern. *)
Definition parses (l : Leg) : bool :=
  match parseLeg l 0 with Some _ => true | None => false end.

(** The running minimum of the sampling loop, on its own. *)
Definition minStep (pnlAt : nat -> Q) (acc : option Q) (i : nat) : option Q :=
  Some (match acc with None => pnlAt i | Some m => Math_min2 m (pnlAt i) end).

(** The points of the chart for the sampled prices. *)
Definition sampledPoints (parsedLegs : list LegWithPrice) (minPrice maxPrice : Q)
    : list PayoffPoint :=
  map (fun i =>
         let x := samplePrice minPrice maxPrice i in
         {| price := round2 x; pnl := round2 (calculateTotalPnl parsedLegs x) |})
      (seq 0 (S numPoints)).

(** [b] is the rounded midpoint of a bracket [l, h] inside the price range,
    no wider than the tolerance, at whose ends the P&L has different
    signs. *)
Definition bracketsSignChange (legs : list LegWithPrice)
    (minPrice maxPrice tolerance b : Q) : Prop :=
  exists l h,
    b = round2 ((l + h) / 2)
    /\ minPrice <= l /\ l <= h /\ h <= maxPrice /\ h - l <= tolerance
    /\ num_lt (calculateTotalPnl legs l) 0
       = negb (num_lt (calculateTotalPnl legs h) 0).

(** What was paid for a parsed leg: its premium times its amount. *)
Definition paid (lw : LegWithPrice) : Q := premium lw * amount (base lw).

(** A bought leg of type [o], of an amount and at a premium that are not
    negative. *)
Definition boughtLeg (o : OptionType) (lw : LegWithPrice) : Prop :=
  side (base lw) = buy /\ optionType lw = o
  /\ 0 <= amount (base lw) /\ 0 <= premium lw.

End Payoff.

(** ** RiskEngine in binary64 ([lib/payoff.ts]) *)

Module Payoff64.

Import Binary64 Payoff.

(** [Math.round(x * 100) / 100] in binary64: the product and the quotient
    are rounded, [Math.round] is exact. *)
Definition roundCents (x : Q) : Q := fdiv (Math_round (fmul x 100)) 100.

(** *** calculateEntryCost *)

Definition entryStep (premiums : PremiumMap) (totalCost : Q) (leg : Leg) : Q :=
  let premium := premium_or_zero premiums (instrument_name leg) in
  match side leg with
  | buy => fadd totalCost (fmul premium (amount leg))
  | sell => fsub totalCost (fmul premium (amount leg))
  end.

Definition calculateEntryCost (tradeSpec : TradeSpec) (premiums : PremiumMap) : Q :=
  roundCents (fold_left (entryStep premiums) (legs tradeSpec) 0).

(** *** Vocabulary of the statements below *)

(** The premiums of the legs, without sign: the sum of
    |premium * amount|. *)
Definition volume (premiums : PremiumMap) (ls : list Leg) : Q :=
  Qsum (map (fun l => Qabs (signedCost premiums l)) ls).

(** How far, in cents, the rounding errors of the running total can move
    the cost of [ls] before [Math.round]. *)
Definition slack (premiums : PremiumMap) (ls : list Leg) : Q :=
  (125 + 300 * nat_Q (List.length ls)) * unit_roundoff * volume premiums ls.

(** The legs are at most [2^40], worth at most [2^40] in all, and their
    exact sum, in cents, is further than [slack] from every half cent:
    [Math.round] sees the running total on the same side of the half cent
    as the exact sum. *)
Definition clearOfHalfCents (premiums : PremiumMap) (ls : list Leg) : bool :=
  let cents := 100 * Qsum (map (signedCost premiums) ls) + (1 # 2) in
  (Z.of_nat (List.length ls) <=? 2 ^ 40)%Z
  && Qle_bool (volume premiums ls) (inject_Z (2 ^ 40))
  && (Qfloor (cents - slack premiums ls) =? Qfloor (cents + slack premiums ls))%Z.

End Payoff64.

(** ** The liquidity query ([lib/lyra-tools.ts]) *)

Module LyraTools.

Import Payoff.

Record OptionDetails := mkOptionDetails {
  od_expiry : Q;
  od_strike : string;
  od_option_type : OptionType
}.

Record LyraInstrument := mkLyraInstrument {
  li_instrument_name : string;
  li_instrument_type : string;
  li_underlying_currency : string;
  li_is_active : bool;
  li_tick_size : string;
  li_minimum_amount : string;
  li_option_details : option OptionDetails
}.

Record OptionPricing := mkOptionPricing {
  op_delta : string;
  op_gamma : string;
  op_theta : string;
  op_vega : string;
  op_iv : string
}.

Record LyraTicker := mkLyraTicker {
  lt_instrument_name : string;
  best_bid_price : string;
  best_ask_price : string;
  best_bid_amount : string;
  best_ask_amount : string;
  mark_price : string;
  index_price : string;
  option_pricing : option OptionPricing
}.

Record Pricing := mkPricing {
  bid : option Q;
  ask : option Q;
  mark : Q;
  spread_percent : option Q;
  delta : option Q;
  iv : option Q
}.

Record InstrumentWithPricing := mkInstrumentWithPricing {
  instrument : LyraInstrument;
  pricing : option Pricing
}.

Record FindParams := mkFindParams {
  fp_underlying : string;
  fp_option_type : OptionType;
  min_days_to_expiry : Q;
  max_days_to_expiry : Q;
  strike_range_percent : option Q;
  max_spread_percent : option Q
}.

(** [p || d] on an optional number: [undefined] and 0 are falsy. *)
Definition opt_or (p : option Q) (d : Q) : Q :=
  match p with
  | Some v => num_or v d
  | None => d
  end.

Definition OptionType_eqb (a b : OptionType) : bool :=
  match a, b with C, C | P, P => true | _, _ => false end.

(** [a ?? 100] on an optional spread. *)
Definition spread_key (r : InstrumentWithPricing) : Q :=
  match pricing r with
  | Some pr => match spread_percent pr with Some sp => sp | None => 100 end
  | None => 100
  end.

(** [Array.prototype.sort] with the comparator [spreadA - spreadB]: the
    sort is stable, so its result is that of a stable insertion sort. *)
Fixpoint insert_by_spread (x : InstrumentWithPricing)
    (l : list InstrumentWithPricing) : list InstrumentWithPricing :=
  match l with
  | [] => [x]
  | y :: l' =>
      if num_le (spread_key x) (spread_key y) then x :: y :: l'
      else y :: insert_by_spread x l'
  end.

Fixpoint sort_by_spread (l : list InstrumentWithPricing)
    : list InstrumentWithPricing :=
  match l with
  | [] => []
  | x :: l' => insert_by_spread x (sort_by_spread l')
  end.

Section Query.

(** [parseFloat], and the world the query reads: the index price
    ([executeGetIndexPrice]), the instruments ([executeGetInstruments]),
    the clock ([Date.now()]) and the tickers
    ([executeGetMultipleTickers]; [None] is a missing or null entry). *)
Variable parseFloat : string -> Q.
Variable index_price_now : Q.
Variable instruments : list LyraInstrument.
Variable now : Q.
Variable tickers : string -> option LyraTicker.

Definition ms_per_day : Q := 24 * 60 * 60 * 1000.

(** The predicate of [instruments.filter(...)]. *)
Definition in_window (params : FindParams) (i : LyraInstrument) : bool :=
  let strikeRange := opt_or (strike_range_percent params) 15 in
  let minExpiry := now + min_days_to_expiry params * ms_per_day in
  let maxExpiry := now + max_days_to_expiry params * ms_per_day in
  match li_option_details i with
  | None => false
  | Some d =>
      if negb (OptionType_eqb (od_option_type d) (fp_option_type params))
      then false
      else
        let expiry := od_expiry d * 1000 in
        if num_lt expiry minExpiry || num_gt expiry maxExpiry then false
        else
          let strike := parseFloat (od_strike d) in
          let minStrike := index_price_now * (1 - strikeRange / 100) in
          let maxStrike := index_price_now * (1 + strikeRange / 100) in
          if num_lt strike minStrike || num_gt strike maxStrike then false
          else true
  end.

(** [s && s !== "0" ? parseFloat(s) : null]. *)
Definition live_price (s : string) : option Q :=
  if negb (String.eqb s "") && negb (String.eqb s "0")
  then Some (parseFloat s) else None.

(** [s ? parseFloat(s) : undefined] on an optional Greek. *)
Definition greek (s : option string) : option Q :=
  match s with
  | Some v => if String.eqb v "" then None else Some (parseFloat v)
  | None => None
  end.

Definition calc_spread (bid ask : option Q) : option Q :=
  match bid, ask with
  | Some b, Some a =>
      if num_gt b 0 then
        let mid := (b + a) / 2 in
        if num_gt mid 0 then Some ((a - b) / mid * 100) else None
      else None
  | _, _ => None
  end.

(** One round of the [for (const instrument of filtered)] loop: the entry
    pushed on [results], or [None] for [continue]. *)
Definition price_instrument (maxSpread : Q) (i : LyraInstrument)
    : option InstrumentWithPricing :=
  match tickers (li_instrument_name i) with
  | None => None
  | Some ticker =>
      let bid := live_price (best_bid_price ticker) in
      let ask := live_price (best_ask_price ticker) in
      let mark := parseFloat (mark_price ticker) in
      let spreadPercent := calc_spread bid ask in
      let isLiquid :=
        match bid, ask with
        | Some _, Some _ =>
            match spreadPercent with
            | None => true
            | Some sp => num_le sp maxSpread
            end
        | _, _ => false
        end in
      if negb isLiquid then None
      else Some {| instrument := i;
                   pricing := Some {|
                     bid := bid; ask := ask; mark := mark;
                     spread_percent := spreadPercent;
                     delta := greek (option_map op_delta (option_pricing ticker));
                     iv := greek (option_map op_iv (option_pricing ticker)) |} |}
  end.

Fixpoint price_all (maxSpread : Q) (l : list LyraInstrument)
    : list InstrumentWithPricing :=
  match l with
  | [] => []
  | i :: rest =>
      match price_instrument maxSpread i with
      | Some r => r :: price_all maxSpread rest
      | None => price_all maxSpread rest
      end
  end.

Definition executeFindLiquidOptions (params : FindParams)
    : list InstrumentWithPricing :=
  let maxSpread := opt_or (max_spread_percent params) 10 in
  let filtered := filter (in_window params) instruments in
  sort_by_spread (price_all maxSpread filtered).

End Query.

(** The order of the results: by spread, a missing spread counting as 100. *)
Definition by_spread (a b : InstrumentWithPricing) : Prop :=
  spread_key a <= spread_key b.

End LyraTools.

(** ** The liquidity query in binary64 ([lib/lyra-tools.ts]) *)

Module LyraTools64.

Import Binary64 Payoff LyraTools.

Section Query.

(** [parseFloat] and the world the query reads, as in [LyraTools]. *)
Variable parseFloat : string -> Q.
Variable index_price_now : Q.
Variable instruments : list LyraInstrument.
Variable now : Q.
Variable tickers : string -> option LyraTicker.

(** [now + days * 24 * 60 * 60 * 1000]. *)
Definition expiryLimit (days : Q) : Q :=
  fadd now (fmul (fmul (fmul (fmul days 24) 60) 60) 1000).

(** The predicate of [instruments.filter(...)]. *)
Definition in_window (params : FindParams) (i : LyraInstrument) : bool :=
  let strikeRange := opt_or (strike_range_percent params) 15 in
  let minExpiry := expiryLimit (min_days_to_expiry params) in
  let maxExpiry := expiryLimit (max_days_to_expiry params) in
  match li_option_details i with
  | None => false
  | Some d =>
      if negb (OptionType_eqb (od_option_type d) (fp_option_type params))
      then false
      else
        let expiry := fmul (od_expiry d) 1000 in
        if num_lt expiry minExpiry || num_gt expiry maxExpiry then false
        else
          let strike := parseFloat (od_strike d) in
          let minStrike :=
            fmul index_price_now (fsub 1 (fdiv strikeRange 100)) in
          let maxStrike :=
            fmul index_price_now (fadd 1 (fdiv strikeRange 100)) in
          if num_lt strike minStrike || num_gt strike maxStrike then false
          else true
  end.

Definition calc_spread (bid ask : option Q) : option Q :=
  match bid, ask with
  | Some b, Some a =>
      if num_gt b 0 then
        let mid := fdiv (fadd b a) 2 in
        if num_gt mid 0 then Some (fmul (fdiv (fsub a b) mid) 100) else None
      else None
  | _, _ => None
  end.

(** One round of the [for (const instrument of filtered)] loop: the entry
    pushed on [results], or [None] for [continue]. *)
Definition price_instrument (maxSpread : Q) (i : LyraInstrument)
    : option InstrumentWithPricing :=
  match tickers (li_instrument_name i) with
  | None => None
  | Some ticker =>
      let bid := live_price parseFloat (best_bid_price ticker) in
      let ask := live_price parseFloat (best_ask_price ticker) in
      let mark := parseFloat (mark_price ticker) in
      let spreadPercent := calc_spread bid ask in
      let isLiquid :=
        match bid, ask with
        | Some _, Some _ =>
            match spreadPercent with
            | None => true
            | Some sp => num_le sp maxSpread
            end
        | _, _ => false
        end in
      if negb isLiquid then None
      else Some {| instrument := i;
                   pricing := Some {|
                     bid := bid; ask := ask; mark := mark;
                     spread_percent := spreadPercent;
                     delta := greek parseFloat
                                (option_map op_delta (option_pricing ticker));
                     iv := greek parseFloat
                             (option_map op_iv (option_pricing ticker)) |} |}
  end.

Fixpoint price_all (maxSpread : Q) (l : list LyraInstrument)
    : list InstrumentWithPricing :=
  match l with
  | [] => []
  | i :: rest =>
      match price_instrument maxSpread i with
      | Some r => r :: price_all maxSpread rest
      | None => price_all maxSpread rest
      end
  end.

Definition executeFindLiquidOptions (params : FindParams)
    : list InstrumentWithPricing :=
  let maxSpread := opt_or (max_spread_percent params) 10 in
  let filtered := filter (in_window params) instruments in
  sort_by_spread (price_all maxSpread filtered).

(** *** Vocabulary of the statements below *)

(** A price string that counts as a quote: neither empty nor ["0"]. *)
Definition quoted (s : string) : bool :=
  negb (String.eqb s "") && negb (String.eqb s "0").

(** A price string is a positive number wherever it counts as a quote. *)
Definition positiveQuote (s : string) : bool :=
  negb (quoted s) || num_gt (parseFloat s) 0.

(** Every ticker of the instruments [l] has positive quotes. *)
Definition positiveQuotes (l : list LyraInstrument) : bool :=
  forallb (fun i =>
             match tickers (li_instrument_name i) with
             | None => true
             | Some ticker =>
                 positiveQuote (best_bid_price ticker)
                 && positiveQuote (best_ask_price ticker)
             end) l.

(** (ask - bid) / mid * 100 with mid = (bid + ask) / 2, as binary64
    computes it. *)
Definition spreadPercent64 (b a : Q) : Q :=
  fmul (fdiv (fsub a b) (fdiv (fadd b a) 2)) 100.

(** An instrument with a ticker, a quoted bid and ask, and a spread of at
    most [maxSpread]. *)
Definition liquid (maxSpread : Q) (i : LyraInstrument) : bool :=
  match tickers (li_instrument_name i) with
  | None => false
  | Some ticker =>
      quoted (best_bid_price ticker) && quoted (best_ask_price ticker)
      && num_le (spreadPercent64 (parseFloat (best_bid_price ticker))
                                 (parseFloat (best_ask_price ticker)))
                maxSpread
  end.

End Query.

(** The same spread in exact arithmetic. *)
Definition spreadPercent (b a : Q) : Q := (a - b) / ((b + a) / 2) * 100.

End LyraTools64.

(** ** IntentResolutionLoop ([lib/agent-parser.ts]) *)

Module Agent.

(** A parsed JSON value.  The fields of an object have distinct names. *)
#[local] Set Warnings "-register-all".
Inductive json :=
| JNull
| JBool (b : bool)
| JNum (q : Q)
| JStr (s : string)
| JArr (items : list json)
| JObj (fields : list (string * json)).

Record ToolUseBlock := mkToolUseBlock {
  tu_id : string;
  tu_name : string;
  tu_input : json
}.

Inductive ContentBlock :=
| tool_use (b : ToolUseBlock)
| text (t : string)
| other_block.

Record Response := mkResponse {
  content : list ContentBlock;
  stop_reason : option string
}.

Record ToolResultBlock := mkToolResultBlock {
  tool_use_id : string;
  tr_content : string;
  is_error : bool
}.

Inductive Role := user | assistant.

Inductive MessageContent :=
| Plain (s : string)
| Blocks (bs : list ContentBlock)
| ToolResults (rs : list ToolResultBlock).

Record MessageParam := mkMessageParam {
  role : Role;
  msg_content : MessageContent
}.

(** How a call ends: with a value, or with a thrown [Error] and its message. *)
Inductive Outcome (A : Type) :=
| Returned (a : A)
| Thrown (message : string).
Arguments Returned {A} a.
Arguments Thrown {A} message.

Definition MAX_ITERATIONS : nat := 10.

Definition nat_to_string (n : nat) : string :=
  DecimalString.NilEmpty.string_of_uint (Nat.to_uint n).

Definition bool_to_string (b : bool) : string := if b then "true" else "false".

(** *** Text matching used by [extractTradeSpec] *)

(** *** JavaScript strings as bytes *)

(** The (generalised) UTF-8 encoding of a code point. *)
Definition byte (n : N) : ascii := ascii_of_N n.

Definition utf8 (cp : N) : string :=
  if (cp <? 0x80)%N then String (byte cp) ""
  else if (cp <? 0x800)%N then
    String (byte (0xC0 + cp / 64)) (String (byte (0x80 + cp mod 64)) "")
  else if (cp <? 0x10000)%N then
    String (byte (0xE0 + cp / 4096))
      (String (byte (0x80 + (cp / 64) mod 64))
         (String (byte (0x80 + cp mod 64)) ""))
  else
    String (byte (0xF0 + cp / 262144))
      (String (byte (0x80 + (cp / 4096) mod 64))
         (String (byte (0x80 + (cp / 64) mod 64))
            (String (byte (0x80 + cp mod 64)) ""))).

(** The code points of ECMAScript's WhiteSpace and LineTerminator: what
    [String.prototype.trim] strips and [\s] matches. *)
Definition whiteSpaceCodePoints : list N :=
  [ 0x9; 0xA; 0xB; 0xC; 0xD; 0x20; 0xA0; 0x1680;
    0x2000; 0x2001; 0x2002; 0x2003; 0x2004; 0x2005; 0x2006; 0x2007; 0x2008;
    0x2009; 0x200A; 0x2028; 0x2029; 0x202F; 0x205F; 0x3000; 0xFEFF ]%N.

Definition whiteSpace : list string := map utf8 whiteSpaceCodePoints.

(** Whether [w] is one white space character. *)
Definition is_space (w : string) : bool := existsb (String.eqb w) whiteSpace.

Fixpoint starts_with (p s : string) : bool :=
  match p, s with
  | EmptyString, _ => true
  | String a p', String b s' => Ascii.eqb a b && starts_with p' s'
  | String _ _, EmptyString => false
  end.

Fixpoint skip (n : nat) (s : string) : string :=
  match n, s with
  | O, _ => s
  | S n', String _ s' => skip n' s'
  | S _, EmptyString => EmptyString
  end.

(** [\s*] at the head of [s]: what is left after the white space, whose
    characters take one, two or three bytes. *)
Fixpoint drop_spaces (s : string) : string :=
  match s with
  | EmptyString => EmptyString
  | String c1 s1 =>
      if is_space (String c1 "") then drop_spaces s1
      else
        match s1 with
        | EmptyString => s
        | String c2 s2 =>
            if is_space (String c1 (String c2 "")) then drop_spaces s2
            else
              match s2 with
              | EmptyString => s
              | String c3 s3 =>
                  if is_space (String c1 (String c2 (String c3 "")))
                  then drop_spaces s3
                  else s
              end
        end
  end.

(** Nothing but white space. *)
Definition blank (s : string) : bool :=
  match drop_spaces s with EmptyString => true | String _ _ => false end.

(** [s] without the white space at its end. *)
Fixpoint trim_end (s : string) : string :=
  match s with
  | EmptyString => EmptyString
  | String c s' => if blank s then EmptyString else String c (trim_end s')
  end.

(** [text.trim()]. *)
Definition trim (s : string) : string := trim_end (drop_spaces s).

(** [text.substring(0, n)]: the first [n] UTF-16 code units.  A character
    of one to three bytes is one unit, one of four bytes is two; where the
    cut falls between the two, the result ends with the first of them, a
    lone surrogate. *)
Definition highSurrogate (c1 c2 c3 c4 : ascii) : string :=
  let cp := (N_of_ascii c1 mod 8 * 262144 + N_of_ascii c2 mod 64 * 4096
             + N_of_ascii c3 mod 64 * 64 + N_of_ascii c4 mod 64)%N in
  utf8 (0xD800 + (cp - 0x10000) / 1024)%N.

Fixpoint firstUnits (n : nat) (s : string) : string :=
  match n, s with
  | O, _ => EmptyString
  | _, EmptyString => EmptyString
  | S n1, String c1 s1 =>
      let k := N_of_ascii c1 in
      if (k <? 0xC0)%N then String c1 (firstUnits n1 s1)
      else if (k <? 0xE0)%N then
        match s1 with
        | String c2 s2 => String c1 (String c2 (firstUnits n1 s2))
        | _ => s
        end
      else if (k <? 0xF0)%N then
        match s1 with
        | String c2 (String c3 s3) =>
            String c1 (String c2 (String c3 (firstUnits n1 s3)))
        | _ => s
        end
      else
        match s1 with
        | String c2 (String c3 (String c4 s4)) =>
            match n1 with
            | S n2 =>
                String c1 (String c2 (String c3 (String c4 (firstUnits n2 s4))))
            | O => highSurrogate c1 c2 c3 c4
            end
        | _ => s
        end
  end.

(** Whether the character [c] occurs in [s]. *)
Fixpoint contains (c : ascii) (s : string) : bool :=
  match s with
  | EmptyString => false
  | String a s' => Ascii.eqb a c || contains c s'
  end.

Definition fence : string := "```".

(** Whether [s] starts with a match of [\s*```]. *)
Definition closes (s : string) : bool := starts_with fence (drop_spaces s).

(** The lazy group [([\s\S]*?)] followed by [\s*```]: the shortest prefix
    of [s] after which the closing fence matches. *)
Fixpoint lazy_capture (s : string) : option string :=
  if closes s then Some EmptyString
  else match s with
       | EmptyString => None
       | String c s' => option_map (String c) (lazy_capture s')
       end.

(** What follows an opening fence: [(?:json)?\s*([\s\S]*?)\s*```], the
    optional [json] tried first.  The greedy [\s*] takes the whole run of
    white space: giving some of it back never turns a failure into a match,
    since the closing fence cannot start inside white space. *)
Definition fence_body (rest : string) : option string :=
  if starts_with "json" rest then
    match lazy_capture (drop_spaces (skip 4 rest)) with
    | Some c => Some c
    | None => lazy_capture (drop_spaces rest)
    end
  else lazy_capture (drop_spaces rest).

(** Group 1 of [text.match(/```(?:json)?\s*([\s\S]*?)\s*```/)]: the
    leftmost position where the pattern matches. *)
Fixpoint fencedMatch (s : string) : option string :=
  match s with
  | EmptyString => None
  | String _ s' =>
      if starts_with fence s then
        match fence_body (skip 3 s) with
        | Some c => Some c
        | None => fencedMatch s'
        end
      else fencedMatch s'
  end.

(** The longest prefix of [s] that ends with the character [c]. *)
Fixpoint upto_last (c : ascii) (s : string) : option string :=
  match s with
  | EmptyString => None
  | String a s' =>
      match upto_last c s' with
      | Some p => Some (String a p)
      | None => if Ascii.eqb a c then Some (String a EmptyString) else None
      end
  end.

(** [text.match(/\{[\s\S]*\}/)]: from the first opening brace, greedily,
    to the last closing brace. *)
Fixpoint objectMatch (s : string) : option string :=
  match s with
  | EmptyString => None
  | String a s' =>
      if Ascii.eqb a "{" then upto_last "}" s else objectMatch s'
  end.

(** The head of [extractTradeSpec]: the string handed to [JSON.parse]. *)
Definition jsonCandidate (text : string) : string :=
  let jsonString := trim text in
  let jsonString :=
    match fencedMatch text with
    | Some c => c
    | None => jsonString
    end in
  let jsonString :=
    match objectMatch text with
    | Some o => o
    | None => jsonString
    end in
  jsonString.

(** *** [TradeSpecSchema] ([lib/schemas.ts]) *)

Record ZodIssue := mkZodIssue {
  path : list string;
  message : string
}.

Fixpoint obj_get (fields : list (string * json)) (k : string) : option json :=
  match fields with
  | [] => None
  | (k', v) :: rest => if String.eqb k' k then Some v else obj_get rest k
  end.

Definition Validated (A : Type) : Type := (list ZodIssue + A)%type.

Definition issuesOf {A : Type} (v : Validated A) : list ZodIssue :=
  match v with inl issues => issues | inr _ => [] end.

Section Schema.

(** The text of zod's own issue for a value of the wrong type (or a
    missing one), from the expected type and the value received. *)
Variable invalidType : string -> option json -> string.

(** [z.string().min(1, msg)] at [path]. *)
Definition zString1 (path : list string) (msg : string) (v : option json)
    : Validated string :=
  match v with
  | Some (JStr s) =>
      if (1 <=? String.length s)%nat then inr s
      else inl [ {| path := path; message := msg |} ]
  | _ => inl [ {| path := path; message := invalidType "string" v |} ]
  end.

(** [z.enum(["buy", "sell"])]. *)
Definition zSide (path : list string) (v : option json) : Validated Side :=
  match v with
  | Some (JStr s) =>
      if String.eqb s "buy" then inr buy
      else if String.eqb s "sell" then inr sell
      else inl [ {| path := path; message := invalidType "'buy' | 'sell'" v |} ]
  | _ => inl [ {| path := path; message := invalidType "'buy' | 'sell'" v |} ]
  end.

(** [z.number().positive(msg)] ([strict = true]) and
    [z.number().nonnegative(msg)] ([strict = false]). *)
Definition zNumber (strict : bool) (path : list string) (msg : string)
    (v : option json) : Validated Q :=
  match v with
  | Some (JNum q) =>
      if (if strict then num_gt q 0 else num_ge q 0) then inr q
      else inl [ {| path := path; message := msg |} ]
  | _ => inl [ {| path := path; message := invalidType "number" v |} ]
  end.

Definition LegSchema (path : list string) (v : option json) : Validated Leg :=
  match v with
  | Some (JObj fields) =>
      let name := zString1 (path ++ ["instrument_name"])%list
                    "Instrument name is required"
                    (obj_get fields "instrument_name") in
      let sd := zSide (path ++ ["side"])%list (obj_get fields "side") in
      let amt := zNumber true (path ++ ["amount"])%list
                   "Amount must be positive" (obj_get fields "amount") in
      match name, sd, amt with
      | inr n, inr s, inr a =>
          inr {| instrument_name := n; side := s; amount := a |}
      | _, _, _ => inl (issuesOf name ++ issuesOf sd ++ issuesOf amt)%list
      end
  | _ => inl [ {| path := path; message := invalidType "object" v |} ]
  end.

(** The elements of [z.array(LegSchema)], from index [i] on. *)
Fixpoint zLegs (path : list string) (i : nat) (items : list json)
    : Validated (list Leg) :=
  match items with
  | [] => inr []
  | x :: rest =>
      let hd := LegSchema (path ++ [nat_to_string i])%list (Some x) in
      let tl := zLegs path (S i) rest in
      match hd, tl with
      | inr l, inr ls => inr (l :: ls)
      | _, _ => inl (issuesOf hd ++ issuesOf tl)%list
      end
  end.

(** [z.array(LegSchema).min(1, msg)]. *)
Definition zLegArray (path : list string) (v : option json)
    : Validated (list Leg) :=
  match v with
  | Some (JArr items) =>
      if (1 <=? List.length items)%nat then zLegs path 0 items
      else inl [ {| path := path; message := "At least one leg is required" |} ]
  | _ => inl [ {| path := path; message := invalidType "array" v |} ]
  end.

(** [TradeSpecSchema.safeParse(parsed)]. *)
Definition TradeSpecSchema_safeParse (parsed : json) : Validated TradeSpec :=
  match parsed with
  | JObj fields =>
      let und := zString1 ["underlying"] "Underlying is required"
                   (obj_get fields "underlying") in
      let str := zString1 ["strategy"] "Strategy is required"
                   (obj_get fields "strategy") in
      let exp := zString1 ["expiry"] "Expiry is required"
                   (obj_get fields "expiry") in
      let lgs := zLegArray ["legs"] (obj_get fields "legs") in
      let mc := zNumber false ["max_cost_usd"] "Max cost must be non-negative"
                  (obj_get fields "max_cost_usd") in
      let ml := zNumber false ["max_loss_usd"] "Max loss must be non-negative"
                  (obj_get fields "max_loss_usd") in
      let expl := zString1 ["explanation"] "Explanation is required"
                    (obj_get fields "explanation") in
      match und, str, exp, lgs, mc, ml, expl with
      | inr u, inr s, inr e, inr l, inr c, inr m, inr x =>
          inr {| underlying := u; strategy := s; expiry := e; legs := l;
                 max_cost_usd := c; max_loss_usd := m; explanation := x |}
      | _, _, _, _, _, _, _ =>
          inl (issuesOf und ++ issuesOf str ++ issuesOf exp ++ issuesOf lgs
                 ++ issuesOf mc ++ issuesOf ml ++ issuesOf expl)%list
      end
  | _ => inl [ {| path := []; message := invalidType "object" (Some parsed) |} ]
  end.

End Schema.

(** *** The loop of [AgentParser.parseIntent] *)

Record LoopState := mkLoopState {
  messages : list MessageParam;
  iterations : nat;
  toolCallCount : nat;
  toolIdsProcessed : list string     (* a [Set<string>] *)
}.

Definition Set_has (ids : list string) (id : string) : bool :=
  existsb (String.eqb id) ids.

Definition Set_add (ids : list string) (id : string) : list string :=
  if Set_has ids id then ids else (ids ++ [id])%list.

(** The [for (const block of response.content)] loop: the tool calls not
    seen before, and the concatenated text. *)
Fixpoint collectBlocks (processed : list string) (blocks : list ContentBlock)
    (toolUseBlocks : list ToolUseBlock) (textContent : string)
    : list ToolUseBlock * string :=
  match blocks with
  | [] => (toolUseBlocks, textContent)
  | tool_use b :: rest =>
      if negb (Set_has processed (tu_id b))
      then collectBlocks processed rest (toolUseBlocks ++ [b])%list textContent
      else collectBlocks processed rest toolUseBlocks textContent
  | text t :: rest =>
      collectBlocks processed rest toolUseBlocks (textContent ++ t)
  | other_block :: rest =>
      collectBlocks processed rest toolUseBlocks textContent
  end.

(** What one round of the [while] loop does next. *)
Inductive Step :=
| Continue (s : LoopState)
| Finish (r : Outcome TradeSpec).

Definition initialPrompt (intent : string) : string :=
  "Parse this trading intent and create an optimal trade using real market data:"
  ++ String "010" (String "010" (String "034" intent))
  ++ String "034" (String "010" (String "010"
       "Remember: You MUST call lyra_get_index_price and lyra_find_liquid_options BEFORE outputting any TradeSpec.")).

Definition correctiveInstruction (toolCallCount : nat) : string :=
  "ERROR: You must call lyra_get_index_price AND lyra_find_liquid_options before outputting a TradeSpec. You have only made "
  ++ nat_to_string toolCallCount
  ++ " tool calls. Please call the required tools now.".

Section Loop.

(** The collaborators of the loop: the model ([client.messages.create],
    which may reject), the tool executor ([executeLyraTool], which may
    throw), [JSON.stringify] with and without indentation, [JSON.parse]
    ([None] when it throws), and zod's message for a wrong type. *)
Variable create : list MessageParam -> Outcome Response.
Variable executeLyraTool : string -> json -> Outcome json.
Variable JSON_stringify_pretty : json -> string.
Variable JSON_stringify : json -> string.
Variable JSON_parse : string -> option json.
Variable invalidType : string -> option json -> string.

Definition issueLine (e : ZodIssue) : string :=
  String.concat "." (path e) ++ ": " ++ message e.

Definition extractTradeSpec (t : string) : Outcome TradeSpec :=
  match JSON_parse (jsonCandidate t) with
  | None =>
      Thrown ("Failed to parse agent response as JSON: " ++ firstUnits 200 t)
  | Some parsed =>
      match TradeSpecSchema_safeParse invalidType parsed with
      | inl issues =>
          Thrown ("TradeSpec schema validation failed: "
                    ++ String.concat ", " (map issueLine issues))
      | inr data => Returned data
      end
  end.

(** The tool result fed back for one tool call. *)
Definition toolResultFor (toolUse : ToolUseBlock) : ToolResultBlock :=
  match executeLyraTool (tu_name toolUse) (tu_input toolUse) with
  | Returned result =>
      let resultContent :=
        match result with
        | JArr items =>
            if (20 <? List.length items)%nat then
              JSON_stringify_pretty
                (JObj [ ("total_count",
                         JNum (inject_Z (Z.of_nat (List.length items))));
                        ("sample", JArr (firstn 10 items));
                        ("message",
                         JStr ("Showing first 10 of "
                                 ++ nat_to_string (List.length items)
                                 ++ " results. Use more specific filters if needed.")) ])
            else JSON_stringify_pretty result
        | _ => JSON_stringify_pretty result
        end in
      {| tool_use_id := tu_id toolUse; tr_content := resultContent;
         is_error := false |}
  | Thrown errorMessage =>
      {| tool_use_id := tu_id toolUse;
         tr_content := JSON_stringify (JObj [ ("error", JStr errorMessage) ]);
         is_error := true |}
  end.

(** The [for (const toolUse of toolUseBlocks)] loop. *)
Fixpoint executeTools (toolUseBlocks : list ToolUseBlock)
    (processed : list string) (toolResults : list ToolResultBlock)
    : list string * list ToolResultBlock :=
  match toolUseBlocks with
  | [] => (processed, toolResults)
  | toolUse :: rest =>
      executeTools rest (Set_add processed (tu_id toolUse))
                   (toolResults ++ [toolResultFor toolUse])%list
  end.

Definition stop_reason_string (r : option string) : string :=
  match r with Some s => s | None => "null" end.

Definition is_end_turn (r : option string) : bool :=
  match r with Some s => String.eqb s "end_turn" | None => false end.

Definition nonempty (s : string) : bool := negb (String.eqb s "").

(** The body of [while (iterations < MAX_ITERATIONS)]. *)
Definition iteration (s : LoopState) : Step :=
  let iterations' := S (iterations s) in
  match create (messages s) with
  | Thrown e => Finish (Thrown e)
  | Returned response =>
      let '(toolUseBlocks, textContent) :=
        collectBlocks (toolIdsProcessed s) (content response) [] "" in
      if (0 <? List.length toolUseBlocks)%nat then
        let '(processed, toolResults) :=
          executeTools toolUseBlocks (toolIdsProcessed s) [] in
        Continue
          {| messages :=
               (messages s
                  ++ [ {| role := assistant;
                          msg_content := Blocks (content response) |} ]
                  ++ [ {| role := user;
                          msg_content := ToolResults toolResults |} ])%list;
             iterations := iterations';
             toolCallCount := toolCallCount s + List.length toolUseBlocks;
             toolIdsProcessed := processed |}
      else if is_end_turn (stop_reason response) && nonempty textContent then
        if (toolCallCount s <? 2)%nat then
          Continue
            {| messages :=
                 (messages s
                    ++ [ {| role := assistant;
                            msg_content := Blocks [text textContent] |} ]
                    ++ [ {| role := user;
                            msg_content :=
                              Plain (correctiveInstruction (toolCallCount s)) |} ])%list;
               iterations := iterations';
               toolCallCount := toolCallCount s;
               toolIdsProcessed := toolIdsProcessed s |}
        else Finish (extractTradeSpec textContent)
      else
        Finish (Thrown ("Unexpected agent state: stop_reason="
                          ++ stop_reason_string (stop_reason response)
                          ++ ", hasText="
                          ++ bool_to_string (nonempty textContent)))
  end.

Definition exceededMessage : string :=
  "Agent exceeded maximum iterations (" ++ nat_to_string MAX_ITERATIONS ++ ")".

(** The [while] loop.  [fuel] bounds the number of rounds of the model;
    [None] means the bound was hit before the loop ended.  The final state
    is returned with the outcome, so that the counters can be read off. *)
Fixpoint loop (fuel : nat) (s : LoopState)
    : option (Outcome TradeSpec * LoopState) :=
  if (iterations s <? MAX_ITERATIONS)%nat then
    match fuel with
    | O => None
    | S fuel' =>
        match iteration s with
        | Continue s' => loop fuel' s'
        | Finish r =>
            Some (r, {| messages := messages s;
                        iterations := S (iterations s);
                        toolCallCount := toolCallCount s;
                        toolIdsProcessed := toolIdsProcessed s |})
        end
    end
  else Some (Thrown exceededMessage, s).

Definition initialState (intent : string) : LoopState :=
  {| messages := [ {| role := user;
                      msg_content := Plain (initialPrompt intent) |} ];
     iterations := 0;
     toolCallCount := 0;
     toolIdsProcessed := [] |}.

Definition parseIntent (fuel : nat) (intent : string)
    : option (Outcome TradeSpec * LoopState) :=
  loop fuel (initialState intent).

End Loop.

(** *** Vocabulary of the statements below *)

(** The TradeSpec shape: what [TradeSpecSchema] demands of a value. *)
Definition LegValid (l : Leg) : Prop :=
  instrument_name l <> "" /\ 0 < amount l.

Definition TradeSpecValid (t : TradeSpec) : Prop :=
  underlying t <> "" /\ strategy t <> "" /\ expiry t <> ""
  /\ legs t <> [] /\ Forall LegValid (legs t)
  /\ 0 <= max_cost_usd t /\ 0 <= max_loss_usd t
  /\ explanation t <> "".

(** The number of tool results fed back in a conversation. *)
Definition toolResultsOf (m : MessageParam) : nat :=
  match msg_content m with
  | ToolResults rs => List.length rs
  | _ => 0%nat
  end.

Fixpoint countToolResults (ms : list MessageParam) : nat :=
  match ms with
  | [] => 0%nat
  | m :: rest => (toolResultsOf m + countToolResults rest)%nat
  end.

(** A run of white space characters. *)
Inductive Blank : string -> Prop :=
| Blank_nil : Blank EmptyString
| Blank_cons (w s : string) : In w whiteSpace -> Blank s -> Blank (w ++ s).

(** [core] is [s] without the white space at its two ends. *)
Definition Trimmed (core s : string) : Prop :=
  exists before after,
    s = before ++ core ++ after /\ Blank before /\ Blank after
    /\ forall w, In w whiteSpace ->
         (forall r, core <> w ++ r) /\ (forall r, core <> r ++ w).

(** The first fence of [s] comes after [pre] and is followed by [rest]. *)
Definition FirstFence (s pre rest : string) : Prop :=
  s = pre ++ fence ++ rest
  /\ forall a b, s = a ++ fence ++ b -> (String.length pre <= String.length a)%nat.

(** [body] is what stands between the first fence of [s] and the next
    one. *)
Definition FencedBlock (s body : string) : Prop :=
  exists pre rest tail, FirstFence s pre rest /\ FirstFence rest body tail.

(** [body] without the word [json] at its head. *)
Definition afterJson (body : string) : string :=
  if starts_with "json" body then skip 4 body else body.

(** The first fence of [s], computed: the text before it and the text
    after it. *)
Fixpoint first_fence (s : string) : option (string * string) :=
  match s with
  | EmptyString => None
  | String c s' =>
      if starts_with fence s then Some (EmptyString, skip 3 s)
      else match first_fence s' with
           | Some (pre, rest) => Some (String c pre, rest)
           | None => None
           end
  end.

(** The candidate in the order the specification words it: the content of
    a fenced block if there is one, else the first balanced [{...}] span,
    else the trimmed text. *)
Fixpoint balanced_span (depth : nat) (s : string) : option string :=
  match s with
  | EmptyString => None
  | String a s' =>
      if Ascii.eqb a "{" then option_map (String a) (balanced_span (S depth) s')
      else if Ascii.eqb a "}" then
        match depth with
        | O => None
        | S O => Some (String a EmptyString)
        | S d => option_map (String a) (balanced_span d s')
        end
      else option_map (String a) (balanced_span depth s')
  end.

Fixpoint firstTopLevelSpan (s : string) : option string :=
  match s with
  | EmptyString => None
  | String a s' =>
      if Ascii.eqb a "{" then balanced_span 0 s else firstTopLevelSpan s'
  end.

Definition candidateInSpecOrder (t : string) : string :=
  match fencedMatch t with
  | Some c => c
  | None =>
      match firstTopLevelSpan t with
      | Some o => o
      | None => trim t
      end
  end.

(** *** A TradeSpec as a JSON value *)

Definition sideName (s : Side) : string :=
  match s with buy => "buy" | sell => "sell" end.

Definition LegJson (l : Leg) : json :=
  JObj [ ("instrument_name", JStr (instrument_name l));
         ("side", JStr (sideName (side l)));
         ("amount", JNum (amount l)) ].

Definition TradeSpecJson (t : TradeSpec) : json :=
  JObj [ ("underlying", JStr (underlying t));
         ("strategy", JStr (strategy t));
         ("expiry", JStr (expiry t));
         ("legs", JArr (map LegJson (legs t)));
         ("max_cost_usd", JNum (max_cost_usd t));
         ("max_loss_usd", JNum (max_loss_usd t));
         ("explanation", JStr (explanation t)) ].

(** *** The blocks of a response *)

(** The tool calls of a response, in order. *)
Fixpoint toolUses (blocks : list ContentBlock) : list ToolUseBlock :=
  match blocks with
  | [] => []
  | tool_use b :: rest => b :: toolUses rest
  | _ :: rest => toolUses rest
  end.

(** The text of a response: its text blocks, joined. *)
Fixpoint textOf (blocks : list ContentBlock) : string :=
  match blocks with
  | [] => ""
  | text t :: rest => t ++ textOf rest
  | _ :: rest => textOf rest
  end.

(** The tool calls of a response that were not answered in an earlier
    round. *)
Definition freshToolUses (processed : list string) (blocks : list ContentBlock)
    : list ToolUseBlock :=
  filter (fun b => negb (Set_has processed (tu_id b))) (toolUses blocks).

End Agent.

(** ** The tool executors ([lib/lyra-tools.ts]) *)

Module LyraExecutors.

Import Payoff LyraTools.

(** [executeGetInstruments], on the instruments the exchange lists
    ([instruments], the result of [lyraApiCall]) at the time [now]. *)
Definition executeGetInstruments (instruments : list LyraInstrument) (now : Q)
    (expiry_days_max : option Q) : list LyraInstrument :=
  let filtered :=
    filter (fun i => li_is_active i
                     && match li_option_details i with
                        | Some _ => true | None => false end)
           instruments in
  match expiry_days_max with
  | Some days =>
      if Qeq_bool days 0 then filtered
      else
        let maxExpiry := now + days * 24 * 60 * 60 * 1000 in
        filter (fun i =>
                  let expiry :=
                    match li_option_details i with
                    | Some d => num_or (od_expiry d) 0
                    | None => 0
                    end * 1000 in
                  num_le expiry maxExpiry && num_gt expiry now)
               filtered
  | None => filtered
  end.

(** [executeGetMultipleTickers]: the record of the tickers by name, [None]
    ([null]) where the fetch of a ticker failed.  [getTicker] is
    [executeGetTicker]; the record is the list of its entries, a later
    assignment to a name taking the place of the earlier one.  The record
    stands for what [results[name]] reads for a name that was assigned: the
    value assigned last.  (For the name [__proto__] the assignment sets the
    prototype of the object and the read returns it: the ticker assigned,
    or [undefined] for [null].)  What a read returns for a name that was
    never assigned, which may be inherited, is outside the model. *)
Fixpoint Record_set {A : Type} (r : list (string * A)) (k : string) (v : A)
    : list (string * A) :=
  match r with
  | [] => [(k, v)]
  | (k', v') :: rest =>
      if String.eqb k' k then (k', v) :: rest else (k', v') :: Record_set rest k v
  end.

Fixpoint Record_get {A : Type} (r : list (string * A)) (k : string) : option A :=
  match r with
  | [] => None
  | (k', v) :: rest => if String.eqb k' k then Some v else Record_get rest k
  end.

Definition executeGetMultipleTickers
    (getTicker : string -> Agent.Outcome LyraTicker)
    (instrument_names : list string) : list (string * option LyraTicker) :=
  let settled :=
    map (fun name =>
           match getTicker name with
           | Agent.Returned ticker => (name, Some ticker)
           | Agent.Thrown _ => (name, None)
           end) instrument_names in
  fold_left (fun results '(name, ticker) => Record_set results name ticker)
            settled [].

(** [executeGetIndexPrice]: the index and mark price of the perpetual of
    the underlying. *)
Record IndexPrice := mkIndexPrice {
  ip_underlying : string;
  ip_index_price : Q;
  ip_mark_price : Q
}.

Section Tools.

(** [parseFloat], and the exchange behind [lyraApiCall]: the ticker of a
    name ([/public/get_ticker]) and the instruments of a currency
    ([/public/get_instruments]); either call may throw. *)
Variable parseFloat : string -> Q.
Variable getTicker : string -> Agent.Outcome LyraTicker.
Variable getInstruments : string -> Agent.Outcome (list LyraInstrument).

Definition executeGetIndexPrice (underlying : string)
    : Agent.Outcome IndexPrice :=
  match getTicker (underlying ++ "-PERP") with
  | Agent.Thrown e => Agent.Thrown e
  | Agent.Returned ticker =>
      Agent.Returned {| ip_underlying := underlying;
                        ip_index_price := parseFloat (index_price ticker);
                        ip_mark_price := parseFloat (mark_price ticker) |}
  end.

(** [tickers[name]] where it is truthy. *)
Definition ticker_of (tickers : list (string * option LyraTicker))
    (name : string) : option LyraTicker :=
  match Record_get tickers name with
  | Some (Some ticker) => Some ticker
  | _ => None
  end.

(** [executeFindLiquidOptions] with the calls it makes: the index price,
    the instruments (read at the time [now0]) and the tickers of the
    candidates of the window (taken at the time [now1]). *)
Definition findLiquidOptions (now0 now1 : Q) (params : FindParams)
    : Agent.Outcome (list InstrumentWithPricing) :=
  match executeGetIndexPrice (fp_underlying params) with
  | Agent.Thrown e => Agent.Thrown e
  | Agent.Returned ip =>
      match getInstruments (fp_underlying params) with
      | Agent.Thrown e => Agent.Thrown e
      | Agent.Returned listed =>
          let instruments :=
            executeGetInstruments listed now0 (Some (max_days_to_expiry params)) in
          let filtered :=
            filter (in_window parseFloat (ip_index_price ip) now1 params)
                   instruments in
          let tickers :=
            executeGetMultipleTickers getTicker
              (map li_instrument_name filtered) in
          Agent.Returned
            (executeFindLiquidOptions parseFloat (ip_index_price ip) instruments
               now1 (ticker_of tickers) params)
      end
  end.

End Tools.

End LyraExecutors.

(** ** The exchange client ([lib/lyra-client.ts]) *)

Module LyraClient.

Import Payoff.

(** [LyraInstrument] and [LyraTicker] of [lib/schemas.ts]. *)
Record OptionDetails := mkOptionDetails {
  cd_index : string;
  cd_expiry : Q;
  cd_strike : string;
  cd_option_type : OptionType;
  cd_settlement_price : option string
}.

Record LyraInstrument := mkLyraInstrument {
  ci_instrument_name : string;
  ci_instrument_type : string;
  ci_quote_currency : string;
  ci_base_currency : string;
  ci_is_active : bool;
  ci_tick_size : string;
  ci_minimum_amount : string;
  ci_maximum_amount : string;
  ci_option_details : option OptionDetails
}.

Record LyraTicker := mkLyraTicker {
  ct_instrument_name : string;
  ct_best_bid_price : option string;
  ct_best_bid_amount : option string;
  ct_best_ask_price : option string;
  ct_best_ask_amount : option string;
  ct_mark_price : string;
  ct_index_price : string;
  ct_timestamp : Q
}.

(** A [Map<string, V>] as the list of its entries, in insertion order:
    [set] on a key already present replaces the value in place. *)
Fixpoint Map_set {V : Type} (m : list (string * V)) (k : string) (v : V)
    : list (string * V) :=
  match m with
  | [] => [(k, v)]
  | (k', v') :: rest =>
      if String.eqb k' k then (k', v) :: rest else (k', v') :: Map_set rest k v
  end.

Fixpoint Map_get {V : Type} (m : list (string * V)) (k : string) : option V :=
  match m with
  | [] => None
  | (k', v) :: rest => if String.eqb k' k then Some v else Map_get rest k
  end.

Definition Map_has {V : Type} (m : list (string * V)) (k : string) : bool :=
  match Map_get m k with Some _ => true | None => false end.

(** [getTickersForInstruments]: [Promise.allSettled] over the names, the
    fulfilled ones entered in the map. *)
Definition getTickersForInstruments
    (getTicker : string -> Agent.Outcome LyraTicker)
    (instrumentNames : list string) : list (string * LyraTicker) :=
  fold_left (fun tickers name =>
               match getTicker name with
               | Agent.Returned value => Map_set tickers name value
               | Agent.Thrown _ => tickers
               end)
            instrumentNames [].

(** [parseInstrumentName]: the groups of
    [/^([A-Z]+)-(\d{8})-(\d+)-([CP])$/]. *)
Record InstrumentName := mkInstrumentName {
  in_underlying : string;
  in_expiry : string;
  in_strike : Q;
  in_optionType : OptionType
}.

Definition parseInstrumentName (name : string) : option InstrumentName :=
  match split_on "-" name with
  | [und; exp; stk; typ] =>
      if negb (String.eqb und "") && all_chars is_upper und
         && (String.length exp =? 8)%nat && all_chars is_digit exp
         && negb (String.eqb stk "") && all_chars is_digit stk
      then
        if String.eqb typ "C" then
          Some {| in_underlying := und; in_expiry := exp;
                  in_strike := parseInt stk; in_optionType := C |}
        else if String.eqb typ "P" then
          Some {| in_underlying := und; in_expiry := exp;
                  in_strike := parseInt stk; in_optionType := P |}
        else None
      else None
  | _ => None
  end.

(** [findClosestExpiry], on the instruments the exchange lists and the
    time of the target date ([targetDate.getTime()]).  The state of the loop
    is [(closestExpiry, minDiff)]; [None] stands for [null] and for
    [Infinity]. *)
Definition closestStep (targetTime : Q) (st : option Q * option Q)
    (inst : LyraInstrument) : option Q * option Q :=
  match ci_option_details inst with
  | None => st
  | Some d =>
      if Qeq_bool (cd_expiry d) 0 then st
      else
        let diff := Qabs (cd_expiry d * 1000 - targetTime) in
        if match snd st with
           | None => true
           | Some minDiff => num_lt diff minDiff
           end
        then (Some (cd_expiry d), Some diff)
        else st
  end.

Definition findClosestExpiry (instruments : list LyraInstrument)
    (targetTime : Q) : option Q :=
  fst (fold_left (closestStep targetTime) instruments (None, None)).

(** [resolveInstruments], on the instruments the exchange lists and the
    time of the target expiry ([targetExpiry.getTime()]). *)
Section Resolve.

Variable parseFloat : string -> Q.

(** The [for (let i = 0; i < strikes.length; i++)] loop for one
    instrument. *)
Fixpoint matchStrikes (inst : LyraInstrument) (strikeNum : Q)
    (option_type : OptionType) (strikes : list Q)
    (optionTypes : list OptionType) (matched : list (string * LyraInstrument))
    : list (string * LyraInstrument) :=
  match strikes with
  | [] => matched
  | k :: strikes' =>
      let matched' :=
        if num_lt (Qabs (strikeNum - k)) (k * (1 # 100))
           && match optionTypes with
              | o :: _ => LyraTools.OptionType_eqb option_type o
              | [] => false
              end
        then Map_set matched (ci_instrument_name inst) inst
        else matched in
      matchStrikes inst strikeNum option_type strikes' (tl optionTypes) matched'
  end.

Definition resolveStep (targetTime : Q) (strikes : list Q)
    (optionTypes : list OptionType) (matched : list (string * LyraInstrument))
    (inst : LyraInstrument) : list (string * LyraInstrument) :=
  match ci_option_details inst with
  | None => matched
  | Some d =>
      let timeDiff := Qabs (cd_expiry d * 1000 - targetTime) in
      if num_gt timeDiff (24 * 60 * 60 * 1000) then matched
      else matchStrikes inst (parseFloat (cd_strike d)) (cd_option_type d)
                        strikes optionTypes matched
  end.

Definition resolveInstruments (allInstruments : list LyraInstrument)
    (targetTime : Q) (strikes : list Q) (optionTypes : list OptionType)
    : list (string * LyraInstrument) :=
  fold_left (resolveStep targetTime strikes optionTypes) allInstruments [].

End Resolve.

(** The letter of an option type. *)
Definition typeLetter (o : OptionType) : string :=
  match o with C => "C" | P => "P" end.

(** Whether an instrument can be the answer of [findClosestExpiry]. *)
Definition datedExpiry (inst : LyraInstrument) : option Q :=
  match ci_option_details inst with
  | Some d => if Qeq_bool (cd_expiry d) 0 then None else Some (cd_expiry d)
  | None => None
  end.

(** How far an expiry (in seconds) is from a time (in milliseconds). *)
Definition expiryDistance (targetTime e : Q) : Q :=
  Qabs (e * 1000 - targetTime).

(** The state of the loop after the instruments [seen]. *)
Definition closestInv (targetTime : Q) (seen : list LyraInstrument)
    (st : option Q * option Q) : Prop :=
  match st with
  | (None, None) => Forall (fun i => datedExpiry i = None) seen
  | (Some e, Some m) =>
      m = expiryDistance targetTime e
      /\ exists l1 i l2,
           seen = (l1 ++ i :: l2)%list /\ datedExpiry i = Some e
           /\ Forall (fun j => match datedExpiry j with
                               | Some e' =>
                                   expiryDistance targetTime e
                                   < expiryDistance targetTime e'
                               | None => True
                               end) l1
           /\ Forall (fun j => match datedExpiry j with
                               | Some e' =>
                                   expiryDistance targetTime e
                                   <= expiryDistance targetTime e'
                               | None => True
                               end) l2
  | _ => False
  end.

(** Whether some request [(strikes[i], optionTypes[i])] is met by an
    instrument of strike [strikeNum] and type [option_type]. *)
Fixpoint anyRequest (strikeNum : Q) (option_type : OptionType)
    (strikes : list Q) (optionTypes : list OptionType) : bool :=
  match strikes with
  | [] => false
  | k :: strikes' =>
      (num_lt (Qabs (strikeNum - k)) (k * (1 # 100))
       && match optionTypes with
          | o :: _ => LyraTools.OptionType_eqb option_type o
          | [] => false
          end)
      || anyRequest strikeNum option_type strikes' (tl optionTypes)
  end.

(** An instrument that [resolveInstruments] is to match: it expires within
    24 hours of the target and meets a request. *)
Definition resolves (parseFloat : string -> Q) (targetTime : Q)
    (strikes : list Q) (optionTypes : list OptionType) (inst : LyraInstrument)
    : bool :=
  match ci_option_details inst with
  | None => false
  | Some d =>
      num_le (expiryDistance targetTime (cd_expiry d)) (24 * 60 * 60 * 1000)
      && anyRequest (parseFloat (cd_strike d)) (cd_option_type d)
                    strikes optionTypes
  end.

End LyraClient.

(** ** The debug log ([lib/debug-logger.ts]) *)

Module DebugLog.

Inductive LogType :=
| api_call | api_response | ai_request | ai_response
| tool_call | tool_response | error | info.

Record LogEntry := mkLogEntry {
  id : string;
  timestamp : Q;
  type : LogType;
  source : string;
  message : string;
  data : option Agent.json;
  duration : option Q
}.

(** The argument of [log]: an entry without [id] and [timestamp]. *)
Record EntryInput := mkEntryInput {
  e_type : LogType;
  e_source : string;
  e_message : string;
  e_data : option Agent.json;
  e_duration : option Q
}.

(** The state of a [DebugLogger].  A listener is known by a number; the
    calls made to the listeners are recorded in [notified], each with the
    copy of the logs it was given.  A listener is taken not to call the
    logger back while it runs. *)
Record DebugLogger := mkDebugLogger {
  logs : list LogEntry;
  listeners : list nat;          (* a [Set] of callbacks *)
  notified : list (nat * list LogEntry)
}.

Definition maxLogs : nat := 100.

Definition initialLogger : DebugLogger :=
  {| logs := []; listeners := []; notified := [] |}.

Definition getLogs (st : DebugLogger) : list LogEntry := logs st.

Definition notifyListeners (st : DebugLogger) : DebugLogger :=
  let currentLogs := getLogs st in
  {| logs := logs st; listeners := listeners st;
     notified :=
       (notified st ++ map (fun listener => (listener, currentLogs))
                           (listeners st))%list |}.

(** [log]; [generatedId] and [now] are what [generateId()] and [new Date()]
    give at the call. *)
Definition log (generatedId : string) (now : Q) (entry : EntryInput)
    (st : DebugLogger) : DebugLogger * LogEntry :=
  let fullEntry :=
    {| id := generatedId; timestamp := now; type := e_type entry;
       source := e_source entry; message := e_message entry;
       data := e_data entry; duration := e_duration entry |} in
  let unshifted := fullEntry :: logs st in
  let trimmed :=
    if (maxLogs <? List.length unshifted)%nat then firstn maxLogs unshifted
    else unshifted in
  (notifyListeners {| logs := trimmed; listeners := listeners st;
                      notified := notified st |},
   fullEntry).

Definition toolCall (source toolName : string) (data : option Agent.json)
    : EntryInput :=
  {| e_type := tool_call; e_source := source;
     e_message := "Tool: " ++ toolName; e_data := data; e_duration := None |}.

Definition toolResponse (source toolName : string) (data : option Agent.json)
    (duration : option Q) : EntryInput :=
  {| e_type := tool_response; e_source := source;
     e_message := "Tool: " ++ toolName ++ " completed"; e_data := data;
     e_duration := duration |}.

Definition clear (st : DebugLogger) : DebugLogger :=
  notifyListeners {| logs := []; listeners := listeners st;
                     notified := notified st |}.

Definition Set_has (s : list nat) (x : nat) : bool := existsb (Nat.eqb x) s.

(** [subscribe]: the listener joins the set and is called at once with the
    current logs. *)
Definition subscribe (listener : nat) (st : DebugLogger) : DebugLogger :=
  {| logs := logs st;
     listeners := if Set_has (listeners st) listener then listeners st
                  else (listeners st ++ [listener])%list;
     notified := (notified st ++ [(listener, getLogs st)])%list |}.

(** The function that [subscribe] returns. *)
Definition unsubscribe (listener : nat) (st : DebugLogger) : DebugLogger :=
  {| logs := logs st;
     listeners := filter (fun l => negb (Nat.eqb listener l)) (listeners st);
     notified := notified st |}.

(** *** Histories of calls *)

Inductive Call :=
| CallLog (generatedId : string) (now : Q) (entry : EntryInput)
| CallClear
| CallSubscribe (listener : nat)
| CallUnsubscribe (listener : nat).

Definition perform (st : DebugLogger) (c : Call) : DebugLogger :=
  match c with
  | CallLog generatedId now entry => fst (log generatedId now entry st)
  | CallClear => clear st
  | CallSubscribe listener => subscribe listener st
  | CallUnsubscribe listener => unsubscribe listener st
  end.

Definition history (calls : list Call) : DebugLogger :=
  fold_left perform calls initialLogger.

(** The entries logged since the last [clear], oldest first. *)
Definition logged (acc : list LogEntry) (c : Call) : list LogEntry :=
  match c with
  | CallLog generatedId now entry =>
      (acc ++ [snd (log generatedId now entry initialLogger)])%list
  | CallClear => []
  | _ => acc
  end.

Definition loggedSinceClear (calls : list Call) : list LogEntry :=
  fold_left logged calls [].

(** The calls made to one listener. *)
Definition callsTo (listener : nat) (st : DebugLogger) : list (list LogEntry) :=
  map snd (filter (fun n => Nat.eqb (fst n) listener) (notified st)).

Definition subscribes (listener : nat) (c : Call) : bool :=
  match c with
  | CallSubscribe l => Nat.eqb l listener
  | _ => false
  end.

(** A call that changes the logs. *)
Definition changesLogs (c : Call) : bool :=
  match c with
  | CallLog _ _ _ | CallClear => true
  | _ => false
  end.

End DebugLog.

(** ** The single-call parser ([lib/claude-parser.ts]) *)

Module ClaudeParser.

Import Agent.

Record AvailableInstrument := mkAvailableInstrument {
  ai_instrument_name : string;
  ai_strike : string;
  ai_expiry : Q;
  ai_option_type : Payoff.OptionType;
  ai_is_active : bool
}.

(** [response.content.find((block) => block.type === "text")]. *)
Fixpoint firstText (blocks : list ContentBlock) : option string :=
  match blocks with
  | [] => None
  | text t :: _ => Some t
  | _ :: rest => firstText rest
  end.

Definition userPrompt (intent : string) : string :=
  "Parse this trading intent into a TradeSpec JSON. Remember to use ONLY instruments from the available list:"
  ++ String "010" (String "010" (String "034" intent))
  ++ String "034" EmptyString.

(** The string handed to [JSON.parse]: the content of the first fenced
    block of the trimmed text, or the trimmed text. *)
Definition jsonString (rawText : string) : string :=
  match fencedMatch rawText with
  | Some c => c
  | None => rawText
  end.

Section Parser.

(** The collaborators: the model ([client.messages.create], given the
    system prompt and the user message), the text of the system prompt
    ([getSystemPrompt], which formats the instruments and the index price),
    [JSON.parse] and zod's message for a wrong type. *)
Variable create : string -> string -> Outcome Response.
Variable getSystemPrompt : string -> list AvailableInstrument -> Q -> string.
Variable JSON_parse : string -> option json.
Variable invalidType : string -> option json -> string.

Definition parseIntent (intent underlying : string)
    (availableInstruments : list AvailableInstrument) (indexPrice : Q)
    : Outcome TradeSpec :=
  let systemPrompt := getSystemPrompt underlying availableInstruments indexPrice in
  match create systemPrompt (userPrompt intent) with
  | Thrown e => Thrown e
  | Returned response =>
      match firstText (content response) with
      | None => Thrown "No text response from Claude"
      | Some t =>
          let rawText := trim t in
          match JSON_parse (jsonString rawText) with
          | None =>
              Thrown ("Failed to parse Claude response as JSON: "
                        ++ firstUnits 200 rawText)
          | Some parsed =>
              match TradeSpecSchema_safeParse invalidType parsed with
              | inl issues =>
                  Thrown ("TradeSpec schema validation failed: "
                            ++ String.concat ", " (map issueLine issues))
              | inr data => Returned data
              end
          end
      end
  end.

End Parser.

End ClaudeParser.

(** ** The HTTP routes ([app/api/.../route.ts]) *)

Module Routes.

Import Safety Agent LyraClient.

(** [Math.ceil] and [Math.floor]. *)
Definition Math_ceil (x : Q) : Q := inject_Z (Qceiling x).
Definition Math_floor (x : Q) : Q := inject_Z (Qfloor x).

(** [haystack.includes(needle)]. *)
Fixpoint includes (needle haystack : string) : bool :=
  starts_with needle haystack
  || match haystack with
     | EmptyString => false
     | String _ rest => includes needle rest
     end.

(** [s ? parseFloat(s) : d] on a nullable price string. *)
Definition price_or {A : Type} (parseFloat : string -> Q) (s : option string)
    (some : Q -> A) (none : A) : A :=
  match s with
  | Some v => if String.eqb v "" then none else some (parseFloat v)
  | None => none
  end.

(** *** Request schemas ([lib/schemas.ts]) *)

Section Requests.

(** The texts of zod's own issues: for a value of the wrong type, and for
    an array that is too short. *)
Variable invalidType : string -> option json -> string.
Variable arrayTooSmall : string.

(** The issues of a schema nested under the key [prefix]. *)
Definition under {A : Type} (prefix : list string) (v : Validated A)
    : Validated A :=
  match v with
  | inl issues =>
      inl (map (fun i => {| path := (prefix ++ path i)%list;
                            message := message i |}) issues)
  | inr a => inr a
  end.

(** [ParseIntentRequestSchema.safeParse]. *)
Definition ParseIntentRequestSchema_safeParse (body : json) : Validated string :=
  match body with
  | JObj fields =>
      zString1 invalidType ["intent"] "Intent is required" (obj_get fields "intent")
  | _ => inl [ {| path := []; message := invalidType "object" (Some body) |} ]
  end.

(** [z.boolean().refine((val) => val === true, ...)]. *)
Definition zConfirmed (path : list string) (v : option json) : Validated bool :=
  match v with
  | Some (JBool b) =>
      if b then inr true
      else inl [ {| path := path;
                    message := "Trade must be explicitly confirmed" |} ]
  | _ => inl [ {| path := path; message := invalidType "boolean" v |} ]
  end.

(** [ExecuteTradeRequestSchema.safeParse]. *)
Definition ExecuteTradeRequestSchema_safeParse (body : json)
    : Validated (TradeSpec * bool) :=
  match body with
  | JObj fields =>
      let ts :=
        match obj_get fields "tradeSpec" with
        | Some v => under ["tradeSpec"] (TradeSpecSchema_safeParse invalidType v)
        | None => inl [ {| path := ["tradeSpec"];
                           message := invalidType "object" None |} ]
        end in
      let cf := zConfirmed ["confirmed"] (obj_get fields "confirmed") in
      match ts, cf with
      | inr t, inr c => inr (t, c)
      | _, _ => inl (issuesOf ts ++ issuesOf cf)%list
      end
  | _ => inl [ {| path := []; message := invalidType "object" (Some body) |} ]
  end.

(** [z.object({ instrument_names: z.array(z.string()).min(1) })] of the
    prices route. *)
Fixpoint zStrings (path : list string) (i : nat) (items : list json)
    : Validated (list string) :=
  match items with
  | [] => inr []
  | x :: rest =>
      let hd : Validated string :=
        match x with
        | JStr s => inr s
        | _ => inl [ {| path := (path ++ [nat_to_string i])%list;
                        message := invalidType "string" (Some x) |} ]
        end in
      let tl := zStrings path (S i) rest in
      match hd, tl with
      | inr s, inr ss => inr (s :: ss)
      | _, _ => inl (issuesOf hd ++ issuesOf tl)%list
      end
  end.

Definition PricesRequestSchema_safeParse (body : json) : Validated (list string) :=
  match body with
  | JObj fields =>
      match obj_get fields "instrument_names" with
      | Some (JArr items) =>
          match zStrings ["instrument_names"] 0 items with
          | inr names =>
              if (1 <=? List.length names)%nat then inr names
              else inl [ {| path := ["instrument_names"];
                            message := arrayTooSmall |} ]
          | inl issues => inl issues
          end
      | v => inl [ {| path := ["instrument_names"];
                      message := invalidType "array" v |} ]
      end
  | _ => inl [ {| path := []; message := invalidType "object" (Some body) |} ]
  end.

Definition issueMessages (issues : list ZodIssue) : string :=
  String.concat ", " (map message issues).

End Requests.

(** *** POST /api/parse-intent *)

Inductive ParseIntentResponse :=
| ParseIntentOk (tradeSpec : TradeSpec)                    (* 200 *)
| ParseIntentError (status : nat) (error details : string).

(** [getAgentParser]: the singleton, created on first use from the API
    key of the environment. *)
Definition getAgentParser (parserInstance : bool) (ANTHROPIC_API_KEY : option string)
    : Outcome unit :=
  if parserInstance then Returned tt
  else match ANTHROPIC_API_KEY with
       | Some k =>
           if String.eqb k "" then
             Thrown "ANTHROPIC_API_KEY environment variable is not set"
           else Returned tt
       | None => Thrown "ANTHROPIC_API_KEY environment variable is not set"
       end.

(** The [catch] of the route. *)
Definition parseIntentFailure (message : string) : ParseIntentResponse :=
  if includes "schema validation failed" message then
    ParseIntentError 422 "Agent output failed schema validation" message
  else ParseIntentError 500 "Failed to parse intent" message.

Section ParseIntentRoute.

(** The body of the request ([request.json()], which may reject), the
    state of the singleton and the environment, [parser.parseIntent], and
    the message of the [TypeError] that reading a property of [null]
    raises (the route reads [body.intent] for its log before it validates
    the body). *)
Variable invalidType : string -> option json -> string.
Variable nullPropertyError : string.
Variable parserInstance : bool.
Variable ANTHROPIC_API_KEY : option string.
Variable parseIntent : string -> Outcome TradeSpec.

Definition parseIntentPOST (body : Outcome json) : ParseIntentResponse :=
  match body with
  | Thrown message => parseIntentFailure message
  | Returned JNull => parseIntentFailure nullPropertyError
  | Returned b =>
      match ParseIntentRequestSchema_safeParse invalidType b with
      | inl issues =>
          ParseIntentError 400 "Invalid request" (issueMessages issues)
      | inr intent =>
          match getAgentParser parserInstance ANTHROPIC_API_KEY with
          | Thrown message => parseIntentFailure message
          | Returned _ =>
              match parseIntent intent with
              | Thrown message => parseIntentFailure message
              | Returned tradeSpec => ParseIntentOk tradeSpec
              end
          end
      end
  end.

End ParseIntentRoute.

(** *** POST /api/execute *)

Record Prices := mkPrices {
  p_bid : option Q;
  p_ask : option Q;
  p_mark : Q
}.

Record OrderResponse := mkOrderResponse {
  or_order_id : string;
  or_instrument_name : string;
  or_direction : Side;
  or_amount : string;
  or_limit_price : string;
  or_order_status : string;
  or_filled_amount : string;
  or_average_price : option string;
  or_creation_timestamp : Q
}.

(** An element of [orders]. *)
Record Order := mkOrder {
  o_instrument_name : string;
  o_order_id : string;
  o_status : string;
  o_error : option string
}.

Inductive ExecuteResponse :=
| ExecuteError (status : nat) (error : string) (details : option string)
| ExecuteBlocked (error : string) (safety_checks : SafetyCheckResult)   (* 403 *)
| ExecuteDone (success : bool) (orders : list Order)
              (total_estimated_cost : Q) (safety_checks : SafetyCheckResult). (* 200 *)

(** The state of the pricing loop. *)
Record PricingState := mkPricingState {
  totalEstimatedCost : Q;
  maxSpread : option Q;
  pricesMap : list (string * Prices)
}.

(** [a ?? b]. *)
Definition nullish (a : option Q) (b : Q) : Q :=
  match a with Some v => v | None => b end.

(** [(p && p > 0) ? p : d] on a nullable number. *)
Definition positive_or (p : option Q) (d : Q) : Q :=
  match p with
  | Some v => if negb (Qeq_bool v 0) && num_gt v 0 then v else d
  | None => d
  end.

Definition rawPrice (leg : Leg) (prices : Prices) : Q :=
  match side leg with
  | buy => positive_or (p_ask prices) (p_mark prices * (105 # 100))
  | sell => positive_or (p_bid prices) (p_mark prices * (95 # 100))
  end.

Definition limitPrice (leg : Leg) (prices : Prices) : Q :=
  match side leg with
  | buy => Math_ceil (rawPrice leg prices * 10) / 10
  | sell => Math_floor (rawPrice leg prices * 10) / 10
  end.

Definition orderOk (o : Order) : bool :=
  negb (String.eqb (o_status o) "failed") && negb (String.eqb (o_order_id o) "").

Section ExecuteRoute.

(** The built-ins, the environment, the exchange ([getTicker] of the
    client, [submitOrder] of [lib/lyra-auth.ts]) and zod's message for a
    wrong type. *)
Variable parseFloat : string -> Q.
Variable toFixed : Q -> nat -> string.
Variable numToString : Q -> string.
Variable env : ProcessEnv.
Variable getTicker : string -> Outcome LyraTicker.
Variable submitOrder : string -> Side -> string -> string -> Outcome OrderResponse.
Variable invalidType : string -> option json -> string.

(** One round of the pricing loop, on the ticker of the leg. *)
Definition priceLeg (st : PricingState) (leg : Leg) (ticker : LyraTicker)
    : PricingState :=
  let bid := price_or parseFloat (ct_best_bid_price ticker) Some None in
  let ask := price_or parseFloat (ct_best_ask_price ticker) Some None in
  let mark := parseFloat (ct_mark_price ticker) in
  let pricesMap' :=
    Map_set (pricesMap st) (instrument_name leg)
            {| p_bid := bid; p_ask := ask; p_mark := mark |} in
  let total' :=
    match side leg with
    | buy => totalEstimatedCost st + nullish ask mark * amount leg
    | sell => totalEstimatedCost st - nullish bid mark * amount leg
    end in
  let maxSpread' :=
    match bid, ask with
    | Some b, Some a =>
        if num_gt b 0 then
          let mid := (b + a) / 2 in
          if num_gt mid 0 then
            let spread := (a - b) / mid * 100 in
            Some match maxSpread st with
                 | Some m => Payoff.Math_max2 m spread
                 | None => spread
                 end
          else maxSpread st
        else maxSpread st
    | _, _ => maxSpread st
    end in
  {| totalEstimatedCost := total'; maxSpread := maxSpread';
     pricesMap := pricesMap' |}.

(** The pricing loop: the final state, or the details of the 400 response
    of the first leg whose ticker could not be fetched. *)
Fixpoint priceLegs (ls : list Leg) (st : PricingState)
    : PricingState + string :=
  match ls with
  | [] => inl st
  | leg :: rest =>
      match getTicker (instrument_name leg) with
      | Thrown message => inr (instrument_name leg ++ ": " ++ message)
      | Returned ticker => priceLegs rest (priceLeg st leg ticker)
      end
  end.

(** One round of the order loop. *)
Definition placeOrder (prices : list (string * Prices)) (leg : Leg) : Order :=
  match Map_get prices (instrument_name leg) with
  | None =>
      {| o_instrument_name := instrument_name leg; o_order_id := "";
         o_status := "failed"; o_error := Some "No price data" |}
  | Some p =>
      match submitOrder (instrument_name leg) (side leg)
                        (toFixed (amount leg) 2)
                        (toFixed (limitPrice leg p) 1) with
      | Returned orderResponse =>
          {| o_instrument_name := instrument_name leg;
             o_order_id := or_order_id orderResponse;
             o_status := or_order_status orderResponse; o_error := None |}
      | Thrown message =>
          {| o_instrument_name := instrument_name leg; o_order_id := "";
             o_status := "failed"; o_error := Some message |}
      end
  end.

(** The route from the validated request on. *)
Definition execute (tradeSpec : TradeSpec) : ExecuteResponse :=
  let config := getSafetyConfig parseFloat env in
  match priceLegs (legs tradeSpec)
          {| totalEstimatedCost := 0; maxSpread := None; pricesMap := [] |} with
  | inr details =>
      ExecuteError 400 "Failed to fetch price for instrument" (Some details)
  | inl st =>
      let safetyResult :=
        runSafetyChecks parseFloat toFixed numToString env tradeSpec
                        (totalEstimatedCost st) (maxSpread st) in
      if negb (all_passed safetyResult) && safeModeEnabled config then
        ExecuteBlocked "Safety checks failed" safetyResult
      else
        let orders := map (placeOrder (pricesMap st)) (legs tradeSpec) in
        ExecuteDone (forallb orderOk orders) orders
                    (round2 (totalEstimatedCost st)) safetyResult
  end.

Definition executePOST (body : Outcome json) : ExecuteResponse :=
  match body with
  | Thrown message => ExecuteError 500 "Failed to execute trade" (Some message)
  | Returned b =>
      match ExecuteTradeRequestSchema_safeParse invalidType b with
      | inl issues =>
          ExecuteError 400 "Invalid request" (Some (issueMessages issues))
      | inr (tradeSpec, confirmed) =>
          if negb confirmed then
            ExecuteError 400 "Trade must be explicitly confirmed" None
          else
            match TradeSpecSchema_safeParse invalidType (TradeSpecJson tradeSpec) with
            | inl issues =>
                ExecuteError 400 "Invalid trade specification"
                             (Some (issueMessages issues))
            | inr _ => execute tradeSpec
            end
      end
  end.

End ExecuteRoute.

(** *** POST /api/get-prices *)

Record PriceEntry := mkPriceEntry {
  pe_bid : option Q;
  pe_ask : option Q;
  pe_mark : Q;
  pe_index : Q;
  pe_spread_percent : option Q
}.

Inductive PricesResponse :=
| PricesError (status : nat) (error details : string)
| PricesOk (prices : list (string * PriceEntry)) (not_found : list string).

Section PricesRoute.

(** [nullPropertyError] is the message of the [TypeError] that reading a
    property of [null] raises (the route reads [body.instrument_names] for
    its log before it validates the body). *)
Variable parseFloat : string -> Q.
Variable getTicker : string -> Outcome LyraTicker.
Variable invalidType : string -> option json -> string.
Variable arrayTooSmall : string.
Variable nullPropertyError : string.

Definition priceEntry (ticker : LyraTicker) : PriceEntry :=
  let bidRaw := price_or parseFloat (ct_best_bid_price ticker) (fun q => q) 0 in
  let askRaw := price_or parseFloat (ct_best_ask_price ticker) (fun q => q) 0 in
  let bid := if num_gt bidRaw 0 then Some bidRaw else None in
  let ask := if num_gt askRaw 0 then Some askRaw else None in
  let spreadPercent :=
    match bid, ask with
    | Some b, Some a =>
        if num_gt b 0 then
          let mid := (b + a) / 2 in
          if num_gt mid 0 then Some ((a - b) / mid * 100) else None
        else None
    | _, _ => None
    end in
  {| pe_bid := bid; pe_ask := ask;
     pe_mark := parseFloat (ct_mark_price ticker);
     pe_index := parseFloat (ct_index_price ticker);
     pe_spread_percent := option_map round2 spreadPercent |}.

Definition pricesPOST (body : Outcome json) : PricesResponse :=
  match body with
  | Thrown message => PricesError 500 "Failed to fetch prices" message
  | Returned JNull => PricesError 500 "Failed to fetch prices" nullPropertyError
  | Returned b =>
      match PricesRequestSchema_safeParse invalidType arrayTooSmall b with
      | inl issues => PricesError 400 "Invalid request" (issueMessages issues)
      | inr instrument_names =>
          let tickers := getTickersForInstruments getTicker instrument_names in
          let prices :=
            fold_left (fun prices '(name, ticker) =>
                         Map_set prices name (priceEntry ticker))
                      tickers [] in
          let notFound :=
            filter (fun name => negb (Map_has tickers name)) instrument_names in
          PricesOk prices notFound
      end
  end.

End PricesRoute.

(** *** Vocabulary of the statements below *)

(** The prices the execute route keeps of a ticker, and the spread it
    tracks for it. *)
Definition pricesOf (parseFloat : string -> Q) (ticker : LyraTicker) : Prices :=
  {| p_bid := price_or parseFloat (ct_best_bid_price ticker) Some None;
     p_ask := price_or parseFloat (ct_best_ask_price ticker) Some None;
     p_mark := parseFloat (ct_mark_price ticker) |}.

(** The order the execute route records for a leg priced at [p]. *)
Definition orderAt
    (toFixed : Q -> nat -> string)
    (submitOrder : string -> Side -> string -> string -> Outcome OrderResponse)
    (leg : Leg) (p : Prices) : Order :=
  match submitOrder (instrument_name leg) (side leg) (toFixed (amount leg) 2%nat)
                    (toFixed (limitPrice leg p) 1%nat) with
  | Returned orderResponse =>
      {| o_instrument_name := instrument_name leg;
         o_order_id := or_order_id orderResponse;
         o_status := or_order_status orderResponse; o_error := None |}
  | Thrown message =>
      {| o_instrument_name := instrument_name leg; o_order_id := "";
         o_status := "failed"; o_error := Some message |}
  end.

(** What a leg adds to the estimated cost of the execute route. *)
Definition legCost (leg : Leg) (p : Prices) : Q :=
  match side leg with
  | buy => nullish (p_ask p) (p_mark p) * amount leg
  | sell => - (nullish (p_bid p) (p_mark p) * amount leg)
  end.

(** The spread of the quote kept for a leg. *)
Definition spreadOf (p : Prices) : option Q :=
  match p_bid p, p_ask p with
  | Some b, Some a =>
      if num_gt b 0 then
        let mid := (b + a) / 2 in
        if num_gt mid 0 then Some ((a - b) / mid * 100) else None
      else None
  | _, _ => None
  end.

(** The estimated cost of the execute route for the legs [ls]: the sum of
    what each leg adds, at the prices of its ticker. *)
Definition estimatedCost (parseFloat : string -> Q)
    (getTicker : string -> Outcome LyraTicker) (ls : list Leg) : Q :=
  Payoff.Qsum (map (fun leg =>
                      match getTicker (instrument_name leg) with
                      | Returned ticker => legCost leg (pricesOf parseFloat ticker)
                      | Thrown _ => 0
                      end) ls).

(** The state of the pricing loop after the legs [seen]. *)
Definition pricedInv (parseFloat : string -> Q)
    (getTicker : string -> Outcome LyraTicker) (seen : list Leg)
    (st : PricingState)
    : Prop :=
  totalEstimatedCost st == estimatedCost parseFloat getTicker seen
  /\ Forall (fun leg =>
               exists ticker,
                 getTicker (instrument_name leg) = Returned ticker
                 /\ Map_get (pricesMap st) (instrument_name leg)
                    = Some (pricesOf parseFloat ticker)
                 /\ match spreadOf (pricesOf parseFloat ticker) with
                    | Some sp => exists m, maxSpread st = Some m /\ sp <= m
                    | None => True
                    end) seen.

End Routes.

(** ** Concrete trades, the fixtures of the repository's tests among them *)

Module Examples.

Import Payoff.

Definition leg_of (name : string) (s : Side) (a : Q) : Leg :=
  {| instrument_name := name; side := s; amount := a |}.

Definition trade_of (strat : string) (ls : list Leg) (budget : Q) : TradeSpec :=
  {| underlying := "ETH"; strategy := strat; expiry := "20250110";
     legs := ls; max_cost_usd := budget; max_loss_usd := budget;
     explanation := "Test" |}.

Definition longCall3500 : TradeSpec :=
  trade_of "Long Call" [leg_of "ETH-20250110-3500-C" buy 1] 150.

Definition longPut3000 : TradeSpec :=
  trade_of "Long Put" [leg_of "ETH-20250110-3000-P" buy 1] 100.

(** A long straddle: a bought call and a bought put at one strike. *)
Definition straddle3500 : TradeSpec :=
  trade_of "Long Straddle"
    [leg_of "ETH-20250110-3500-C" buy 1; leg_of "ETH-20250110-3500-P" buy 1] 250.

Definition smallLeg (s : Side) : Leg := leg_of "ETH-20250110-4000-C" s (1 # 100).

Definition samplePremiums : PremiumMap :=
  [ ("ETH-20250110-3500-C", 150); ("ETH-20250110-3500-P", 100);
    ("ETH-20250110-3000-P", 100); ("ETH-20250110-4000-C", 4 # 10) ].

(** A call priced at 400 while the underlying trades at 3400. *)
Definition dearPremiums : PremiumMap := [ ("ETH-20250110-3500-C", 400) ].

(** A put priced at 100.001. *)
Definition oddPremiums : PremiumMap := [ ("ETH-20250110-3000-P", 100001 # 1000) ].

(** Two call candidates quoted 98/102 (a spread of 4%) and 94/106 (12%),
    and one quoted 0.0/5 (no bid to speak of). *)
Definition candidate (name : string) : LyraTools.LyraInstrument :=
  {| LyraTools.li_instrument_name := name;
     LyraTools.li_instrument_type := "option";
     LyraTools.li_underlying_currency := "ETH";
     LyraTools.li_is_active := true;
     LyraTools.li_tick_size := "0.1";
     LyraTools.li_minimum_amount := "0.01";
     LyraTools.li_option_details :=
       Some {| LyraTools.od_expiry := 86400 * 10;
               LyraTools.od_strike := "3500";
               LyraTools.od_option_type := C |} |}.

Definition quote (name bidPrice askPrice : string) : LyraTools.LyraTicker :=
  {| LyraTools.lt_instrument_name := name;
     LyraTools.best_bid_price := bidPrice;
     LyraTools.best_ask_price := askPrice;
     LyraTools.best_bid_amount := "1";
     LyraTools.best_ask_amount := "1";
     LyraTools.mark_price := "100";
     LyraTools.index_price := "3400";
     LyraTools.option_pricing := None |}.

Definition sampleTickers (name : string) : option LyraTools.LyraTicker :=
  if String.eqb name "ETH-A-3500-C" then Some (quote name "94" "106")
  else if String.eqb name "ETH-B-3500-C" then Some (quote name "98" "102")
  else if String.eqb name "ETH-Z-3500-C" then Some (quote name "0.0" "5")
  else None.

Definition findParams (maxSpread : option Q) : LyraTools.FindParams :=
  {| LyraTools.fp_underlying := "ETH";
     LyraTools.fp_option_type := C;
     LyraTools.min_days_to_expiry := 5;
     LyraTools.max_days_to_expiry := 20;
     LyraTools.strike_range_percent := None;
     LyraTools.max_spread_percent := maxSpread |}.

(** The query on the sample market: index price 3400, clock at 0. *)
Definition sampleQuery (names : list string) (maxSpread : option Q)
    : list LyraTools.InstrumentWithPricing :=
  LyraTools.executeFindLiquidOptions parseDecimal 3400 (map candidate names) 0
    sampleTickers (findParams maxSpread).

(** The bull call spread of the tests: buy the 3500 call at 200, sell the
    4000 call at 100. *)
Definition bullCallSpread : TradeSpec :=
  trade_of "Bull Call Spread"
    [leg_of "ETH-20250110-3500-C" buy 1; leg_of "ETH-20250110-4000-C" sell 1] 100.

Definition spreadPremiums : PremiumMap :=
  [ ("ETH-20250110-3500-C", 200); ("ETH-20250110-4000-C", 100) ].

Definition shortCall3500 : TradeSpec :=
  trade_of "Short Call" [leg_of "ETH-20250110-3500-C" sell 1] 10000.

(** [points.find(f)], as [(price, pnl)] in lowest terms. *)
Definition firstPoint (f : PayoffPoint -> bool) (r : option PayoffAnalysis)
    : option (Q * Q) :=
  match r with
  | Some pa =>
      option_map (fun p => (Qred (price p), Qred (pnl p))) (find f (points pa))
  | None => None
  end.

(** What an analysis reports, in lowest terms:
    [(maxLoss, maxGain, breakevens, number of points)]. *)
Definition report (r : option PayoffAnalysis)
    : option (Q * option Q * list Q * nat) :=
  option_map
    (fun pa => (Qred (maxLoss pa), option_map Qred (maxGain pa),
                map Qred (breakevens pa), List.length (points pa)))
    r.

(** The environment of the safety tests: the limits at their
    defaults, but one contract per leg. *)
Definition testEnv : Safety.ProcessEnv :=
  {| Safety.MAX_TRADE_COST_USD := None;
     Safety.MAX_CONTRACTS_PER_LEG := Some "1";
     Safety.MAX_SPREAD_PERCENT := None;
     Safety.SAFE_MODE := None |}.

Definition noFormat (q : Q) : string := "#".

(** What [runSafetyChecks] answers: [(passes_max_cost, passes_max_contracts,
    passes_spread_check, all_passed, number of errors)]. *)
Definition safetyVerdict (t : TradeSpec) (estimatedCost : Q)
    (spreadPercent : option Q) : bool * bool * bool * bool * nat :=
  let r := Safety.runSafetyChecks parseDecimal (fun q _ => noFormat q) noFormat
             testEnv t estimatedCost spreadPercent in
  (Safety.passes_max_cost r, Safety.passes_max_contracts r,
   Safety.passes_spread_check r, Safety.all_passed r,
   List.length (Safety.errors r)).

(** A scripted model: it calls one tool, tries to answer, is sent back,
    calls a second tool and answers.  The script is indexed by the length
    of the conversation. *)
Definition toolCall (id name : string) : Agent.ContentBlock :=
  Agent.tool_use {| Agent.tu_id := id; Agent.tu_name := name;
                    Agent.tu_input := Agent.JObj [] |}.

Definition scriptedModel (ms : list Agent.MessageParam)
    : Agent.Outcome Agent.Response :=
  match List.length ms with
  | 1%nat => Agent.Returned
         {| Agent.content := [toolCall "t1" "lyra_get_index_price"];
            Agent.stop_reason := Some "tool_use" |}
  | 5%nat => Agent.Returned
         {| Agent.content := [toolCall "t2" "lyra_find_liquid_options"];
            Agent.stop_reason := Some "tool_use" |}
  | _ => Agent.Returned
         {| Agent.content := [Agent.text "{trade}"];
            Agent.stop_reason := Some "end_turn" |}
  end.

Definition scriptedTools (name : string) (input : Agent.json)
    : Agent.Outcome Agent.json :=
  Agent.Returned (Agent.JArr []).

(** A [JSON.parse] that knows one text. *)
Definition scriptedParse (s : string) : option Agent.json :=
  if String.eqb s "{trade}" then
    Some (Agent.JObj
            [ ("underlying", Agent.JStr "ETH");
              ("strategy", Agent.JStr "Long Call");
              ("expiry", Agent.JStr "20250110");
              ("legs", Agent.JArr
                 [ Agent.JObj [ ("instrument_name", Agent.JStr "ETH-20250110-3500-C");
                                ("side", Agent.JStr "buy");
                                ("amount", Agent.JNum 1) ] ]);
              ("max_cost_usd", Agent.JNum 150);
              ("max_loss_usd", Agent.JNum 150);
              ("explanation", Agent.JStr "Test") ])
  else None.

Definition scriptedRun (fuel : nat)
    : option (Agent.Outcome TradeSpec * Agent.LoopState) :=
  Agent.parseIntent scriptedModel scriptedTools (fun _ => "[]") (fun _ => "{}")
    scriptedParse (fun _ _ => "Invalid input") fuel "buy a call".

(** A model that asks for one more tool at every round. *)
Definition restlessModel (ms : list Agent.MessageParam)
    : Agent.Outcome Agent.Response :=
  Agent.Returned
    {| Agent.content :=
         [toolCall (Agent.nat_to_string (List.length ms)) "lyra_get_ticker"];
       Agent.stop_reason := Some "tool_use" |}.

Definition restlessRun (fuel : nat)
    : option (Agent.Outcome TradeSpec * Agent.LoopState) :=
  Agent.parseIntent restlessModel scriptedTools (fun _ => "[]") (fun _ => "{}")
    scriptedParse (fun _ _ => "Invalid input") fuel "buy a call".

(** The corrective instructions of a conversation. *)
Definition isCorrective (m : Agent.MessageParam) : bool :=
  match Agent.msg_content m with
  | Agent.Plain s => Agent.starts_with "ERROR: You must call" s
  | _ => false
  end.

(** Name and spread (in lowest terms) of a result. *)
Definition summary (r : LyraTools.InstrumentWithPricing) : string * option Q :=
  (LyraTools.li_instrument_name (LyraTools.instrument r),
   match LyraTools.pricing r with
   | Some pr => option_map Qred (LyraTools.spread_percent pr)
   | None => None
   end).

(** An exchange that quotes one call, 100.5 bid and 102.5 asked, and knows
    no other instrument. *)
Definition quotedCall : LyraClient.LyraTicker :=
  {| LyraClient.ct_instrument_name := "ETH-20250110-3500-C";
     LyraClient.ct_best_bid_price := Some "100.5";
     LyraClient.ct_best_bid_amount := Some "10";
     LyraClient.ct_best_ask_price := Some "102.5";
     LyraClient.ct_best_ask_amount := Some "10";
     LyraClient.ct_mark_price := "101.5";
     LyraClient.ct_index_price := "3400";
     LyraClient.ct_timestamp := 1704067200000 |}.

Definition oneCallExchange (name : string)
    : Agent.Outcome LyraClient.LyraTicker :=
  if String.eqb name "ETH-20250110-3500-C" then Agent.Returned quotedCall
  else Agent.Thrown "Instrument not found".

(** The body of a request for the prices of two instruments. *)
Definition pricesBody : Agent.json :=
  Agent.JObj
    [ ("instrument_names",
       Agent.JArr [ Agent.JStr "ETH-20250110-3500-C";
                    Agent.JStr "ETH-20250110-9999-C" ]) ].

(** *** Examples in binary64 *)

Import Binary64 LyraTools.

(** Three bought legs worth 302.115, 106.66 and 146.77: 555.545 in all. *)
Definition legA : Leg := leg_of "ETH-20260130-3400-C" buy (fl64 (15 # 10)).
Definition legB : Leg := leg_of "ETH-20260130-3600-C" buy (fl64 2).
Definition legC : Leg := leg_of "ETH-20260130-3800-C" buy (fl64 (5 # 10)).

(** 64.5 contracts at a premium of 4.51, worth 290.895, and one contract
    at a premium of 0.01. *)
Definition bigLeg : Leg := leg_of "ETH-20260130-3500-C" buy (fl64 (645 # 10)).
Definition centLeg (s : Side) : Leg := leg_of "ETH-20260130-3900-C" s (fl64 1).

Definition centPremiums : PremiumMap :=
  [ ("ETH-20260130-3400-C", fl64 (20141 # 100));
    ("ETH-20260130-3600-C", fl64 (5333 # 100));
    ("ETH-20260130-3800-C", fl64 (29354 # 100));
    ("ETH-20260130-3500-C", fl64 (451 # 100));
    ("ETH-20260130-3900-C", fl64 (1 # 100)) ].

(** [parseFloat] on decimal literals: the binary64 number nearest to the
    literal. *)
Definition parseFloat64 (s : string) : Q := fl64 (parseDecimal s).

(** The sample market with one more candidate, quoted 193/207: a spread of
    7% exactly. *)
Definition wideTickers (name : string) : option LyraTicker :=
  if String.eqb name "ETH-S-3500-C" then Some (quote name "193" "207")
  else sampleTickers name.

Definition sampleQuery64 (names : list string) (maxSpread : option Q)
    : list InstrumentWithPricing :=
  LyraTools64.executeFindLiquidOptions parseFloat64 3400 (map candidate names) 0
    wideTickers (findParams maxSpread).

End Examples.

(** * Properties *)

(** ** Comparisons and rounding *)

Lemma num_le_iff a b : num_le a b = true <-> a <= b.
Proof. apply Qle_bool_iff. Qed.

Lemma num_lt_iff a b : num_lt a b = true <-> a < b.
Proof.
  unfold num_lt. rewrite negb_true_iff.
  destruct (Qle_bool b a) eqn:E.
  - apply Qle_bool_iff in E. split; [discriminate | intros H; exfalso; lra].
  - split; [intros _ | reflexivity].
    destruct (Qlt_le_dec a b) as [H | H]; [exact H |].
    apply Qle_bool_iff in H. congruence.
Qed.

Lemma num_le_false_iff a b : num_le a b = false <-> b < a.
Proof.
  rewrite <- num_lt_iff. unfold num_lt, num_le.
  destruct (Qle_bool a b); simpl; split; congruence.
Qed.

Lemma num_lt_false_iff a b : num_lt a b = false <-> b <= a.
Proof.
  rewrite <- num_le_iff. unfold num_lt, num_le.
  destruct (Qle_bool b a); simpl; split; congruence.
Qed.

(** Case analysis on a comparison [num_le a b], each case with the order
    fact it stands for. *)
Ltac case_num_le a b H :=
  destruct (num_le a b) eqn:H;
  [ apply num_le_iff in H | apply num_le_false_iff in H ].

Lemma num_gt_iff a b : num_gt a b = true <-> b < a.
Proof. apply num_lt_iff. Qed.

Lemma num_ge_iff a b : num_ge a b = true <-> b <= a.
Proof. apply num_le_iff. Qed.

Lemma num_ge_false_iff a b : num_ge a b = false <-> a < b.
Proof. apply num_le_false_iff. Qed.

Lemma Math_round_le x : Math_round x <= x + (1 # 2).
Proof. unfold Math_round. apply Qfloor_le. Qed.

Lemma Math_round_gt x : x - (1 # 2) < Math_round x.
Proof.
  unfold Math_round.
  pose proof (Qlt_floor (x + (1 # 2))) as H.
  rewrite inject_Z_plus in H. change (inject_Z 1) with 1 in H. lra.
Qed.

Lemma Math_round_mono x y : x <= y -> Math_round x <= Math_round y.
Proof.
  intros H. unfold Math_round. rewrite <- Zle_Qle.
  apply Qfloor_resp_le. lra.
Qed.

(** Moving the argument up by a whole unit moves the rounding up by at
    least one. *)
Lemma Math_round_step x y : x + 1 <= y -> Math_round x + 1 <= Math_round y.
Proof.
  intros H. unfold Math_round.
  assert (Hz : (Qfloor (x + (1 # 2)) + 1 <= Qfloor (y + (1 # 2)))%Z).
  { apply Z.le_succ_l. rewrite Zlt_Qlt.
    pose proof (Qfloor_le (x + (1 # 2))).
    pose proof (Qlt_floor (y + (1 # 2))) as Hy.
    rewrite inject_Z_plus in Hy. change (inject_Z 1) with 1 in Hy. lra. }
  rewrite Zle_Qle in Hz. rewrite inject_Z_plus in Hz. exact Hz.
Qed.

Lemma round2_comp x y : x == y -> round2 x = round2 y.
Proof.
  intros H. unfold round2, Math_round.
  assert (E : x * 100 + (1 # 2) == y * 100 + (1 # 2)) by (rewrite H; reflexivity).
  now rewrite (Qfloor_comp _ _ E).
Qed.

Lemma round2_scaled x : round2 x * 100 == Math_round (x * 100).
Proof. unfold round2. field. Qed.

Lemma round2_mono x y : x <= y -> round2 x <= round2 y.
Proof.
  intros H.
  assert (M : Math_round (x * 100) <= Math_round (y * 100))
    by (apply Math_round_mono; lra).
  pose proof (round2_scaled x). pose proof (round2_scaled y). lra.
Qed.

Lemma round2_strict x y : x + (1 # 100) <= y -> round2 x + (1 # 100) <= round2 y.
Proof.
  intros H.
  assert (M : Math_round (x * 100) + 1 <= Math_round (y * 100))
    by (apply Math_round_step; lra).
  pose proof (round2_scaled x). pose proof (round2_scaled y). lra.
Qed.

(** Rounding to two decimals moves a number by at most half a cent. *)
Lemma round2_close x : Qabs (round2 x - x) <= 1 # 200.
Proof.
  apply Qabs_Qle_condition.
  pose proof (Math_round_le (x * 100)).
  pose proof (Math_round_gt (x * 100)).
  pose proof (round2_scaled x). split; lra.
Qed.

Lemma round2_zero : round2 0 == 0.
Proof. reflexivity. Qed.

Lemma nat_Q_S (j : nat) : Payoff.nat_Q (S j) == Payoff.nat_Q j + 1.
Proof.
  unfold Payoff.nat_Q. rewrite Nat2Z.inj_succ. unfold Z.succ.
  rewrite inject_Z_plus. reflexivity.
Qed.

Lemma nat_Q_nonneg (j : nat) : 0 <= Payoff.nat_Q j.
Proof.
  unfold Payoff.nat_Q. change 0 with (inject_Z 0). rewrite <- Zle_Qle. lia.
Qed.

(** ** binary64 arithmetic *)

Module Binary64Facts.
Import Binary64.

Lemma two_neq0 : ~ 2 == 0.
Proof. discriminate. Qed.

Lemma twopow_pos (k : Z) : 0 < 2 ^ k.
Proof. apply Qpower_0_lt. reflexivity. Qed.

Lemma twopow_add (a b : Z) : 2 ^ (a + b) == 2 ^ a * 2 ^ b.
Proof. apply Qpower_plus, two_neq0. Qed.

Lemma twopow_opp (k : Z) : 2 ^ (- k) == / 2 ^ k.
Proof. apply Qpower_opp. Qed.

Lemma twopow_cancel (k : Z) : 2 ^ (- k) * 2 ^ k == 1.
Proof.
  rewrite twopow_opp. field. apply Qpower_not_0, two_neq0.
Qed.

Lemma twopow_le (a b : Z) : (a <= b)%Z -> 2 ^ a <= 2 ^ b.
Proof. intros H. apply Qpower_le_compat_l; [exact H | discriminate]. Qed.

Lemma twopow_lt (a b : Z) : (a < b)%Z -> 2 ^ a < 2 ^ b.
Proof. intros H. apply Qpower_lt_compat_l; [exact H | reflexivity]. Qed.

Lemma twopow_lt_inv (a b : Z) : 2 ^ a < 2 ^ b -> (a < b)%Z.
Proof. intros H. apply (Qpower_lt_compat_l_inv 2); [exact H | reflexivity]. Qed.

Lemma twopow_Z (k : Z) : (0 <= k)%Z -> inject_Z (2 ^ k) == 2 ^ k.
Proof. intros H. now rewrite Zpower_Qpower. Qed.

Lemma twopow_S (k : Z) : 2 ^ (k + 1) == 2 * 2 ^ k.
Proof. rewrite twopow_add. change (2 ^ 1) with 2. ring. Qed.

(** *** The binary logarithm *)

Lemma ilog2_spec (q : Q) : 0 < q -> 2 ^ ilog2 q <= q /\ q < 2 ^ (ilog2 q + 1).
Proof.
  intros Hq. destruct q as [n d]. unfold ilog2. cbn [Qnum Qden].
  assert (Hn : (0 < n)%Z).
  { unfold Qlt in Hq. cbn in Hq. lia. }
  set (a := Z.log2 n). set (b := Z.log2 (Zpos d)).
  destruct (Z.log2_spec n Hn) as [Ha1 Ha2]. fold a in Ha1, Ha2.
  destruct (Z.log2_spec (Zpos d) (Pos2Z.is_pos d)) as [Hb1 Hb2]. fold b in Hb1, Hb2.
  assert (Ha0 : (0 <= a)%Z) by apply Z.log2_nonneg.
  assert (Hb0 : (0 <= b)%Z) by apply Z.log2_nonneg.
  assert (Qa1 : 2 ^ a <= inject_Z n).
  { rewrite <- twopow_Z by lia. now rewrite <- Zle_Qle. }
  assert (Qa2 : inject_Z n < 2 ^ (a + 1)).
  { rewrite <- twopow_Z by lia. rewrite <- Zlt_Qlt.
    replace (a + 1)%Z with (Z.succ a) by lia. exact Ha2. }
  assert (Qb1 : 2 ^ b <= inject_Z (Zpos d)).
  { rewrite <- twopow_Z by lia. now rewrite <- Zle_Qle. }
  assert (Qb2 : inject_Z (Zpos d) < 2 ^ (b + 1)).
  { rewrite <- twopow_Z by lia. rewrite <- Zlt_Qlt.
    replace (b + 1)%Z with (Z.succ b) by lia. exact Hb2. }
  assert (Hd : 0 < inject_Z (Zpos d)) by reflexivity.
  assert (Hq' : (n # d) * inject_Z (Zpos d) == inject_Z n).
  { unfold Qeq, Qmult, inject_Z. cbn. lia. }
  pose proof (twopow_pos a) as Pa. pose proof (twopow_pos b) as Pb.
  pose proof (twopow_pos (a - b)) as Pab.
  assert (Eab : 2 ^ (a - b) * 2 ^ b == 2 ^ a).
  { rewrite <- twopow_add. now replace (a - b + b)%Z with a by lia. }
  assert (Up : n # d < 2 ^ (a - b + 1)).
  { rewrite twopow_S.
    apply Qnot_le_lt. intros Hc.
    assert (H : 2 * 2 ^ (a - b) * 2 ^ b <= (n # d) * inject_Z (Zpos d)).
    { apply Qle_trans with ((n # d) * 2 ^ b).
      - apply Qmult_le_compat_r; [exact Hc | lra].
      - rewrite !(Qmult_comm (n # d)). apply Qmult_le_compat_r; [exact Qb1 | lra]. }
    rewrite Hq' in H. rewrite twopow_S in Qa2.
    assert (2 * 2 ^ (a - b) * 2 ^ b == 2 * 2 ^ a) by (rewrite <- Eab; ring).
    lra. }
  assert (Lo : 2 ^ (a - b - 1) <= n # d).
  { apply Qnot_lt_le. intros Hc.
    assert (E1 : 2 ^ (a - b - 1) * 2 ^ (b + 1) == 2 ^ a).
    { rewrite <- twopow_add. now replace (a - b - 1 + (b + 1))%Z with a by lia. }
    pose proof (twopow_pos (a - b - 1)) as P1. pose proof (twopow_pos (b + 1)) as P2.
    assert (H : (n # d) * inject_Z (Zpos d) < 2 ^ (a - b - 1) * 2 ^ (b + 1)).
    { apply Qle_lt_trans with ((n # d) * 2 ^ (b + 1)).
      - rewrite !(Qmult_comm (n # d)). apply Qmult_le_compat_r; [lra | lra].
      - apply Qmult_lt_compat_r; [lra | exact Hc]. }
    rewrite Hq', E1 in H. lra. }
  destruct (Qle_bool (2 ^ (a - b)) (n # d)) eqn:E.
  - apply Qle_bool_iff in E. split; [exact E | exact Up].
  - assert (Hlt : n # d < 2 ^ (a - b)).
    { apply Qnot_le_lt. intros Hc. apply Qle_bool_iff in Hc. congruence. }
    split; [exact Lo |]. now replace (a - b - 1 + 1)%Z with (a - b)%Z by lia.
Qed.

Lemma ilog2_unique (q : Q) (l : Z) :
  2 ^ l <= q -> q < 2 ^ (l + 1) -> ilog2 q = l.
Proof.
  intros H1 H2.
  assert (Hq : 0 < q) by (pose proof (twopow_pos l); lra).
  destruct (ilog2_spec q Hq) as [G1 G2].
  assert (l < ilog2 q + 1)%Z by (apply twopow_lt_inv; lra).
  assert (ilog2 q < l + 1)%Z by (apply twopow_lt_inv; lra).
  lia.
Qed.

Lemma ilog2_comp (x y : Q) : 0 < x -> x == y -> ilog2 x = ilog2 y.
Proof.
  intros Hx E. destruct (ilog2_spec x Hx) as [H1 H2].
  symmetry. apply ilog2_unique; rewrite <- E; assumption.
Qed.

(** *** Rounding to the nearest integer *)

Lemma rne_cases (t : Q) :
  (rne t = Qfloor t /\ t - inject_Z (Qfloor t) <= 1 # 2)
  \/ (rne t = (Qfloor t + 1)%Z /\ 1 # 2 <= t - inject_Z (Qfloor t)).
Proof.
  unfold rne.
  destruct (Qcompare_spec (t - inject_Z (Qfloor t)) (1 # 2)) as [E | E | E].
  - destruct (Z.even (Qfloor t)); [left | right]; split; auto; rewrite E; apply Qle_refl.
  - left. split; [reflexivity | lra].
  - right. split; [reflexivity | lra].
Qed.

Lemma Qfloor_bounds (t : Q) : inject_Z (Qfloor t) <= t /\ t < inject_Z (Qfloor t) + 1.
Proof.
  split; [apply Qfloor_le |].
  pose proof (Qlt_floor t) as H. rewrite inject_Z_plus in H. exact H.
Qed.

Lemma rne_close (t : Q) : Qabs (inject_Z (rne t) - t) <= 1 # 2.
Proof.
  destruct (Qfloor_bounds t) as [H1 H2].
  apply Qabs_Qle_condition.
  destruct (rne_cases t) as [[-> H] | [-> H]].
  - split; lra.
  - rewrite inject_Z_plus. change (inject_Z 1) with 1. split; lra.
Qed.

Lemma rne_comp (t u : Q) : t == u -> rne t = rne u.
Proof.
  intros E. unfold rne. rewrite (Qfloor_comp t u E).
  assert (E' : t - inject_Z (Qfloor u) == u - inject_Z (Qfloor u)) by (rewrite E; reflexivity).
  now rewrite (Qcompare_comp _ _ E' (1 # 2) (1 # 2) (Qeq_refl _)).
Qed.

Lemma rne_Z (n : Z) : rne (inject_Z n) = n.
Proof.
  unfold rne. rewrite Qfloor_Z.
  assert (E : inject_Z n - inject_Z n == 0) by ring.
  now rewrite (Qcompare_comp _ _ E (1 # 2) (1 # 2) (Qeq_refl _)).
Qed.

Lemma rne_mono (t u : Q) : t <= u -> (rne t <= rne u)%Z.
Proof.
  intros H.
  assert (Hf : (Qfloor t <= Qfloor u)%Z) by now apply Qfloor_resp_le.
  destruct (Qfloor_bounds t) as [T1 T2]. destruct (Qfloor_bounds u) as [U1 U2].
  destruct (Z.eq_dec (Qfloor t) (Qfloor u)) as [E | N].
  - unfold rne. rewrite E.
    assert (Hfr : t - inject_Z (Qfloor u) <= u - inject_Z (Qfloor u)) by lra.
    destruct (Qcompare_spec (t - inject_Z (Qfloor u)) (1 # 2)) as [A | A | A];
      destruct (Qcompare_spec (u - inject_Z (Qfloor u)) (1 # 2)) as [B | B | B];
      try destruct (Z.even (Qfloor u)); try lia; lra.
  - assert (Qfloor t + 1 <= Qfloor u)%Z by lia.
    destruct (rne_cases t) as [[-> _] | [-> _]];
      destruct (rne_cases u) as [[-> _] | [-> _]]; lia.
Qed.

Lemma rne_ge (n : Z) (t : Q) : inject_Z n <= t -> (n <= rne t)%Z.
Proof. intros H. rewrite <- (rne_Z n). now apply rne_mono. Qed.

Lemma rne_le (n : Z) (t : Q) : t <= inject_Z n -> (rne t <= n)%Z.
Proof. intros H. rewrite <- (rne_Z n). now apply rne_mono. Qed.

(** *** Rounding to 53 bits *)

Lemma scaled_bounds (q : Q) :
  0 < q ->
  2 ^ 52 <= q * 2 ^ (- (ilog2 q - 52)) /\ q * 2 ^ (- (ilog2 q - 52)) < 2 ^ 53.
Proof.
  intros Hq. destruct (ilog2_spec q Hq) as [H1 H2].
  set (l := ilog2 q) in *.
  pose proof (twopow_pos (- (l - 52))) as Ps.
  assert (E1 : 2 ^ l * 2 ^ (- (l - 52)) == 2 ^ 52).
  { rewrite <- twopow_add. now replace (l + - (l - 52))%Z with 52%Z by lia. }
  assert (E2 : 2 ^ (l + 1) * 2 ^ (- (l - 52)) == 2 ^ 53).
  { rewrite <- twopow_add. now replace (l + 1 + - (l - 52))%Z with 53%Z by lia. }
  split.
  - rewrite <- E1. apply Qmult_le_compat_r; [exact H1 | lra].
  - rewrite <- E2. apply Qmult_lt_compat_r; [lra | exact H2].
Qed.

Lemma mantissa_bounds (q : Q) :
  0 < q ->
  (2 ^ 52 <= rne (q * 2 ^ (- (ilog2 q - 52))) <= 2 ^ 53)%Z.
Proof.
  intros Hq. destruct (scaled_bounds q Hq) as [H1 H2]. split.
  - apply rne_ge. rewrite twopow_Z by lia. exact H1.
  - apply rne_le. rewrite twopow_Z by lia. lra.
Qed.

Lemma round53_bounds (q : Q) :
  0 < q -> 2 ^ ilog2 q <= round53 q /\ round53 q <= 2 ^ (ilog2 q + 1).
Proof.
  intros Hq. unfold round53. destruct (mantissa_bounds q Hq) as [H1 H2].
  set (l := ilog2 q) in *. set (m := rne _) in *.
  pose proof (twopow_pos (l - 52)) as Pe.
  assert (E1 : 2 ^ 52 * 2 ^ (l - 52) == 2 ^ l).
  { rewrite <- twopow_add. now replace (52 + (l - 52))%Z with l by lia. }
  assert (E2 : 2 ^ 53 * 2 ^ (l - 52) == 2 ^ (l + 1)).
  { rewrite <- twopow_add. now replace (53 + (l - 52))%Z with (l + 1)%Z by lia. }
  assert (M1 : 2 ^ 52 <= inject_Z m).
  { rewrite <- twopow_Z by lia. now rewrite <- Zle_Qle. }
  assert (M2 : inject_Z m <= 2 ^ 53).
  { rewrite <- twopow_Z by lia. now rewrite <- Zle_Qle. }
  split.
  - rewrite <- E1. apply Qmult_le_compat_r; [exact M1 | lra].
  - rewrite <- E2. apply Qmult_le_compat_r; [exact M2 | lra].
Qed.

Lemma round53_pos (q : Q) : 0 < q -> 0 < round53 q.
Proof.
  intros Hq. destruct (round53_bounds q Hq) as [H _].
  pose proof (twopow_pos (ilog2 q)). lra.
Qed.

Lemma round53_err (q : Q) :
  0 < q -> Qabs (round53 q - q) <= 2 ^ (ilog2 q - 53).
Proof.
  intros Hq. unfold round53. set (e := (ilog2 q - 52)%Z).
  set (t := q * 2 ^ (- e)).
  pose proof (rne_close t) as Hc.
  pose proof (twopow_pos e) as Pe.
  assert (Et : q == t * 2 ^ e).
  { unfold t. rewrite <- Qmult_assoc, twopow_cancel. ring. }
  assert (Ed : inject_Z (rne t) * 2 ^ e - q == (inject_Z (rne t) - t) * 2 ^ e).
  { rewrite Et at 1. ring. }
  rewrite Ed, Qabs_Qmult, (Qabs_pos (2 ^ e)) by lra.
  assert (Eh : 2 ^ (ilog2 q - 53) == (1 # 2) * 2 ^ e).
  { unfold e. replace (ilog2 q - 53)%Z with (-1 + (ilog2 q - 52))%Z by lia.
    rewrite twopow_add. reflexivity. }
  rewrite Eh. apply Qmult_le_compat_r; [exact Hc | lra].
Qed.

Lemma ilog2_mono (x y : Q) : 0 < x -> x <= y -> (ilog2 x <= ilog2 y)%Z.
Proof.
  intros Hx Hxy.
  destruct (ilog2_spec x Hx) as [X1 _].
  destruct (ilog2_spec y) as [_ Y2]; [lra |].
  assert (ilog2 x < ilog2 y + 1)%Z by (apply twopow_lt_inv; lra).
  lia.
Qed.

Lemma round53_mono (x y : Q) : 0 < x -> x <= y -> round53 x <= round53 y.
Proof.
  intros Hx Hxy. assert (Hy : 0 < y) by lra.
  pose proof (ilog2_mono x y Hx Hxy) as Hl.
  destruct (Z.eq_dec (ilog2 x) (ilog2 y)) as [E | N].
  - unfold round53. rewrite E. set (e := (ilog2 y - 52)%Z).
    pose proof (twopow_pos e) as Pe. pose proof (twopow_pos (- e)) as Pe'.
    apply Qmult_le_compat_r; [| lra].
    rewrite <- Zle_Qle. apply rne_mono.
    apply Qmult_le_compat_r; [exact Hxy | lra].
  - destruct (round53_bounds x Hx) as [_ X2].
    destruct (round53_bounds y Hy) as [Y1 _].
    assert (2 ^ (ilog2 x + 1) <= 2 ^ ilog2 y) by (apply twopow_le; lia).
    lra.
Qed.

Lemma round53_comp (x y : Q) : 0 < x -> x == y -> round53 x = round53 y.
Proof.
  intros Hx E. unfold round53. rewrite (ilog2_comp x y Hx E).
  f_equal. f_equal. apply rne_comp. now rewrite E.
Qed.

(** A number of at most 53 bits, scaled by a power of 2, is not changed. *)
Lemma round53_exact (n k : Z) :
  (0 < n < 2 ^ 53)%Z -> round53 (inject_Z n * 2 ^ k) == inject_Z n * 2 ^ k.
Proof.
  intros [Hn1 Hn2].
  set (a := Z.log2 n).
  destruct (Z.log2_spec n Hn1) as [A1 A2]. fold a in A1, A2.
  assert (Ha0 : (0 <= a)%Z) by apply Z.log2_nonneg.
  assert (Ha : (a <= 52)%Z).
  { assert (2 ^ a < 2 ^ 53)%Z by lia.
    apply Z.pow_lt_mono_r_iff in H; lia. }
  pose proof (twopow_pos k) as Pk.
  assert (Q1 : 2 ^ a <= inject_Z n).
  { rewrite <- twopow_Z by lia. now rewrite <- Zle_Qle. }
  assert (Q2 : inject_Z n < 2 ^ (a + 1)).
  { rewrite <- twopow_Z by lia. rewrite <- Zlt_Qlt.
    replace (a + 1)%Z with (Z.succ a) by lia. exact A2. }
  assert (El : ilog2 (inject_Z n * 2 ^ k) = (a + k)%Z).
  { apply ilog2_unique.
    - rewrite twopow_add. apply Qmult_le_compat_r; [exact Q1 | lra].
    - replace (a + k + 1)%Z with (a + 1 + k)%Z by lia. rewrite twopow_add.
      apply Qmult_lt_compat_r; [lra | exact Q2]. }
  unfold round53. rewrite El.
  assert (Et : inject_Z n * 2 ^ k * 2 ^ (- (a + k - 52))
               == inject_Z (n * 2 ^ (52 - a))).
  { rewrite inject_Z_mult, twopow_Z by lia.
    rewrite <- Qmult_assoc, <- twopow_add.
    now replace (k + - (a + k - 52))%Z with (52 - a)%Z by lia. }
  rewrite (rne_comp _ _ Et), rne_Z.
  rewrite inject_Z_mult, twopow_Z by lia.
  rewrite <- Qmult_assoc, <- twopow_add.
  now replace (52 - a + (a + k - 52))%Z with k by lia.
Qed.

(** *** Rounding to binary64 *)

Lemma Qnum_pos (q : Q) : 0 < q <-> exists p, Qnum q = Zpos p.
Proof.
  destruct q as [n d]. unfold Qlt. cbn. split.
  - intros H. destruct n; try lia. now exists p.
  - intros [p ->]. lia.
Qed.

Lemma Qnum_neg (q : Q) : q < 0 <-> exists p, Qnum q = Zneg p.
Proof.
  destruct q as [n d]. unfold Qlt. cbn. split.
  - intros H. destruct n; try lia. now exists p.
  - intros [p ->]. lia.
Qed.

Lemma Qnum_zero (q : Q) : q == 0 <-> Qnum q = 0%Z.
Proof. destruct q as [n d]. unfold Qeq. cbn. lia. Qed.

Lemma fl64_pos_eq (q : Q) : 0 < q -> fl64 q = Qred (round53 q).
Proof. intros H. apply Qnum_pos in H. destruct H as [p H]. unfold fl64. now rewrite H. Qed.

Lemma fl64_neg_eq (q : Q) : q < 0 -> fl64 q = Qred (- round53 (- q)).
Proof. intros H. apply Qnum_neg in H. destruct H as [p H]. unfold fl64. now rewrite H. Qed.

Lemma fl64_zero_eq (q : Q) : q == 0 -> fl64 q = 0.
Proof. intros H. apply Qnum_zero in H. unfold fl64. now rewrite H. Qed.

Lemma fl64_pos_val (q : Q) : 0 < q -> fl64 q == round53 q.
Proof. intros H. rewrite (fl64_pos_eq q H). apply Qred_correct. Qed.

Lemma fl64_neg_val (q : Q) : q < 0 -> fl64 q == - round53 (- q).
Proof. intros H. rewrite (fl64_neg_eq q H). apply Qred_correct. Qed.

Lemma fl64_comp (x y : Q) : x == y -> fl64 x = fl64 y.
Proof.
  intros E. destruct (Q_dec x 0) as [[H | H] | H].
  - rewrite (fl64_neg_eq x H), (fl64_neg_eq y) by (rewrite <- E; exact H).
    apply Qred_complete.
    rewrite (round53_comp (- x) (- y)); [reflexivity | lra | now rewrite E].
  - rewrite (fl64_pos_eq x H), (fl64_pos_eq y) by (rewrite <- E; exact H).
    apply Qred_complete. now rewrite (round53_comp x y H E).
  - rewrite (fl64_zero_eq x H), (fl64_zero_eq y) by (rewrite <- E; exact H).
    reflexivity.
Qed.

Lemma fl64_0 : fl64 0 = 0.
Proof. reflexivity. Qed.

Lemma fl64_opp (q : Q) : fl64 (- q) == - fl64 q.
Proof.
  destruct (Q_dec q 0) as [[H | H] | H].
  - rewrite (fl64_neg_val q H), (fl64_pos_val (- q)) by lra. ring.
  - rewrite (fl64_pos_val q H), (fl64_neg_val (- q)) by lra.
    rewrite (round53_comp (- - q) q); [reflexivity | lra | ring].
  - rewrite (fl64_zero_eq q H), (fl64_zero_eq (- q)) by lra. reflexivity.
Qed.

Lemma fl64_pos (q : Q) : 0 < q -> 0 < fl64 q.
Proof. intros H. rewrite (fl64_pos_val q H). now apply round53_pos. Qed.

Lemma fl64_neg (q : Q) : q < 0 -> fl64 q < 0.
Proof.
  intros H. rewrite (fl64_neg_val q H).
  assert (0 < round53 (- q)) by (apply round53_pos; lra). lra.
Qed.

Lemma fl64_nonneg (q : Q) : 0 <= q -> 0 <= fl64 q.
Proof.
  intros H. destruct (Qlt_le_dec 0 q) as [P | N].
  - apply Qlt_le_weak. now apply fl64_pos.
  - rewrite (fl64_zero_eq q) by lra. apply Qle_refl.
Qed.

Lemma fl64_mono (x y : Q) : x <= y -> fl64 x <= fl64 y.
Proof.
  intros H.
  destruct (Q_dec x 0) as [[Hx | Hx] | Hx].
  - destruct (Q_dec y 0) as [[Hy | Hy] | Hy].
    + rewrite (fl64_neg_val x Hx), (fl64_neg_val y Hy).
      assert (round53 (- y) <= round53 (- x)) by (apply round53_mono; lra). lra.
    + pose proof (fl64_neg x Hx). pose proof (fl64_pos y Hy). lra.
    + pose proof (fl64_neg x Hx). rewrite (fl64_zero_eq y Hy). lra.
  - assert (Hy : 0 < y) by lra.
    rewrite (fl64_pos_val x Hx), (fl64_pos_val y Hy). now apply round53_mono.
  - rewrite (fl64_zero_eq x Hx). apply fl64_nonneg. lra.
Qed.

(** The relative error of a rounding is at most [2^-53]. *)
Lemma fl64_err (q : Q) : Qabs (fl64 q - q) <= Qabs q * 2 ^ (-53).
Proof.
  assert (P : forall x, 0 < x -> Qabs (round53 x - x) <= x * 2 ^ (-53)).
  { intros x Hx. eapply Qle_trans; [apply (round53_err x Hx) |].
    destruct (ilog2_spec x Hx) as [H1 _].
    replace (ilog2 x - 53)%Z with (ilog2 x + -53)%Z by lia. rewrite twopow_add.
    apply Qmult_le_compat_r; [exact H1 |]. pose proof (twopow_pos (-53)). lra. }
  destruct (Q_dec q 0) as [[H | H] | H].
  - rewrite (fl64_neg_val q H), (Qabs_neg q) by lra.
    assert (E : - round53 (- q) - q == - (round53 (- q) - - q)) by ring.
    rewrite E, Qabs_opp. apply P. lra.
  - rewrite (fl64_pos_val q H), (Qabs_pos q) by lra. now apply P.
  - rewrite (fl64_zero_eq q H).
    assert (E : 0 - q == 0) by lra. rewrite E. cbn [Qabs Z.abs Qnum].
    apply Qmult_le_0_compat; [apply Qabs_nonneg |]. pose proof (twopow_pos (-53)). lra.
Qed.

(** A number of at most 53 bits, scaled by a power of 2, is a binary64
    number. *)
Lemma fl64_exact (n k : Z) :
  (Z.abs n < 2 ^ 53)%Z -> fl64 (inject_Z n * 2 ^ k) == inject_Z n * 2 ^ k.
Proof.
  intros Hn. pose proof (twopow_pos k) as Pk.
  destruct (Z.lt_trichotomy n 0) as [N | [Z0 | P]].
  - assert (Hq : inject_Z n * 2 ^ k < 0).
    { assert (inject_Z n < 0) by (rewrite Zlt_Qlt in N; exact N).
      setoid_replace (inject_Z n * 2 ^ k) with (- ((- inject_Z n) * 2 ^ k)) by ring.
      assert (0 < - inject_Z n * 2 ^ k) by (apply Qmult_lt_0_compat; lra). lra. }
    rewrite (fl64_neg_val _ Hq).
    assert (E : - (inject_Z n * 2 ^ k) == inject_Z (- n) * 2 ^ k).
    { rewrite inject_Z_opp. ring. }
    assert (Hp : 0 < - (inject_Z n * 2 ^ k)) by lra.
    rewrite (round53_comp _ _ Hp E), round53_exact by lia.
    rewrite inject_Z_opp. ring.
  - subst n. rewrite fl64_zero_eq; [ring | ring].
  - assert (Hq : 0 < inject_Z n * 2 ^ k).
    { apply Qmult_lt_0_compat; [| lra]. rewrite Zlt_Qlt in P. exact P. }
    rewrite (fl64_pos_val _ Hq). apply round53_exact. lia.
Qed.

Lemma fl64_Z (n : Z) : (Z.abs n <= 2 ^ 53)%Z -> fl64 (inject_Z n) == inject_Z n.
Proof.
  intros H.
  destruct (Z.eq_dec (Z.abs n) (2 ^ 53)) as [E | N].
  - assert (C : n = (2 ^ 53)%Z \/ n = (- 2 ^ 53)%Z) by lia.
    destruct C as [-> | ->].
    + pose proof (fl64_exact 1 53 ltac:(lia)) as X.
      rewrite (fl64_comp (inject_Z (2 ^ 53)) (inject_Z 1 * 2 ^ 53)) by reflexivity.
      rewrite X. reflexivity.
    + pose proof (fl64_exact (-1) 53 ltac:(lia)) as X.
      rewrite (fl64_comp (inject_Z (- 2 ^ 53)) (inject_Z (-1) * 2 ^ 53)) by reflexivity.
      rewrite X. reflexivity.
  - pose proof (fl64_exact n 0 ltac:(lia)) as X.
    rewrite (fl64_comp (inject_Z n) (inject_Z n * 2 ^ 0)) by (change (2 ^ 0) with 1; ring).
    rewrite X. change (2 ^ 0) with 1. ring.
Qed.

(** What rounding returns is a binary64 number. *)
Lemma fl64_idem (q : Q) : fl64 (fl64 q) = fl64 q.
Proof.
  assert (P : forall x, 0 < x -> fl64 (round53 x) == round53 x).
  { intros x Hx. unfold round53.
    destruct (mantissa_bounds x Hx) as [M1 M2].
    set (m := rne _) in *. set (e := (ilog2 x - 52)%Z).
    destruct (Z.eq_dec m (2 ^ 53)) as [E | N].
    - rewrite E.
      assert (Ev : inject_Z (2 ^ 53) * 2 ^ e == inject_Z (2 ^ 52) * 2 ^ (e + 1)).
      { rewrite !twopow_Z by lia. rewrite <- !twopow_add.
        now replace (53 + e)%Z with (52 + (e + 1))%Z by lia. }
      rewrite (fl64_comp _ _ Ev), Ev. apply fl64_exact. lia.
    - apply fl64_exact. lia. }
  assert (V : fl64 (fl64 q) == fl64 q).
  { destruct (Q_dec q 0) as [[H | H] | H].
    - rewrite (fl64_comp (fl64 q) (- round53 (- q))) by (now apply fl64_neg_val).
      rewrite (fl64_neg_val q H), fl64_opp, P by lra. reflexivity.
    - rewrite (fl64_comp (fl64 q) (round53 q)) by (now apply fl64_pos_val).
      rewrite (fl64_pos_val q H). now apply P.
    - rewrite (fl64_zero_eq q H). reflexivity. }
  assert (R : forall x, fl64 x = Qred (fl64 x)).
  { intros x. unfold fl64. destruct (Qnum x); [reflexivity | |];
      symmetry; apply Qred_complete, Qred_correct. }
  rewrite (R (fl64 q)).
  etransitivity; [apply Qred_complete; exact V | symmetry; apply R].
Qed.

Lemma Qred_Z (n : Z) : Qred (inject_Z n) = inject_Z n.
Proof.
  unfold Qred, inject_Z.
  pose proof (Z.ggcd_gcd n 1) as G. pose proof (Z.ggcd_correct_divisors n 1) as D.
  destruct (Z.ggcd n 1%Z) as [g [a b]]. cbn [fst snd] in *.
  rewrite Z.gcd_1_r in G. subst g. destruct D as [D1 D2].
  rewrite !Z.mul_1_l in *. subst. reflexivity.
Qed.

Lemma fl64_Qred (x : Q) : fl64 x = Qred (fl64 x).
Proof.
  unfold fl64. destruct (Qnum x); [reflexivity | |];
    symmetry; apply Qred_complete, Qred_correct.
Qed.

(** An integer of at most 53 bits is a binary64 number. *)
Lemma fl64_Z_eq (n : Z) : (Z.abs n <= 2 ^ 53)%Z -> fl64 (inject_Z n) = inject_Z n.
Proof.
  intros H. rewrite fl64_Qred.
  transitivity (Qred (inject_Z n)); [apply Qred_complete; now apply fl64_Z | apply Qred_Z].
Qed.

(** Scaling by a power of 2 commutes with rounding. *)
Lemma fl64_scale (q : Q) (k : Z) : fl64 (q * 2 ^ k) == fl64 q * 2 ^ k.
Proof.
  pose proof (twopow_pos k) as Pk.
  assert (P : forall x, 0 < x -> round53 (x * 2 ^ k) == round53 x * 2 ^ k).
  { intros x Hx. destruct (ilog2_spec x Hx) as [H1 H2].
    assert (El : ilog2 (x * 2 ^ k) = (ilog2 x + k)%Z).
    { apply ilog2_unique.
      - rewrite twopow_add. apply Qmult_le_compat_r; [exact H1 | lra].
      - replace (ilog2 x + k + 1)%Z with (ilog2 x + 1 + k)%Z by lia. rewrite twopow_add.
        apply Qmult_lt_compat_r; [lra | exact H2]. }
    unfold round53. rewrite El.
    assert (Et : x * 2 ^ k * 2 ^ (- (ilog2 x + k - 52)) == x * 2 ^ (- (ilog2 x - 52))).
    { rewrite <- Qmult_assoc, <- twopow_add.
      now replace (k + - (ilog2 x + k - 52))%Z with (- (ilog2 x - 52))%Z by lia. }
    rewrite (rne_comp _ _ Et).
    rewrite <- Qmult_assoc, <- twopow_add.
    now replace (ilog2 x - 52 + k)%Z with (ilog2 x + k - 52)%Z by lia. }
  destruct (Q_dec q 0) as [[H | H] | H].
  - assert (Hq : q * 2 ^ k < 0).
    { setoid_replace (q * 2 ^ k) with (- ((- q) * 2 ^ k)) by ring.
      assert (0 < - q * 2 ^ k) by (apply Qmult_lt_0_compat; lra). lra. }
    rewrite (fl64_neg_val _ Hq), (fl64_neg_val q H).
    assert (E : - (q * 2 ^ k) == - q * 2 ^ k) by ring.
    assert (Hp : 0 < - (q * 2 ^ k)) by lra.
    rewrite (round53_comp _ _ Hp E), P by lra. ring.
  - assert (Hq : 0 < q * 2 ^ k) by (apply Qmult_lt_0_compat; lra).
    rewrite (fl64_pos_val _ Hq), (fl64_pos_val q H). now apply P.
  - rewrite (fl64_zero_eq q H), fl64_zero_eq; [ring | rewrite H; ring].
Qed.

Lemma unit_roundoff_bounds :
  0 < unit_roundoff /\ unit_roundoff * inject_Z (2 ^ 53) == 1.
Proof.
  unfold unit_roundoff. split; [apply twopow_pos |]. reflexivity.
Qed.

Lemma unit_roundoff_small : unit_roundoff <= 1 # 1000000.
Proof.
  destruct unit_roundoff_bounds as [U0 U1].
  assert (E : inject_Z (2 ^ 53) == 1000000 + inject_Z (2 ^ 53 - 1000000)) by reflexivity.
  assert (P : 0 <= inject_Z (2 ^ 53 - 1000000)) by (vm_compute; discriminate).
  rewrite E in U1. set (r := inject_Z (2 ^ 53 - 1000000)) in *. clearbody r.
  set (u := unit_roundoff) in *. clearbody u.
  assert (0 <= u * r) by (apply Qmult_le_0_compat; lra). lra.
Qed.

Lemma fl64_err_bounds (q : Q) :
  - (Qabs q * unit_roundoff) <= fl64 q - q /\ fl64 q - q <= Qabs q * unit_roundoff.
Proof. apply Qabs_Qle_condition, fl64_err. Qed.

Lemma Qabs_bounds (q : Q) : 0 <= Qabs q /\ - Qabs q <= q /\ q <= Qabs q.
Proof.
  split; [apply Qabs_nonneg |]. apply Qabs_Qle_condition. lra.
Qed.

(** The rounding of a number that is not negative, within its relative
    error. *)
Lemma fl64_rel (x : Q) :
  0 <= x ->
  x * (1 - unit_roundoff) <= fl64 x /\ fl64 x <= x * (1 + unit_roundoff).
Proof.
  intros Hx. destruct (fl64_err_bounds x) as [H1 H2].
  rewrite (Qabs_pos x Hx) in H1, H2. split; lra.
Qed.

End Binary64Facts.

(** ** SafetyGate *)

Module SafetyFacts.

Import Safety.

Lemma Math_max_upper xs m :
  Math_max xs = Some m -> Forall (fun x => x <= m) xs.
Proof.
  revert m. induction xs as [| x rest IH]; intros m H; [constructor |].
  simpl in H. destruct (Math_max rest) as [m' |] eqn:E.
  - specialize (IH m' eq_refl).
    destruct (num_le m' x) eqn:L; inversion H; subst; clear H.
    + apply num_le_iff in L. constructor; [lra |].
      eapply Forall_impl; [| exact IH]. simpl. intros a Ha. lra.
    + apply num_le_false_iff in L. constructor; [lra | exact IH].
  - inversion H; subst. destruct rest; [| simpl in E; destruct (Math_max rest); discriminate].
    constructor; [lra | constructor].
Qed.

Lemma Math_max_mem xs m : Math_max xs = Some m -> In m xs.
Proof.
  revert m. induction xs as [| x rest IH]; intros m H; [discriminate |].
  simpl in H. destruct (Math_max rest) as [m' |] eqn:E.
  - destruct (num_le m' x); inversion H; subst; [now left | right; now apply IH].
  - inversion H; now left.
Qed.

Lemma Math_max_none xs : Math_max xs = None <-> xs = [].
Proof.
  destruct xs as [| x rest]; simpl; [tauto |].
  destruct (Math_max rest); split; discriminate.
Qed.

(** The contracts check of the source ([Math.max] of the amounts against the
    limit) says that every leg is within the limit. *)
Lemma contracts_check_all (ls : list Leg) (limit : Q) :
  match Math_max (map amount ls) with
  | None => true
  | Some m => num_le m limit
  end = true
  <-> Forall (fun l => amount l <= limit) ls.
Proof.
  destruct (Math_max (map amount ls)) as [m |] eqn:E.
  - rewrite num_le_iff. split.
    + intros Hm. apply Math_max_upper in E. rewrite Forall_map in E.
      eapply Forall_impl; [| exact E]. simpl. intros l Hl. lra.
    + intros Hall. apply Math_max_mem in E. apply in_map_iff in E.
      destruct E as [l [<- Hin]]. rewrite Forall_forall in Hall. now apply Hall.
  - apply Math_max_none in E. apply map_eq_nil in E. subst. split; auto.
Qed.

Section GateFacts.

Variable parseFloat : string -> Q.
Variable toFixed : Q -> nat -> string.
Variable numToString : Q -> string.

Let config := getSafetyConfig parseFloat.
Let run := runSafetyChecks parseFloat toFixed numToString.
Let validate := validateTradeBeforeExecution parseFloat numToString.

(** C1.  [runSafetyChecks] sets [all_passed] exactly when the cost check
    passes ([estimatedCost <= maxTradeCostUsd]), the contracts check passes
    (the largest leg amount, hence every leg amount, is at most
    [maxContractsPerLeg]) and the spread check passes or safe mode is off.
    A cost equal to the maximum passes, a cost above it fails; with safe mode
    off the spread check does not matter; a failed cost or contracts check
    blocks whatever safe mode says. *)
Theorem runSafetyChecks_all_passed
    (env : ProcessEnv) (t : TradeSpec) (estimatedCost : Q) (spreadPercent : option Q) :
  let cfg := config env in
  let r := run env t estimatedCost spreadPercent in
  (passes_max_cost r = true <-> estimatedCost <= maxTradeCostUsd cfg)
  /\ (passes_max_contracts r = true
      <-> match Math_max (map amount (legs t)) with
          | None => True
          | Some m => m <= maxContractsPerLeg cfg
          end)
  /\ (passes_max_contracts r = true
      <-> Forall (fun l => amount l <= maxContractsPerLeg cfg) (legs t))
  /\ (passes_spread_check r = true
      <-> match spreadPercent with
          | None => True
          | Some sp => sp <= maxSpreadPercent cfg
          end)
  /\ (all_passed r = true
      <-> passes_max_cost r = true /\ passes_max_contracts r = true
          /\ (passes_spread_check r = true \/ safeModeEnabled cfg = false))
  /\ (estimatedCost == maxTradeCostUsd cfg -> passes_max_cost r = true)
  /\ (maxTradeCostUsd cfg < estimatedCost
      -> passes_max_cost r = false /\ all_passed r = false)
  /\ (safeModeEnabled cfg = false
      -> all_passed r = passes_max_cost r && passes_max_contracts r)
  /\ (passes_max_cost r = false \/ passes_max_contracts r = false
      -> all_passed r = false).
Proof.
  intros cfg r.
  assert (Hcost : passes_max_cost r = true <-> estimatedCost <= maxTradeCostUsd cfg)
    by (subst r cfg; unfold run, runSafetyChecks; simpl; apply num_le_iff).
  assert (Hall : all_passed r
                 = passes_max_cost r && passes_max_contracts r
                     && (passes_spread_check r || negb (safeModeEnabled cfg)))
    by reflexivity.
  repeat split.
  - apply Hcost.
  - apply Hcost.
  - subst r cfg; unfold run, runSafetyChecks; simpl.
    destruct (Math_max (map amount (legs t))); [apply num_le_iff | auto].
  - subst r cfg; unfold run, runSafetyChecks; simpl.
    destruct (Math_max (map amount (legs t))); [apply num_le_iff | auto].
  - intros H. apply contracts_check_all. exact H.
  - intros H. apply contracts_check_all in H. exact H.
  - subst r cfg; unfold run, runSafetyChecks; simpl.
    destruct spreadPercent; [apply num_le_iff | auto].
  - subst r cfg; unfold run, runSafetyChecks; simpl.
    destruct spreadPercent; [apply num_le_iff | auto].
  - rewrite Hall in H. apply andb_true_iff in H. destruct H as [H _].
    apply andb_true_iff in H. tauto.
  - rewrite Hall in H. apply andb_true_iff in H. destruct H as [H _].
    apply andb_true_iff in H. tauto.
  - rewrite Hall in H. apply andb_true_iff in H. destruct H as [_ H].
    apply orb_true_iff in H. rewrite negb_true_iff in H. exact H.
  - intros [Hc [Hk Hs]]. rewrite Hall, Hc, Hk. simpl.
    apply orb_true_iff. rewrite negb_true_iff. exact Hs.
  - intros E. apply Hcost. rewrite E. apply Qle_refl.
  - destruct (passes_max_cost r) eqn:E; [| reflexivity].
    pose proof (proj1 Hcost eq_refl). lra.
  - rewrite Hall. destruct (passes_max_cost r) eqn:E; [| reflexivity].
    pose proof (proj1 Hcost eq_refl). lra.
  - intros Hs. rewrite Hall, Hs. simpl. now rewrite orb_true_r, andb_true_r.
  - intros [Hc | Hk]; rewrite Hall.
    + now rewrite Hc.
    + rewrite Hk. now rewrite andb_false_r.
Qed.

(** C8.  [validateTradeBeforeExecution] allows whenever safe mode is off;
    with safe mode on it denies on a failed cost check, else on a failed
    contracts check, else on a non-empty [errors] list (joined with "; "),
    each with its own reason, and allows otherwise. *)
Theorem validateTradeBeforeExecution_priority
    (env : ProcessEnv) (preview : TradePreview) :
  let cfg := config env in
  let sc := safety_checks preview in
  let v := validate env preview in
  (safeModeEnabled cfg = false -> v = {| canExecute := true; reason := None |})
  /\ (safeModeEnabled cfg = true -> passes_max_cost sc = false
      -> v = {| canExecute := false;
                reason := Some ("Trade cost exceeds maximum of $"
                                  ++ numToString (maxTradeCostUsd cfg)) |})
  /\ (safeModeEnabled cfg = true -> passes_max_cost sc = true
      -> passes_max_contracts sc = false
      -> v = {| canExecute := false;
                reason := Some ("Contracts per leg exceeds maximum of "
                                  ++ numToString (maxContractsPerLeg cfg)) |})
  /\ (safeModeEnabled cfg = true -> passes_max_cost sc = true
      -> passes_max_contracts sc = true -> errors sc <> []
      -> v = {| canExecute := false;
                reason := Some (String.concat "; " (errors sc)) |})
  /\ (safeModeEnabled cfg = true -> passes_max_cost sc = true
      -> passes_max_contracts sc = true -> errors sc = []
      -> v = {| canExecute := true; reason := None |}).
Proof.
  intros cfg sc v. subst v cfg sc.
  unfold validate, validateTradeBeforeExecution, config.
  repeat split.
  - intros ->. reflexivity.
  - intros -> ->. reflexivity.
  - intros -> -> ->. reflexivity.
  - intros -> -> -> Hne. simpl.
    destruct (errors (safety_checks preview)); [congruence | reflexivity].
  - intros -> -> -> ->. reflexivity.
Qed.

(** C10.  The [errors] of [runSafetyChecks] are the cost error, if the cost
    check failed, followed by the contracts error, if the contracts check
    failed: the list is empty exactly when both passed.  The spread and the
    [max_loss_usd] of the trade only reach [warnings].  So on a preview that
    carries such a result the re-check never takes its errors branch: it
    allows or denies by the cost and contracts flags alone. *)
Theorem runSafetyChecks_errors
    (env : ProcessEnv) (t : TradeSpec) (estimatedCost : Q) (spreadPercent : option Q) :
  let cfg := config env in
  let r := run env t estimatedCost spreadPercent in
  (errors r <> [] <-> passes_max_cost r = false \/ passes_max_contracts r = false)
  /\ errors r
     = ((if passes_max_cost r then [] else [costError toFixed numToString cfg estimatedCost])
        ++ match Math_max (map amount (legs t)) with
           | Some m => if passes_max_contracts r then []
                       else [contractsError numToString cfg m]
           | None => []
           end)%list
  /\ (forall (t' : TradeSpec) (spread' : option Q),
        legs t' = legs t ->
        errors (run env t' estimatedCost spread') = errors r)
  /\ (forall w, In w (warnings r) ->
        (exists sp, spreadPercent = Some sp /\ passes_spread_check r = false
                    /\ w = spreadWarning toFixed numToString cfg sp)
        \/ (spreadPercent = None
            /\ w = "Could not calculate bid-ask spread - no liquidity data")
        \/ (maxTradeCostUsd cfg < max_loss_usd t
            /\ w = maxLossWarning numToString cfg t))
  /\ (forall (env' : ProcessEnv) (preview : TradePreview),
        safety_checks preview = r ->
        validate env' preview
        = if negb (safeModeEnabled (config env')) then
            {| canExecute := true; reason := None |}
          else if negb (passes_max_cost r) then
            {| canExecute := false;
               reason := Some ("Trade cost exceeds maximum of $"
                                 ++ numToString (maxTradeCostUsd (config env'))) |}
          else if negb (passes_max_contracts r) then
            {| canExecute := false;
               reason := Some ("Contracts per leg exceeds maximum of "
                                 ++ numToString (maxContractsPerLeg (config env'))) |}
          else {| canExecute := true; reason := None |}).
Proof.
  intros cfg r.
  assert (Herr : errors r
     = ((if passes_max_cost r then [] else [costError toFixed numToString cfg estimatedCost])
        ++ match Math_max (map amount (legs t)) with
           | Some m => if passes_max_contracts r then []
                       else [contractsError numToString cfg m]
           | None => []
           end)%list).
  { subst r cfg. unfold run, runSafetyChecks, config. simpl.
    destruct (Math_max (map amount (legs t))) as [m |].
    - destruct (num_le m _); [now rewrite app_nil_r | reflexivity].
    - now rewrite app_nil_r. }
  assert (Hiff : errors r <> []
                 <-> passes_max_cost r = false \/ passes_max_contracts r = false).
  { rewrite Herr. subst r cfg. unfold run, runSafetyChecks, config. simpl.
    destruct (num_le estimatedCost _);
      destruct (Math_max (map amount (legs t))) as [m |];
      try destruct (num_le m _); simpl; split; intros H;
      try congruence; try tauto; try (now left); try (now right);
      destruct H; congruence. }
  split; [exact Hiff |]. split; [exact Herr |]. split; [| split].
  - intros t' spread' Hl. subst r cfg. unfold run, runSafetyChecks, config.
    simpl. rewrite Hl. reflexivity.
  - intros w Hin. subst r cfg. unfold run, runSafetyChecks, config in *.
    simpl in *.
    destruct (num_gt (max_loss_usd t) _) eqn:G.
    + apply in_app_or in Hin. destruct Hin as [Hin | [<- | []]].
      * destruct spreadPercent as [sp |].
        -- destruct (num_le sp _) eqn:L; [destruct Hin |].
           destruct Hin as [<- | []]. left. exists sp. auto.
        -- destruct Hin as [<- | []]. right. left. auto.
      * right. right. apply num_gt_iff in G. auto.
    + destruct spreadPercent as [sp |].
      * destruct (num_le sp _) eqn:L; [destruct Hin |].
        destruct Hin as [<- | []]. left. exists sp. auto.
      * destruct Hin as [<- | []]. right. left. auto.
  - intros env' preview Hsc.
    unfold validate, validateTradeBeforeExecution. rewrite Hsc. fold (config env').
    destruct (negb (safeModeEnabled (config env'))); [reflexivity |].
    destruct (passes_max_cost r) eqn:Hc; [| reflexivity].
    destruct (passes_max_contracts r) eqn:Hk; [| reflexivity].
    assert (He : errors r = []).
    { destruct (list_eq_dec string_dec (errors r) []) as [e | n]; [exact e |].
      apply Hiff in n. destruct n; discriminate. }
    rewrite He. reflexivity.
Qed.

End GateFacts.

(** The boundary cases of the tests: a cost of 200 passes and 200.01 fails;
    one contract passes and 1.5 fails; a spread of 10% fails the spread
    check, which blocks in safe mode. *)
Lemma safety_scenarios :
  Examples.safetyVerdict Examples.longCall3500 200 (Some 2)
  = (true, true, true, true, 0%nat)
  /\ Examples.safetyVerdict Examples.longCall3500 (20001 # 100) (Some 2)
     = (false, true, true, false, 1%nat)
  /\ Examples.safetyVerdict
       (Payoff.with_legs Examples.longCall3500
          [Examples.leg_of "ETH-20250110-3500-C" buy (5 # 10);
           Examples.leg_of "ETH-20250110-4000-C" sell (15 # 10)])
       100 (Some 2)
     = (true, false, true, false, 1%nat)
  /\ Examples.safetyVerdict Examples.longCall3500 100 (Some 10)
     = (true, true, false, false, 0%nat)
  /\ Examples.safetyVerdict Examples.longCall3500 100 None
     = (true, true, true, true, 0%nat).
Proof. repeat split; vm_compute; reflexivity. Qed.

End SafetyFacts.

(** ** RiskEngine: entry cost *)

Module EntryCostFacts.

Import Payoff Examples.

Lemma entry_fold (premiums : PremiumMap) (ls : list Leg) (acc : Q) :
  fold_left (entryStep premiums) ls acc
  == acc + Qsum (map (signedCost premiums) ls).
Proof.
  revert acc. induction ls as [| l rest IH]; intros acc; simpl.
  - lra.
  - rewrite IH. unfold entryStep, signedCost. destruct (side l); lra.
Qed.

Lemma Qsum_app xs ys : Qsum (xs ++ ys) == Qsum xs + Qsum ys.
Proof. induction xs as [| x rest IH]; simpl; [lra | rewrite IH; lra]. Qed.

Lemma Qsum_perm xs ys : Permutation xs ys -> Qsum xs == Qsum ys.
Proof.
  induction 1 as [| x l l' _ IH | x y l | l l' l'' _ IH1 _ IH2]; simpl.
  - reflexivity.
  - rewrite IH. reflexivity.
  - lra.
  - rewrite IH1. exact IH2.
Qed.

Lemma Qsum_zero xs : Forall (fun x => x == 0) xs -> Qsum xs == 0.
Proof.
  induction 1 as [| x rest Hx _ IH]; simpl; [reflexivity | rewrite Hx, IH; lra].
Qed.

Lemma entry_cost_sum (t : TradeSpec) (premiums : PremiumMap) :
  calculateEntryCost t premiums
  = round2 (Qsum (map (signedCost premiums) (legs t))).
Proof.
  unfold calculateEntryCost. apply round2_comp. rewrite entry_fold. lra.
Qed.

(** The entry cost of [t] with one more leg at the end. *)
Lemma entry_cost_append (t : TradeSpec) (premiums : PremiumMap) (l : Leg) :
  calculateEntryCost (with_legs t (legs t ++ [l])) premiums
  = round2 (Qsum (map (signedCost premiums) (legs t)) + signedCost premiums l).
Proof.
  rewrite entry_cost_sum. apply round2_comp. simpl.
  rewrite map_app, Qsum_app. simpl. lra.
Qed.

End EntryCostFacts.

(** ** RiskEngine: the entry cost in binary64 *)

Module EntryCost64Facts.

Import Binary64 Binary64Facts Payoff Payoff64.

(** The running total of the loop is a binary64 number. *)
Lemma entryStep_binary64 premiums T l : fl64 (entryStep premiums T l) = entryStep premiums T l.
Proof. unfold entryStep. destruct (side l); apply fl64_idem. Qed.

Lemma entry_fold_binary64 premiums ls T :
  fl64 T = T -> fl64 (fold_left (entryStep premiums) ls T) = fold_left (entryStep premiums) ls T.
Proof.
  revert T. induction ls as [| l rest IH]; intros T HT; cbn [fold_left]; [exact HT |].
  apply IH, entryStep_binary64.
Qed.

(** One step of the loop: the error of the running total. *)
Lemma entryStep_err premiums (T S A k : Q) (l : Leg) :
  0 <= k -> 3 * k * unit_roundoff <= 2 ->
  Qabs S <= A ->
  Qabs (T - S) <= 3 * k * unit_roundoff * A ->
  Qabs (entryStep premiums T l - (S + signedCost premiums l))
  <= 3 * (k + 1) * unit_roundoff * (A + Qabs (signedCost premiums l)).
Proof.
  intros Hk Hku HS HT.
  destruct unit_roundoff_bounds as [U0 U1].
  assert (U2 : unit_roundoff <= 1).
  { assert (1 <= inject_Z (2 ^ 53)) by (vm_compute; discriminate). nra. }
  set (x := premium_or_zero premiums (instrument_name l) * amount l).
  assert (Ex : Qabs (signedCost premiums l) == Qabs x).
  { unfold signedCost. fold x. destruct (side l); [reflexivity | apply Qabs_opp]. }
  rewrite Ex.
  destruct (fl64_err_bounds x) as [X1 X2].
  destruct (Qabs_bounds x) as [Ax0 [Ax1 Ax2]].
  destruct (Qabs_bounds S) as [As0 [As1 As2]].
  apply Qabs_Qle_condition in HT. destruct HT as [T1 T2].
  set (xh := fl64 x) in *.
  destruct (fl64_err_bounds (T + xh)) as [Y1 Y2].
  destruct (fl64_err_bounds (T - xh)) as [Z1 Z2].
  apply Qabs_Qle_condition.
  change (entryStep premiums T l)
    with (match side l with buy => fl64 (T + xh) | sell => fl64 (T - xh) end).
  change (signedCost premiums l)
    with (match side l with buy => x | sell => - x end).
  set (yp := fl64 (T + xh)) in *. set (ym := fl64 (T - xh)) in *.
  clearbody yp ym xh.
  set (ayp := Qabs (T + xh)) in *. set (aym := Qabs (T - xh)) in *.
  assert (Ayp : ayp <= A + 3 * k * unit_roundoff * A + Qabs x + unit_roundoff * Qabs x).
  { apply Qabs_Qle_condition. lra. }
  assert (Aym : aym <= A + 3 * k * unit_roundoff * A + Qabs x + unit_roundoff * Qabs x).
  { apply Qabs_Qle_condition. lra. }
  assert (Pp : 0 <= ayp) by apply Qabs_nonneg.
  assert (Pm : 0 <= aym) by apply Qabs_nonneg.
  clearbody ayp aym.
  set (ax := Qabs x) in *. clearbody ax.
  set (u := unit_roundoff) in *. clearbody u.
  assert (A0 : 0 <= A) by lra.
  assert (K : 0 <= k * u * A) by (apply Qmult_le_0_compat; [apply Qmult_le_0_compat |]; lra).
  assert (K2 : 0 <= u * ax) by (apply Qmult_le_0_compat; lra).
  assert (K3 : 0 <= u * A) by (apply Qmult_le_0_compat; lra).
  assert (K4 : 0 <= k * u * ax) by (apply Qmult_le_0_compat; [apply Qmult_le_0_compat |]; lra).
  assert (K5 : u * (u * ax) <= u * ax) by nra.
  assert (K6 : 3 * k * u * (u * A) <= 2 * (u * A)) by nra.
  assert (Yp : ayp * u <= (A + 3 * k * u * A + ax + u * ax) * u)
    by (apply Qmult_le_compat_r; lra).
  assert (Ym : aym * u <= (A + 3 * k * u * A + ax + u * ax) * u)
    by (apply Qmult_le_compat_r; lra).
  destruct (side l); split; lra.
Qed.

Lemma Qsum_abs {A : Type} (f : A -> Q) (ls : list A) :
  Qabs (Qsum (map f ls)) <= Qsum (map (fun a => Qabs (f a)) ls).
Proof.
  induction ls as [| a rest IH]; cbn [map Qsum].
  - apply Qle_refl.
  - eapply Qle_trans; [apply Qabs_triangle |]. lra.
Qed.

Lemma volume_nonneg premiums ls : 0 <= volume premiums ls.
Proof.
  unfold volume. induction ls as [| l rest IH]; cbn [map Qsum]; [lra |].
  pose proof (Qabs_nonneg (signedCost premiums l)). lra.
Qed.

(** The error of the running total after the legs [ls]. *)
Lemma entry_fold_err premiums (ls : list Leg) :
  forall T S A k,
    0 <= k -> 3 * (k + nat_Q (List.length ls)) * unit_roundoff <= 2 ->
    Qabs S <= A ->
    Qabs (T - S) <= 3 * k * unit_roundoff * A ->
    Qabs (fold_left (entryStep premiums) ls T
          - (S + Qsum (map (signedCost premiums) ls)))
    <= 3 * (k + nat_Q (List.length ls)) * unit_roundoff * (A + volume premiums ls).
Proof.
  destruct unit_roundoff_bounds as [U0 _].
  induction ls as [| l rest IH]; intros T S A k Hk Hn HS HT.
  - cbn [fold_left map Qsum List.length volume]. unfold nat_Q. cbn [Z.of_nat].
    assert (E1 : T - (S + 0) == T - S) by ring.
    assert (E2 : 3 * (k + inject_Z 0) * unit_roundoff * (A + 0)
                 == 3 * k * unit_roundoff * A) by ring.
    rewrite E1, E2. exact HT.
  - cbn [fold_left map Qsum List.length]. unfold volume. cbn [map Qsum].
    fold (volume premiums rest). cbn [List.length] in Hn.
    pose proof (nat_Q_nonneg (List.length rest)) as Hr.
    rewrite nat_Q_S in Hn |- *.
    assert (Hk1 : 3 * k * unit_roundoff <= 2).
    { set (u := unit_roundoff) in *. clearbody u.
      assert (0 <= (nat_Q (List.length rest) + 1) * u)
        by (apply Qmult_le_0_compat; lra). lra. }
    pose proof (entryStep_err premiums T S A k l Hk Hk1 HS HT) as Hstep.
    assert (HS' : Qabs (S + signedCost premiums l) <= A + Qabs (signedCost premiums l)).
    { eapply Qle_trans; [apply Qabs_triangle |]. lra. }
    assert (Hk' : 0 <= k + 1) by lra.
    assert (Hn' : 3 * (k + 1 + nat_Q (List.length rest)) * unit_roundoff <= 2).
    { assert (E : 3 * (k + 1 + nat_Q (List.length rest)) * unit_roundoff
                  == 3 * (k + (nat_Q (List.length rest) + 1)) * unit_roundoff) by ring.
      rewrite E. exact Hn. }
    pose proof (IH _ _ _ _ Hk' Hn' HS' Hstep) as Hrec.
    assert (E1 : fold_left (entryStep premiums) rest (entryStep premiums T l)
                 - (S + (signedCost premiums l + Qsum (map (signedCost premiums) rest)))
                 == fold_left (entryStep premiums) rest (entryStep premiums T l)
                    - (S + signedCost premiums l + Qsum (map (signedCost premiums) rest)))
      by ring.
    assert (E2 : 3 * (k + (nat_Q (List.length rest) + 1)) * unit_roundoff
                 * (A + (Qabs (signedCost premiums l) + volume premiums rest))
                 == 3 * (k + 1 + nat_Q (List.length rest)) * unit_roundoff
                    * (A + Qabs (signedCost premiums l) + volume premiums rest))
      by ring.
    rewrite E1, E2. exact Hrec.
Qed.

(** The legs are few enough for the error bounds. *)
Definition fewLegs (ls : list Leg) : Prop := (Z.of_nat (List.length ls) <= 2 ^ 40)%Z.

Lemma fewLegs_roundoff (ls : list Leg) :
  fewLegs ls -> 12 * nat_Q (List.length ls) * unit_roundoff <= 1.
Proof.
  unfold fewLegs, nat_Q. intros H. rewrite Zle_Qle in H.
  destruct unit_roundoff_bounds as [U0 U1].
  set (n := inject_Z (Z.of_nat (List.length ls))) in *. clearbody n.
  set (u := unit_roundoff) in *. clearbody u.
  assert (E : inject_Z (2 ^ 53) == 8192 * inject_Z (2 ^ 40)) by reflexivity.
  rewrite E in U1.
  set (b := inject_Z (2 ^ 40)) in *.
  assert (B : 0 < b) by reflexivity. clearbody b.
  assert (n * u <= b * u) by (apply Qmult_le_compat_r; lra). lra.
Qed.

(** The running total against the exact sum of the legs. *)
Lemma entry_total_err premiums (ls : list Leg) :
  fewLegs ls ->
  Qabs (fold_left (entryStep premiums) ls 0 - Qsum (map (signedCost premiums) ls))
  <= 3 * nat_Q (List.length ls) * unit_roundoff * volume premiums ls.
Proof.
  intros Hf. pose proof (fewLegs_roundoff ls Hf) as Hn.
  destruct unit_roundoff_bounds as [U0 _].
  pose proof (nat_Q_nonneg (List.length ls)) as Hl.
  assert (H := entry_fold_err premiums ls 0 0 0 0).
  assert (E1 : fold_left (entryStep premiums) ls 0 - (0 + Qsum (map (signedCost premiums) ls))
               == fold_left (entryStep premiums) ls 0 - Qsum (map (signedCost premiums) ls))
    by ring.
  assert (E2 : 3 * (0 + nat_Q (List.length ls)) * unit_roundoff * (0 + volume premiums ls)
               == 3 * nat_Q (List.length ls) * unit_roundoff * volume premiums ls) by ring.
  rewrite E1, E2 in H. apply H.
  - lra.
  - set (u := unit_roundoff) in *. clearbody u.
    set (n := nat_Q (List.length ls)) in *. clearbody n. lra.
  - cbn. discriminate.
  - assert (E : 0 - 0 == 0) by ring. rewrite E. cbn. discriminate.
Qed.

(** The total in cents, as [Math.round] sees it. *)
Lemma entry_cents_err premiums (ls : list Leg) :
  fewLegs ls ->
  Qabs (fmul (fold_left (entryStep premiums) ls 0) 100
        - 100 * Qsum (map (signedCost premiums) ls))
  <= slack premiums ls.
Proof.
  intros Hf. pose proof (fewLegs_roundoff ls Hf) as Hn.
  pose proof (entry_total_err premiums ls Hf) as He.
  pose proof (Qsum_abs (signedCost premiums) ls) as Hs. fold (volume premiums ls) in Hs.
  pose proof (volume_nonneg premiums ls) as Hv.
  pose proof (nat_Q_nonneg (List.length ls)) as Hl.
  destruct unit_roundoff_bounds as [U0 _].
  unfold slack, fmul.
  set (T := fold_left (entryStep premiums) ls 0) in *.
  set (S := Qsum (map (signedCost premiums) ls)) in *.
  destruct (fl64_err_bounds (T * 100)) as [F1 F2].
  apply Qabs_Qle_condition in He. destruct He as [He1 He2].
  apply Qabs_Qle_condition in Hs. destruct Hs as [Hs1 Hs2].
  assert (Ht : Qabs (T * 100)
               <= 100 * (volume premiums ls
                         + 3 * nat_Q (List.length ls) * unit_roundoff * volume premiums ls)).
  { apply Qabs_Qle_condition. lra. }
  assert (P : 0 <= Qabs (T * 100)) by apply Qabs_nonneg.
  set (y := fl64 (T * 100)) in *. set (ay := Qabs (T * 100)) in *.
  clearbody y ay T S.
  set (A := volume premiums ls) in *. set (n := nat_Q (List.length ls)) in *.
  set (u := unit_roundoff) in *. clearbody A n u.
  assert (K1 : 0 <= u * A) by (apply Qmult_le_0_compat; lra).
  assert (K2 : 0 <= n * u) by (apply Qmult_le_0_compat; lra).
  assert (K3 : 12 * (n * u) * (u * A) <= u * A) by nra.
  assert (K4 : ay * u <= 100 * (A + 3 * n * u * A) * u)
    by (apply Qmult_le_compat_r; lra).
  apply Qabs_Qle_condition. split; lra.
Qed.

Lemma slack_nonneg premiums ls : 0 <= slack premiums ls.
Proof.
  unfold slack. pose proof (volume_nonneg premiums ls).
  pose proof (nat_Q_nonneg (List.length ls)).
  destruct unit_roundoff_bounds as [U0 _].
  apply Qmult_le_0_compat; [apply Qmult_le_0_compat |]; lra.
Qed.

Lemma clearOfHalfCents_spec premiums ls :
  clearOfHalfCents premiums ls = true
  <-> fewLegs ls
      /\ volume premiums ls <= inject_Z (2 ^ 40)
      /\ Qfloor (100 * Qsum (map (signedCost premiums) ls) + (1 # 2) - slack premiums ls)
         = Qfloor (100 * Qsum (map (signedCost premiums) ls) + (1 # 2) + slack premiums ls).
Proof.
  unfold clearOfHalfCents, fewLegs. cbv zeta.
  rewrite !andb_true_iff, Z.leb_le, Z.eqb_eq, Qle_bool_iff. tauto.
Qed.

(** Between two numbers of the same floor, the floor is the same. *)
Lemma Qfloor_between (lo hi y : Q) :
  Qfloor lo = Qfloor hi -> lo <= y -> y <= hi -> Qfloor y = Qfloor lo.
Proof.
  intros E H1 H2. apply Z.le_antisymm.
  - rewrite E. now apply Qfloor_resp_le.
  - now apply Qfloor_resp_le.
Qed.

(** Clear of the half cents, the cost is the exact sum rounded to cents,
    as a binary64 number. *)
Lemma entry_cost_clear (t : TradeSpec) (premiums : PremiumMap) :
  clearOfHalfCents premiums (legs t) = true ->
  calculateEntryCost t premiums
  = fl64 (round2 (Qsum (map (signedCost premiums) (legs t)))).
Proof.
  intros Hc. apply clearOfHalfCents_spec in Hc. destruct Hc as [Hf [_ Hc]].
  pose proof (entry_cents_err premiums (legs t) Hf) as He.
  pose proof (slack_nonneg premiums (legs t)) as Hs.
  apply Qabs_Qle_condition in He. destruct He as [He1 He2].
  unfold calculateEntryCost, roundCents, round2, fdiv, Math_round.
  set (y := fmul _ 100) in *.
  set (S0 := Qsum _) in *.
  assert (E1 : Qfloor (y + (1 # 2)) = Qfloor (100 * S0 + (1 # 2) - slack premiums (legs t))).
  { apply (Qfloor_between _ _ _ Hc); lra. }
  assert (E2 : Qfloor (S0 * 100 + (1 # 2)) = Qfloor (100 * S0 + (1 # 2) - slack premiums (legs t))).
  { apply (Qfloor_between _ _ _ Hc); lra. }
  rewrite E1, E2. reflexivity.
Qed.

(** *** Monotony *)

Lemma roundCents_mono (x y : Q) : x <= y -> roundCents x <= roundCents y.
Proof.
  intros H. unfold roundCents, fdiv, fmul. apply fl64_mono.
  assert (M : Math_round (fl64 (x * 100)) <= Math_round (fl64 (y * 100))).
  { apply Math_round_mono, fl64_mono. lra. }
  unfold Qdiv. apply Qmult_le_compat_r; [exact M | discriminate].
Qed.

Lemma entry_cost_snoc (t : TradeSpec) (premiums : PremiumMap) (l : Leg) :
  calculateEntryCost (with_legs t (legs t ++ [l])) premiums
  = roundCents (entryStep premiums (fold_left (entryStep premiums) (legs t) 0) l).
Proof.
  unfold calculateEntryCost. cbn [with_legs legs]. now rewrite fold_left_app.
Qed.

(** *** The order of the legs *)

Lemma volume_perm premiums ls ls' :
  Permutation ls ls' -> volume premiums ls == volume premiums ls'.
Proof. intros H. unfold volume. apply EntryCostFacts.Qsum_perm. now apply Permutation_map. Qed.

Lemma clearOfHalfCents_perm premiums ls ls' :
  Permutation ls ls' ->
  clearOfHalfCents premiums ls' = clearOfHalfCents premiums ls.
Proof.
  intros H. unfold clearOfHalfCents. cbv zeta.
  rewrite <- (Permutation_length H).
  assert (Es : Qsum (map (signedCost premiums) ls) == Qsum (map (signedCost premiums) ls'))
    by (apply EntryCostFacts.Qsum_perm; now apply Permutation_map).
  assert (Ek : slack premiums ls == slack premiums ls').
  { unfold slack. rewrite <- (Permutation_length H), (volume_perm premiums ls ls' H).
    reflexivity. }
  f_equal; [f_equal |].
  - apply eq_true_iff_eq. rewrite !Qle_bool_iff, (volume_perm premiums ls ls' H).
    reflexivity.
  - f_equal; apply Qfloor_comp; rewrite Es, Ek; reflexivity.
Qed.

(** *** Strict change *)

(** Two numbers below [2^40] that are a cent apart stay apart when rounded
    to binary64. *)
Lemma fl64_cent_apart (r r' : Q) :
  Qabs r <= inject_Z (2 ^ 40) + 1 -> Qabs r' <= inject_Z (2 ^ 40) + 1 ->
  r' + (1 # 100) <= r -> fl64 r' < fl64 r.
Proof.
  intros Hr Hr' Hd.
  destruct (fl64_err_bounds r) as [R1 R2]. destruct (fl64_err_bounds r') as [R1' R2'].
  destruct unit_roundoff_bounds as [U0 U1].
  assert (E : inject_Z (2 ^ 53) == 8192 * inject_Z (2 ^ 40)) by reflexivity.
  rewrite E in U1.
  assert (B : 1 <= inject_Z (2 ^ 40)) by (vm_compute; discriminate).
  set (b := inject_Z (2 ^ 40)) in *. clearbody b.
  pose proof (Qabs_nonneg r). pose proof (Qabs_nonneg r').
  set (a := Qabs r) in *. set (a' := Qabs r') in *.
  set (y := fl64 r) in *. set (y' := fl64 r') in *. clearbody a a' y y'.
  set (u := unit_roundoff) in *. clearbody u.
  assert (K1 : a * u <= (b + 1) * u) by (apply Qmult_le_compat_r; lra).
  assert (K2 : a' * u <= (b + 1) * u) by (apply Qmult_le_compat_r; lra).
  assert (K3 : u <= u * b) by nra.
  lra.
Qed.

Lemma round2_abs (x : Q) : Qabs (round2 x) <= Qabs x + (1 # 200).
Proof.
  pose proof (round2_close x) as H. apply Qabs_Qle_condition in H.
  destruct (Qabs_bounds x) as [_ [H1 H2]]. apply Qabs_Qle_condition. lra.
Qed.

Lemma entry_fold_none premiums (ls : list Leg) :
  (forall l, In l ls -> Map_get premiums (instrument_name l) = None) ->
  fold_left (entryStep premiums) ls 0 = 0.
Proof.
  induction ls as [| l rest IH]; intros Hn; cbn [fold_left]; [reflexivity |].
  assert (E : entryStep premiums 0 l = 0).
  { unfold entryStep, premium_or_zero. rewrite (Hn l (or_introl eq_refl)).
    unfold fadd, fsub, fmul. rewrite (fl64_zero_eq (0 * amount l)) by ring.
    destruct (side l); apply fl64_zero_eq; ring. }
  rewrite E. apply IH. intros l' Hl'. apply Hn. now right.
Qed.

(** C9, as stated, fails.  (1) The order of the legs matters: the three
    legs worth 555.545 in all cost 555.54 in one order and 555.55 in
    another.  (2) One more bought leg need not raise the cost: after 64.5
    contracts at 4.51 (290.895, reported as 290.90), one contract at 0.01
    leaves the reported cost at 290.90.  (3) A leg without premium data
    leaves the cost where it is, bought or sold. *)
Lemma calculateEntryCost_order_and_cent :
  let cost ls := calculateEntryCost (Examples.trade_of "Long Call" ls 1000)
                                    Examples.centPremiums in
  cost [Examples.legA; Examples.legB; Examples.legC] = fl64 (55554 # 100)
  /\ cost [Examples.legC; Examples.legB; Examples.legA] = fl64 (55555 # 100)
  /\ cost [Examples.bigLeg] = fl64 (29090 # 100)
  /\ cost [Examples.bigLeg; Examples.centLeg buy] = fl64 (29090 # 100)
  /\ (1 # 100) <= premium_or_zero Examples.centPremiums
                    (instrument_name (Examples.centLeg buy))
                  * amount (Examples.centLeg buy)
  /\ cost [Examples.bigLeg; Examples.smallLeg buy] = cost [Examples.bigLeg]
  /\ cost [Examples.bigLeg; Examples.smallLeg sell] = cost [Examples.bigLeg].
Proof. cbv zeta. repeat split; vm_compute; try reflexivity; discriminate. Qed.

(** C9, amended.  [calculateEntryCost] adds premium * amount for a bought
    leg and subtracts it for a sold one, in the order of the legs and in
    binary64, and rounds the total to cents.  It is zero when no leg has
    premium data.  When the exact sum of the legs is clear of the half
    cents, the cost is that sum rounded to two decimals (as a binary64
    number), and it does not depend on the order of the legs.  One more
    sold leg never raises the cost and one more bought leg never lowers it
    (premium * amount >= 0); the change is strict when premium * amount is
    at least 0.01 and the sums before and after are clear of the half
    cents. *)
Theorem calculateEntryCost_binary64 (t : TradeSpec) (premiums : PremiumMap) :
  let exactSum ls := Qsum (map (signedCost premiums) ls) in
  ((forall l, In l (legs t) -> Map_get premiums (instrument_name l) = None)
   -> calculateEntryCost t premiums == 0)
  /\ (clearOfHalfCents premiums (legs t) = true
      -> calculateEntryCost t premiums = fl64 (round2 (exactSum (legs t))))
  /\ (forall t', Permutation (legs t) (legs t')
        -> clearOfHalfCents premiums (legs t) = true
        -> calculateEntryCost t' premiums = calculateEntryCost t premiums)
  /\ (forall l : Leg,
        let c := premium_or_zero premiums (instrument_name l) * amount l in
        let t' := with_legs t (legs t ++ [l]) in
        0 <= c ->
        (side l = sell
         -> calculateEntryCost t' premiums <= calculateEntryCost t premiums)
        /\ (side l = buy
            -> calculateEntryCost t premiums <= calculateEntryCost t' premiums)
        /\ ((1 # 100) <= c
            -> clearOfHalfCents premiums (legs t) = true
            -> clearOfHalfCents premiums (legs t') = true
            -> (side l = sell
                -> calculateEntryCost t' premiums < calculateEntryCost t premiums)
               /\ (side l = buy
                   -> calculateEntryCost t premiums < calculateEntryCost t' premiums))).
Proof.
  intros exactSum. split; [| split; [| split]].
  - intros Hnone. unfold calculateEntryCost.
    rewrite (entry_fold_none premiums (legs t) Hnone). reflexivity.
  - apply entry_cost_clear.
  - intros t' Hp Hc.
    rewrite (entry_cost_clear t premiums Hc).
    rewrite (entry_cost_clear t' premiums)
      by (rewrite (clearOfHalfCents_perm premiums _ _ Hp); exact Hc).
    f_equal. apply round2_comp. apply EntryCostFacts.Qsum_perm.
    apply Permutation_map. now apply Permutation_sym.
  - intros l c t' Hc0.
    set (T := fold_left (entryStep premiums) (legs t) 0).
    assert (HT : fl64 T = T) by (apply entry_fold_binary64, fl64_0).
    assert (Hx : 0 <= fmul (premium_or_zero premiums (instrument_name l)) (amount l))
      by (apply fl64_nonneg; exact Hc0).
    split; [| split].
    + intros Hs. subst t'. rewrite entry_cost_snoc. fold T.
      unfold calculateEntryCost. fold T. apply roundCents_mono.
      unfold entryStep. rewrite Hs. cbv zeta. unfold fsub.
      rewrite <- HT at 2. apply fl64_mono. lra.
    + intros Hs. subst t'. rewrite entry_cost_snoc. fold T.
      unfold calculateEntryCost. fold T. apply roundCents_mono.
      unfold entryStep. rewrite Hs. cbv zeta. unfold fadd.
      rewrite <- HT at 1. apply fl64_mono. lra.
    + intros Hc1 Hclear Hclear'.
      rewrite (entry_cost_clear t premiums Hclear).
      rewrite (entry_cost_clear t' premiums Hclear').
      apply clearOfHalfCents_spec in Hclear, Hclear'.
      destruct Hclear as [_ [Hv _]]. destruct Hclear' as [_ [Hv' _]].
      subst t'. cbn [with_legs legs] in *.
      pose proof (Qsum_abs (signedCost premiums) (legs t)) as Ha.
      pose proof (Qsum_abs (signedCost premiums) (legs t ++ [l])) as Ha'.
      fold (volume premiums (legs t)) in Ha.
      fold (volume premiums (legs t ++ [l])) in Ha'.
      pose proof (round2_abs (Qsum (map (signedCost premiums) (legs t)))) as Hr.
      pose proof (round2_abs (Qsum (map (signedCost premiums) (legs t ++ [l])))) as Hr'.
      assert (Es : Qsum (map (signedCost premiums) (legs t ++ [l]))
                   == Qsum (map (signedCost premiums) (legs t)) + signedCost premiums l).
      { rewrite map_app, EntryCostFacts.Qsum_app. cbn [map Qsum]. ring. }
      split; intros Hs.
      * apply fl64_cent_apart; [lra | lra |].
        apply round2_strict. rewrite Es. unfold signedCost. rewrite Hs. fold c. lra.
      * apply fl64_cent_apart; [lra | lra |].
        apply round2_strict. rewrite Es. unfold signedCost. rewrite Hs. fold c. lra.
Qed.

(** The three legs of 555.545 are not clear of the half cents; a bull call
    spread at whole premiums is, and costs the difference of the premiums. *)
Lemma calculateEntryCost_clear_examples :
  clearOfHalfCents Examples.centPremiums
    [Examples.legA; Examples.legB; Examples.legC] = false
  /\ clearOfHalfCents Examples.spreadPremiums (legs Examples.bullCallSpread) = true
  /\ calculateEntryCost Examples.bullCallSpread Examples.spreadPremiums = 100.
Proof. repeat split; vm_compute; reflexivity. Qed.

End EntryCost64Facts.

(** ** RiskEngine: the breakeven search *)

Module BreakevenFacts.

Import Payoff.

(** [crossed] and [same_side] compare the signs of their arguments. *)
Lemma num_ge_lt a b : num_ge a b = negb (num_lt a b).
Proof. unfold num_ge, num_lt, num_le. now rewrite negb_involutive. Qed.

Lemma crossed_spec prevPnl currentPnl :
  crossed prevPnl currentPnl = xorb (num_lt prevPnl 0) (num_lt currentPnl 0).
Proof.
  unfold crossed. rewrite !num_ge_lt.
  destruct (num_lt prevPnl 0), (num_lt currentPnl 0); reflexivity.
Qed.

Lemma same_side_spec prevPnl midPnl :
  same_side prevPnl midPnl = Bool.eqb (num_lt prevPnl 0) (num_lt midPnl 0).
Proof.
  unfold same_side. rewrite !num_ge_lt.
  destruct (num_lt prevPnl 0), (num_lt midPnl 0); reflexivity.
Qed.

(** *** Enough fuel for the bisection *)

Lemma pow2_S n : pow2 (S n) == 2 * pow2 n.
Proof.
  unfold pow2. rewrite Nat2Z.inj_succ, Z.pow_succ_r by apply Nat2Z.is_nonneg.
  rewrite inject_Z_mult. reflexivity.
Qed.

Lemma pow2_pos n : 0 < pow2 n.
Proof.
  unfold pow2. change 0 with (inject_Z 0). rewrite <- Zlt_Qlt.
  apply Z.pow_pos_nonneg; [lia | apply Nat2Z.is_nonneg].
Qed.

Lemma pow2_mono n m : (n <= m)%nat -> pow2 n <= pow2 m.
Proof.
  intros H. unfold pow2. rewrite <- Zle_Qle.
  apply Z.pow_le_mono_r; lia.
Qed.

Lemma pow2_ge n : inject_Z (Z.of_nat n) <= pow2 n.
Proof.
  unfold pow2. rewrite <- Zle_Qle.
  apply Z.lt_le_incl. apply Z.pow_gt_lin_r; lia.
Qed.

Lemma halvings_enough w tol : 0 < tol -> w <= tol * pow2 (halvings w tol).
Proof.
  intros Ht. unfold halvings.
  pose proof (Qle_ceiling (w / tol)) as Hc.
  pose proof (pow2_ge (Z.to_nat (Qceiling (w / tol)))) as Hp.
  set (N := Z.to_nat (Qceiling (w / tol))) in *.
  assert (Hz : inject_Z (Qceiling (w / tol)) <= inject_Z (Z.of_nat N)).
  { rewrite <- Zle_Qle. subst N. lia. }
  assert (Hw : w == w / tol * tol) by (field; lra).
  assert (Hq : w / tol <= pow2 N) by lra.
  rewrite Hw. rewrite (Qmult_comm tol).
  apply Qmult_le_compat_r; lra.
Qed.

Section Bisection.

Variable legs : list LegWithPrice.
Variable prevPnl tolerance : Q.

(** A property of the bracket that one round of the loop keeps. *)
Variable Inv : Q -> Q -> Prop.
Hypothesis Inv_step :
  forall low high, Inv low high ->
    let mid := (low + high) / 2 in
    if same_side prevPnl (calculateTotalPnl legs mid)
    then Inv mid high else Inv low mid.

(** The bisection ends, within [fuel] rounds when the width is at most
    [tolerance * 2 ^ fuel], on a bracket no wider than [tolerance] that still
    satisfies the invariant. *)
Lemma bisect_ends (fuel : nat) :
  forall low high,
    Inv low high -> high - low <= tolerance * pow2 fuel ->
    exists l h,
      bisect fuel legs prevPnl low high tolerance = Some (l, h)
      /\ Inv l h /\ h - l <= tolerance.
Proof.
  induction fuel as [| fuel IH]; intros low high HI Hw.
  - exists low, high. simpl.
    assert (E : num_gt (high - low) tolerance = false).
    { apply num_lt_false_iff. change (pow2 0) with 1 in Hw. lra. }
    rewrite E. repeat split; auto.
    change (pow2 0) with 1 in Hw. lra.
  - simpl. destruct (num_gt (high - low) tolerance) eqn:E.
    + pose proof (Inv_step low high HI) as Hs. simpl in Hs.
      rewrite pow2_S in Hw.
      assert (Hm : (low + high) / 2 == (low + high) * (1 # 2)) by field.
      destruct (same_side prevPnl (calculateTotalPnl legs ((low + high) / 2))).
      * apply IH; [exact Hs | lra].
      * apply IH; [exact Hs | lra].
    + exists low, high. apply num_lt_false_iff in E. repeat split; auto.
Qed.

End Bisection.

(** *** The scan *)

Section Scan.

Variable legs : list LegWithPrice.
Variable n : nat.
Variable step maxPrice tolerance : Q.
Hypothesis step_pos : 0 < step.
Hypothesis n_enough : step <= tolerance * pow2 n.

Let f := calculateTotalPnl legs.

(** The scan ends within [j] rounds when [j] steps lead beyond [maxPrice]. *)
Lemma scan_ends (j : nat) :
  forall price prevPnl acc fuel,
    (j <= fuel)%nat -> maxPrice < price + nat_Q j * step ->
    exists bes,
      scan n fuel legs step maxPrice tolerance price prevPnl acc = Some bes.
Proof.
  induction j as [| j IH]; intros price prevPnl acc fuel Hf Hj.
  - exists acc. change (nat_Q 0) with 0 in Hj.
    assert (E : num_le price maxPrice = false) by (apply num_le_false_iff; lra).
    destruct fuel; cbn [scan]; rewrite E; reflexivity.
  - destruct fuel as [| fuel]; [lia |]. cbn [scan].
    destruct (num_le price maxPrice) eqn:E; [| now exists acc].
    rewrite nat_Q_S in Hj.
    assert (Hnext : maxPrice < Qred (price + step) + nat_Q j * step)
      by (rewrite Qred_correct; lra).
    destruct (crossed prevPnl (calculateTotalPnl legs price)).
    + destruct (bisect_ends legs prevPnl tolerance
                  (fun _ _ => True)
                  (fun l h _ =>
                     match same_side prevPnl
                             (calculateTotalPnl legs ((l + h) / 2)) as b
                       return (if b then True else True)
                     with true => I | false => I end)
                  n (price - step) price I)
        as [l [h [Hb _]]]; [lra |].
      rewrite Hb. apply IH; [lia | exact Hnext].
    + apply IH; [lia | exact Hnext].
Qed.

(** No breakeven is added as long as the P&L keeps the sign it had. *)
Lemma scan_quiet (j : nat) :
  forall price prevPnl acc fuel,
    (j <= fuel)%nat -> maxPrice < price + nat_Q j * step ->
    (forall x, price <= x -> num_lt (f x) 0 = num_lt prevPnl 0) ->
    scan n fuel legs step maxPrice tolerance price prevPnl acc = Some acc.
Proof.
  induction j as [| j IH]; intros price prevPnl acc fuel Hf Hj Hsign.
  - change (nat_Q 0) with 0 in Hj.
    assert (E : num_le price maxPrice = false) by (apply num_le_false_iff; lra).
    destruct fuel; cbn [scan]; rewrite E; reflexivity.
  - destruct fuel as [| fuel]; [lia |]. cbn [scan].
    destruct (num_le price maxPrice) eqn:E; [| reflexivity].
    rewrite nat_Q_S in Hj.
    rewrite crossed_spec. fold (f price).
    rewrite (Hsign price) by lra. rewrite xorb_nilpotent.
    apply IH.
    + lia.
    + rewrite Qred_correct. lra.
    + intros x Hx. rewrite Qred_correct in Hx.
      rewrite (Hsign x) by lra. rewrite (Hsign price) by lra. reflexivity.
Qed.

(** One change of sign.  [before x] says that [x] lies before the root:
    there the P&L has the sign [s0] ([true]: negative), after it the other
    sign.  The scan starts before the root, and [maxPrice], which the scan
    reaches after [j] more steps, lies after it. *)
Variable before : Q -> Prop.
Variable s0 : bool.
Hypothesis before_dec : forall x, before x \/ ~ before x.
Hypothesis before_down : forall x y, x <= y -> before y -> before x.
Hypothesis sign_before : forall x, before x -> num_lt (f x) 0 = s0.
Hypothesis sign_after : forall x, ~ before x -> num_lt (f x) 0 = negb s0.
Hypothesis end_after : ~ before maxPrice.

Lemma bracket_step prevPnl :
  num_lt prevPnl 0 = s0 ->
  forall low high, before low /\ ~ before high ->
    let mid := (low + high) / 2 in
    if same_side prevPnl (calculateTotalPnl legs mid)
    then before mid /\ ~ before high else before low /\ ~ before mid.
Proof.
  intros Hp low high [Hl Hh]. simpl. rewrite same_side_spec, Hp.
  fold (f ((low + high) / 2)).
  destruct (before_dec ((low + high) / 2)) as [Hm | Hm].
  - rewrite (sign_before _ Hm). rewrite eqb_reflx. auto.
  - rewrite (sign_after _ Hm). destruct s0; simpl; auto.
Qed.

Lemma scan_single_crossing (j : nat) :
  forall price prevPnl acc fuel,
    (S j <= fuel)%nat -> maxPrice == price + nat_Q j * step ->
    num_lt prevPnl 0 = s0 -> before (price - step) ->
    exists l h,
      scan n fuel legs step maxPrice tolerance price prevPnl acc
      = Some (acc ++ [round2 ((l + h) / 2)])%list
      /\ before l /\ ~ before h /\ h - l <= tolerance.
Proof.
  assert (Hcross : forall price prevPnl acc fuel j',
            (j' <= fuel)%nat -> maxPrice < Qred (price + step) + nat_Q j' * step ->
            num_lt prevPnl 0 = s0 -> before (price - step) -> ~ before price ->
            exists l h,
              match bisect n legs prevPnl (price - step) price tolerance with
              | Some (low, high) =>
                  scan n fuel legs step maxPrice tolerance (Qred (price + step))
                       (calculateTotalPnl legs price)
                       (acc ++ [round2 ((low + high) / 2)])%list
              | None => None
              end = Some (acc ++ [round2 ((l + h) / 2)])%list
              /\ before l /\ ~ before h /\ h - l <= tolerance).
  { intros price prevPnl acc fuel j' Hf Hj Hp Hb Ha.
    destruct (bisect_ends legs prevPnl tolerance
                (fun l h => before l /\ ~ before h)
                (bracket_step prevPnl Hp) n (price - step) price)
      as [l [h [Hbis [[Hl Hh] Hw]]]]; [auto | lra |].
    exists l, h. rewrite Hbis. repeat split; auto.
    apply (scan_quiet j'); [exact Hf | exact Hj |].
    intros x Hx. rewrite Qred_correct in Hx. fold (f price).
    rewrite (sign_after price Ha).
    apply sign_after. intros Hbx. apply Ha. apply (before_down price x); [lra | exact Hbx]. }
  induction j as [| j IH]; intros price prevPnl acc fuel Hf Hj Hp Hb.
  - destruct fuel as [| fuel]; [lia |]. cbn [scan].
    change (nat_Q 0) with 0 in Hj.
    assert (E : num_le price maxPrice = true) by (apply num_le_iff; lra).
    rewrite E.
    assert (Ha : ~ before price).
    { intros Hbp. apply end_after. apply (before_down maxPrice price); [lra | exact Hbp]. }
    rewrite crossed_spec. fold (f price). rewrite Hp, (sign_after _ Ha).
    replace (xorb s0 (negb s0)) with true by (destruct s0; reflexivity).
    apply (Hcross price prevPnl acc fuel 0%nat); auto; [lia |].
    change (nat_Q 0) with 0. rewrite Qred_correct. lra.
  - destruct fuel as [| fuel]; [lia |]. cbn [scan].
    rewrite nat_Q_S in Hj. pose proof (nat_Q_nonneg j) as Hnn.
    assert (E : num_le price maxPrice = true).
    { apply num_le_iff. rewrite Hj.
      assert (0 <= nat_Q j * step) by (apply Qmult_le_0_compat; lra). lra. }
    rewrite E. rewrite crossed_spec. fold (f price). rewrite Hp.
    destruct (before_dec price) as [Hbp | Ha].
    + rewrite (sign_before _ Hbp). rewrite xorb_nilpotent.
      apply IH; [lia | rewrite Qred_correct; lra | apply sign_before; exact Hbp |].
      apply (before_down _ price); [rewrite Qred_correct; lra | exact Hbp].
    + rewrite (sign_after _ Ha).
      replace (xorb s0 (negb s0)) with true by (destruct s0; reflexivity).
      apply (Hcross price prevPnl acc fuel (S j)); auto; [lia |].
      rewrite nat_Q_S, Qred_correct.
      assert (0 <= nat_Q j * step) by (apply Qmult_le_0_compat; lra). lra.
Qed.

End Scan.

(** *** findBreakevens *)

Lemma findBreakevens_fuel (minPrice maxPrice tolerance : Q) :
  0 < tolerance ->
  exists N, forall n, (N <= n)%nat ->
    (1001 <= n)%nat /\ (maxPrice - minPrice) / 1000 <= tolerance * pow2 n.
Proof.
  intros Ht.
  exists (Nat.max 1001 (halvings ((maxPrice - minPrice) / 1000) tolerance)).
  intros n Hn. split; [lia |].
  pose proof (halvings_enough ((maxPrice - minPrice) / 1000) tolerance Ht) as H.
  pose proof (pow2_mono (halvings ((maxPrice - minPrice) / 1000) tolerance) n) as Hm.
  assert (Hle : pow2 (halvings ((maxPrice - minPrice) / 1000) tolerance) <= pow2 n)
    by (apply Hm; lia).
  eapply Qle_trans; [exact H |].
  rewrite !(Qmult_comm tolerance). apply Qmult_le_compat_r; lra.
Qed.

(** [findBreakevens] returns on every non-empty price range. *)
Lemma findBreakevens_total (legs : list LegWithPrice)
    (minPrice maxPrice tolerance : Q) :
  minPrice < maxPrice -> 0 < tolerance ->
  exists N, forall n, (N <= n)%nat ->
    exists bes, findBreakevens n legs minPrice maxPrice tolerance = Some bes.
Proof.
  intros Hlt Ht.
  destruct (findBreakevens_fuel minPrice maxPrice tolerance Ht) as [N HN].
  exists N. intros n Hn. destruct (HN n Hn) as [H1 H2].
  unfold findBreakevens.
  apply (scan_ends legs n _ maxPrice tolerance H2 1000); [lia |].
  rewrite Qred_correct.
  assert (E : (maxPrice - minPrice) / 1000 == (maxPrice - minPrice) * (1 # 1000))
    by field.
  change (nat_Q 1000) with 1000. lra.
Qed.

(** When the P&L changes sign once between [minPrice] and [maxPrice],
    [findBreakevens] returns one breakeven: the rounded midpoint of a bracket
    of the root no wider than the tolerance. *)
Lemma findBreakevens_single (legs : list LegWithPrice)
    (minPrice maxPrice tolerance : Q) (before : Q -> Prop) (s0 : bool) :
  minPrice < maxPrice -> 0 < tolerance ->
  (forall x, before x \/ ~ before x) ->
  (forall x y, x <= y -> before y -> before x) ->
  (forall x, before x -> num_lt (calculateTotalPnl legs x) 0 = s0) ->
  (forall x, ~ before x -> num_lt (calculateTotalPnl legs x) 0 = negb s0) ->
  before minPrice -> ~ before maxPrice ->
  exists N, forall n, (N <= n)%nat ->
    exists l h,
      findBreakevens n legs minPrice maxPrice tolerance
      = Some [round2 ((l + h) / 2)]
      /\ before l /\ ~ before h /\ h - l <= tolerance.
Proof.
  intros Hlt Ht Hdec Hdown Hsb Hsa Hmin Hmax.
  destruct (findBreakevens_fuel minPrice maxPrice tolerance Ht) as [N HN].
  exists N. intros n Hn. destruct (HN n Hn) as [H1 H2].
  unfold findBreakevens.
  assert (E : (maxPrice - minPrice) / 1000 == (maxPrice - minPrice) * (1 # 1000))
    by field.
  assert (Hs : 0 < (maxPrice - minPrice) / 1000) by (rewrite E; lra).
  apply (scan_single_crossing legs n _ maxPrice tolerance Hs H2 before s0
           Hdec Hdown Hsb Hsa Hmax 999 _ _ []).
  - lia.
  - rewrite Qred_correct. change (nat_Q 999) with 999. lra.
  - apply Hsb. exact Hmin.
  - apply (Hdown _ minPrice); [rewrite Qred_correct; lra | exact Hmin].
Qed.

(** *** A single bought leg *)

Lemma total_pnl_single (lw : LegWithPrice) (x : Q) :
  calculateTotalPnl [lw] x == calculateLegPnl lw x.
Proof. unfold calculateTotalPnl. simpl. lra. Qed.

Lemma long_call_sign (lw : LegWithPrice) (x : Q) :
  side (base lw) = buy -> optionType lw = C -> 0 < amount (base lw) ->
  0 < premium lw ->
  (x < strike lw + premium lw -> calculateTotalPnl [lw] x < 0)
  /\ (~ x < strike lw + premium lw -> 0 <= calculateTotalPnl [lw] x).
Proof.
  intros Hs Ho Ha Hp. rewrite total_pnl_single.
  unfold calculateLegPnl. rewrite Hs, Ho. unfold Math_max2.
  case_num_le 0 (x - strike lw) E; split; intros H; nra.
Qed.

Lemma long_put_sign (lw : LegWithPrice) (x : Q) :
  side (base lw) = buy -> optionType lw = P -> 0 < amount (base lw) ->
  0 < premium lw ->
  (x <= strike lw - premium lw -> 0 <= calculateTotalPnl [lw] x)
  /\ (~ x <= strike lw - premium lw -> calculateTotalPnl [lw] x < 0).
Proof.
  intros Hs Ho Ha Hp. rewrite total_pnl_single.
  unfold calculateLegPnl. rewrite Hs, Ho. unfold Math_max2.
  case_num_le 0 (strike lw - x) E; split; intros H; nra.
Qed.

(** *** From [findBreakevens] to [calculatePayoff] *)

Lemma parseInt_acc_nonneg (s : string) (acc : Z) :
  (0 <= acc)%Z -> (0 <= parseInt_acc acc s)%Z.
Proof.
  revert acc. induction s as [| c rest IH]; intros acc H; cbn [parseInt_acc];
    [exact H |].
  apply IH. pose proof (Nat2Z.is_nonneg (nat_of_ascii c - 48)). lia.
Qed.

Lemma digitsValue_nonneg (s : string) : (0 <= digitsValue s)%Z.
Proof. apply parseInt_acc_nonneg. lia. Qed.

(** A parsed leg keeps the leg and the premium; its strike is not negative. *)
Lemma parseLeg_some (leg : Leg) (p : Q) (lw : LegWithPrice) :
  parseLeg leg p = Some lw ->
  base lw = leg /\ premium lw = p /\ 0 <= strike lw.
Proof.
  unfold parseLeg. intros H.
  destruct (split_on "-" (instrument_name leg)) as [| und [| exp [| stk [| typ [| ? ?]]]]];
    try discriminate.
  destruct (_ && _); [| discriminate].
  assert (Hk : 0 <= parseInt stk).
  { apply Binary64Facts.fl64_nonneg. change 0 with (inject_Z 0). rewrite <- Zle_Qle.
    apply parseInt_acc_nonneg. lia. }
  destruct (String.eqb typ "C"); [inversion H; subst; simpl; auto |].
  destruct (String.eqb typ "P"); [inversion H; subst; simpl; auto | discriminate].
Qed.

(** With parsed legs [l0 :: ls], [calculatePayoff] returns exactly when
    [findBreakevens] does, on the domain [priceDomain], and reports its
    breakevens. *)
Lemma calculatePayoff_breakevens (n : nat) (t : TradeSpec)
    (premiums : PremiumMap) (currentPrice : Q)
    (l0 : LegWithPrice) (ls : list LegWithPrice) (bes : list Q) :
  parseLegs (legs t) premiums = l0 :: ls ->
  findBreakevens n (l0 :: ls) (fst (priceDomain l0 ls currentPrice))
                 (snd (priceDomain l0 ls currentPrice)) default_tolerance
  = Some bes ->
  exists pa,
    calculatePayoff n t premiums currentPrice = Some pa /\ breakevens pa = bes.
Proof.
  intros Hp Hf. unfold calculatePayoff. rewrite Hp.
  unfold priceDomain in Hf. cbn [fst snd] in Hf. cbv zeta. rewrite Hf.
  eexists. split; reflexivity.
Qed.

(** The sampling domain of a single leg of strike [K]:
    [max(0, K - currentPrice / 10)] to [K + currentPrice / 10]. *)
Lemma priceDomain_single (lw : LegWithPrice) (currentPrice : Q) :
  let d := priceDomain lw [] currentPrice in
  snd d == strike lw + currentPrice / 10
  /\ 0 <= fst d
  /\ strike lw - currentPrice / 10 <= fst d
  /\ (fst d == 0 \/ fst d == strike lw - currentPrice / 10).
Proof.
  unfold priceDomain, Math_min_list, Math_max_list, num_or. cbn [map fold_left fst snd].
  assert (E : Qeq_bool (strike lw - strike lw) 0 = true)
    by (apply Qeq_bool_iff; ring).
  rewrite E.
  assert (D : currentPrice / 10 == currentPrice * (2 # 10) * (5 # 10)) by field.
  unfold Math_max2.
  case_num_le 0 (strike lw - currentPrice * (2 # 10) * (5 # 10)) L.
  - repeat split; try lra; right; lra.
  - repeat split; try lra; left; lra.
Qed.

Lemma bracket_midpoint_close (l h root : Q) :
  l <= root -> root <= h -> h - l <= 1 # 100 ->
  Qabs (round2 ((l + h) / 2) - root) <= 1 # 100.
Proof.
  intros Hl Hh Hw.
  pose proof (round2_close ((l + h) / 2)) as Hr.
  apply Qabs_Qle_condition in Hr. apply Qabs_Qle_condition.
  assert (E : (l + h) / 2 == (l + h) * (1 # 2)) by field.
  split; lra.
Qed.




(** *** An empty price range *)

(** When [minPrice] and [maxPrice] coincide the step is 0 and the scan
    never leaves [maxPrice]: [findBreakevens] does not return, whatever the
    fuel. *)
Lemma scan_stuck (legs : list LegWithPrice) (n : nat)
    (step maxPrice tolerance : Q) :
  step == 0 -> 0 <= tolerance ->
  forall fuel price prevPnl acc,
    price <= maxPrice ->
    scan n fuel legs step maxPrice tolerance price prevPnl acc = None.
Proof.
  intros Hs Ht. induction fuel as [| fuel IH]; intros price prevPnl acc Hp;
    cbn [scan]; rewrite (proj2 (num_le_iff _ _) Hp); [reflexivity |].
  assert (Hnext : Qred (price + step) <= maxPrice)
    by (rewrite Qred_correct; lra).
  destruct (crossed prevPnl (calculateTotalPnl legs price)).
  - destruct n as [| n']; cbn [bisect]; unfold num_gt;
      rewrite (proj2 (num_lt_false_iff tolerance (price - (price - step))));
      try lra; apply IH; exact Hnext.
  - apply IH. exact Hnext.
Qed.

Lemma findBreakevens_empty_range (legs : list LegWithPrice)
    (minPrice maxPrice tolerance : Q) (n : nat) :
  minPrice == maxPrice -> 0 <= tolerance ->
  findBreakevens n legs minPrice maxPrice tolerance = None.
Proof.
  intros He Ht. unfold findBreakevens.
  assert (E : (maxPrice - minPrice) / 1000 == 0) by (rewrite He; field).
  apply scan_stuck; [exact E | exact Ht |].
  rewrite Qred_correct. lra.
Qed.

(** With a reference price of 0, as when no index price is at hand, the
    analysis of a trade with a single strike does not return. *)
Lemma calculatePayoff_zero_price (n : nat) :
  calculatePayoff n Examples.longCall3500 Examples.samplePremiums 0 = None.
Proof.
  unfold calculatePayoff.
  replace (parseLegs (legs Examples.longCall3500) Examples.samplePremiums)
    with [ {| base := Examples.leg_of "ETH-20250110-3500-C" buy 1;
              strike := inject_Z 3500; optionType := C; premium := 150 |} ]
    by (vm_compute; reflexivity).
  cbv zeta. rewrite findBreakevens_empty_range; [reflexivity | | discriminate].
  vm_compute. reflexivity.
Qed.

(** *** Additivity and the scenarios of the specification *)

(** Long call, strike 3500, premium 150, reference 3400: maxLoss 150, gain
    unbounded, breakeven 3650.  Bull call spread 3500/4000 at 200/100:
    maxLoss 100, maxGain 400, breakeven 3600.  Long put, strike 3000,
    premium 100, reference 3100: maxLoss 100, maxGain 2900, breakeven 2900. *)
Lemma payoff_scenarios :
  Examples.report
    (calculatePayoff 2000 Examples.longCall3500 Examples.samplePremiums 3400)
  = Some (150, None, [3650], 101%nat)
  /\ Examples.report
       (calculatePayoff 2000 Examples.bullCallSpread Examples.spreadPremiums 3700)
     = Some (100, Some 400, [3600], 101%nat)
  /\ Examples.report
       (calculatePayoff 2000 Examples.longPut3000 Examples.samplePremiums 3100)
     = Some (100, Some 2900, [2900], 101%nat).
Proof. repeat split; vm_compute; reflexivity. Qed.

(** The expectations of the repository's payoff tests: a sold call
    shows the premium 150 below the strike and a loss at high prices; without
    premium data the P&L at the strike is 0; a name of the wrong format
    leaves no point and [max_loss_usd] as [maxLoss]; a tenth of a contract
    loses at most 15; the entry costs of the spread, of a trade without
    premium data, of half a contract and of a sold call are 100, 0, 75 and
    -150. *)
Lemma payoff_test_fixtures :
  Examples.firstPoint (fun p => num_lt (price p) 3400)
    (calculatePayoff 2000 Examples.shortCall3500 Examples.samplePremiums 3400)
  = Some (3160, 150)
  /\ Examples.firstPoint (fun p => num_gt (price p) 3800)
       (calculatePayoff 2000 Examples.shortCall3500 Examples.samplePremiums 3400)
     = Some (3806, -156)
  /\ Examples.firstPoint (fun p => num_lt (Qabs (price p - 3500)) 50)
       (calculatePayoff 2000 Examples.longCall3500 [] 3400)
     = Some (17262 # 5, 0)
  /\ Examples.report
       (calculatePayoff 2000
          (Examples.trade_of "Long Call" [Examples.leg_of "INVALID-FORMAT" buy 1] 150)
          [("INVALID-FORMAT", 150)] 3400)
     = Some (150, None, [], 0%nat)
  /\ Examples.report
       (calculatePayoff 2000
          (Examples.trade_of "Long Call"
             [Examples.leg_of "ETH-20250110-3500-C" buy (1 # 10)] 15)
          Examples.samplePremiums 3400)
     = Some (15, None, [3650], 101%nat)
  /\ Qred (calculateEntryCost Examples.bullCallSpread Examples.spreadPremiums)
     = 100
  /\ Qred (calculateEntryCost Examples.longCall3500 []) = 0
  /\ Qred (calculateEntryCost
             (Examples.trade_of "Long Call"
                [Examples.leg_of "ETH-20250110-3500-C" buy (1 # 2)] 75)
             Examples.samplePremiums)
     = 75
  /\ Qred (calculateEntryCost Examples.shortCall3500 Examples.samplePremiums)
     = -150.
Proof. repeat split; vm_compute; reflexivity. Qed.

End BreakevenFacts.

(** ** RiskEngine: maximum gain *)

Module MaxGainFacts.

Import Payoff BreakevenFacts.

Lemma Math_min_list_le (x : Q) (xs : list Q) : Math_min_list x xs <= x.
Proof.
  unfold Math_min_list. revert x.
  induction xs as [| y rest IH]; intros x; simpl; [lra |].
  eapply Qle_trans; [apply IH |]. unfold Math_min2.
  destruct (num_le x y) eqn:E; [lra | apply num_le_false_iff in E; lra].
Qed.

Lemma Math_max_list_ge (x : Q) (xs : list Q) : x <= Math_max_list x xs.
Proof.
  unfold Math_max_list. revert x.
  induction xs as [| y rest IH]; intros x; simpl; [lra |].
  eapply Qle_trans; [| apply IH]. unfold Math_max2.
  destruct (num_le x y) eqn:E; [apply num_le_iff in E; lra | lra].
Qed.

Lemma parseLegs_strikes (ls : list Leg) (premiums : PremiumMap) :
  Forall (fun lw => 0 <= strike lw) (parseLegs ls premiums).
Proof.
  induction ls as [| l rest IH]; cbn [parseLegs]; [constructor |].
  destruct (parseLeg l _) as [lw |] eqn:E; [| exact IH].
  constructor; [| exact IH]. now apply parseLeg_some in E.
Qed.

(** With a positive reference price the sampled domain is not empty. *)
Lemma priceDomain_nonempty (l0 : LegWithPrice) (ls : list LegWithPrice)
    (currentPrice : Q) :
  0 <= strike l0 -> 0 < currentPrice ->
  fst (priceDomain l0 ls currentPrice) < snd (priceDomain l0 ls currentPrice).
Proof.
  intros Hk Hc. unfold priceDomain. cbn [fst snd].
  pose proof (Math_min_list_le (strike l0) (map strike ls)) as Hmin.
  pose proof (Math_max_list_ge (strike l0) (map strike ls)) as Hmax.
  set (lo := Math_min_list (strike l0) (map strike ls)) in *.
  set (hi := Math_max_list (strike l0) (map strike ls)) in *.
  assert (Hr : 0 < num_or (hi - lo) (currentPrice * (2 # 10))).
  { unfold num_or. destruct (Qeq_bool (hi - lo) 0) eqn:E; [lra |].
    apply Qeq_bool_neq in E.
    destruct (Qlt_le_dec 0 (hi - lo)) as [H | H]; [exact H |].
    exfalso. apply E. lra. }
  set (r := num_or (hi - lo) (currentPrice * (2 # 10))) in *.
  unfold Math_max2.
  destruct (num_le 0 (lo - r * (5 # 10))); lra.
Qed.

(** [calculatePayoff] returns, given enough fuel, whenever the reference
    price is positive. *)
Lemma calculatePayoff_total (t : TradeSpec) (premiums : PremiumMap)
    (currentPrice : Q) :
  0 < currentPrice ->
  exists N, forall n, (N <= n)%nat ->
    exists pa, calculatePayoff n t premiums currentPrice = Some pa.
Proof.
  intros Hc.
  destruct (parseLegs (legs t) premiums) as [| l0 ls] eqn:Hp.
  - exists 0%nat. intros n _. unfold calculatePayoff. rewrite Hp. eauto.
  - pose proof (parseLegs_strikes (legs t) premiums) as Hs. rewrite Hp in Hs.
    inversion Hs as [| ? ? Hk _]; subst.
    destruct (findBreakevens_total (l0 :: ls)
                (fst (priceDomain l0 ls currentPrice))
                (snd (priceDomain l0 ls currentPrice)) default_tolerance)
      as [N HN]; [now apply priceDomain_nonempty | reflexivity |].
    exists N. intros n Hn. destruct (HN n Hn) as [bes Hb].
    destruct (calculatePayoff_breakevens n t premiums currentPrice l0 ls bes Hp Hb)
      as [pa [Hpa _]].
    now exists pa.
Qed.

(** *** The sampled maximum *)

Lemma sampleLoop_max (legs : list LegWithPrice) (minPrice maxPrice : Q)
    (idx : list nat) (st : SampleState) :
  st_maxPnl (fold_left (sampleStep legs minPrice maxPrice) idx st)
  = fold_left
      (maxStep (fun i => calculateTotalPnl legs (samplePrice minPrice maxPrice i)))
      idx (st_maxPnl st).
Proof.
  revert st. induction idx as [| i rest IH]; intros st; [reflexivity |].
  cbn [fold_left]. rewrite IH. reflexivity.
Qed.

Lemma maxStep_from_some (pnlAt : nat -> Q) (idx : list nat) (m0 : Q) :
  exists m,
    fold_left (maxStep pnlAt) idx (Some m0) = Some m
    /\ (m = m0 \/ In m (map pnlAt idx))
    /\ m0 <= m /\ Forall (fun x => x <= m) (map pnlAt idx).
Proof.
  revert m0. induction idx as [| i rest IH]; intros m0.
  - exists m0. simpl. repeat split; auto; lra.
  - cbn [fold_left maxStep map].
    destruct (IH (Math_max2 m0 (pnlAt i))) as [m [Hf [Hin [Hle Hall]]]].
    exists m. change (maxStep pnlAt (Some m0) i) with (Some (Math_max2 m0 (pnlAt i))).
    rewrite Hf. unfold Math_max2 in *.
    case_num_le m0 (pnlAt i) E.
    + split; [reflexivity |]. split; [| split].
      * destruct Hin as [-> | Hin]; [right; now left | right; now right].
      * lra.
      * constructor; [exact Hle | exact Hall].
    + split; [reflexivity |]. split; [| split].
      * destruct Hin as [-> | Hin]; [now left | right; now right].
      * exact Hle.
      * constructor; [lra | exact Hall].
Qed.

(** [maxPnl] after the sampling loop is the largest sampled P&L. *)
Lemma sampleLoop_maxPnl (legs : list LegWithPrice) (minPrice maxPrice : Q) :
  exists m,
    st_maxPnl (sampleLoop legs minPrice maxPrice) = Some m
    /\ In m (sampledPnls legs minPrice maxPrice)
    /\ Forall (fun x => x <= m) (sampledPnls legs minPrice maxPrice).
Proof.
  unfold sampleLoop, sampledPnls. rewrite sampleLoop_max.
  set (pnlAt := fun i => calculateTotalPnl legs (samplePrice minPrice maxPrice i)).
  change (seq 0 (S numPoints)) with (0%nat :: seq 1 numPoints).
  cbn [fold_left maxStep st_maxPnl map].
  destruct (maxStep_from_some pnlAt (seq 1 numPoints) (pnlAt 0%nat))
    as [m [Hf [Hin [Hle Hall]]]].
  exists m. split; [exact Hf |]. split.
  - destruct Hin as [-> | Hin]; [now left | now right].
  - constructor; [exact Hle | exact Hall].
Qed.

Lemma num_or_zero (a : Q) : num_or a 0 == a.
Proof.
  unfold num_or. destruct (Qeq_bool a 0) eqn:E; [| reflexivity].
  apply Qeq_bool_iff in E. symmetry. exact E.
Qed.

Lemma Math_max2_comp (a a' b : Q) : a == a' -> Math_max2 a b == Math_max2 a' b.
Proof.
  intros H. unfold Math_max2.
  destruct (num_le a b) eqn:E1, (num_le a' b) eqn:E2;
    try (apply num_le_iff in E1); try (apply num_le_iff in E2);
    try (apply num_le_false_iff in E1); try (apply num_le_false_iff in E2); lra.
Qed.

(** What [calculatePayoff] reports as [maxGain], when it returns. *)
Lemma calculatePayoff_maxGain_eq (n : nat) (t : TradeSpec)
    (premiums : PremiumMap) (currentPrice : Q)
    (l0 : LegWithPrice) (ls : list LegWithPrice) (pa : PayoffAnalysis) :
  parseLegs (legs t) premiums = l0 :: ls ->
  calculatePayoff n t premiums currentPrice = Some pa ->
  let parsed := l0 :: ls in
  let d := priceDomain l0 ls currentPrice in
  let maxPnl :=
    match st_maxPnl (sampleLoop parsed (fst d) (snd d)) with
    | Some m => m | None => 0 end in
  maxGain pa
  = option_map round2
      (if uncoveredPut parsed
       then Some (Math_max2 (if uncappedCall parsed then 0 else num_or maxPnl 0)
                            (calculateTotalPnl parsed 0))
       else if uncappedCall parsed then None else Some maxPnl).
Proof.
  intros Hp Hc. unfold calculatePayoff in Hc. rewrite Hp in Hc. cbv zeta in Hc.
  unfold priceDomain, uncoveredPut, uncappedCall. cbn [fst snd]. cbv zeta.
  set (minP := Math_max2 0 _) in *.
  set (maxP := Math_max_list _ _ + _) in *.
  set (st := sampleLoop _ _ _) in *.
  destruct (findBreakevens n (l0 :: ls) minP maxP default_tolerance);
    [| discriminate].
  set (uc := negb (existsb (is_leg sell C) (l0 :: ls))
             && existsb (is_leg buy C) (l0 :: ls)) in *.
  set (up := existsb (is_leg buy P) (l0 :: ls)
             && negb (existsb (is_leg sell P) (l0 :: ls))) in *.
  set (p0 := calculateTotalPnl (l0 :: ls) 0) in *.
  clearbody st minP maxP uc up p0.
  injection Hc as <-. cbn [maxGain].
  destruct uc, up; reflexivity.
Qed.




End MaxGainFacts.

(** ** The liquidity query *)

Module LyraFacts.

Import Payoff LyraTools.

Lemma insert_by_spread_perm x l : Permutation (x :: l) (insert_by_spread x l).
Proof.
  induction l as [| y rest IH]; simpl; [apply Permutation_refl |].
  destruct (num_le (spread_key x) (spread_key y)); [apply Permutation_refl |].
  eapply Permutation_trans; [apply perm_swap |]. now apply perm_skip.
Qed.

Lemma sort_by_spread_perm l : Permutation l (sort_by_spread l).
Proof.
  induction l as [| x rest IH]; simpl; [constructor |].
  eapply Permutation_trans; [| apply insert_by_spread_perm]. now apply perm_skip.
Qed.

Lemma insert_by_spread_sorted x l :
  Sorted by_spread l -> Sorted by_spread (insert_by_spread x l).
Proof.
  induction 1 as [| y rest Hs IH Hhd]; simpl.
  - repeat constructor.
  - destruct (num_le (spread_key x) (spread_key y)) eqn:E.
    + apply num_le_iff in E. repeat constructor; auto.
    + apply num_le_false_iff in E. constructor; [exact IH |].
      destruct rest as [| z rest']; simpl.
      * constructor. unfold by_spread. lra.
      * destruct (num_le (spread_key x) (spread_key z));
          constructor; [unfold by_spread; lra | now inversion Hhd].
Qed.

Lemma sort_by_spread_sorted l : Sorted by_spread (sort_by_spread l).
Proof.
  induction l as [| x rest IH]; simpl; [constructor |].
  now apply insert_by_spread_sorted.
Qed.

Section QueryFacts.

Variable parseFloat : string -> Q.
Variable index_price_now : Q.
Variable instruments : list LyraInstrument.
Variable now : Q.
Variable tickers : string -> option LyraTicker.

Let priced := price_instrument parseFloat tickers.
Let query := executeFindLiquidOptions parseFloat index_price_now instruments now tickers.
Let window := in_window parseFloat index_price_now now.

Lemma price_all_In maxSpread l r :
  In r (price_all parseFloat tickers maxSpread l)
  <-> exists i, In i l /\ priced maxSpread i = Some r.
Proof.
  induction l as [| i rest IH]; simpl.
  - split; [intros [] | intros [i [[] _]]].
  - fold (priced maxSpread i). destruct (priced maxSpread i) as [r' |] eqn:E.
    + simpl. rewrite IH. split.
      * intros [<- | [j [Hj Hr]]]; [exists i; auto | exists j; auto].
      * intros [j [[<- | Hj] Hr]]; [left; congruence | right; exists j; auto].
    + rewrite IH. split.
      * intros [j [Hj Hr]]. exists j; auto.
      * intros [j [[<- | Hj] Hr]]; [congruence | exists j; auto].
Qed.

(** What one candidate becomes: dropped, or priced. *)
Lemma price_instrument_spec maxSpread i :
  match priced maxSpread i with
  | None =>
      tickers (li_instrument_name i) = None
      \/ exists ticker,
           tickers (li_instrument_name i) = Some ticker
           /\ (live_price parseFloat (best_bid_price ticker) = None
               \/ live_price parseFloat (best_ask_price ticker) = None
               \/ exists sp,
                    calc_spread (live_price parseFloat (best_bid_price ticker))
                                (live_price parseFloat (best_ask_price ticker))
                    = Some sp /\ maxSpread < sp)
  | Some r =>
      exists ticker b a pr,
        tickers (li_instrument_name i) = Some ticker
        /\ live_price parseFloat (best_bid_price ticker) = Some b
        /\ live_price parseFloat (best_ask_price ticker) = Some a
        /\ instrument r = i /\ pricing r = Some pr
        /\ bid pr = Some b /\ ask pr = Some a
        /\ spread_percent pr = calc_spread (Some b) (Some a)
        /\ match spread_percent pr with
           | Some sp => sp <= maxSpread
           | None => True
           end
  end.
Proof.
  unfold priced, price_instrument.
  destruct (tickers (li_instrument_name i)) as [ticker |]; [| now left].
  destruct (live_price parseFloat (best_bid_price ticker)) as [b |] eqn:Eb;
    [| right; exists ticker; auto].
  destruct (live_price parseFloat (best_ask_price ticker)) as [a |] eqn:Ea;
    [| right; exists ticker; auto].
  destruct (calc_spread (Some b) (Some a)) as [sp |] eqn:Es.
  - destruct (num_le sp maxSpread) eqn:L; cbn [negb].
    + apply num_le_iff in L. exists ticker, b, a. eexists.
      repeat split; cbn [instrument pricing bid ask spread_percent];
        try reflexivity; try (symmetry; exact Es); auto.
    + apply num_le_false_iff in L. right. exists ticker. split; [reflexivity |].
      right. right. exists sp. rewrite Eb, Ea. auto.
  - cbn [negb]. exists ticker, b, a. eexists.
    repeat split; cbn [instrument pricing bid ask spread_percent];
      try reflexivity; try (symmetry; exact Es); auto.
Qed.

(** The spread of a two-sided quote. *)
Lemma calc_spread_spec (b a : Q) :
  calc_spread (Some b) (Some a)
  = if num_gt b 0 && num_gt ((b + a) / 2) 0
    then Some ((a - b) / ((b + a) / 2) * 100) else None.
Proof.
  unfold calc_spread. destruct (num_gt b 0); [| reflexivity].
  destruct (num_gt ((b + a) / 2) 0); reflexivity.
Qed.

(** A price string is live when it is neither empty nor ["0"]. *)
Lemma live_price_spec (s : string) :
  live_price parseFloat s
  = if String.eqb s "" || String.eqb s "0" then None else Some (parseFloat s).
Proof.
  unfold live_price. destruct (String.eqb s ""), (String.eqb s "0"); reflexivity.
Qed.

End QueryFacts.

(** The scenario of the specification: of two candidates with spreads of 4%
    and 12%, a maximum of 10 returns the first only; a maximum of 20 returns
    both, the tighter first. *)
Lemma find_liquid_options_scenario :
  map Examples.summary
      (Examples.sampleQuery ["ETH-A-3500-C"; "ETH-B-3500-C"] (Some 10))
  = [ ("ETH-B-3500-C", Some 4) ]
  /\ map Examples.summary
         (Examples.sampleQuery ["ETH-A-3500-C"; "ETH-B-3500-C"] None)
     = [ ("ETH-B-3500-C", Some 4) ]
  /\ map Examples.summary
         (Examples.sampleQuery ["ETH-A-3500-C"; "ETH-B-3500-C"] (Some 20))
     = [ ("ETH-B-3500-C", Some 4); ("ETH-A-3500-C", Some 12) ].
Proof. repeat split; vm_compute; reflexivity. Qed.

End LyraFacts.

(** ** LiquidityQuery in binary64 *)

Module Lyra64Facts.

Import Binary64 Binary64Facts Payoff LyraTools LyraTools64.

(** *** The computed spread against the exact one *)

Lemma cube_over_square (u : Q) :
  0 <= u -> u <= 1 # 1000000 ->
  (1 + u) * (1 + u) * (1 + u) <= (1 + 6 * u) * ((1 - u) * (1 - u))
  /\ (1 - 6 * u) * ((1 + u) * (1 + u)) <= (1 - u) * (1 - u) * (1 - u).
Proof.
  intros H0 H1.
  assert (K : 0 <= u * u) by (apply Qmult_le_0_compat; lra).
  assert (K1 : u * u <= (1 # 1000000) * u) by (apply Qmult_le_compat_r; lra).
  assert (K2 : 0 <= u * u * u) by (apply Qmult_le_0_compat; lra).
  assert (K3 : u * u * u <= (1 # 1000000) * (u * u)).
  { setoid_replace (u * u * u) with (u * (u * u)) by ring.
    apply Qmult_le_compat_r; lra. }
  split.
  - setoid_replace ((1 + u) * (1 + u) * (1 + u))
      with (1 + 3 * u + 3 * (u * u) + u * u * u) by ring.
    setoid_replace ((1 + 6 * u) * ((1 - u) * (1 - u)))
      with (1 + 4 * u - 11 * (u * u) + 6 * (u * u * u)) by ring.
    lra.
  - setoid_replace ((1 - u) * (1 - u) * (1 - u))
      with (1 - 3 * u + 3 * (u * u) - u * u * u) by ring.
    setoid_replace ((1 - 6 * u) * ((1 + u) * (1 + u)))
      with (1 - 4 * u - 11 * (u * u) - 6 * (u * u * u)) by ring.
    lra.
Qed.

(** The spread of a difference [D >= 0] over the sum [s > 0], each
    operation rounded: within [6 * unit_roundoff] of the exact value,
    relatively. *)
Lemma spread_rounded_close (D s : Q) :
  0 <= D -> 0 < s ->
  let r := fmul (fdiv (fl64 D) (fdiv (fl64 s) 2)) 100 in
  let E := D / (s / 2) * 100 in
  0 <= E /\ E * (1 - 6 * unit_roundoff) <= r /\ r <= E * (1 + 6 * unit_roundoff).
Proof.
  intros HD Hs r E.
  destruct unit_roundoff_bounds as [U0 _]. pose proof unit_roundoff_small as U1.
  destruct (cube_over_square unit_roundoff (Qlt_le_weak _ _ U0) U1) as [C1 C2].
  destruct (fl64_rel D HD) as [D1l D1u].
  pose proof (fl64_nonneg D HD) as D1p.
  destruct (fl64_rel s (Qlt_le_weak _ _ Hs)) as [s1l s1u].
  pose proof (fl64_pos s Hs) as s1p.
  assert (hp : 0 < fl64 s / 2) by (apply Qlt_shift_div_l; lra).
  destruct (fl64_rel (fl64 s / 2) (Qlt_le_weak _ _ hp)) as [m1l m1u].
  pose proof (fl64_pos _ hp) as m1p.
  assert (Pp : 0 <= fl64 D / fl64 (fl64 s / 2)) by (apply Qle_shift_div_l; lra).
  assert (PE : fl64 D / fl64 (fl64 s / 2) * fl64 (fl64 s / 2) == fl64 D)
    by (field; lra).
  destruct (fl64_rel _ Pp) as [q1l q1u].
  pose proof (fl64_nonneg _ Pp) as q1p.
  assert (Rp : 0 <= fl64 (fl64 D / fl64 (fl64 s / 2)) * 100) by lra.
  destruct (fl64_rel _ Rp) as [r1l r1u].
  pose proof (fl64_nonneg _ Rp) as r1p.
  assert (EE : E * s == 200 * D) by (unfold E; field; lra).
  assert (Ep : 0 <= E).
  { assert (sp2 : 0 < s / 2) by (apply Qlt_shift_div_l; lra).
    unfold E. apply Qmult_le_0_compat; [| lra].
    apply Qle_shift_div_l; [exact sp2 | rewrite Qmult_0_l; exact HD]. }
  unfold fmul, fdiv in r. fold r in r1l, r1u, r1p.
  set (h := fl64 s / 2) in *.
  assert (Eh : h * 2 == fl64 s) by (unfold h; field).
  set (m1 := fl64 h) in *. set (D1 := fl64 D) in *. set (s1 := fl64 s) in *.
  set (P := D1 / m1) in *. set (q1 := fl64 P) in *.
  clearbody r m1 q1 P D1 s1 h E.
  set (u := unit_roundoff) in *. clearbody u.
  split; [exact Ep |].
  assert (X1 : 0 <= 1 - u) by lra. assert (X2 : 0 <= 1 + u) by lra.
  split.
  - (* lower *)
    assert (A1 : 100 * (P * (1 - u) * (1 - u)) <= r).
    { assert (P * (1 - u) * (1 - u) <= q1 * (1 - u))
        by (apply Qmult_le_compat_r; lra). lra. }
    assert (A2 : 100 * (D1 * ((1 - u) * (1 - u))) <= r * m1).
    { assert (100 * (P * (1 - u) * (1 - u)) * m1 <= r * m1)
        by (apply Qmult_le_compat_r; lra).
      setoid_replace (100 * (P * (1 - u) * (1 - u)) * m1)
        with (100 * (P * m1 * ((1 - u) * (1 - u)))) in H by ring.
      rewrite PE in H. exact H. }
    assert (A3 : D * ((1 - u) * (1 - u) * (1 - u)) <= D1 * ((1 - u) * (1 - u))).
    { setoid_replace (D * ((1 - u) * (1 - u) * (1 - u)))
        with (D * (1 - u) * ((1 - u) * (1 - u))) by ring.
      apply Qmult_le_compat_r; [lra |]. apply Qmult_le_0_compat; lra. }
    assert (A4 : m1 <= s * (1 # 2) * ((1 + u) * (1 + u))).
    { assert (h * (1 + u) <= s * (1 + u) * (1 # 2) * (1 + u))
        by (apply Qmult_le_compat_r; lra).
      setoid_replace (s * (1 # 2) * ((1 + u) * (1 + u)))
        with (s * (1 + u) * (1 # 2) * (1 + u)) by field. lra. }
    assert (A5 : r * m1 <= r * (s * (1 # 2) * ((1 + u) * (1 + u)))).
    { rewrite !(Qmult_comm r). apply Qmult_le_compat_r; lra. }
    assert (A6 : D * ((1 - 6 * u) * ((1 + u) * (1 + u)))
                 <= D * ((1 - u) * (1 - u) * (1 - u))).
    { rewrite !(Qmult_comm D). apply Qmult_le_compat_r; lra. }
    assert (G : E * (1 - 6 * u) * (s * (1 # 2) * ((1 + u) * (1 + u)))
                <= r * (s * (1 # 2) * ((1 + u) * (1 + u)))).
    { setoid_replace (E * (1 - 6 * u) * (s * (1 # 2) * ((1 + u) * (1 + u))))
        with (E * s * (1 # 2) * ((1 - 6 * u) * ((1 + u) * (1 + u)))) by field.
      rewrite EE.
      setoid_replace (200 * D * (1 # 2) * ((1 - 6 * u) * ((1 + u) * (1 + u))))
        with (100 * (D * ((1 - 6 * u) * ((1 + u) * (1 + u))))) by field.
      lra. }
    apply Qmult_lt_0_le_reg_r in G; [exact G |].
    apply Qmult_lt_0_compat; [lra |]. apply Qmult_lt_0_compat; lra.
  - (* upper *)
    assert (A1 : r <= 100 * (P * (1 + u) * (1 + u))).
    { assert (q1 * (1 + u) <= P * (1 + u) * (1 + u))
        by (apply Qmult_le_compat_r; lra). lra. }
    assert (A2 : r * m1 <= 100 * (D1 * ((1 + u) * (1 + u)))).
    { assert (r * m1 <= 100 * (P * (1 + u) * (1 + u)) * m1)
        by (apply Qmult_le_compat_r; lra).
      setoid_replace (100 * (P * (1 + u) * (1 + u)) * m1)
        with (100 * (P * m1 * ((1 + u) * (1 + u)))) in H by ring.
      rewrite PE in H. exact H. }
    assert (A3 : D1 * ((1 + u) * (1 + u)) <= D * ((1 + u) * (1 + u) * (1 + u))).
    { setoid_replace (D * ((1 + u) * (1 + u) * (1 + u)))
        with (D * (1 + u) * ((1 + u) * (1 + u))) by ring.
      apply Qmult_le_compat_r; [lra |]. apply Qmult_le_0_compat; lra. }
    assert (A4 : s * (1 # 2) * ((1 - u) * (1 - u)) <= m1).
    { assert (s * (1 - u) * (1 # 2) * (1 - u) <= h * (1 - u))
        by (apply Qmult_le_compat_r; lra).
      setoid_replace (s * (1 # 2) * ((1 - u) * (1 - u)))
        with (s * (1 - u) * (1 # 2) * (1 - u)) by field. lra. }
    assert (A5 : r * (s * (1 # 2) * ((1 - u) * (1 - u))) <= r * m1).
    { rewrite !(Qmult_comm r). apply Qmult_le_compat_r; lra. }
    assert (A6 : D * ((1 + u) * (1 + u) * (1 + u))
                 <= D * ((1 + 6 * u) * ((1 - u) * (1 - u)))).
    { rewrite !(Qmult_comm D). apply Qmult_le_compat_r; lra. }
    assert (G : r * (s * (1 # 2) * ((1 - u) * (1 - u)))
                <= E * (1 + 6 * u) * (s * (1 # 2) * ((1 - u) * (1 - u)))).
    { setoid_replace (E * (1 + 6 * u) * (s * (1 # 2) * ((1 - u) * (1 - u))))
        with (E * s * (1 # 2) * ((1 + 6 * u) * ((1 - u) * (1 - u)))) by field.
      rewrite EE.
      setoid_replace (200 * D * (1 # 2) * ((1 + 6 * u) * ((1 - u) * (1 - u))))
        with (100 * (D * ((1 + 6 * u) * ((1 - u) * (1 - u))))) by field.
      lra. }
    apply Qmult_lt_0_le_reg_r in G; [exact G |].
    apply Qmult_lt_0_compat; [lra |]. apply Qmult_lt_0_compat; lra.
Qed.

Lemma spreadPercent64_close (b a : Q) :
  0 < b -> 0 < a ->
  Qabs (spreadPercent64 b a - spreadPercent b a)
  <= 6 * unit_roundoff * Qabs (spreadPercent b a).
Proof.
  intros Hb Ha. assert (Hs : 0 < b + a) by lra.
  destruct (Qlt_le_dec a b) as [Hlt | Hle].
  - assert (HD : 0 <= b - a) by lra.
    destruct (spread_rounded_close (b - a) (b + a) HD Hs) as [Ep [Hl Hu]].
    assert (E1 : spreadPercent b a == - ((b - a) / ((b + a) / 2) * 100))
      by (unfold spreadPercent; field; lra).
    assert (E2 : spreadPercent64 b a
                 == - fmul (fdiv (fl64 (b - a)) (fdiv (fl64 (b + a)) 2)) 100).
    { unfold spreadPercent64, fmul, fdiv, fsub, fadd.
      set (m := fl64 (fl64 (b + a) / 2)).
      assert (F1 : fl64 (a - b) == - fl64 (b - a)).
      { rewrite <- fl64_opp. rewrite (fl64_comp (a - b) (- (b - a))) by ring.
        reflexivity. }
      assert (F2 : fl64 (fl64 (a - b) / m) == - fl64 (fl64 (b - a) / m)).
      { rewrite <- fl64_opp.
        rewrite (fl64_comp (fl64 (a - b) / m) (- (fl64 (b - a) / m)));
          [reflexivity |].
        rewrite F1. unfold Qdiv. ring. }
      rewrite <- fl64_opp.
      rewrite (fl64_comp (fl64 (fl64 (a - b) / m) * 100)
                         (- (fl64 (fl64 (b - a) / m) * 100)));
        [reflexivity |].
      rewrite F2. ring. }
    rewrite E1, E2.
    set (r := fmul _ 100) in *. set (E := (b - a) / ((b + a) / 2) * 100) in *.
    rewrite Qabs_opp, (Qabs_pos E Ep). apply Qabs_Qle_condition.
    clearbody r E. split; lra.
  - assert (HD : 0 <= a - b) by lra.
    destruct (spread_rounded_close (a - b) (b + a) HD Hs) as [Ep [Hl Hu]].
    change (spreadPercent64 b a)
      with (fmul (fdiv (fl64 (a - b)) (fdiv (fl64 (b + a)) 2)) 100).
    change (spreadPercent b a) with ((a - b) / ((b + a) / 2) * 100).
    set (r := fmul _ 100) in *. set (E := (a - b) / ((b + a) / 2) * 100) in *.
    rewrite (Qabs_pos E Ep). apply Qabs_Qle_condition.
    clearbody r E. split; lra.
Qed.

Section Query64Facts.

Variable parseFloat : string -> Q.
Variable index_price_now : Q.
Variable instruments : list LyraInstrument.
Variable now : Q.
Variable tickers : string -> option LyraTicker.

Let priced := price_instrument parseFloat tickers.
Let query := executeFindLiquidOptions parseFloat index_price_now instruments now tickers.
Let window := in_window parseFloat index_price_now now.

Lemma live_price_quoted (s : string) :
  live_price parseFloat s = if quoted s then Some (parseFloat s) else None.
Proof. reflexivity. Qed.

(** The spread of two positive quotes is computed. *)
Lemma calc_spread_positive (b a : Q) :
  0 < b -> 0 < a -> calc_spread (Some b) (Some a) = Some (spreadPercent64 b a).
Proof.
  intros Hb Ha. unfold calc_spread, spreadPercent64.
  assert (G1 : num_gt b 0 = true) by (now apply num_gt_iff).
  assert (G2 : num_gt (fdiv (fadd b a) 2) 0 = true).
  { apply num_gt_iff. unfold fdiv, fadd. apply fl64_pos.
    assert (0 < fl64 (b + a)) by (apply fl64_pos; lra).
    apply Qlt_shift_div_l; lra. }
  rewrite G1. cbv zeta. rewrite G2. reflexivity.
Qed.

(** With positive quotes, a candidate is priced exactly when it is
    liquid, and then with its bid, its ask and its spread. *)
Lemma price_instrument_liquid (maxSpread : Q) (i : LyraInstrument) :
  positiveQuotes parseFloat tickers [i] = true ->
  match priced maxSpread i with
  | Some r =>
      liquid parseFloat tickers maxSpread i = true
      /\ instrument r = i
      /\ exists ticker pr,
           tickers (li_instrument_name i) = Some ticker
           /\ pricing r = Some pr
           /\ bid pr = Some (parseFloat (best_bid_price ticker))
           /\ ask pr = Some (parseFloat (best_ask_price ticker))
           /\ mark pr = parseFloat (mark_price ticker)
           /\ spread_percent pr
              = Some (spreadPercent64 (parseFloat (best_bid_price ticker))
                                      (parseFloat (best_ask_price ticker)))
  | None => liquid parseFloat tickers maxSpread i = false
  end.
Proof.
  unfold positiveQuotes, priced, price_instrument, liquid. cbn [forallb].
  destruct (tickers (li_instrument_name i)) as [ticker |]; [| reflexivity].
  rewrite !live_price_quoted, andb_true_r, andb_true_iff.
  unfold positiveQuote. intros [Hb Ha].
  destruct (quoted (best_bid_price ticker)); cbn [negb orb andb] in *;
    [| reflexivity].
  destruct (quoted (best_ask_price ticker)); cbn [negb orb andb] in *;
    [| reflexivity].
  apply num_gt_iff in Hb, Ha.
  rewrite (calc_spread_positive _ _ Hb Ha).
  destruct (num_le _ maxSpread); cbn [negb]; [| reflexivity].
  split; [reflexivity |]. split; [reflexivity |].
  eexists. eexists. repeat split.
Qed.

Lemma positiveQuotes_cons (i : LyraInstrument) (l : list LyraInstrument) :
  positiveQuotes parseFloat tickers (i :: l) = true
  <-> positiveQuotes parseFloat tickers [i] = true
      /\ positiveQuotes parseFloat tickers l = true.
Proof.
  unfold positiveQuotes. cbn [forallb]. rewrite andb_true_r. apply andb_true_iff.
Qed.

Lemma price_all_liquid (maxSpread : Q) (l : list LyraInstrument) :
  positiveQuotes parseFloat tickers l = true ->
  map instrument (price_all parseFloat tickers maxSpread l)
  = filter (liquid parseFloat tickers maxSpread) l.
Proof.
  induction l as [| i rest IH]; intros Hq; [reflexivity |].
  apply positiveQuotes_cons in Hq. destruct Hq as [Hi Hrest].
  cbn [price_all filter]. pose proof (price_instrument_liquid maxSpread i Hi) as H.
  unfold priced in H.
  destruct (price_instrument parseFloat tickers maxSpread i) as [r |].
  - destruct H as [Hl [Hr _]]. rewrite Hl. cbn [map]. rewrite Hr. f_equal. now apply IH.
  - rewrite H. now apply IH.
Qed.

Lemma price_all_In64 maxSpread l r :
  In r (price_all parseFloat tickers maxSpread l)
  <-> exists i, In i l /\ priced maxSpread i = Some r.
Proof.
  induction l as [| i rest IH]; simpl.
  - split; [intros [] | intros [i [[] _]]].
  - fold (priced maxSpread i). destruct (priced maxSpread i) as [r' |] eqn:E.
    + simpl. rewrite IH. split.
      * intros [<- | [j [Hj Hr]]]; [exists i; auto | exists j; auto].
      * intros [j [[<- | Hj] Hr]]; [left; congruence | right; exists j; auto].
    + rewrite IH. split.
      * intros [j [Hj Hr]]. exists j; auto.
      * intros [j [[<- | Hj] Hr]]; [congruence | exists j; auto].
Qed.

Lemma positiveQuotes_In (l : list LyraInstrument) (i : LyraInstrument) :
  positiveQuotes parseFloat tickers l = true -> In i l ->
  positiveQuotes parseFloat tickers [i] = true.
Proof.
  unfold positiveQuotes. rewrite forallb_forall. intros H Hi.
  cbn [forallb]. rewrite andb_true_r. now apply H.
Qed.

(** C6, amended.  Where every quoted price of the candidates is a positive
    number, [executeFindLiquidOptions] returns the candidates of the window
    that have a ticker, a quoted bid and ask (neither empty nor "0") and a
    spread of at most the maximum, each once and sorted by ascending
    spread.  The spread of a result is (ask - bid) / mid * 100 with
    mid = (bid + ask) / 2 as binary64 computes it, within 6 units of
    roundoff of the exact value; so a candidate whose exact spread is
    below the maximum by that margin is returned.  The maximum is the
    caller's value when it is given and not 0, and 10 otherwise. *)
Theorem executeFindLiquidOptions_liquid (params : FindParams) :
  let maxSpread := opt_or (max_spread_percent params) 10 in
  let candidates := filter (window params) instruments in
  let out := query params in
  positiveQuotes parseFloat tickers candidates = true ->
  Sorted by_spread out
  /\ Permutation (map instrument out)
                 (filter (liquid parseFloat tickers maxSpread) candidates)
  /\ (forall r, In r out ->
        exists ticker pr b a sp,
          In (instrument r) candidates
          /\ tickers (li_instrument_name (instrument r)) = Some ticker
          /\ quoted (best_bid_price ticker) = true
          /\ quoted (best_ask_price ticker) = true
          /\ b = parseFloat (best_bid_price ticker)
          /\ a = parseFloat (best_ask_price ticker)
          /\ 0 < b /\ 0 < a
          /\ pricing r = Some pr
          /\ bid pr = Some b /\ ask pr = Some a
          /\ spread_percent pr = Some sp
          /\ sp = spreadPercent64 b a
          /\ sp <= maxSpread
          /\ Qabs (sp - spreadPercent b a)
             <= 6 * unit_roundoff * Qabs (spreadPercent b a))
  /\ (forall i ticker,
        In i candidates ->
        tickers (li_instrument_name i) = Some ticker ->
        quoted (best_bid_price ticker) = true ->
        quoted (best_ask_price ticker) = true ->
        Qabs (spreadPercent (parseFloat (best_bid_price ticker))
                            (parseFloat (best_ask_price ticker)))
        * (1 + 6 * unit_roundoff) <= maxSpread ->
        In i (map instrument out))
  /\ (max_spread_percent params = None -> maxSpread = 10)
  /\ (forall v, max_spread_percent params = Some v ->
        maxSpread = if Qeq_bool v 0 then 10 else v).
Proof.
  intros maxSpread candidates out Hq.
  assert (Hperm : Permutation (price_all parseFloat tickers maxSpread candidates) out)
    by apply LyraFacts.sort_by_spread_perm.
  assert (Hmap : Permutation (filter (liquid parseFloat tickers maxSpread) candidates)
                             (map instrument out)).
  { rewrite <- (price_all_liquid maxSpread candidates Hq).
    now apply Permutation_map. }
  assert (Hpos : forall i ticker,
            In i candidates -> tickers (li_instrument_name i) = Some ticker ->
            quoted (best_bid_price ticker) = true ->
            quoted (best_ask_price ticker) = true ->
            0 < parseFloat (best_bid_price ticker)
            /\ 0 < parseFloat (best_ask_price ticker)).
  { intros i ticker Hi Ht Hb Ha.
    pose proof (positiveQuotes_In candidates i Hq Hi) as H.
    unfold positiveQuotes in H. cbn [forallb] in H. rewrite Ht in H.
    unfold positiveQuote in H. rewrite Hb, Ha in H. cbn [negb orb] in H.
    rewrite andb_true_r in H. apply andb_true_iff in H.
    destruct H as [H1 H2]. apply num_gt_iff in H1, H2. now split. }
  split; [apply LyraFacts.sort_by_spread_sorted |].
  split; [now apply Permutation_sym |].
  split; [| split; [| split]].
  - intros r Hr. apply (Permutation_in r (Permutation_sym Hperm)) in Hr.
    apply price_all_In64 in Hr. destruct Hr as [i [Hi Hp]].
    pose proof (price_instrument_liquid maxSpread i
                  (positiveQuotes_In candidates i Hq Hi)) as H.
    rewrite Hp in H.
    destruct H as [Hl [Hri [ticker [pr [Ht [Hpr [Hb [Ha [_ Hsp]]]]]]]]].
    unfold liquid in Hl. rewrite Ht in Hl.
    apply andb_true_iff in Hl. destruct Hl as [Hl Hle].
    apply andb_true_iff in Hl. destruct Hl as [Hqb Hqa].
    apply num_le_iff in Hle.
    destruct (Hpos i ticker Hi Ht Hqb Hqa) as [Pb Pa].
    exists ticker, pr, (parseFloat (best_bid_price ticker)),
      (parseFloat (best_ask_price ticker)),
      (spreadPercent64 (parseFloat (best_bid_price ticker))
                       (parseFloat (best_ask_price ticker))).
    rewrite Hri. repeat split; auto. now apply spreadPercent64_close.
  - intros i ticker Hi Ht Hqb Hqa Hle.
    apply (Permutation_in i Hmap). apply filter_In. split; [exact Hi |].
    unfold liquid. rewrite Ht, Hqb, Hqa. cbn [andb]. apply num_le_iff.
    destruct (Hpos i ticker Hi Ht Hqb Hqa) as [Pb Pa].
    pose proof (spreadPercent64_close _ _ Pb Pa) as Hc.
    apply Qabs_Qle_condition in Hc.
    set (sp := spreadPercent64 _ _) in *. set (E := Qabs (spreadPercent _ _)) in *.
    clearbody sp. destruct (Qabs_bounds (spreadPercent (parseFloat (best_bid_price ticker))
                                  (parseFloat (best_ask_price ticker)))) as [B0 [B1 B2]].
    fold E in B0, B1, B2. destruct Hc as [_ Hc]. clearbody E. lra.
  - intros Hn. subst maxSpread. rewrite Hn. reflexivity.
  - intros v Hv. subst maxSpread. rewrite Hv. reflexivity.
Qed.

End Query64Facts.

(** On the sample market with the candidates quoted 94/106, 98/102 and
    193/207 and a maximum of 10, the query returns the last two. *)
Lemma executeFindLiquidOptions_liquid_witness :
  let names := ["ETH-A-3500-C"; "ETH-B-3500-C"; "ETH-S-3500-C"] in
  let out := Examples.sampleQuery64 names (Some 10) in
  let candidates :=
    filter (in_window Examples.parseFloat64 3400 0 (Examples.findParams (Some 10)))
           (map Examples.candidate names) in
  positiveQuotes Examples.parseFloat64 Examples.wideTickers candidates = true
  /\ Sorted by_spread out
  /\ Permutation (map instrument out)
       (filter (liquid Examples.parseFloat64 Examples.wideTickers 10) candidates)
  /\ map li_instrument_name (map instrument out) = ["ETH-B-3500-C"; "ETH-S-3500-C"].
Proof.
  intros names out candidates.
  assert (Hq : positiveQuotes Examples.parseFloat64 Examples.wideTickers candidates
               = true) by (vm_compute; reflexivity).
  destruct (executeFindLiquidOptions_liquid Examples.parseFloat64 3400
              (map Examples.candidate names) 0 Examples.wideTickers
              (Examples.findParams (Some 10)) Hq) as [Hs [Hp _]].
  split; [exact Hq |]. split; [exact Hs |]. split; [exact Hp |].
  vm_compute. reflexivity.
Defined.

(** C6, as stated, fails.  (1) A maximum of 0 given by the caller is
    replaced by the default 10: the candidate quoted 98/102 is returned,
    with its spread of 4, above the caller's maximum.  (2) A bid of "0.0" is
    not the string "0": the candidate is kept, and its spread is not
    computed.  (3) The candidate quoted 193/207 has a spread of 7 exactly,
    which does not exceed a maximum of 7; binary64 computes
    7.000000000000001 and the candidate is dropped. *)
Lemma find_liquid_options_keeps_and_drops :
  map Examples.summary (Examples.sampleQuery64 ["ETH-B-3500-C"] (Some 0))
  = [ ("ETH-B-3500-C", Some 4) ]
  /\ map Examples.summary (Examples.sampleQuery64 ["ETH-Z-3500-C"] None)
     = [ ("ETH-Z-3500-C", None) ]
  /\ spreadPercent 193 207 == 7
  /\ Examples.sampleQuery64 ["ETH-S-3500-C"] (Some 7) = []
  /\ map Examples.summary (Examples.sampleQuery64 ["ETH-S-3500-C"] (Some 10))
     = [ ("ETH-S-3500-C", Some (7881299347898369 # 1125899906842624)) ].
Proof. repeat split; vm_compute; reflexivity. Qed.

(** The window in binary64: around an index price of 3400 a range of 15%
    ends at 3909.9999999999995, so that a strike of 3910 is outside it and
    one of 3909 inside. *)
Lemma in_window_strike_3910 :
  let details strike :=
    {| li_instrument_name := "ETH-20260130-C"; li_instrument_type := "option";
       li_underlying_currency := "ETH"; li_is_active := true;
       li_tick_size := "0.1"; li_minimum_amount := "0.01";
       li_option_details :=
         Some {| od_expiry := 86400 * 10; od_strike := strike;
                 od_option_type := C |} |} in
  in_window Examples.parseFloat64 3400 0 (Examples.findParams None) (details "3910")
  = false
  /\ in_window Examples.parseFloat64 3400 0 (Examples.findParams None)
       (details "3909") = true.
Proof. split; vm_compute; reflexivity. Qed.

End Lyra64Facts.

(** ** The text of a model answer *)

Module TextFacts.

Import Agent.

Lemma append_assoc_s (a b c : string) : (a ++ b) ++ c = a ++ (b ++ c).
Proof. induction a as [| x a IH]; cbn [append]; [reflexivity | now rewrite IH]. Qed.

Lemma append_empty_r (a : string) : a ++ "" = a.
Proof. induction a as [| x a IH]; cbn [append]; [reflexivity | now rewrite IH]. Qed.

Lemma length_append (a b : string) :
  String.length (a ++ b) = (String.length a + String.length b)%nat.
Proof. induction a as [| x a IH]; cbn [append String.length]; [reflexivity | now rewrite IH]. Qed.

(** Two ways of cutting one string. *)
Lemma append_eq_append (a b c d : string) :
  a ++ b = c ++ d ->
  (exists e, c = a ++ e /\ b = e ++ d) \/ (exists e, a = c ++ e /\ d = e ++ b).
Proof.
  revert c. induction a as [| x a IH]; intros c H; cbn [append] in H.
  - left. exists c. auto.
  - destruct c as [| y c]; cbn [append] in H.
    + right. exists (String x a). auto.
    + injection H as -> H. destruct (IH c H) as [[e [-> ->]] | [e [-> ->]]].
      * left. exists e. auto.
      * right. exists e. auto.
Qed.

Lemma append_inv_head (a b c : string) : a ++ b = a ++ c -> b = c.
Proof. induction a as [| x a IH]; cbn [append]; intros H; [exact H |]. injection H as H. auto. Qed.

Lemma starts_with_spec (p s : string) :
  starts_with p s = true <-> exists r, s = p ++ r.
Proof.
  revert s. induction p as [| a p IH]; intros s; cbn [starts_with append].
  - split; [intros _; now exists s | reflexivity].
  - destruct s as [| b s].
    + split; [discriminate | intros [r H]; discriminate].
    + rewrite andb_true_iff, Ascii.eqb_eq, IH. split.
      * intros [-> [r ->]]. now exists r.
      * intros [r H]. injection H as -> ->. split; [reflexivity | now exists r].
Qed.

Lemma starts_with_append (p r : string) : starts_with p (p ++ r) = true.
Proof. apply starts_with_spec. now exists r. Qed.

Lemma skip_append (p r : string) : skip (String.length p) (p ++ r) = r.
Proof. induction p as [| a p IH]; cbn [String.length skip append]; [now destruct r | exact IH]. Qed.

(** *** White space *)

Lemma is_space_In (w : string) : is_space w = true <-> In w whiteSpace.
Proof.
  unfold is_space. rewrite existsb_exists. split.
  - intros [x [Hx E]]. apply String.eqb_eq in E. now subst.
  - intros H. exists w. split; [exact H | apply String.eqb_refl].
Qed.

(** Case analysis on a white space character. *)
Ltac each_space H :=
  vm_compute in H;
  repeat (destruct H as [H | H]; [try subst |]); [.. | contradiction].

Lemma space_length (w : string) :
  In w whiteSpace ->
  (exists c1, w = String c1 "")
  \/ (exists c1 c2, w = String c1 (String c2 ""))
  \/ (exists c1 c2 c3, w = String c1 (String c2 (String c3 ""))).
Proof.
  intros H. each_space H; eauto 6.
Qed.

Lemma space_nonempty (w : string) : In w whiteSpace -> w <> "".
Proof. intros H. each_space H; discriminate. Qed.

(** [drop_spaces] steps over one white space character. *)
Lemma drop_spaces_space (w s : string) :
  In w whiteSpace -> drop_spaces (w ++ s) = drop_spaces s.
Proof. intros H. each_space H; reflexivity. Qed.

Lemma drop_spaces_blank (ws s : string) :
  Blank ws -> drop_spaces (ws ++ s) = drop_spaces s.
Proof.
  induction 1 as [| w ws' Hw _ IH]; [reflexivity |].
  now rewrite append_assoc_s, drop_spaces_space.
Qed.

(** What [drop_spaces] returns does not start with white space. *)
Definition spaceless_head (s : string) : Prop :=
  forall w r, In w whiteSpace -> s <> w ++ r.

Lemma spaceless_head_fixed (s : string) : spaceless_head s -> drop_spaces s = s.
Proof.
  intros H.
  assert (N : forall w r, s = w ++ r -> is_space w = false).
  { intros w r E. destruct (is_space w) eqn:Hs; [| reflexivity].
    apply is_space_In in Hs. now destruct (H w r Hs). }
  destruct s as [| c1 s1]; [reflexivity |]. cbn [drop_spaces].
  rewrite (N (String c1 "") s1 eq_refl).
  destruct s1 as [| c2 s2]; [reflexivity |].
  rewrite (N (String c1 (String c2 "")) s2 eq_refl).
  destruct s2 as [| c3 s3]; [reflexivity |].
  now rewrite (N (String c1 (String c2 (String c3 ""))) s3 eq_refl).
Qed.

Lemma spaceless_head_cases (s : string) :
  (forall w r, s = w ++ r -> is_space w = false) -> spaceless_head s.
Proof.
  intros N w r Hw E. apply is_space_In in Hw. rewrite (N w r E) in Hw. discriminate.
Qed.

(** A string is a run of white space followed by what [drop_spaces]
    leaves, which does not start with white space. *)
Lemma drop_spaces_split (s : string) :
  exists ws, Blank ws /\ s = ws ++ drop_spaces s /\ spaceless_head (drop_spaces s).
Proof.
  assert (G : forall n s, (String.length s <= n)%nat ->
            exists ws, Blank ws /\ s = ws ++ drop_spaces s
                       /\ spaceless_head (drop_spaces s)).
  { clear s. induction n as [| n IH]; intros s Hn.
    - destruct s; [| cbn in Hn; lia]. exists "". split; [constructor |].
      split; [reflexivity |]. intros w r Hw E.
      destruct w; [now apply (space_nonempty "" Hw) | discriminate].
    - assert (Stop : forall x, x = s ->
                (forall w r, x = w ++ r -> In w whiteSpace -> False) ->
                exists ws, Blank ws /\ s = ws ++ x /\ spaceless_head x).
      { intros x -> Hx. exists "". split; [constructor |]. split; [reflexivity |].
        intros w r Hw E. exact (Hx w r E Hw). }
      assert (Go : forall w r, s = w ++ r -> In w whiteSpace ->
                exists ws, Blank ws /\ s = ws ++ drop_spaces r
                           /\ spaceless_head (drop_spaces r)).
      { intros w r -> Hw.
        assert (Hr : (String.length r <= n)%nat).
        { rewrite length_append in Hn. pose proof (space_nonempty w Hw).
          destruct w; [congruence | cbn [String.length] in Hn; lia]. }
        destruct (IH r Hr) as [ws [Hb [Hs Hh]]].
        exists (w ++ ws). split; [now constructor |].
        split; [| exact Hh]. rewrite append_assoc_s. now rewrite <- Hs. }
      destruct s as [| c1 s1].
      { exists "". split; [constructor |]. split; [reflexivity |].
        intros w r Hw E. destruct w; [now apply (space_nonempty "" Hw) | discriminate]. }
      cbn [drop_spaces].
      destruct (is_space (String c1 "")) eqn:E1.
      { apply (Go (String c1 "") s1 eq_refl). now apply is_space_In. }
      destruct s1 as [| c2 s2].
      { apply Stop; [reflexivity |]. intros w r E Hw.
        destruct (space_length w Hw) as [[a ->] | [[a [b ->]] | [a [b [c ->]]]]];
          cbn [append] in E; try discriminate.
        injection E as -> _. apply is_space_In in Hw. congruence. }
      destruct (is_space (String c1 (String c2 ""))) eqn:E2.
      { apply (Go (String c1 (String c2 "")) s2 eq_refl). now apply is_space_In. }
      destruct s2 as [| c3 s3].
      { apply Stop; [reflexivity |]. intros w r E Hw.
        destruct (space_length w Hw) as [[a ->] | [[a [b ->]] | [a [b [c ->]]]]];
          cbn [append] in E; try discriminate.
        - injection E as -> _. apply is_space_In in Hw. congruence.
        - injection E as -> -> _. apply is_space_In in Hw. congruence. }
      destruct (is_space (String c1 (String c2 (String c3 "")))) eqn:E3.
      { apply (Go (String c1 (String c2 (String c3 ""))) s3 eq_refl).
        now apply is_space_In. }
      apply Stop; [reflexivity |]. intros w r E Hw.
      destruct (space_length w Hw) as [[a ->] | [[a [b ->]] | [a [b [c ->]]]]];
        cbn [append] in E.
      + injection E as -> _. apply is_space_In in Hw. congruence.
      + injection E as -> -> _. apply is_space_In in Hw. congruence.
      + injection E as -> -> -> _. apply is_space_In in Hw. congruence. }
  exact (G (String.length s) s (Nat.le_refl _)).
Qed.

Lemma blank_Blank (s : string) : blank s = true <-> Blank s.
Proof.
  unfold blank. split.
  - intros H. destruct (drop_spaces_split s) as [ws [Hb [Hs _]]].
    destruct (drop_spaces s); [| discriminate].
    rewrite append_empty_r in Hs. now subst.
  - intros H. rewrite <- (append_empty_r s), (drop_spaces_blank s "" H). reflexivity.
Qed.

Lemma Blank_app (a b : string) : Blank a -> Blank b -> Blank (a ++ b).
Proof.
  induction 1 as [| w a' Hw _ IH]; intros Hb; [exact Hb |].
  rewrite append_assoc_s. constructor; auto.
Qed.

(** *** [trim] *)

Lemma trim_end_split (x : string) : exists ws, Blank ws /\ x = trim_end x ++ ws.
Proof.
  induction x as [| c x IH]; [exists ""; split; [constructor | reflexivity] |].
  cbn [trim_end]. destruct (blank (String c x)) eqn:E.
  - exists (String c x). split; [now apply blank_Blank | reflexivity].
  - destruct IH as [ws [Hb Hx]]. exists ws. split; [exact Hb |].
    cbn [append]. now rewrite <- Hx.
Qed.

Lemma trim_end_spaceless (x w r : string) :
  In w whiteSpace -> trim_end x <> r ++ w.
Proof.
  intros Hw. revert r. induction x as [| c x IH]; intros r; cbn [trim_end].
  - intros E. destruct r; cbn [append] in E;
      [now apply (space_nonempty w Hw) | discriminate].
  - destruct (blank (String c x)) eqn:Eb.
    + intros E. destruct r; cbn [append] in E;
        [now apply (space_nonempty w Hw) | discriminate].
    + intros E. destruct r as [| c' r']; cbn [append] in E.
      * destruct (trim_end_split x) as [ws [Hb Hx]].
        assert (B : Blank (String c x)).
        { rewrite Hx. change (String c (trim_end x ++ ws))
            with (String c (trim_end x) ++ ws).
          rewrite E. now constructor. }
        apply blank_Blank in B. congruence.
      * injection E as _ E. exact (IH r' E).
Qed.

(** [trim s] is [s] without the white space at its two ends. *)
Lemma trim_Trimmed (s : string) : Trimmed (trim s) s.
Proof.
  unfold trim, Trimmed.
  destruct (drop_spaces_split s) as [before [Hb [Hs Hh]]].
  destruct (trim_end_split (drop_spaces s)) as [after [Ha Hx]].
  exists before, after. split; [| split; [exact Hb | split; [exact Ha |]]].
  - rewrite <- Hx. exact Hs.
  - intros w Hw. split; intros r E.
    + apply (Hh w (r ++ after) Hw). rewrite Hx, E. apply append_assoc_s.
    + exact (trim_end_spaceless _ w r Hw E).
Qed.

(** *** Fences *)

Lemma contains_app c x y :
  contains c (x ++ y) = contains c x || contains c y.
Proof.
  induction x as [| a x' IH]; simpl; [reflexivity |].
  rewrite IH. now rewrite orb_assoc.
Qed.

(** No white space character holds a backtick. *)
Lemma space_tickless (w : string) : In w whiteSpace -> contains "`" w = false.
Proof. intros H. each_space H; reflexivity. Qed.

Lemma starts_with_fence (s : string) :
  starts_with fence s = true -> s = fence ++ skip 3 s.
Proof.
  intros H. apply starts_with_spec in H. destruct H as [r ->]. reflexivity.
Qed.

Lemma first_fence_split (s pre rest : string) :
  first_fence s = Some (pre, rest) -> s = pre ++ fence ++ rest.
Proof.
  revert pre rest. induction s as [| c s IH]; intros pre rest H; [discriminate |].
  cbn [first_fence] in H. destruct (starts_with fence (String c s)) eqn:E.
  - injection H as <- <-. now apply starts_with_fence.
  - destruct (first_fence s) as [[p r] |]; [| discriminate].
    injection H as <- <-. cbn [append]. f_equal. now apply IH.
Qed.

Lemma first_fence_least (s pre rest a b : string) :
  first_fence s = Some (pre, rest) -> s = a ++ fence ++ b ->
  (String.length pre <= String.length a)%nat.
Proof.
  revert pre rest a. induction s as [| c s IH]; intros pre rest a H E; [discriminate |].
  cbn [first_fence] in H. destruct (starts_with fence (String c s)) eqn:Es.
  - injection H as <- <-. cbn. lia.
  - destruct (first_fence s) as [[p r] |] eqn:Ef; [| discriminate].
    injection H as <- <-. destruct a as [| c' a]; cbn [append] in E.
    + rewrite E in Es. change (String "`" (String "`" (String "`" b))) with (fence ++ b) in Es.
      rewrite starts_with_append in Es. discriminate.
    + injection E as _ E. cbn [String.length]. apply le_n_S. eapply IH; eauto.
Qed.

Lemma first_fence_none (s a b : string) :
  first_fence s = None -> s <> a ++ fence ++ b.
Proof.
  revert a. induction s as [| c s IH]; intros a H E.
  - destruct a; discriminate.
  - cbn [first_fence] in H. destruct (starts_with fence (String c s)) eqn:Es;
      [discriminate |].
    destruct (first_fence s) as [[p r] |] eqn:Ef; [discriminate |].
    destruct a as [| c' a]; cbn [append] in E.
    + rewrite E in Es. change (String "`" (String "`" (String "`" b))) with (fence ++ b) in Es.
      rewrite starts_with_append in Es. discriminate.
    + injection E as _ E. exact (IH a eq_refl E).
Qed.

Lemma append_same_length (a x b y : string) :
  a ++ x = b ++ y -> String.length a = String.length b -> a = b /\ x = y.
Proof.
  revert b. induction a as [| c a IH]; intros b E L; destruct b as [| c' b];
    cbn [String.length] in L; try discriminate.
  - now split.
  - cbn [append] in E. injection E as -> E. injection L as L.
    destruct (IH b E L) as [-> ->]. now split.
Qed.

(** The computed first fence is the first fence. *)
Lemma first_fence_spec (s pre rest : string) :
  first_fence s = Some (pre, rest) <-> FirstFence s pre rest.
Proof.
  split.
  - intros H. split; [now apply first_fence_split |].
    intros a b E. eapply first_fence_least; eauto.
  - intros [E L]. destruct (first_fence s) as [[p r] |] eqn:Ef.
    + pose proof (first_fence_split _ _ _ Ef) as E'.
      pose proof (first_fence_least _ _ _ _ _ Ef E) as L1.
      pose proof (L _ _ E') as L2.
      rewrite E in E'. destruct (append_same_length _ _ _ _ E' (Nat.le_antisymm _ _ L2 L1))
        as [-> Er].
      apply append_inv_head in Er. now subst.
    + now destruct (first_fence_none s pre rest Ef).
Qed.

Lemma no_fence_suffix (a b : string) :
  first_fence (a ++ b) = None -> first_fence b = None.
Proof.
  intros H. destruct (first_fence b) as [[p r] |] eqn:E; [| reflexivity].
  apply first_fence_split in E. destruct (first_fence_none (a ++ b) (a ++ p) r H).
  rewrite E. now rewrite append_assoc_s.
Qed.

(** White space before a text moves its first fence, and nothing else. *)
Lemma first_fence_space (w y : string) :
  In w whiteSpace ->
  first_fence (w ++ y)
  = match first_fence y with
    | Some (b, t) => Some (w ++ b, t)
    | None => None
    end.
Proof.
  intros H. each_space H; cbn; destruct (first_fence y) as [[b t] |]; reflexivity.
Qed.

Lemma first_fence_blank (ws y : string) :
  Blank ws ->
  first_fence (ws ++ y)
  = match first_fence y with
    | Some (b, t) => Some (ws ++ b, t)
    | None => None
    end.
Proof.
  induction 1 as [| w ws' Hw _ IH].
  - cbn [append]. destruct (first_fence y) as [[b t] |]; reflexivity.
  - rewrite append_assoc_s, (first_fence_space w _ Hw), IH.
    destruct (first_fence y) as [[b t] |]; [| reflexivity].
    now rewrite append_assoc_s.
Qed.

Lemma first_fence_drop_spaces (x : string) :
  first_fence (drop_spaces x)
  = match first_fence x with
    | Some (body, tail) => Some (drop_spaces body, tail)
    | None => None
    end.
Proof.
  destruct (drop_spaces_split x) as [ws [Hb [Hx Hh]]].
  pose proof (first_fence_blank ws (drop_spaces x) Hb) as H. rewrite <- Hx in H.
  rewrite H. destruct (first_fence (drop_spaces x)) as [[b t] |] eqn:E; [| reflexivity].
  rewrite (drop_spaces_blank ws b Hb).
  rewrite spaceless_head_fixed; [reflexivity |].
  intros w r Hw Eb. apply (Hh w (r ++ fence ++ t) Hw).
  rewrite (first_fence_split _ _ _ E), Eb. apply append_assoc_s.
Qed.

Lemma first_fence_head (s rest : string) :
  starts_with fence s = true <-> exists rest, first_fence s = Some ("", rest).
Proof.
  destruct s as [| c s]; [split; [discriminate | intros [r H]; discriminate] |].
  cbn [first_fence]. destruct (starts_with fence (String c s)).
  - split; [intros _; eauto | reflexivity].
  - split; [discriminate |]. intros [r H].
    destruct (first_fence s) as [[p q] |]; discriminate.
Qed.

(** The closing fence is met where what comes before it is blank. *)
Lemma closes_spec (s : string) :
  closes s = match first_fence s with
             | Some (body, _) => blank body
             | None => false
             end.
Proof.
  unfold closes. pose proof (first_fence_drop_spaces s) as H.
  pose proof (first_fence_head (drop_spaces s) "") as Hh.
  destruct (first_fence s) as [[body tail] |].
  - unfold blank. destruct (drop_spaces body) eqn:Eb.
    + apply Hh. eauto.
    + destruct (starts_with fence (drop_spaces s)); [| reflexivity].
      destruct Hh as [Hh _]. destruct (Hh eq_refl) as [r Hr]. congruence.
  - destruct (starts_with fence (drop_spaces s)); [| reflexivity].
    destruct Hh as [Hh _]. destruct (Hh eq_refl) as [r Hr]. congruence.
Qed.

Lemma trim_end_blank (x : string) : blank x = true -> trim_end x = "".
Proof. destruct x; [reflexivity |]. cbn [trim_end]. now intros ->. Qed.

(** The lazy group takes the text before the next fence, without the
    white space at its end. *)
Lemma lazy_capture_spec (s : string) :
  lazy_capture s = match first_fence s with
                   | Some (body, _) => Some (trim_end body)
                   | None => None
                   end.
Proof.
  induction s as [| c s IH].
  - reflexivity.
  - cbn [lazy_capture]. rewrite closes_spec.
    cbn [first_fence]. destruct (starts_with fence (String c s)) eqn:E.
    + reflexivity.
    + rewrite IH. destruct (first_fence s) as [[p r] |]; [| reflexivity].
      destruct (blank (String c p)) eqn:Eb.
      * now rewrite (trim_end_blank _ Eb).
      * cbn [option_map trim_end]. now rewrite Eb.
Qed.

Lemma first_fence_json (y : string) :
  first_fence ("json" ++ y)
  = match first_fence y with
    | Some (b, t) => Some ("json" ++ b, t)
    | None => None
    end.
Proof. cbn. destruct (first_fence y) as [[b t] |]; reflexivity. Qed.

(** What follows an opening fence. *)
Lemma fence_body_spec (rest : string) :
  fence_body rest = match first_fence rest with
                    | Some (body, _) => Some (trim (afterJson body))
                    | None => None
                    end.
Proof.
  unfold fence_body. destruct (starts_with "json" rest) eqn:Ej.
  - apply starts_with_spec in Ej. destruct Ej as [y ->].
    change 4%nat with (String.length "json"). rewrite skip_append.
    rewrite !lazy_capture_spec, !first_fence_drop_spaces, first_fence_json.
    destruct (first_fence y) as [[b t] |]; [| reflexivity].
    unfold afterJson. rewrite starts_with_append.
    change 4%nat with (String.length "json"). now rewrite skip_append.
  - rewrite lazy_capture_spec, first_fence_drop_spaces.
    destruct (first_fence rest) as [[body tail] |] eqn:Ef; [| reflexivity].
    unfold afterJson. destruct (starts_with "json" body) eqn:Eb; [| reflexivity].
    apply starts_with_spec in Eb. destruct Eb as [r ->].
    apply first_fence_split in Ef. rewrite Ef, append_assoc_s, starts_with_append in Ej.
    discriminate.
Qed.

(** The fenced block of a text: the first fence that opens a block. *)
Lemma fencedMatch_spec (s : string) :
  fencedMatch s = match first_fence s with
                  | Some (_, rest) => fence_body rest
                  | None => None
                  end.
Proof.
  induction s as [| c s IH]; [reflexivity |].
  cbn [fencedMatch first_fence]. destruct (starts_with fence (String c s)) eqn:E.
  - destruct (fence_body (skip 3 (String c s))) as [b |] eqn:Eb; [reflexivity |].
    rewrite IH. destruct (first_fence s) as [[p r] |] eqn:Ef; [| reflexivity].
    rewrite fence_body_spec in Eb |- *.
    destruct (first_fence (skip 3 (String c s))) as [[b0 t0] |] eqn:E0; [discriminate |].
    apply starts_with_fence in E. apply first_fence_split in Ef.
    set (r0 := skip 3 (String c s)) in *. clearbody r0.
    assert (Es : "``" ++ r0 = (p ++ fence) ++ r).
    { rewrite append_assoc_s, <- Ef. injection E as _ E. now rewrite E. }
    destruct (append_eq_append _ _ _ _ Es) as [[e [_ He]] | [e [He _]]].
    + rewrite He in E0. now rewrite (no_fence_suffix _ _ E0).
    + apply (f_equal String.length) in He. rewrite !length_append in He.
      cbn [String.length fence] in He. lia.
  - rewrite IH. destruct (first_fence s) as [[p r] |]; reflexivity.
Qed.

Lemma fencedMatch_block (s body : string) :
  FencedBlock s body -> fencedMatch s = Some (trim (afterJson body)).
Proof.
  intros [pre [rest [tail [H1 H2]]]].
  apply first_fence_spec in H1, H2.
  now rewrite fencedMatch_spec, H1, fence_body_spec, H2.
Qed.

Lemma fencedMatch_none (s : string) :
  (forall body, ~ FencedBlock s body) -> fencedMatch s = None.
Proof.
  intros H. rewrite fencedMatch_spec.
  destruct (first_fence s) as [[pre rest] |] eqn:E1; [| reflexivity].
  rewrite fence_body_spec.
  destruct (first_fence rest) as [[body tail] |] eqn:E2; [| reflexivity].
  destruct (H body). exists pre, rest, tail. split; now apply first_fence_spec.
Qed.

End TextFacts.

(** ** IntentResolutionLoop *)

Module AgentFacts.

Import Agent TextFacts.

(** *** The schema *)

Section SchemaFacts.

Variable invalidType : string -> option json -> string.

Lemma zString1_ok path msg v s :
  zString1 invalidType path msg v = inr s -> s <> "".
Proof.
  unfold zString1. destruct v as [[| | | s' | |] |]; try discriminate.
  destruct s'; simpl; [discriminate |]. intros H. inversion H. discriminate.
Qed.

Lemma zNumber_ok strict path msg v q :
  zNumber invalidType strict path msg v = inr q ->
  if strict then 0 < q else 0 <= q.
Proof.
  unfold zNumber. destruct v as [[| | q' | | |] |]; try discriminate.
  destruct strict.
  - destruct (num_gt q' 0) eqn:E; [| discriminate].
    intros H. inversion H; subst. now apply num_gt_iff.
  - destruct (num_ge q' 0) eqn:E; [| discriminate].
    intros H. inversion H; subst. now apply num_ge_iff.
Qed.

Lemma LegSchema_ok path v l :
  LegSchema invalidType path v = inr l -> LegValid l.
Proof.
  unfold LegSchema. destruct v as [[| | | | | fields] |]; try discriminate.
  destruct (zString1 _ _ _ _) as [? | n] eqn:En; [discriminate |].
  destruct (zSide _ _ _) as [? | sd] eqn:Es; [discriminate |].
  destruct (zNumber _ _ _ _ _) as [? | a] eqn:Ea; [discriminate |].
  intros H. inversion H; subst. split; simpl.
  - eapply zString1_ok; eauto.
  - apply (zNumber_ok true _ _ _ _ Ea).
Qed.

Lemma zLegs_ok path i items ls :
  zLegs invalidType path i items = inr ls ->
  Forall LegValid ls /\ List.length ls = List.length items.
Proof.
  revert i ls. induction items as [| x rest IH]; intros i ls H; cbn [zLegs] in H.
  - inversion H. split; [constructor | reflexivity].
  - destruct (LegSchema _ _ _) as [? | l] eqn:El;
      [destruct (zLegs _ _ _ _); discriminate |].
    destruct (zLegs _ _ _ _) as [? | ls'] eqn:Er; [discriminate |].
    inversion H; subst. destruct (IH _ _ Er) as [Hf Hl].
    split; [constructor; [eapply LegSchema_ok; eauto | exact Hf] | simpl; congruence].
Qed.

Lemma zLegArray_ok path v ls :
  zLegArray invalidType path v = inr ls -> ls <> [] /\ Forall LegValid ls.
Proof.
  unfold zLegArray. destruct v as [[| | | | items |] |]; try discriminate.
  destruct items as [| x rest]; [discriminate |].
  cbn [List.length Nat.leb]. intros H.
  apply zLegs_ok in H. destruct H as [Hf Hl].
  split; [| exact Hf]. intros ->. discriminate.
Qed.

(** Every value that [TradeSpecSchema.safeParse] lets through has the
    TradeSpec shape. *)
Lemma safeParse_valid parsed t :
  TradeSpecSchema_safeParse invalidType parsed = inr t -> TradeSpecValid t.
Proof.
  unfold TradeSpecSchema_safeParse.
  destruct parsed as [| | | | | fields]; try discriminate.
  destruct (zString1 _ ["underlying"] _ _) as [? | u] eqn:E1; [discriminate |].
  destruct (zString1 _ ["strategy"] _ _) as [? | st] eqn:E2; [discriminate |].
  destruct (zString1 _ ["expiry"] _ _) as [? | e] eqn:E3; [discriminate |].
  destruct (zLegArray _ _ _) as [? | l] eqn:E4; [discriminate |].
  destruct (zNumber _ _ ["max_cost_usd"] _ _) as [? | c] eqn:E5; [discriminate |].
  destruct (zNumber _ _ ["max_loss_usd"] _ _) as [? | m] eqn:E6; [discriminate |].
  destruct (zString1 _ ["explanation"] _ _) as [? | x] eqn:E7; [discriminate |].
  intros H. inversion H; subst. unfold TradeSpecValid; simpl.
  apply zLegArray_ok in E4. destruct E4 as [Hne Hf].
  repeat split; auto.
  - eapply zString1_ok; eauto.
  - eapply zString1_ok; eauto.
  - eapply zString1_ok; eauto.
  - apply (zNumber_ok false _ _ _ _ E5).
  - apply (zNumber_ok false _ _ _ _ E6).
  - eapply zString1_ok; eauto.
Qed.

End SchemaFacts.

(** *** The candidate JSON string *)

Lemma upto_last_none c s : upto_last c s = None <-> contains c s = false.
Proof.
  induction s as [| a s' IH]; simpl; [tauto |].
  destruct (upto_last c s') as [p |].
  - split; [discriminate |]. intros H. apply orb_false_iff in H.
    destruct H as [_ H]. apply IH in H. discriminate.
  - destruct (Ascii.eqb a c); simpl; [split; discriminate |].
    split; [intros _; now apply IH | reflexivity].
Qed.

(** [upto_last c s] is the prefix of [s] that ends with the last [c]. *)
Lemma upto_last_some c s p :
  upto_last c s = Some p ->
  exists q post,
    p = q ++ String c EmptyString /\ s = p ++ post /\ contains c post = false.
Proof.
  revert p. induction s as [| a s' IH]; intros p H; simpl in H; [discriminate |].
  destruct (upto_last c s') as [p' |] eqn:E.
  - inversion H; subst. destruct (IH p' eq_refl) as [q [post [Hq [Hs Hc]]]].
    exists (String a q), post. simpl. rewrite <- Hq, <- Hs. auto.
  - destruct (Ascii.eqb a c) eqn:Ea; [| discriminate].
    apply Ascii.eqb_eq in Ea. inversion H; subst.
    exists EmptyString, s'. simpl. apply upto_last_none in E. auto.
Qed.

(** [objectMatch] is the span from the first opening brace of the text to
    its last closing brace. *)
Lemma objectMatch_some s o :
  objectMatch s = Some o ->
  exists pre q post,
    s = pre ++ o ++ post
    /\ o = String "{" (q ++ String "}" EmptyString)
    /\ contains "{" pre = false /\ contains "}" post = false.
Proof.
  induction s as [| a s' IH]; intros H; cbn [objectMatch] in H; [discriminate |].
  destruct (Ascii.eqb a "{") eqn:Ea.
  - apply Ascii.eqb_eq in Ea. subst a.
    apply upto_last_some in H. destruct H as [q0 [post [Hq [Hs Hc]]]].
    destruct q0 as [| b q]; simpl in Hq; subst o.
    + simpl in Hs. inversion Hs.
    + simpl in Hs. inversion Hs; subst b.
      exists EmptyString, q, post. simpl. auto.
  - destruct (IH H) as [pre [q [post [Hs [Ho [Hp Hc]]]]]].
    exists (String a pre), q, post. simpl. rewrite Ea, <- Hs. auto.
Qed.

Lemma objectMatch_none s :
  objectMatch s = None ->
  forall pre mid post,
    s <> pre ++ String "{" (mid ++ String "}" post).
Proof.
  induction s as [| a s' IH]; intros H pre mid post Hs; cbn [objectMatch] in H.
  - destruct pre; discriminate.
  - destruct (Ascii.eqb a "{") eqn:Ea.
    + apply upto_last_none in H. rewrite Hs in H.
      rewrite contains_app in H. apply orb_false_iff in H. destruct H as [_ H].
      simpl in H. rewrite contains_app in H. simpl in H.
      rewrite orb_true_r in H. discriminate.
    + destruct pre as [| b pre']; simpl in Hs; inversion Hs; subst.
      * simpl in Ea. discriminate.
      * now apply (IH H pre' mid post).
Qed.

Lemma upto_last_span c a post :
  contains c post = false ->
  upto_last c (a ++ String c post) = Some (a ++ String c EmptyString).
Proof.
  intros H. induction a as [| x a IH]; cbn [append upto_last].
  - apply upto_last_none in H. rewrite H, Ascii.eqb_refl. reflexivity.
  - now rewrite IH.
Qed.

(** The brace span of a text with an opening brace and a closing brace
    after it. *)
Lemma objectMatch_span t pre mid post :
  t = pre ++ String "{" (mid ++ String "}" post) ->
  contains "{" pre = false -> contains "}" post = false ->
  objectMatch t = Some (String "{" (mid ++ String "}" EmptyString)).
Proof.
  intros -> Hpre Hpost. induction pre as [| a pre IH]; cbn [append].
  - cbn [objectMatch]. rewrite Ascii.eqb_refl.
    exact (upto_last_span "}" (String "{" mid) post Hpost).
  - cbn [contains] in Hpre. apply orb_false_iff in Hpre. destruct Hpre as [Ha Hpre].
    cbn [objectMatch]. rewrite Ha. now apply IH.
Qed.

(** C5, as stated, fails: the brace span is taken even when a fenced block
    is present, and it runs to the last closing brace of the text.  Of a
    fenced [[{}]] the code hands "{}" to [JSON.parse], not the content of
    the block; of two objects in a row it hands over both at once. *)
Lemma jsonCandidate_prefers_braces :
  fencedMatch "```json [{}] ```" = Some "[{}]"
  /\ candidateInSpecOrder "```json [{}] ```" = "[{}]"
  /\ jsonCandidate "```json [{}] ```" = "{}"
  /\ candidateInSpecOrder "{} {}" = "{}"
  /\ jsonCandidate "{} {}" = "{} {}".
Proof. repeat split; reflexivity. Qed.

(** *** The loop *)

Lemma countToolResults_app ms ms' :
  countToolResults (ms ++ ms') = (countToolResults ms + countToolResults ms')%nat.
Proof. induction ms as [| m rest IH]; simpl; [reflexivity | rewrite IH; lia]. Qed.

(** *** The blocks of a response *)

(** What the loop over the blocks of a response collects: the tool calls
    not processed before, in order, and the joined text. *)
Lemma collectBlocks_spec (processed : list string) (blocks : list ContentBlock) :
  forall toolUseBlocks textContent,
    collectBlocks processed blocks toolUseBlocks textContent
    = ((toolUseBlocks ++ freshToolUses processed blocks)%list,
       textContent ++ textOf blocks).
Proof.
  unfold freshToolUses.
  induction blocks as [| b rest IH]; intros tus txt; cbn [collectBlocks toolUses textOf filter].
  - now rewrite app_nil_r, append_empty_r.
  - destruct b as [u | t |]; cbn [toolUses textOf filter].
    + destruct (negb (Set_has processed (tu_id u))); rewrite IH;
        [now rewrite <- app_assoc | reflexivity].
    + rewrite IH. now rewrite append_assoc_s.
    + apply IH.
Qed.

Section LoopFacts.

Variable create : list MessageParam -> Outcome Response.
Variable executeLyraTool : string -> json -> Outcome json.
Variable JSON_stringify_pretty : json -> string.
Variable JSON_stringify : json -> string.
Variable JSON_parse : string -> option json.
Variable invalidType : string -> option json -> string.

Let extract := extractTradeSpec JSON_parse invalidType.
Let run_tools :=
  executeTools executeLyraTool JSON_stringify_pretty JSON_stringify.
Let body :=
  iteration create executeLyraTool JSON_stringify_pretty JSON_stringify
            JSON_parse invalidType.
Let run :=
  loop create executeLyraTool JSON_stringify_pretty JSON_stringify
       JSON_parse invalidType.

(** A returned TradeSpec was parsed from the candidate and validated. *)
Lemma extractTradeSpec_returned (t : string) (spec : TradeSpec) :
  extract t = Returned spec
  <-> exists parsed,
        JSON_parse (jsonCandidate t) = Some parsed
        /\ TradeSpecSchema_safeParse invalidType parsed = inr spec.
Proof.
  unfold extract, extractTradeSpec.
  destruct (JSON_parse (jsonCandidate t)) as [parsed |].
  - destruct (TradeSpecSchema_safeParse invalidType parsed) as [issues | data] eqn:E.
    + split; [discriminate | intros [p [Hp Hs]]]. inversion Hp; subst. congruence.
    + split.
      * intros H. inversion H; subst. exists parsed. auto.
      * intros [p [Hp Hs]]. inversion Hp; subst. congruence.
  - split; [discriminate | intros [p [Hp _]]; discriminate].
Qed.

(** C5, amended.  [extractTradeSpec] hands to [JSON.parse]: the span from
    the first opening brace of the text to its last closing brace, if the
    text has an opening brace with a closing brace after it; else the
    inside of the first fenced code block (what stands between the first
    fence and the next one, without a leading [json] and without the white
    space at its two ends), if there is one; else the text without the
    white space at its two ends.  It returns exactly the values that parse
    from this candidate and pass [TradeSpecSchema], which all have the
    TradeSpec shape (non-empty strings, non-empty legs of positive amounts,
    non-negative cost and loss); a candidate that does not parse is an
    error that quotes the first 200 code units of the text. *)
Theorem extractTradeSpec_candidate (t : string) :
  (forall pre mid post,
     t = pre ++ String "{" (mid ++ String "}" post) ->
     contains "{" pre = false -> contains "}" post = false ->
     jsonCandidate t = String "{" (mid ++ String "}" EmptyString))
  /\ ((forall pre mid post, t <> pre ++ String "{" (mid ++ String "}" post)) ->
      (forall inside,
         FencedBlock t inside -> jsonCandidate t = trim (afterJson inside))
      /\ ((forall inside, ~ FencedBlock t inside) -> jsonCandidate t = trim t))
  /\ (forall s, Trimmed (trim s) s)
  /\ (forall spec,
        extract t = Returned spec
        <-> exists parsed,
              JSON_parse (jsonCandidate t) = Some parsed
              /\ TradeSpecSchema_safeParse invalidType parsed = inr spec)
  /\ (forall spec, extract t = Returned spec -> TradeSpecValid spec)
  /\ (JSON_parse (jsonCandidate t) = None ->
        extract t
        = Thrown ("Failed to parse agent response as JSON: " ++ firstUnits 200 t)).
Proof.
  split; [| split; [| split; [| split; [| split]]]].
  - intros pre mid post Ht Hpre Hpost. unfold jsonCandidate.
    now rewrite (objectMatch_span t pre mid post Ht Hpre Hpost).
  - intros Hno.
    assert (Ho : objectMatch t = None).
    { destruct (objectMatch t) as [o |] eqn:E; [| reflexivity].
      apply objectMatch_some in E.
      destruct E as [pre [q [post [Hs [Ho _]]]]]. subst o.
      destruct (Hno pre q post). rewrite Hs. cbn [append].
      now rewrite append_assoc_s. }
    unfold jsonCandidate. rewrite Ho. split.
    + intros inside Hb. now rewrite (fencedMatch_block t inside Hb).
    + intros Hn. now rewrite (fencedMatch_none t Hn).
  - apply trim_Trimmed.
  - apply extractTradeSpec_returned.
  - intros spec H. apply extractTradeSpec_returned in H.
    destruct H as [parsed [_ Hs]]. eapply safeParse_valid; eauto.
  - intros H. unfold extract, extractTradeSpec. rewrite H. reflexivity.
Qed.

(** Every tool call of a round is executed once, in order. *)
Lemma executeTools_results toolUseBlocks processed toolResults :
  List.length (snd (run_tools toolUseBlocks processed toolResults))
  = (List.length toolResults + List.length toolUseBlocks)%nat.
Proof.
  revert processed toolResults.
  induction toolUseBlocks as [| b rest IH]; intros processed toolResults;
    cbn [run_tools executeTools snd List.length]; [lia |].
  unfold run_tools in IH. rewrite IH. rewrite length_app. simpl. lia.
Qed.

(** The ways out of one round. *)
Lemma iteration_cases (s : LoopState) :
  match body s with
  | Continue s' =>
      iterations s' = S (iterations s)
      /\ (toolCallCount s <= toolCallCount s')%nat
      /\ (countToolResults (messages s') - countToolResults (messages s)
          = toolCallCount s' - toolCallCount s)%nat
      /\ (countToolResults (messages s) <= countToolResults (messages s'))%nat
  | Finish (Returned spec) =>
      (2 <= toolCallCount s)%nat
      /\ exists response textContent,
           create (messages s) = Returned response
           /\ collectBlocks (toolIdsProcessed s) (content response) [] ""
              = ([], textContent)
           /\ extract textContent = Returned spec
  | Finish (Thrown _) => True
  end.
Proof.
  unfold body, iteration.
  destruct (create (messages s)) as [response | e]; [| exact I].
  destruct (collectBlocks (toolIdsProcessed s) (content response) [] "")
    as [toolUseBlocks textContent] eqn:Ec.
  destruct (0 <? List.length toolUseBlocks)%nat eqn:En.
  - pose proof (executeTools_results toolUseBlocks (toolIdsProcessed s) []) as Hl.
    unfold run_tools in Hl.
    destruct (executeTools executeLyraTool JSON_stringify_pretty JSON_stringify
                toolUseBlocks (toolIdsProcessed s) []) as [processed toolResults].
    cbn [snd List.length] in Hl.
    cbn [iterations toolCallCount messages].
    rewrite !countToolResults_app. cbn [countToolResults toolResultsOf msg_content].
    rewrite Hl. repeat split; lia.
  - destruct (is_end_turn (stop_reason response) && nonempty textContent); [| exact I].
    destruct (toolCallCount s <? 2)%nat eqn:Et.
    + cbn [iterations toolCallCount messages].
      rewrite !countToolResults_app. cbn [countToolResults toolResultsOf msg_content].
      repeat split; lia.
    + fold (extract textContent).
      destruct (extract textContent) as [spec | e] eqn:Ex; [| exact I].
      apply Nat.ltb_ge in Et. split; [exact Et |].
      exists response, textContent. split; [reflexivity |].
      apply Nat.ltb_ge in En. destruct toolUseBlocks; [auto | simpl in En; lia].
Qed.

(** The loop ends within the rounds left to it; it ends either on the
    iteration bound or on the [Finish] of a round begun below the bound. *)
Lemma loop_ends (fuel : nat) :
  forall s,
    (MAX_ITERATIONS - iterations s <= fuel)%nat ->
    exists r s',
      run fuel s = Some (r, s')
      /\ ((iterations s <= MAX_ITERATIONS)%nat
          -> (iterations s' <= MAX_ITERATIONS)%nat)
      /\ (countToolResults (messages s) = toolCallCount s
          -> countToolResults (messages s') = toolCallCount s')
      /\ ((r = Thrown exceededMessage /\ (MAX_ITERATIONS <= iterations s')%nat)
          \/ exists s0,
               (iterations s0 < MAX_ITERATIONS)%nat /\ body s0 = Finish r
               /\ messages s' = messages s0
               /\ toolCallCount s' = toolCallCount s0
               /\ iterations s' = S (iterations s0)).
Proof.
  induction fuel as [| fuel IH]; intros s Hf.
  - exists (Thrown exceededMessage), s.
    assert (E : (iterations s <? MAX_ITERATIONS)%nat = false)
      by (apply Nat.ltb_ge; lia).
    unfold run. cbn [loop]. rewrite E. apply Nat.ltb_ge in E.
    repeat split; auto.
  - unfold run. cbn [loop].
    destruct (iterations s <? MAX_ITERATIONS)%nat eqn:E.
    + apply Nat.ltb_lt in E. fold (body s).
      pose proof (iteration_cases s) as Hc.
      destruct (body s) as [s1 | r] eqn:Eb.
      * destruct Hc as [Hi [Hle [Hd Hm]]].
        destruct (IH s1) as [r [s' [Hr [Hb [Hcnt Hor]]]]]; [lia |].
        exists r, s'. fold run. rewrite Hr.
        split; [reflexivity |]. split; [intros _; apply Hb; lia |].
        split; [intros Hinv; apply Hcnt; lia | exact Hor].
      * eexists r, _. split; [reflexivity |]. cbn [iterations messages toolCallCount].
        split; [intros _; lia |]. split; [auto |].
        right. exists s. auto.
    + exists (Thrown exceededMessage), s. apply Nat.ltb_ge in E.
      repeat split; auto.
Qed.

(** More fuel than rounds does not change the result. *)
Lemma loop_fuel (fuel : nat) :
  forall s r s',
    run fuel s = Some (r, s') ->
    forall fuel', (fuel <= fuel')%nat -> run fuel' s = Some (r, s').
Proof.
  induction fuel as [| fuel IH]; intros s r s' H fuel' Hf; unfold run in *.
  - cbn [loop] in H.
    destruct (iterations s <? MAX_ITERATIONS)%nat eqn:E; [discriminate |].
    destruct fuel'; cbn [loop]; rewrite E; exact H.
  - destruct fuel' as [| fuel']; [lia |]. cbn [loop] in *.
    destruct (iterations s <? MAX_ITERATIONS)%nat; [| exact H].
    destruct (iteration _ _ _ _ _ _ s); [| exact H].
    apply (IH _ _ _ H). lia.
Qed.


(** C7.  [parseIntent] ends after at most [MAX_ITERATIONS] = 10 rounds of
    the model.  It ends on a round's own outcome, or, when ten rounds went
    by without one, on the error "Agent exceeded maximum iterations (10)".
    A TradeSpec is returned only out of [extractTradeSpec]: it was parsed
    from the model's text and passed the schema. *)
Theorem parseIntent_bounded (intent : string) :
  exceededMessage = "Agent exceeded maximum iterations (10)"
  /\ (forall fuel, (MAX_ITERATIONS <= fuel)%nat ->
        exists r s',
          parseIntent create executeLyraTool JSON_stringify_pretty
                      JSON_stringify JSON_parse invalidType fuel intent
          = Some (r, s')
          /\ (iterations s' <= 10)%nat
          /\ ((r = Thrown exceededMessage /\ iterations s' = 10%nat)
              \/ exists s0, (iterations s0 < 10)%nat /\ body s0 = Finish r)
          /\ (forall spec, r = Returned spec ->
                TradeSpecValid spec
                /\ exists textContent parsed,
                     JSON_parse (jsonCandidate textContent) = Some parsed
                     /\ TradeSpecSchema_safeParse invalidType parsed = inr spec))
  /\ (forall s fuel, (MAX_ITERATIONS <= iterations s)%nat ->
        run fuel s = Some (Thrown exceededMessage, s)).
Proof.
  split; [reflexivity |]. split.
  - intros fuel Hf. unfold parseIntent. fold run.
    destruct (loop_ends fuel (initialState intent)) as [r [s' [Hr [Hb [_ Hor]]]]];
      [cbn [initialState iterations]; lia |].
    exists r, s'. split; [exact Hr |].
    assert (Hi : (iterations s' <= 10)%nat)
      by (apply Hb; cbn [initialState iterations]; unfold MAX_ITERATIONS; lia).
    split; [exact Hi |]. split.
    + destruct Hor as [[Hx Hge] | [s0 [Hlt [Hbody _]]]].
      * left. split; [exact Hx |]. unfold MAX_ITERATIONS in Hge. lia.
      * right. exists s0. auto.
    + intros spec ->.
      destruct Hor as [[Hx _] | [s0 [_ [Hbody _]]]]; [discriminate |].
      pose proof (iteration_cases s0) as Hc. rewrite Hbody in Hc.
      destruct Hc as [_ [response [textContent [_ [_ Hex]]]]].
      apply extractTradeSpec_returned in Hex. destruct Hex as [parsed [Hp Hs]].
      split; [eapply safeParse_valid; eauto |].
      exists textContent, parsed. auto.
  - intros s fuel Hge. unfold run.
    assert (E : (iterations s <? MAX_ITERATIONS)%nat = false)
      by (apply Nat.ltb_ge; exact Hge).
    destruct fuel; cbn [loop]; rewrite E; reflexivity.
Qed.

End LoopFacts.

(** The scenario of the specification: after exactly one tool call the
    model tries to answer; the loop sends it back once, with one corrective
    instruction, and accepts the answer given after the second tool call, in
    the fourth round. *)
Lemma one_corrective_turn :
  match Examples.scriptedRun 10 with
  | Some (Returned spec, s') =>
      spec = Examples.longCall3500
      /\ iterations s' = 4%nat /\ toolCallCount s' = 2%nat
      /\ List.length (filter Examples.isCorrective (messages s')) = 1%nat
      /\ List.length (messages s') = 7%nat
  | _ => False
  end.
Proof. vm_compute. repeat split; reflexivity. Qed.

(** A model that never stops asking for tools is cut off after ten rounds,
    with the error and without a TradeSpec. *)
Lemma restless_model_fails :
  match Examples.restlessRun 10 with
  | Some (Thrown e, s') =>
      e = "Agent exceeded maximum iterations (10)"
      /\ iterations s' = 10%nat /\ toolCallCount s' = 10%nat
  | _ => False
  end.
Proof. vm_compute. repeat split; reflexivity. Qed.

End AgentFacts.

(** ** RiskEngine: what the analysis reports *)

Module RiskFacts.

Import Payoff BreakevenFacts MaxGainFacts.

Lemma Math_max2_comp_r (a b b' : Q) : b == b' -> Math_max2 a b == Math_max2 a b'.
Proof.
  intros H. unfold Math_max2.
  destruct (num_le a b) eqn:E1, (num_le a b') eqn:E2;
    try (apply num_le_iff in E1); try (apply num_le_iff in E2);
    try (apply num_le_false_iff in E1); try (apply num_le_false_iff in E2); lra.
Qed.

Lemma calculateLegPnl_comp (l : LegWithPrice) (x y : Q) :
  x == y -> calculateLegPnl l x == calculateLegPnl l y.
Proof.
  intros H. unfold calculateLegPnl.
  assert (E : match optionType l with
              | C => Math_max2 0 (x - strike l)
              | P => Math_max2 0 (strike l - x)
              end
              == match optionType l with
                 | C => Math_max2 0 (y - strike l)
                 | P => Math_max2 0 (strike l - y)
                 end).
  { destruct (optionType l); apply Math_max2_comp_r; lra. }
  rewrite E. reflexivity.
Qed.

(** The total P&L as a sum, from any starting total. *)
Lemma total_pnl_from (legs : list LegWithPrice) (x acc : Q) :
  fold_left (fun total leg => total + calculateLegPnl leg x) legs acc
  == acc + Qsum (map (fun l => calculateLegPnl l x) legs).
Proof.
  revert acc. induction legs as [| l rest IH]; intros acc; simpl; [lra |].
  rewrite IH. lra.
Qed.

Lemma total_pnl_sum (legs : list LegWithPrice) (x : Q) :
  calculateTotalPnl legs x == Qsum (map (fun l => calculateLegPnl l x) legs).
Proof. unfold calculateTotalPnl. rewrite total_pnl_from. lra. Qed.

Lemma total_pnl_cons (l : LegWithPrice) (legs : list LegWithPrice) (x : Q) :
  calculateTotalPnl (l :: legs) x == calculateLegPnl l x + calculateTotalPnl legs x.
Proof. rewrite !total_pnl_sum. simpl. reflexivity. Qed.

Lemma calculateTotalPnl_comp (legs : list LegWithPrice) (x y : Q) :
  x == y -> calculateTotalPnl legs x == calculateTotalPnl legs y.
Proof.
  intros H. induction legs as [| l rest IH]; [reflexivity |].
  rewrite !total_pnl_cons, IH, (calculateLegPnl_comp l x y H). reflexivity.
Qed.

Lemma num_lt_comp (a b c : Q) : a == b -> num_lt a c = num_lt b c.
Proof.
  intros H. destruct (num_lt b c) eqn:E.
  - apply num_lt_iff in E. apply num_lt_iff. lra.
  - apply num_lt_false_iff in E. apply num_lt_false_iff. lra.
Qed.

(** *** The two sides of a trade *)

Lemma parseLeg_counter (l : Leg) (p : Q) :
  parseLeg (counterLeg l) p
  = option_map (fun lw => {| base := counterLeg (base lw); strike := strike lw;
                             optionType := optionType lw; premium := premium lw |})
               (parseLeg l p).
Proof.
  unfold parseLeg. cbn [counterLeg instrument_name].
  destruct (split_on "-" (instrument_name l)) as [| und [| exp [| stk [| typ [| ? ?]]]]];
    try reflexivity.
  destruct (_ && _); [| reflexivity].
  destruct (String.eqb typ "C"); [reflexivity |].
  destruct (String.eqb typ "P"); reflexivity.
Qed.

Lemma counter_pnl (lw : LegWithPrice) (x : Q) :
  calculateLegPnl {| base := counterLeg (base lw); strike := strike lw;
                     optionType := optionType lw; premium := premium lw |} x
  == - calculateLegPnl lw x.
Proof.
  unfold calculateLegPnl. cbn [base strike optionType premium counterLeg side amount].
  destruct (side (base lw)); cbn [opposite]; ring.
Qed.

(** X2.  The two sides of a trade: when every leg is turned to the other side
    (bought for sold, sold for bought) at the same premiums, the total P&L
    at every price is the negative of the original one. *)
Theorem total_pnl_zero_sum (ls : list Leg) (premiums : PremiumMap) (x : Q) :
  calculateTotalPnl (parseLegs (map counterLeg ls) premiums) x
  == - calculateTotalPnl (parseLegs ls premiums) x.
Proof.
  induction ls as [| l rest IH]; [reflexivity |].
  cbn [map parseLegs]. rewrite parseLeg_counter.
  change (instrument_name (counterLeg l)) with (instrument_name l).
  destruct (parseLeg l (premium_or_zero premiums (instrument_name l))) as [lw |];
    cbn [option_map]; [| exact IH].
  rewrite !total_pnl_cons, IH, counter_pnl. ring.
Qed.


(** *** The sampled minimum and the points of the chart *)

Lemma sampleLoop_min (legs : list LegWithPrice) (minPrice maxPrice : Q)
    (idx : list nat) (st : SampleState) :
  st_minPnl (fold_left (sampleStep legs minPrice maxPrice) idx st)
  = fold_left
      (minStep (fun i => calculateTotalPnl legs (samplePrice minPrice maxPrice i)))
      idx (st_minPnl st).
Proof.
  revert st. induction idx as [| i rest IH]; intros st; [reflexivity |].
  cbn [fold_left]. rewrite IH. reflexivity.
Qed.

Lemma minStep_from_some (pnlAt : nat -> Q) (idx : list nat) (m0 : Q) :
  exists m,
    fold_left (minStep pnlAt) idx (Some m0) = Some m
    /\ (m = m0 \/ In m (map pnlAt idx))
    /\ m <= m0 /\ Forall (fun x => m <= x) (map pnlAt idx).
Proof.
  revert m0. induction idx as [| i rest IH]; intros m0.
  - exists m0. simpl. repeat split; auto; lra.
  - cbn [fold_left minStep map].
    destruct (IH (Math_min2 m0 (pnlAt i))) as [m [Hf [Hin [Hle Hall]]]].
    exists m. change (minStep pnlAt (Some m0) i) with (Some (Math_min2 m0 (pnlAt i))).
    rewrite Hf. unfold Math_min2 in *.
    case_num_le m0 (pnlAt i) E.
    + split; [reflexivity |]. split; [| split].
      * destruct Hin as [-> | Hin]; [now left | right; now right].
      * exact Hle.
      * constructor; [lra | exact Hall].
    + split; [reflexivity |]. split; [| split].
      * destruct Hin as [-> | Hin]; [right; now left | right; now right].
      * lra.
      * constructor; [exact Hle | exact Hall].
Qed.

(** [minPnl] after the sampling loop is the least sampled P&L. *)
Lemma sampleLoop_minPnl (legs : list LegWithPrice) (minPrice maxPrice : Q) :
  exists m,
    st_minPnl (sampleLoop legs minPrice maxPrice) = Some m
    /\ In m (sampledPnls legs minPrice maxPrice)
    /\ Forall (fun x => m <= x) (sampledPnls legs minPrice maxPrice).
Proof.
  unfold sampleLoop, sampledPnls. rewrite sampleLoop_min.
  set (pnlAt := fun i => calculateTotalPnl legs (samplePrice minPrice maxPrice i)).
  change (seq 0 (S numPoints)) with (0%nat :: seq 1 numPoints).
  cbn [fold_left minStep st_minPnl map].
  destruct (minStep_from_some pnlAt (seq 1 numPoints) (pnlAt 0%nat))
    as [m [Hf [Hin [Hle Hall]]]].
  exists m. split; [exact Hf |]. split.
  - destruct Hin as [-> | Hin]; [now left | now right].
  - constructor; [exact Hle | exact Hall].
Qed.

Lemma sampleLoop_points_from (legs : list LegWithPrice) (minPrice maxPrice : Q)
    (idx : list nat) (st : SampleState) :
  st_points (fold_left (sampleStep legs minPrice maxPrice) idx st)
  = (st_points st
       ++ map (fun i =>
                 let x := samplePrice minPrice maxPrice i in
                 {| price := round2 x;
                    pnl := round2 (calculateTotalPnl legs x) |}) idx)%list.
Proof.
  revert st. induction idx as [| i rest IH]; intros st.
  - simpl. now rewrite app_nil_r.
  - cbn [fold_left map]. rewrite IH. cbn [sampleStep st_points].
    rewrite <- app_assoc. reflexivity.
Qed.

Lemma sampleLoop_points (legs : list LegWithPrice) (minPrice maxPrice : Q) :
  st_points (sampleLoop legs minPrice maxPrice)
  = sampledPoints legs minPrice maxPrice.
Proof. unfold sampleLoop. rewrite sampleLoop_points_from. reflexivity. Qed.

(** What [calculatePayoff] reports as [points] and [maxLoss], when it
    returns. *)
Lemma calculatePayoff_points_maxLoss (n : nat) (t : TradeSpec)
    (premiums : PremiumMap) (currentPrice : Q)
    (l0 : LegWithPrice) (ls : list LegWithPrice) (pa : PayoffAnalysis) :
  parseLegs (legs t) premiums = l0 :: ls ->
  calculatePayoff n t premiums currentPrice = Some pa ->
  let parsed := l0 :: ls in
  let d := priceDomain l0 ls currentPrice in
  points pa = sampledPoints parsed (fst d) (snd d)
  /\ maxLoss pa
     = round2 (Qabs match st_minPnl (sampleLoop parsed (fst d) (snd d)) with
                    | Some m => m | None => 0 end).
Proof.
  intros Hp Hc. unfold calculatePayoff in Hc. rewrite Hp in Hc. cbv zeta in Hc.
  cbv zeta. rewrite <- sampleLoop_points.
  unfold priceDomain. cbn [fst snd].
  set (minP := Math_max2 0 _) in *.
  set (maxP := Math_max_list _ _ + _) in *.
  set (st := sampleLoop _ _ _) in *.
  destruct (findBreakevens n (l0 :: ls) minP maxP default_tolerance);
    [| discriminate].
  set (g := option_map round2 _) in Hc.
  clearbody st minP maxP g.
  injection Hc as <-. cbn [points maxLoss]. split; reflexivity.
Qed.

Lemma round2_nonneg (x : Q) : 0 <= x -> 0 <= round2 x.
Proof. intros H. rewrite <- round2_zero. now apply round2_mono. Qed.

(** Given enough fuel the analysis returns, and its [maxLoss] is the
    rounded absolute value of the least sampled P&L. *)
Lemma calculatePayoff_least_pnl
    (t : TradeSpec) (premiums : PremiumMap) (currentPrice : Q)
    (l0 : LegWithPrice) (ls : list LegWithPrice) :
  0 < currentPrice ->
  parseLegs (legs t) premiums = l0 :: ls ->
  let parsed := l0 :: ls in
  let d := priceDomain l0 ls currentPrice in
  exists N, forall n, (N <= n)%nat ->
    exists pa m,
      calculatePayoff n t premiums currentPrice = Some pa
      /\ In m (sampledPnls parsed (fst d) (snd d))
      /\ Forall (fun x => m <= x) (sampledPnls parsed (fst d) (snd d))
      /\ maxLoss pa = round2 (Qabs m).
Proof.
  intros Hc Hp parsed d.
  destruct (calculatePayoff_total t premiums currentPrice Hc) as [N HN].
  exists N. intros n Hn. destruct (HN n Hn) as [pa Hpa].
  destruct (calculatePayoff_points_maxLoss n t premiums currentPrice l0 ls pa Hp Hpa)
    as [_ Hl]. cbv zeta in Hl. fold parsed in Hl. fold d in Hl.
  destruct (sampleLoop_minPnl parsed (fst d) (snd d)) as [m [Hm [Hin Hall]]].
  rewrite Hm in Hl.
  exists pa, m. split; [exact Hpa |]. split; [exact Hin |].
  split; [exact Hall | exact Hl].
Qed.



(** *** The sampled prices *)

Lemma samplePrice_first (minPrice maxPrice : Q) :
  samplePrice minPrice maxPrice 0 == minPrice.
Proof. unfold samplePrice. change (inject_Z (Z.of_nat 0)) with 0. field. discriminate. Qed.

Lemma samplePrice_last (minPrice maxPrice : Q) :
  samplePrice minPrice maxPrice numPoints == maxPrice.
Proof. unfold samplePrice. field. discriminate. Qed.

Lemma samplePrice_mono (minPrice maxPrice : Q) (i j : nat) :
  minPrice <= maxPrice -> (i <= j)%nat ->
  samplePrice minPrice maxPrice i <= samplePrice minPrice maxPrice j.
Proof.
  intros Hr Hij. unfold samplePrice.
  change (inject_Z (Z.of_nat numPoints)) with 100.
  assert (Hq : inject_Z (Z.of_nat i) <= inject_Z (Z.of_nat j))
    by (rewrite <- Zle_Qle; lia).
  assert (Ei : inject_Z (Z.of_nat i) / 100 == inject_Z (Z.of_nat i) * (1 # 100))
    by field.
  assert (Ej : inject_Z (Z.of_nat j) / 100 == inject_Z (Z.of_nat j) * (1 # 100))
    by field.
  rewrite Ei, Ej. nra.
Qed.

Lemma sampledPoints_nth (legs : list LegWithPrice) (minPrice maxPrice : Q)
    (i : nat) (d0 : PayoffPoint) :
  (i <= numPoints)%nat ->
  nth i (sampledPoints legs minPrice maxPrice) d0
  = {| price := round2 (samplePrice minPrice maxPrice i);
       pnl := round2 (calculateTotalPnl legs (samplePrice minPrice maxPrice i)) |}.
Proof.
  intros Hi. unfold sampledPoints.
  set (f := fun i0 : nat => _).
  rewrite (nth_indep _ d0 (f 0%nat))
    by (rewrite length_map, length_seq; lia).
  rewrite map_nth. rewrite seq_nth by lia. reflexivity.
Qed.



(** *** Trades of bought options of one type *)

Lemma Math_min_list_lower (x : Q) (xs : list Q) :
  Forall (fun y => Math_min_list x xs <= y) (x :: xs).
Proof.
  unfold Math_min_list. revert x.
  induction xs as [| y rest IH]; intros x; cbn [fold_left].
  - constructor; [lra | constructor].
  - specialize (IH (Math_min2 x y)). inversion IH as [| ? ? Hm Hrest]; subst.
    assert (Hx : Math_min2 x y <= x /\ Math_min2 x y <= y)
      by (unfold Math_min2; case_num_le x y E; lra).
    constructor; [lra |]. constructor; [lra | exact Hrest].
Qed.

Lemma Math_max_list_upper (x : Q) (xs : list Q) :
  Forall (fun y => y <= Math_max_list x xs) (x :: xs).
Proof.
  unfold Math_max_list. revert x.
  induction xs as [| y rest IH]; intros x; cbn [fold_left].
  - constructor; [lra | constructor].
  - specialize (IH (Math_max2 x y)). inversion IH as [| ? ? Hm Hrest]; subst.
    assert (Hx : x <= Math_max2 x y /\ y <= Math_max2 x y)
      by (unfold Math_max2; case_num_le x y E; lra).
    constructor; [lra |]. constructor; [lra | exact Hrest].
Qed.

(** With a positive reference price every strike lies in the sampled
    domain. *)
Lemma priceDomain_covers (l0 : LegWithPrice) (ls : list LegWithPrice)
    (currentPrice : Q) :
  Forall (fun l => 0 <= strike l) (l0 :: ls) -> 0 < currentPrice ->
  Forall (fun l => fst (priceDomain l0 ls currentPrice) <= strike l
                   /\ strike l <= snd (priceDomain l0 ls currentPrice))
         (l0 :: ls).
Proof.
  intros Hk Hc. unfold priceDomain. cbn [fst snd].
  pose proof (Math_min_list_lower (strike l0) (map strike ls)) as Hmin.
  pose proof (Math_max_list_upper (strike l0) (map strike ls)) as Hmax.
  change (strike l0 :: map strike ls) with (map strike (l0 :: ls)) in Hmin, Hmax.
  rewrite Forall_map in Hmin, Hmax.
  set (lo := Math_min_list (strike l0) (map strike ls)) in *.
  set (hi := Math_max_list (strike l0) (map strike ls)) in *.
  assert (Hlh : lo <= hi).
  { inversion Hmin; inversion Hmax; subst. lra. }
  assert (Hr : 0 < num_or (hi - lo) (currentPrice * (2 # 10))).
  { unfold num_or. destruct (Qeq_bool (hi - lo) 0) eqn:E; [lra |].
    apply Qeq_bool_neq in E.
    destruct (Qlt_le_dec 0 (hi - lo)) as [H | H]; [exact H |].
    exfalso. apply E. lra. }
  set (r := num_or (hi - lo) (currentPrice * (2 # 10))) in *.
  rewrite Forall_forall in Hk, Hmin, Hmax. apply Forall_forall. intros l Hl.
  specialize (Hk l Hl). specialize (Hmin l Hl). specialize (Hmax l Hl).
  cbv beta in Hk, Hmin, Hmax.
  unfold Math_max2. case_num_le 0 (lo - r * (5 # 10)) E; split; lra.
Qed.

Lemma bought_pnl_lower (o : OptionType) (lw : LegWithPrice) (x : Q) :
  boughtLeg o lw -> - paid lw <= calculateLegPnl lw x.
Proof.
  intros [Hs [_ [Ha Hp]]]. unfold calculateLegPnl, paid. rewrite Hs.
  assert (Hi : 0 <= match optionType lw with
                    | C => Math_max2 0 (x - strike lw)
                    | P => Math_max2 0 (strike lw - x)
                    end).
  { destruct (optionType lw); unfold Math_max2;
      [case_num_le 0 (x - strike lw) E | case_num_le 0 (strike lw - x) E]; lra. }
  set (iv := match optionType lw with C => _ | P => _ end) in *. nra.
Qed.

(** Out of the money a bought leg loses what was paid for it. *)
Lemma bought_pnl_out (o : OptionType) (lw : LegWithPrice) (x : Q) :
  boughtLeg o lw ->
  match o with C => x <= strike lw | P => strike lw <= x end ->
  calculateLegPnl lw x == - paid lw.
Proof.
  intros [Hs [Ho [Ha Hp]]] Hx. unfold calculateLegPnl, paid. rewrite Hs, Ho.
  destruct o; unfold Math_max2;
    [case_num_le 0 (x - strike lw) E | case_num_le 0 (strike lw - x) E];
    try ring; assert (Z0 : x == strike lw) by lra; rewrite Z0; ring.
Qed.

Lemma bought_total_lower (o : OptionType) (legs : list LegWithPrice) (x : Q) :
  Forall (boughtLeg o) legs ->
  - Qsum (map paid legs) <= calculateTotalPnl legs x.
Proof.
  induction 1 as [| lw rest Hl _ IH]; [unfold calculateTotalPnl; simpl; lra |].
  rewrite total_pnl_cons. cbn [map Qsum].
  pose proof (bought_pnl_lower o lw x Hl). lra.
Qed.

Lemma bought_total_out (o : OptionType) (legs : list LegWithPrice) (x : Q) :
  Forall (boughtLeg o) legs ->
  Forall (fun lw => match o with C => x <= strike lw | P => strike lw <= x end)
         legs ->
  calculateTotalPnl legs x == - Qsum (map paid legs).
Proof.
  induction 1 as [| lw rest Hl _ IH]; intros Hout;
    [unfold calculateTotalPnl; simpl; lra |].
  inversion Hout as [| ? ? Hx Hrest]; subst.
  rewrite total_pnl_cons. cbn [map Qsum].
  rewrite (bought_pnl_out o lw x Hl Hx), (IH Hrest). ring.
Qed.

Lemma paid_nonneg (o : OptionType) (legs : list LegWithPrice) :
  Forall (boughtLeg o) legs -> 0 <= Qsum (map paid legs).
Proof.
  induction 1 as [| lw rest [_ [_ [Ha Hp]]] _ IH]; cbn [map Qsum]; [lra |].
  unfold paid at 1. nra.
Qed.

(** The pattern looks at the name only: the premium does not decide
    whether a leg parses, nor its strike or type. *)
Lemma parseLeg_premium (l : Leg) (p q : Q) :
  parseLeg l p
  = option_map (fun lw => {| base := base lw; strike := strike lw;
                             optionType := optionType lw; premium := p |})
               (parseLeg l q).
Proof.
  unfold parseLeg.
  destruct (split_on "-" (instrument_name l)) as [| und [| exp [| stk [| typ [| ? ?]]]]];
    try reflexivity.
  destruct (_ && _); [| reflexivity].
  destruct (String.eqb typ "C"); [reflexivity |].
  destruct (String.eqb typ "P"); reflexivity.
Qed.

(** The parsed legs of a trade of bought options of type [o], all of whose
    names parse. *)
Lemma parseLegs_bought (o : OptionType) (premiums : PremiumMap) (ls : list Leg) :
  Forall (fun l => side l = buy /\ 0 <= amount l
                   /\ 0 <= premium_or_zero premiums (instrument_name l)
                   /\ option_map optionType (parseLeg l 0) = Some o) ls ->
  Forall (boughtLeg o) (parseLegs ls premiums)
  /\ Qsum (map paid (parseLegs ls premiums))
     == Qsum (map (signedCost premiums) ls)
  /\ List.length (parseLegs ls premiums) = List.length ls.
Proof.
  induction 1 as [| l rest [Hs [Ha [Hp Ho]]] _ [IH1 [IH2 IH3]]];
    [repeat split; constructor |].
  cbn [parseLegs].
  rewrite (parseLeg_premium l (premium_or_zero premiums (instrument_name l)) 0).
  destruct (parseLeg l 0) as [lw |] eqn:E; [| discriminate].
  pose proof (parseLeg_some _ _ _ E) as [Hb _].
  cbn [option_map] in *. assert (Ho' : optionType lw = o) by congruence.
  clear Ho. split; [| split].
  - constructor; [| exact IH1].
    unfold boughtLeg. cbn [base optionType premium]. rewrite Hb. auto.
  - cbn [map Qsum]. rewrite IH2. unfold paid at 1, signedCost at 2.
    cbn [base premium]. rewrite Hb, Hs. reflexivity.
  - cbn [List.length]. now rewrite IH3.
Qed.



(** *** Every reported breakeven brackets a change of sign *)

Lemma StronglySorted_snoc (xs : list Q) (b : Q) :
  StronglySorted Qle xs -> Forall (fun x => x <= b) xs ->
  StronglySorted Qle (xs ++ [b]).
Proof.
  induction 1 as [| x rest Hs IH Hx]; intros Hb; cbn [app].
  - constructor; constructor.
  - inversion Hb as [| ? ? Hxb Hrest]; subst.
    constructor; [now apply IH |].
    apply Forall_app. split; [exact Hx | constructor; [exact Hxb | constructor]].
Qed.

Section Soundness.

Variable legs : list LegWithPrice.
Variable n : nat.
Variable step minPrice maxPrice tolerance : Q.
Hypothesis step_pos : 0 < step.
Hypothesis n_enough : step <= tolerance * pow2 n.

Let f := calculateTotalPnl legs.

(** The bisection started on a step across which the sign changed ends on
    a bracket of a change of sign inside that step. *)
Lemma bisect_sign_change (prevPnl price : Q) :
  minPrice <= price - step -> price <= maxPrice ->
  num_lt (f (price - step)) 0 = num_lt prevPnl 0 ->
  crossed prevPnl (f price) = true ->
  exists l h,
    bisect n legs prevPnl (price - step) price tolerance = Some (l, h)
    /\ price - step <= l /\ l <= h /\ h <= price
    /\ bracketsSignChange legs minPrice maxPrice tolerance (round2 ((l + h) / 2)).
Proof.
  intros Hlo Hhi Hprev Hx.
  rewrite crossed_spec in Hx.
  set (Inv := fun l h : Q =>
                price - step <= l /\ l <= h /\ h <= price
                /\ num_lt (f l) 0 = num_lt prevPnl 0
                /\ num_lt (f h) 0 = negb (num_lt prevPnl 0)).
  assert (Hstep : forall low high, Inv low high ->
            let mid := (low + high) / 2 in
            if same_side prevPnl (calculateTotalPnl legs mid)
            then Inv mid high else Inv low mid).
  { intros low high [H1 [H2 [H3 [H4 H5]]]]. cbv zeta.
    assert (Em : (low + high) / 2 == (low + high) * (1 # 2)) by field.
    rewrite same_side_spec. fold (f ((low + high) / 2)).
    destruct (num_lt prevPnl 0) eqn:Ep,
             (num_lt (f ((low + high) / 2)) 0) eqn:Emid; cbn [Bool.eqb];
      unfold Inv; rewrite ?Ep, ?Emid; repeat split; auto; lra. }
  destruct (bisect_ends legs prevPnl tolerance Inv Hstep n (price - step) price)
    as [l [h [Hb [[H1 [H2 [H3 [H4 H5]]]] Hw]]]].
  - unfold Inv. repeat split; try lra; [exact Hprev |].
    destruct (num_lt prevPnl 0), (num_lt (f price) 0); cbn in *; congruence.
  - lra.
  - exists l, h. split; [exact Hb |]. split; [exact H1 |]. split; [exact H2 |].
    split; [exact H3 |]. exists l, h. split; [reflexivity |]. repeat split; try lra.
    fold (f l). fold (f h). rewrite H4, H5. now rewrite negb_involutive.
Qed.

Lemma scan_sound (fuel : nat) :
  forall price prevPnl acc bes,
    minPrice <= price - step ->
    num_lt (f (price - step)) 0 = num_lt prevPnl 0 ->
    Forall (bracketsSignChange legs minPrice maxPrice tolerance) acc ->
    StronglySorted Qle acc ->
    Forall (fun b => b <= round2 (price - step)) acc ->
    scan n fuel legs step maxPrice tolerance price prevPnl acc = Some bes ->
    Forall (bracketsSignChange legs minPrice maxPrice tolerance) bes
    /\ StronglySorted Qle bes.
Proof.
  induction fuel as [| fuel IH]; intros price prevPnl acc bes Hlo Hprev Hacc Hsort Hup;
    cbn [scan]; destruct (num_le price maxPrice) eqn:E;
    try discriminate; try (intros H; inversion H; subst; auto; fail).
  apply num_le_iff in E. fold (f price).
  assert (Hnext : Qred (price + step) - step == price)
    by (rewrite Qred_correct; ring).
  assert (Hlo' : minPrice <= Qred (price + step) - step) by (rewrite Hnext; lra).
  assert (Hprev' : num_lt (f (Qred (price + step) - step)) 0 = num_lt (f price) 0).
  { apply num_lt_comp. apply calculateTotalPnl_comp. exact Hnext. }
  assert (Hmono : round2 (price - step) <= round2 (Qred (price + step) - step)).
  { apply round2_mono. rewrite Hnext. lra. }
  destruct (crossed prevPnl (f price)) eqn:Ex.
  - destruct (bisect_sign_change prevPnl price Hlo E Hprev Ex)
      as [l [h [Hb [Hl [Hlh [Hh Hs]]]]]].
    rewrite Hb.
    assert (Em : (l + h) / 2 == (l + h) * (1 # 2)) by field.
    assert (Hb1 : round2 (price - step) <= round2 ((l + h) / 2))
      by (apply round2_mono; lra).
    assert (Hb2 : round2 ((l + h) / 2) <= round2 (Qred (price + step) - step))
      by (apply round2_mono; rewrite Hnext; lra).
    apply IH; auto.
    + apply Forall_app. split; [exact Hacc | constructor; [exact Hs | constructor]].
    + apply StronglySorted_snoc; [exact Hsort |].
      eapply Forall_impl; [| exact Hup]. cbv beta. intros b Hle. lra.
    + apply Forall_app. split.
      * eapply Forall_impl; [| exact Hup]. cbv beta. intros b Hle. lra.
      * constructor; [exact Hb2 | constructor].
  - apply IH; auto.
    eapply Forall_impl; [| exact Hup]. cbv beta. intros b Hb. lra.
Qed.

End Soundness.




(** *** When the analysis returns *)

Lemma Math_min_list_in (x : Q) (xs : list Q) : In (Math_min_list x xs) (x :: xs).
Proof.
  unfold Math_min_list. revert x.
  induction xs as [| y rest IH]; intros x; cbn [fold_left]; [now left |].
  destruct (IH (Math_min2 x y)) as [H | H]; [| right; now right].
  rewrite <- H. unfold Math_min2. destruct (num_le x y); [now left | right; now left].
Qed.

Lemma Math_max_list_in (x : Q) (xs : list Q) : In (Math_max_list x xs) (x :: xs).
Proof.
  unfold Math_max_list. revert x.
  induction xs as [| y rest IH]; intros x; cbn [fold_left]; [now left |].
  destruct (IH (Math_max2 x y)) as [H | H]; [| right; now right].
  rewrite <- H. unfold Math_max2. destruct (num_le x y); [right; now left | now left].
Qed.

(** Strikes that differ make the sampled domain non-empty, whatever the
    reference price. *)
Lemma priceDomain_strikes_differ (l0 : LegWithPrice) (ls : list LegWithPrice)
    (currentPrice : Q) :
  Forall (fun l => 0 <= strike l) (l0 :: ls) ->
  Exists (fun l => ~ strike l == strike l0) ls ->
  fst (priceDomain l0 ls currentPrice) < snd (priceDomain l0 ls currentPrice).
Proof.
  intros Hk Hex. unfold priceDomain. cbn [fst snd].
  pose proof (Math_min_list_lower (strike l0) (map strike ls)) as Hmin.
  pose proof (Math_max_list_upper (strike l0) (map strike ls)) as Hmax.
  change (strike l0 :: map strike ls) with (map strike (l0 :: ls)) in Hmin, Hmax.
  rewrite Forall_map in Hmin, Hmax.
  set (lo := Math_min_list (strike l0) (map strike ls)) in *.
  set (hi := Math_max_list (strike l0) (map strike ls)) in *.
  assert (Hlh : lo < hi).
  { apply Exists_exists in Hex. destruct Hex as [l [Hin Hne]].
    rewrite Forall_forall in Hmin, Hmax.
    pose proof (Hmin l0 (or_introl eq_refl)) as A1.
    pose proof (Hmax l0 (or_introl eq_refl)) as A2.
    pose proof (Hmin l (or_intror Hin)) as A3.
    pose proof (Hmax l (or_intror Hin)) as A4.
    cbv beta in *.
    destruct (Qlt_le_dec lo hi) as [H | H]; [exact H |].
    exfalso. apply Hne. lra. }
  assert (Hhi : 0 <= hi).
  { rewrite Forall_forall in Hk, Hmax.
    pose proof (Hk l0 (or_introl eq_refl)). pose proof (Hmax l0 (or_introl eq_refl)).
    cbv beta in *. lra. }
  assert (Er : num_or (hi - lo) (currentPrice * (2 # 10)) = hi - lo).
  { unfold num_or. destruct (Qeq_bool (hi - lo) 0) eqn:E; [| reflexivity].
    apply Qeq_bool_iff in E. lra. }
  rewrite Er. unfold Math_max2.
  case_num_le 0 (lo - (hi - lo) * (5 # 10)) E; lra.
Qed.

(** One strike and a reference price of 0 make it empty. *)
Lemma priceDomain_one_strike (l0 : LegWithPrice) (ls : list LegWithPrice)
    (currentPrice : Q) :
  0 <= strike l0 -> currentPrice == 0 ->
  Forall (fun l => strike l == strike l0) ls ->
  fst (priceDomain l0 ls currentPrice) == snd (priceDomain l0 ls currentPrice).
Proof.
  intros Hk Hc Hall. unfold priceDomain. cbn [fst snd].
  assert (Hsame : Forall (fun y => y == strike l0) (strike l0 :: map strike ls)).
  { constructor; [reflexivity |]. rewrite Forall_map. exact Hall. }
  rewrite Forall_forall in Hsame.
  pose proof (Hsame _ (Math_min_list_in (strike l0) (map strike ls))) as Hlo.
  pose proof (Hsame _ (Math_max_list_in (strike l0) (map strike ls))) as Hhi.
  set (lo := Math_min_list (strike l0) (map strike ls)) in *.
  set (hi := Math_max_list (strike l0) (map strike ls)) in *.
  assert (Er : num_or (hi - lo) (currentPrice * (2 # 10)) == 0).
  { unfold num_or. destruct (Qeq_bool (hi - lo) 0) eqn:E.
    - rewrite Hc. ring.
    - apply Qeq_bool_neq in E. exfalso. apply E. lra. }
  set (r := num_or (hi - lo) (currentPrice * (2 # 10))) in *.
  unfold Math_max2. case_num_le 0 (lo - r * (5 # 10)) E; nra.
Qed.

(** When the analysis returns, in exact arithmetic.  For a reference price
    that is not negative and at least one leg that parses: if the
    reference price is positive or two parsed strikes differ, the analysis
    returns for every sufficient fuel. *)
Lemma calculatePayoff_returns
    (t : TradeSpec) (premiums : PremiumMap) (currentPrice : Q)
    (l0 : LegWithPrice) (ls : list LegWithPrice) :
  0 <= currentPrice ->
  parseLegs (legs t) premiums = l0 :: ls ->
  0 < currentPrice \/ Exists (fun l => ~ strike l == strike l0) ls ->
  exists N, forall n, (N <= n)%nat ->
    exists pa, calculatePayoff n t premiums currentPrice = Some pa.
Proof.
  intros Hc Hp.
  pose proof (parseLegs_strikes (legs t) premiums) as Hs. rewrite Hp in Hs.
  intros [Hpos | Hex]; [now apply calculatePayoff_total |].
  destruct (findBreakevens_total (l0 :: ls)
              (fst (priceDomain l0 ls currentPrice))
              (snd (priceDomain l0 ls currentPrice)) default_tolerance)
    as [N HN]; [now apply priceDomain_strikes_differ | reflexivity |].
  exists N. intros n Hn. destruct (HN n Hn) as [bes Hb].
  destruct (calculatePayoff_breakevens n t premiums currentPrice l0 ls bes Hp Hb)
    as [pa [Hpa _]].
  now exists pa.
Qed.

(** X7.  With a reference price of 0 and parsed legs of one strike, the
    price range is empty, the step of the breakeven scan is 0 and the
    analysis returns for no fuel at all: the source does not terminate.
    (Every operation on the way is exact in binary64.) *)
Theorem calculatePayoff_empty_range
    (t : TradeSpec) (premiums : PremiumMap) (currentPrice : Q)
    (l0 : LegWithPrice) (ls : list LegWithPrice) :
  parseLegs (legs t) premiums = l0 :: ls ->
  currentPrice == 0 ->
  Forall (fun l => strike l == strike l0) ls ->
  forall n, calculatePayoff n t premiums currentPrice = None.
Proof.
  intros Hp H0 Hall n.
  pose proof (parseLegs_strikes (legs t) premiums) as Hs. rewrite Hp in Hs.
  inversion Hs as [| ? ? Hk _]; subst.
  pose proof (priceDomain_one_strike l0 ls currentPrice Hk H0 Hall) as He.
  unfold priceDomain in He. cbn [fst snd] in He.
  unfold calculatePayoff. rewrite Hp. cbv zeta.
  rewrite findBreakevens_empty_range; [reflexivity | exact He | discriminate].
Qed.

(** *** Legs whose names do not parse *)

Lemma parseLegs_filter (ls : list Leg) (premiums : PremiumMap) :
  parseLegs (filter parses ls) premiums = parseLegs ls premiums.
Proof.
  induction ls as [| l rest IH]; [reflexivity |].
  cbn [filter parseLegs]. unfold parses at 1.
  rewrite (parseLeg_premium l (premium_or_zero premiums (instrument_name l)) 0).
  destruct (parseLeg l 0) as [lw |] eqn:E; cbn [option_map].
  - cbn [parseLegs].
    rewrite (parseLeg_premium l (premium_or_zero premiums (instrument_name l)) 0), E.
    cbn [option_map]. now rewrite IH.
  - exact IH.
Qed.

(** X8.  Legs whose instrument name does not match the pattern are ignored:
    the analysis of a trade is the analysis of the trade without them.  If
    no leg parses, the result has no points and no breakevens, an unbounded
    [maxGain] ([null]) and the trade's own [max_loss_usd] as [maxLoss]. *)
Theorem calculatePayoff_skips_unparsed
    (n : nat) (t : TradeSpec) (premiums : PremiumMap) (currentPrice : Q) :
  calculatePayoff n t premiums currentPrice
  = calculatePayoff n (with_legs t (filter parses (legs t))) premiums currentPrice
  /\ (forallb (fun l => negb (parses l)) (legs t) = true ->
      calculatePayoff n t premiums currentPrice
      = Some {| points := []; maxLoss := max_loss_usd t;
                maxGain := None; breakevens := [] |}).
Proof.
  split.
  - unfold calculatePayoff. cbn [with_legs legs max_loss_usd].
    rewrite parseLegs_filter. reflexivity.
  - intros Hnone.
    assert (E : parseLegs (legs t) premiums = []).
    { rewrite <- parseLegs_filter.
      replace (filter parses (legs t)) with (@nil Leg); [reflexivity |].
      induction (legs t) as [| l rest IH]; [reflexivity |].
      cbn [forallb filter] in *. apply andb_true_iff in Hnone.
      destruct Hnone as [Hl Hrest]. apply negb_true_iff in Hl. rewrite Hl.
      now apply IH. }
    unfold calculatePayoff. rewrite E. reflexivity.
Qed.






(** The long call of the tests at a reference price of 0, as when no index
    price is at hand. *)
Lemma calculatePayoff_empty_range_witness :
  calculatePayoff 0 Examples.longCall3500 Examples.samplePremiums 0 = None
  /\ calculatePayoff 5000 Examples.longCall3500 Examples.samplePremiums 0 = None.
Proof.
  split;
    apply (calculatePayoff_empty_range Examples.longCall3500
             Examples.samplePremiums 0
             {| base := Examples.leg_of "ETH-20250110-3500-C" buy 1;
                strike := inject_Z 3500; optionType := C; premium := 150 |} []);
    try reflexivity; constructor.
Defined.

End RiskFacts.

(** ** SafetyGate: spreads and monotonicity *)

Module CheckFacts.

Import Safety SafetyFacts.


Section Monotone.

Variable parseFloat : string -> Q.
Variable toFixed : Q -> nat -> string.
Variable numToString : Q -> string.

Let run := runSafetyChecks parseFloat toFixed numToString.

(** X10.  The safety checks are monotone: if a trade passes all checks, then
    so does, under the same environment, any trade whose legs are each no
    larger than some leg of the first, at an estimated cost that is not
    higher and a spread that is unknown or not wider; and it passes
    without an error message. *)
Theorem runSafetyChecks_monotone (env : ProcessEnv) (t t' : TradeSpec)
    (estimatedCost estimatedCost' : Q) (spreadPercent spreadPercent' : option Q) :
  all_passed (run env t estimatedCost spreadPercent) = true ->
  estimatedCost' <= estimatedCost ->
  Forall (fun l' => exists l, In l (legs t) /\ amount l' <= amount l) (legs t') ->
  match spreadPercent', spreadPercent with
  | None, _ => True
  | Some sp', Some sp => sp' <= sp
  | Some _, None => False
  end ->
  all_passed (run env t' estimatedCost' spreadPercent') = true
  /\ errors (run env t' estimatedCost' spreadPercent') = [].
Proof.
  intros Hall Hcost Hlegs Hspread.
  set (cfg := getSafetyConfig parseFloat env).
  assert (Ea : forall t0 c0 s0,
            all_passed (run env t0 c0 s0)
            = passes_max_cost (run env t0 c0 s0)
                && passes_max_contracts (run env t0 c0 s0)
                && (passes_spread_check (run env t0 c0 s0)
                    || negb (safeModeEnabled cfg))) by reflexivity.
  assert (Ec : forall t0 c0 s0,
            passes_max_cost (run env t0 c0 s0) = num_le c0 (maxTradeCostUsd cfg))
    by reflexivity.
  assert (Ek : forall t0 c0 s0,
            passes_max_contracts (run env t0 c0 s0)
            = match Math_max (map amount (legs t0)) with
              | None => true
              | Some m => num_le m (maxContractsPerLeg cfg)
              end) by reflexivity.
  assert (Es : forall t0 c0 s0,
            passes_spread_check (run env t0 c0 s0)
            = match s0 with
              | Some sp => num_le sp (maxSpreadPercent cfg)
              | None => true
              end) by reflexivity.
  rewrite Ea in Hall. apply andb_true_iff in Hall. destruct Hall as [Hall H3].
  apply andb_true_iff in Hall. destruct Hall as [H1 H2].
  rewrite Ec in H1. apply num_le_iff in H1.
  rewrite Ek in H2. apply contracts_check_all in H2.
  assert (H1' : passes_max_cost (run env t' estimatedCost' spreadPercent') = true)
    by (rewrite Ec; apply num_le_iff; lra).
  assert (H2' : passes_max_contracts (run env t' estimatedCost' spreadPercent')
                = true).
  { rewrite Ek. apply contracts_check_all.
    eapply Forall_impl; [| exact Hlegs]. cbv beta. intros l' [l [Hin Hle]].
    rewrite Forall_forall in H2. specialize (H2 l Hin). cbv beta in H2. lra. }
  split.
  - rewrite Ea, H1', H2'. cbn [andb].
    rewrite Es in *. apply orb_true_iff in H3. apply orb_true_iff.
    destruct H3 as [H3 | H3]; [| now right]. left.
    destruct spreadPercent' as [sp' |]; [| reflexivity].
    destruct spreadPercent as [sp |]; [| contradiction].
    apply num_le_iff in H3. apply num_le_iff. lra.
  - unfold run, runSafetyChecks in *. cbn [errors passes_max_cost] in *.
    fold cfg in H1', H2' |- *. rewrite H1'.
    cbn [passes_max_contracts] in H2'.
    destruct (Math_max (map amount (legs t'))) as [m |]; [| reflexivity].
    now rewrite H2'.
Qed.

End Monotone.

(** The long call of the tests at a cost of 150 and a spread of 4% passes;
    so it does at a cost of 100 and a spread of 3%. *)
Lemma runSafetyChecks_monotone_witness :
  let run := runSafetyChecks parseDecimal (fun q _ => Examples.noFormat q)
               Examples.noFormat Examples.testEnv in
  all_passed (run Examples.longCall3500 100 (Some 3)) = true
  /\ errors (run Examples.longCall3500 100 (Some 3)) = [].
Proof.
  intros run.
  apply (runSafetyChecks_monotone parseDecimal (fun q _ => Examples.noFormat q)
           Examples.noFormat Examples.testEnv Examples.longCall3500
           Examples.longCall3500 150 100 (Some 4) (Some 3)).
  - vm_compute. reflexivity.
  - unfold Qle. simpl. lia.
  - constructor; [| constructor].
    exists (Examples.leg_of "ETH-20250110-3500-C" buy 1).
    split; [left; reflexivity | unfold Qle; simpl; lia].
  - unfold Qle. simpl. lia.
Defined.

End CheckFacts.

(** ** The tool executors *)

Module ExecutorFacts.

Import Payoff LyraTools LyraExecutors LyraFacts.

Lemma Record_get_set {A : Type} (r : list (string * A)) (k k' : string) (v : A) :
  Record_get (Record_set r k v) k'
  = if String.eqb k k' then Some v else Record_get r k'.
Proof.
  induction r as [| [k0 v0] rest IH]; cbn [Record_set Record_get].
  - reflexivity.
  - destruct (String.eqb k0 k) eqn:E0; cbn [Record_get].
    + apply String.eqb_eq in E0. subst k0.
      destruct (String.eqb k k'); reflexivity.
    + destruct (String.eqb k0 k') eqn:E1.
      * apply String.eqb_eq in E1. subst k0.
        rewrite String.eqb_sym in E0. now rewrite E0.
      * exact IH.
Qed.

Section ToolsFacts.

Variable parseFloat : string -> Q.
Variable getTicker : string -> Agent.Outcome LyraTicker.
Variable getInstruments : string -> Agent.Outcome (list LyraInstrument).

Let settle (name : string) : option LyraTicker :=
  match getTicker name with
  | Agent.Returned ticker => Some ticker
  | Agent.Thrown _ => None
  end.

Lemma tickers_from (names : list string) :
  forall (acc : list (string * option LyraTicker)) (name : string),
    Record_get
      (fold_left (fun results '(name, ticker) => Record_set results name ticker)
         (map (fun name =>
                 match getTicker name with
                 | Agent.Returned ticker => (name, Some ticker)
                 | Agent.Thrown _ => (name, None)
                 end) names) acc) name
    = if existsb (String.eqb name) names then Some (settle name)
      else Record_get acc name.
Proof.
  induction names as [| n rest IH]; intros acc name; [reflexivity |].
  cbn [map fold_left existsb]. 
  assert (E : (let '(name0, ticker) :=
                 match getTicker n with
                 | Agent.Returned ticker => (n, Some ticker)
                 | Agent.Thrown _ => (n, None)
                 end in Record_set acc name0 ticker)
              = Record_set acc n (settle n))
    by (unfold settle; destruct (getTicker n); reflexivity).
  rewrite E, IH.
  destruct (existsb (String.eqb name) rest); [now rewrite orb_true_r |].
  rewrite orb_false_r, Record_get_set. rewrite (String.eqb_sym n name).
  destruct (String.eqb name n) eqn:En; [| reflexivity].
  apply String.eqb_eq in En. now subst n.
Qed.

(** What the record of [executeGetMultipleTickers] holds. *)
Lemma executeGetMultipleTickers_entries (names : list string) (name : string) :
  Record_get (executeGetMultipleTickers getTicker names) name
  = if existsb (String.eqb name) names
    then Some match getTicker name with
              | Agent.Returned ticker => Some ticker
              | Agent.Thrown _ => None
              end
    else None.
Proof.
  unfold executeGetMultipleTickers. rewrite tickers_from. reflexivity.
Qed.

(** X11.  In the record that [executeGetMultipleTickers] returns, the read
    of a requested name gives the ticker where its fetch succeeded, and
    nothing to use ([null]) where it failed. *)
Theorem executeGetMultipleTickers_lookup (names : list string) (name : string) :
  In name names ->
  ticker_of (executeGetMultipleTickers getTicker names) name
  = match getTicker name with
    | Agent.Returned ticker => Some ticker
    | Agent.Thrown _ => None
    end.
Proof.
  intros Hin. unfold ticker_of, executeGetMultipleTickers. rewrite tickers_from.
  assert (E : existsb (String.eqb name) names = true).
  { apply existsb_exists. exists name. split; [exact Hin | apply String.eqb_refl]. }
  rewrite E. unfold settle. destruct (getTicker name); reflexivity.
Qed.

End ToolsFacts.

(** Two names asked of the sample market, of which it knows the first. *)
Lemma executeGetMultipleTickers_lookup_witness :
  let getTicker name :=
    match Examples.sampleTickers name with
    | Some ticker => Agent.Returned ticker
    | None => Agent.Thrown "Instrument not found"
    end in
  let names := ["ETH-A-3500-C"; "ETH-Q-3500-C"] in
  ticker_of (executeGetMultipleTickers getTicker names) "ETH-A-3500-C"
  = Some (Examples.quote "ETH-A-3500-C" "94" "106")
  /\ ticker_of (executeGetMultipleTickers getTicker names) "ETH-Q-3500-C" = None.
Proof.
  intros getTicker names. split.
  - apply (executeGetMultipleTickers_lookup getTicker names "ETH-A-3500-C").
    simpl. auto.
  - apply (executeGetMultipleTickers_lookup getTicker names "ETH-Q-3500-C").
    simpl. auto.
Defined.


(** What [executeGetInstruments] keeps. *)
Lemma executeGetInstruments_In (listed : list LyraInstrument) (now : Q)
    (expiry_days_max : option Q) (i : LyraInstrument) :
  In i (executeGetInstruments listed now expiry_days_max)
  <-> In i listed /\ li_is_active i = true
      /\ exists d,
           li_option_details i = Some d
           /\ match expiry_days_max with
              | Some days =>
                  ~ days == 0 ->
                  now < od_expiry d * 1000
                  /\ od_expiry d * 1000 <= now + days * ms_per_day
              | None => True
              end.
Proof.
  assert (Hbase : forall j,
            In j (filter (fun i => li_is_active i
                                   && match li_option_details i with
                                      | Some _ => true | None => false end)
                         listed)
            <-> In j listed /\ li_is_active j = true
                /\ exists d, li_option_details j = Some d).
  { intros j. rewrite filter_In, andb_true_iff.
    destruct (li_option_details j) as [d |].
    - split; [intros [H1 [H2 _]]; eauto | intros [H1 [H2 _]]; auto].
    - split; [intros [_ [_ H]]; discriminate | intros [_ [_ [d H]]]; discriminate]. }
  unfold executeGetInstruments.
  destruct expiry_days_max as [days |].
  - destruct (Qeq_bool days 0) eqn:E0.
    + apply Qeq_bool_iff in E0. rewrite Hbase. split.
      * intros [H1 [H2 [d Hd]]]. repeat split; auto. exists d. split; [exact Hd |].
        intros Hne. contradiction.
      * intros [H1 [H2 [d [Hd _]]]]. eauto.
    + apply Qeq_bool_neq in E0. rewrite filter_In, Hbase.
      assert (Ems : days * 24 * 60 * 60 * 1000 == days * ms_per_day)
        by (unfold ms_per_day; ring).
      split.
      * intros [[H1 [H2 [d Hd]]] Hw]. repeat split; auto. exists d.
        split; [exact Hd |]. intros _. rewrite Hd in Hw.
        apply andb_true_iff in Hw. destruct Hw as [Hle Hgt].
        apply num_le_iff in Hle. apply num_gt_iff in Hgt.
        assert (En : num_or (od_expiry d) 0 == od_expiry d)
          by apply MaxGainFacts.num_or_zero.
        rewrite En in Hle, Hgt. lra.
      * intros [H1 [H2 [d [Hd Hw]]]]. split; [eauto |].
        rewrite Hd. destruct (Hw E0) as [Hgt Hle].
        assert (En : num_or (od_expiry d) 0 == od_expiry d)
          by apply MaxGainFacts.num_or_zero.
        apply andb_true_iff. split.
        -- apply num_le_iff. rewrite En. lra.
        -- apply num_gt_iff. rewrite En. lra.
  - rewrite Hbase. split.
    + intros [H1 [H2 [d Hd]]]. repeat split; auto. exists d. auto.
    + intros [H1 [H2 [d [Hd _]]]]. eauto.
Qed.


(** X12.  [executeGetInstruments] keeps exactly the listed instruments that
    are active and carry option details and, when [expiry_days_max] is
    given and not 0, expire after [now] and at most that many days later.
    A limit of 0 days is read as no limit.  The result is never longer
    than the listing. *)
Theorem executeGetInstruments_spec (listed : list LyraInstrument) (now : Q)
    (expiry_days_max : option Q) :
  (forall i, In i (executeGetInstruments listed now expiry_days_max)
     <-> In i listed /\ li_is_active i = true
         /\ exists d,
              li_option_details i = Some d
              /\ match expiry_days_max with
                 | Some days =>
                     ~ days == 0 ->
                     now < od_expiry d * 1000
                     /\ od_expiry d * 1000 <= now + days * ms_per_day
                 | None => True
                 end)
  /\ (executeGetInstruments listed now (Some 0)
      = executeGetInstruments listed now None)
  /\ (List.length (executeGetInstruments listed now expiry_days_max)
      <= List.length listed)%nat.
Proof.
  split; [intros i; apply executeGetInstruments_In |]. split; [reflexivity |].
  unfold executeGetInstruments.
  destruct expiry_days_max as [days |];
    [destruct (Qeq_bool days 0) |];
    repeat (eapply Nat.le_trans; [apply filter_length_le |]); apply Nat.le_refl.
Qed.

(** What the window of [executeFindLiquidOptions] lets through. *)
Lemma in_window_true (parseFloat : string -> Q) (index_price_now now : Q)
    (params : FindParams) (i : LyraInstrument) :
  in_window parseFloat index_price_now now params i = true ->
  exists d,
    li_option_details i = Some d
    /\ od_option_type d = fp_option_type params
    /\ now + min_days_to_expiry params * ms_per_day <= od_expiry d * 1000
    /\ od_expiry d * 1000 <= now + max_days_to_expiry params * ms_per_day
    /\ index_price_now * (1 - opt_or (strike_range_percent params) 15 / 100)
       <= parseFloat (od_strike d)
    /\ parseFloat (od_strike d)
       <= index_price_now * (1 + opt_or (strike_range_percent params) 15 / 100).
Proof.
  unfold in_window. destruct (li_option_details i) as [d |]; [| discriminate].
  destruct (OptionType_eqb (od_option_type d) (fp_option_type params)) eqn:Et;
    cbn [negb]; [| discriminate].
  destruct (num_lt (od_expiry d * 1000) _ || num_gt (od_expiry d * 1000) _) eqn:Ee;
    [discriminate |].
  destruct (num_lt (parseFloat (od_strike d)) _
            || num_gt (parseFloat (od_strike d)) _) eqn:Es; [discriminate |].
  intros _. apply orb_false_iff in Ee, Es.
  destruct Ee as [E1 E2]. destruct Es as [E3 E4].
  apply num_lt_false_iff in E1, E3. apply num_lt_false_iff in E2, E4.
  exists d. split; [reflexivity |]. split.
  - destruct (od_option_type d), (fp_option_type params);
      try reflexivity; discriminate.
  - repeat split; assumption.
Qed.

Section QueryWithCalls.

Variable parseFloat : string -> Q.
Variable getTicker : string -> Agent.Outcome LyraTicker.
Variable getInstruments : string -> Agent.Outcome (list LyraInstrument).

(** X13.  [executeFindLiquidOptions] with the calls it makes.  It throws
    exactly when the ticker of the perpetual or the listing of the
    instruments throws, with that error; a failed ticker of a candidate
    never makes it throw.  Every option it returns is listed and active,
    has the requested type, expires within the requested window of days
    (at the clock of the listing and at the clock of the query), has a
    strike within the range around the index price of the perpetual, and
    has a ticker that was fetched and shows a live bid and a live ask; the
    results are sorted by spread. *)
Theorem findLiquidOptions_spec (now0 now1 : Q) (params : FindParams) :
  let perpName := fp_underlying params ++ "-PERP" in
  (forall e,
     findLiquidOptions parseFloat getTicker getInstruments now0 now1 params
     = Agent.Thrown e
     <-> getTicker perpName = Agent.Thrown e
         \/ ((exists perp, getTicker perpName = Agent.Returned perp)
             /\ getInstruments (fp_underlying params) = Agent.Thrown e))
  /\ (forall out,
        findLiquidOptions parseFloat getTicker getInstruments now0 now1 params
        = Agent.Returned out ->
        exists perp listed,
          getTicker perpName = Agent.Returned perp
          /\ getInstruments (fp_underlying params) = Agent.Returned listed
          /\ Sorted by_spread out
          /\ forall r, In r out ->
               In (instrument r) listed
               /\ li_is_active (instrument r) = true
               /\ (exists ticker,
                     getTicker (li_instrument_name (instrument r))
                     = Agent.Returned ticker
                     /\ live_price parseFloat (best_bid_price ticker) <> None
                     /\ live_price parseFloat (best_ask_price ticker) <> None)
               /\ exists d,
                    li_option_details (instrument r) = Some d
                    /\ od_option_type d = fp_option_type params
                    /\ now1 + min_days_to_expiry params * ms_per_day
                       <= od_expiry d * 1000
                    /\ od_expiry d * 1000
                       <= now1 + max_days_to_expiry params * ms_per_day
                    /\ (~ max_days_to_expiry params == 0 ->
                        now0 < od_expiry d * 1000
                        /\ od_expiry d * 1000
                           <= now0 + max_days_to_expiry params * ms_per_day)
                    /\ parseFloat (index_price perp)
                       * (1 - opt_or (strike_range_percent params) 15 / 100)
                       <= parseFloat (od_strike d)
                    /\ parseFloat (od_strike d)
                       <= parseFloat (index_price perp)
                          * (1 + opt_or (strike_range_percent params) 15 / 100)).
Proof.
  intros perpName. unfold findLiquidOptions, executeGetIndexPrice.
  fold perpName. split.
  - intros e. destruct (getTicker perpName) as [perp | e0].
    + destruct (getInstruments (fp_underlying params)) as [listed | e1].
      * split; [discriminate |].
        intros [H | [_ H]]; discriminate.
      * split; [intros H; right; split; [eauto | congruence] |].
        intros [H | [_ H]]; [discriminate | congruence].
    + split; [intros H; left; congruence |].
      intros [H | [[perp H] _]]; [congruence | discriminate].
  - intros out. destruct (getTicker perpName) as [perp | e0]; [| discriminate].
    destruct (getInstruments (fp_underlying params)) as [listed | e1];
      [| discriminate].
    set (instruments := executeGetInstruments listed now0 _).
    change (ip_index_price _) with (parseFloat (index_price perp)).
    cbv zeta. intros H. injection H as <-.
    exists perp, listed. split; [reflexivity |]. split; [reflexivity |].
    split; [apply sort_by_spread_sorted |].
    intros r Hr. unfold executeFindLiquidOptions in Hr.
    apply (Permutation_in r (Permutation_sym (sort_by_spread_perm _))) in Hr.
    apply price_all_In in Hr. destruct Hr as [i [Hi Hp]].
    apply filter_In in Hi. destruct Hi as [Hi Hw].
    match type of Hp with
    | price_instrument _ ?tk ?ms _ = _ =>
        pose proof (price_instrument_spec parseFloat tk ms i) as Hs
    end.
    rewrite Hp in Hs.
    destruct Hs as [ticker [b [a [pr [Ht [Hb [Ha [Hii _]]]]]]]].
    rewrite Hii.
    apply executeGetInstruments_In in Hi.
    destruct Hi as [Hlisted [Hact [d [Hd Hexp]]]].
    split; [exact Hlisted |]. split; [exact Hact |]. split.
    + exists ticker. split; [| split; congruence].
      unfold ticker_of, executeGetMultipleTickers in Ht.
      rewrite tickers_from in Ht.
      destruct (existsb _ _); [| discriminate].
      destruct (getTicker (li_instrument_name i)); congruence.
    + destruct (in_window_true _ _ _ _ _ Hw) as [d' [Hd' Hrest]].
      assert (d' = d) by congruence. subst d'.
      destruct Hrest as [H1 [H2 [H3 [H4 H5]]]].
      exists d. repeat split; auto; apply Hexp; assumption.
Qed.

End QueryWithCalls.

End ExecutorFacts.

(** ** The exchange client *)

Module ClientFacts.

Import Payoff LyraClient.

Lemma Map_get_set {V : Type} (m : list (string * V)) (k k' : string) (v : V) :
  Map_get (Map_set m k v) k' = if String.eqb k k' then Some v else Map_get m k'.
Proof.
  induction m as [| [k0 v0] rest IH]; cbn [Map_set Map_get].
  - reflexivity.
  - destruct (String.eqb k0 k) eqn:E0; cbn [Map_get].
    + apply String.eqb_eq in E0. subst k0.
      destruct (String.eqb k k'); reflexivity.
    + destruct (String.eqb k0 k') eqn:E1.
      * apply String.eqb_eq in E1. subst k0.
        rewrite String.eqb_sym in E0. now rewrite E0.
      * exact IH.
Qed.


(** *** Instrument names *)

Lemma split_on_nonempty (sep : ascii) (s : string) : split_on sep s <> [].
Proof.
  destruct s as [| c rest]; cbn [split_on]; [discriminate |].
  destruct (Ascii.eqb c sep); [discriminate |].
  destruct (split_on sep rest); discriminate.
Qed.

(** Joining the fields with the separator gives the string back. *)
Lemma split_on_join (sep : ascii) (s : string) :
  String.concat (String sep EmptyString) (split_on sep s) = s.
Proof.
  induction s as [| c rest IH]; [reflexivity |].
  cbn [split_on]. pose proof (split_on_nonempty sep rest) as Hne.
  destruct (Ascii.eqb c sep) eqn:E.
  - apply Ascii.eqb_eq in E. subst c.
    destruct (split_on sep rest) as [| f fs]; [congruence |].
    rewrite <- IH. reflexivity.
  - destruct (split_on sep rest) as [| f fs]; [congruence |].
    rewrite <- IH. destruct fs; reflexivity.
Qed.

Lemma split_on_plain (sep : ascii) (s : string) :
  Agent.contains sep s = false -> split_on sep s = [s].
Proof.
  induction s as [| c rest IH]; [reflexivity |].
  cbn [Agent.contains split_on]. intros H. apply orb_false_iff in H.
  destruct H as [Hc Hrest]. rewrite Hc, (IH Hrest). reflexivity.
Qed.

Lemma split_on_field (sep : ascii) (a rest : string) :
  Agent.contains sep a = false ->
  split_on sep (a ++ String sep rest) = a :: split_on sep rest.
Proof.
  induction a as [| c a' IH]; cbn [Agent.contains append split_on].
  - intros _. now rewrite Ascii.eqb_refl.
  - intros H. apply orb_false_iff in H. destruct H as [Hc Hrest].
    rewrite Hc, (IH Hrest). reflexivity.
Qed.

Lemma all_chars_contains (f : ascii -> bool) (c : ascii) (s : string) :
  f c = false -> all_chars f s = true -> Agent.contains c s = false.
Proof.
  intros Hf. induction s as [| a rest IH]; [reflexivity |].
  cbn [all_chars Agent.contains]. intros H. apply andb_true_iff in H.
  destruct H as [Ha Hrest]. rewrite (IH Hrest), orb_false_r.
  destruct (Ascii.eqb a c) eqn:E; [| reflexivity].
  apply Ascii.eqb_eq in E. congruence.
Qed.

(** X14.  [parseInstrumentName] accepts exactly the names
    [UNDERLYING-YYYYMMDD-STRIKE-T]: one or more capital letters, eight
    digits, one or more digits, and [C] or [P]; it returns these fields,
    the strike as the number [parseInt] reads: the binary64 number nearest
    to the integer the digits denote, which is that integer up to [2^53].
    [parseLeg] of the risk engine accepts the same names and reads the same
    strike and option type. *)
Theorem parseInstrumentName_spec (name : string) :
  (forall r,
     parseInstrumentName name = Some r
     <-> exists stk,
           name = in_underlying r ++ "-" ++ in_expiry r ++ "-" ++ stk ++ "-"
                    ++ typeLetter (in_optionType r)
           /\ in_underlying r <> "" /\ all_chars is_upper (in_underlying r) = true
           /\ String.length (in_expiry r) = 8%nat
           /\ all_chars is_digit (in_expiry r) = true
           /\ stk <> "" /\ all_chars is_digit stk = true
           /\ in_strike r = Binary64.fl64 (inject_Z (digitsValue stk))
           /\ ((digitsValue stk <= 2 ^ 53)%Z
               -> in_strike r = inject_Z (digitsValue stk)))
  /\ (forall (leg : Leg) (p : Q),
        instrument_name leg = name ->
        parseLeg leg p
        = option_map (fun r => {| base := leg; strike := in_strike r;
                                  optionType := in_optionType r; premium := p |})
                     (parseInstrumentName name)).
Proof.
  assert (Hz : forall stk, (digitsValue stk <= 2 ^ 53)%Z ->
                 parseInt stk = inject_Z (digitsValue stk)).
  { intros stk H. apply Binary64Facts.fl64_Z_eq.
    pose proof (BreakevenFacts.digitsValue_nonneg stk). lia. }
  split.
  - intros r. split.
    + unfold parseInstrumentName. intros H.
      pose proof (split_on_join "-" name) as Hj.
      destruct (split_on "-" name) as [| und [| exp [| stk [| typ [| ? ?]]]]];
        try discriminate.
      cbn [String.concat] in Hj.
      destruct (negb (String.eqb und "")) eqn:E1; [| discriminate].
      destruct (all_chars is_upper und) eqn:E2; [| discriminate].
      destruct (String.length exp =? 8)%nat eqn:E3; [| discriminate].
      destruct (all_chars is_digit exp) eqn:E4; [| discriminate].
      destruct (negb (String.eqb stk "")) eqn:E5; [| discriminate].
      destruct (all_chars is_digit stk) eqn:E6; [| discriminate].
      cbn [andb] in H.
      apply negb_true_iff in E1, E5. apply String.eqb_neq in E1, E5.
      apply Nat.eqb_eq in E3.
      destruct (String.eqb typ "C") eqn:EC.
      * apply String.eqb_eq in EC. subst typ. inversion H; subst r.
        cbn [in_underlying in_expiry in_strike in_optionType typeLetter].
        exists stk. repeat split; auto.
      * destruct (String.eqb typ "P") eqn:EP; [| discriminate].
        apply String.eqb_eq in EP. subst typ. inversion H; subst r.
        cbn [in_underlying in_expiry in_strike in_optionType typeLetter].
        exists stk. repeat split; auto.
    + intros [stk [Hn [H1 [H2 [H3 [H4 [H5 [H6 [H7 _]]]]]]]]].
      destruct r as [und exp k o].
      cbn [in_underlying in_expiry in_strike in_optionType] in *.
      unfold parseInstrumentName. rewrite Hn.
      assert (Hs : split_on "-" (und ++ "-" ++ exp ++ "-" ++ stk ++ "-" ++ typeLetter o)
                   = [und; exp; stk; typeLetter o]).
      { change (und ++ "-" ++ exp ++ "-" ++ stk ++ "-" ++ typeLetter o)
          with (und ++ String "-" (exp ++ String "-" (stk ++ String "-" (typeLetter o)))).
        rewrite !split_on_field;
          try (apply (all_chars_contains is_digit); [reflexivity | assumption]);
          try (apply (all_chars_contains is_upper); [reflexivity | assumption]).
        rewrite split_on_plain by (destruct o; reflexivity). reflexivity. }
      rewrite Hs.
      apply String.eqb_neq in H1, H5. rewrite H1, H2, H3, Nat.eqb_refl, H4, H5, H6.
      cbn [negb andb]. rewrite H7. destruct o; reflexivity.
  - intros leg p Hname. unfold parseLeg, parseInstrumentName. rewrite Hname.
    destruct (split_on "-" name) as [| und [| exp [| stk [| typ [| ? ?]]]]];
      try reflexivity.
    destruct (_ && _); [| reflexivity].
    destruct (String.eqb typ "C"); [reflexivity |].
    destruct (String.eqb typ "P"); reflexivity.
Qed.


(** *** The closest expiry *)

Section Closest.

Variable targetTime : Q.


Lemma closestStep_inv (seen : list LyraInstrument) (st : option Q * option Q)
    (inst : LyraInstrument) :
  closestInv targetTime seen st ->
  closestInv targetTime (seen ++ [inst]) (closestStep targetTime st inst).
Proof.
  intros Hinv. unfold closestStep.
  assert (Hskip : datedExpiry inst = None -> closestInv targetTime (seen ++ [inst]) st).
  { intros Hn. destruct st as [[e |] [m |]]; cbn [closestInv] in *; try contradiction.
    - destruct Hinv as [Hm [l1 [i [l2 [Hs [Hi [H1 H2]]]]]]].
      split; [exact Hm |]. exists l1, i, (l2 ++ [inst])%list.
      split; [rewrite Hs, <- app_assoc; reflexivity |].
      split; [exact Hi |]. split; [exact H1 |].
      apply Forall_app. split; [exact H2 |]. constructor; [| constructor].
      now rewrite Hn.
    - apply Forall_app. split; [exact Hinv |]. constructor; [exact Hn | constructor]. }
  unfold datedExpiry in Hskip.
  destruct (ci_option_details inst) as [d |] eqn:Ed; [| now apply Hskip].
  destruct (Qeq_bool (cd_expiry d) 0) eqn:E0; [now apply Hskip |].
  clear Hskip.
  assert (Hd : datedExpiry inst = Some (cd_expiry d))
    by (unfold datedExpiry; now rewrite Ed, E0).
  fold (expiryDistance targetTime (cd_expiry d)).
  destruct st as [[e |] [m |]]; cbn [closestInv snd] in *; try contradiction.
  - destruct Hinv as [Hm [l1 [i [l2 [Hs [Hi [H1 H2]]]]]]]. subst m.
    destruct (num_lt (expiryDistance targetTime (cd_expiry d)) (expiryDistance targetTime e)) eqn:El.
    + apply num_lt_iff in El. cbn [closestInv]. split; [reflexivity |].
      exists seen, inst, []. split; [reflexivity |]. split; [exact Hd |].
      split; [| constructor].
      rewrite Hs. apply Forall_app. split.
      * eapply Forall_impl; [| exact H1]. cbv beta. intros j Hj.
        destruct (datedExpiry j); [lra | exact I].
      * constructor.
        -- rewrite Hi. exact El.
        -- eapply Forall_impl; [| exact H2]. cbv beta. intros j Hj.
           destruct (datedExpiry j); [lra | exact I].
    + apply num_lt_false_iff in El. cbn [closestInv]. split; [reflexivity |].
      exists l1, i, (l2 ++ [inst])%list.
      split; [rewrite Hs, <- app_assoc; reflexivity |].
      split; [exact Hi |]. split; [exact H1 |].
      apply Forall_app. split; [exact H2 |]. constructor; [| constructor].
      rewrite Hd. exact El.
  - cbn [closestInv]. split; [reflexivity |].
    exists seen, inst, []. split; [reflexivity |]. split; [exact Hd |].
    split; [| constructor].
    eapply Forall_impl; [| exact Hinv]. cbv beta. intros j Hj. now rewrite Hj.
Qed.

Lemma closest_fold (rest : list LyraInstrument) :
  forall seen st,
    closestInv targetTime seen st ->
    closestInv targetTime (seen ++ rest) (fold_left (closestStep targetTime) rest st).
Proof.
  induction rest as [| inst rest IH]; intros seen st Hinv; cbn [fold_left].
  - now rewrite app_nil_r.
  - replace (seen ++ inst :: rest)%list with ((seen ++ [inst]) ++ rest)%list
      by (rewrite <- app_assoc; reflexivity).
    apply IH. now apply closestStep_inv.
Qed.

(** X15.  [findClosestExpiry] returns [null] exactly when no listed
    instrument carries an expiry (none at all, or 0).  Otherwise it returns
    the expiry of a listed instrument that is at least as close to the
    target time as every other one, and, of several equally close ones,
    the first listed. *)
Theorem findClosestExpiry_spec (instruments : list LyraInstrument) :
  match findClosestExpiry instruments targetTime with
  | None => Forall (fun i => datedExpiry i = None) instruments
  | Some e =>
      exists l1 i l2,
        instruments = (l1 ++ i :: l2)%list /\ datedExpiry i = Some e
        /\ Forall (fun j => match datedExpiry j with
                            | Some e' =>
                                expiryDistance targetTime e
                                < expiryDistance targetTime e'
                            | None => True
                            end) l1
        /\ Forall (fun j => match datedExpiry j with
                            | Some e' =>
                                expiryDistance targetTime e
                                <= expiryDistance targetTime e'
                            | None => True
                            end) l2
  end.
Proof.
  unfold findClosestExpiry.
  pose proof (closest_fold instruments [] (None, None)) as H.
  cbn [app] in H.
  assert (H0 : closestInv targetTime [] (None, None)) by constructor.
  specialize (H H0).
  destruct (fold_left (closestStep targetTime) instruments (None, None))
    as [[e |] [m |]]; cbn [closestInv fst] in *; try contradiction.
  - destruct H as [_ H]. exact H.
  - exact H.
Qed.

End Closest.


(** *** Resolving requested strikes *)

Section ResolveFacts.

Variable parseFloat : string -> Q.
Variable targetTime : Q.
Variable strikes : list Q.
Variable optionTypes : list OptionType.

Let good := resolves parseFloat targetTime strikes optionTypes.

Lemma Map_set_twice {V : Type} (m : list (string * V)) (k : string) (v : V) :
  Map_set (Map_set m k v) k v = Map_set m k v.
Proof.
  induction m as [| [k0 v0] rest IH]; cbn [Map_set].
  - now rewrite String.eqb_refl.
  - destruct (String.eqb k0 k) eqn:E; cbn [Map_set]; rewrite E;
      [reflexivity | now rewrite IH].
Qed.

Lemma matchStrikes_any (inst : LyraInstrument) (strikeNum : Q)
    (option_type : OptionType) (ks : list Q) :
  forall (os : list OptionType) (matched : list (string * LyraInstrument)),
    matchStrikes inst strikeNum option_type ks os matched
    = if anyRequest strikeNum option_type ks os
      then Map_set matched (ci_instrument_name inst) inst else matched.
Proof.
  induction ks as [| k ks IH]; intros os matched; [reflexivity |].
  cbn [matchStrikes anyRequest]. rewrite IH.
  destruct (num_lt (Qabs (strikeNum - k)) (k * (1 # 100))
            && match os with
               | o :: _ => LyraTools.OptionType_eqb option_type o
               | [] => false
               end); cbn [orb]; [| reflexivity].
  destruct (anyRequest strikeNum option_type ks (tl os)); [| reflexivity].
  apply Map_set_twice.
Qed.

Lemma resolveStep_good (matched : list (string * LyraInstrument))
    (inst : LyraInstrument) :
  resolveStep parseFloat targetTime strikes optionTypes matched inst
  = if good inst then Map_set matched (ci_instrument_name inst) inst
    else matched.
Proof.
  unfold resolveStep, good, resolves, expiryDistance.
  destruct (ci_option_details inst) as [d |]; [| reflexivity].
  unfold num_gt, num_lt, num_le.
  destruct (Qle_bool (Qabs (cd_expiry d * 1000 - targetTime))
                     (24 * 60 * 60 * 1000)); cbn [negb andb];
    [apply matchStrikes_any | reflexivity].
Qed.

Lemma anyRequest_iff (strikeNum : Q) (o : OptionType) (ks : list Q) :
  forall os,
    anyRequest strikeNum o ks os = true
    <-> exists i k,
          nth_error ks i = Some k /\ nth_error os i = Some o
          /\ Qabs (strikeNum - k) < k * (1 # 100).
Proof.
  induction ks as [| k ks IH]; intros os; cbn [anyRequest].
  - split; [discriminate | intros [[| i] [k [H _]]]; discriminate].
  - rewrite orb_true_iff, andb_true_iff, IH, num_lt_iff. split.
    + intros [[Hk Ho] | [i [k' [H1 [H2 H3]]]]].
      * destruct os as [| o' os']; [discriminate |].
        exists 0%nat, k. repeat split; auto. cbn [nth_error].
        destruct o, o'; try reflexivity; discriminate.
      * exists (S i), k'. repeat split; auto.
        destruct os; [destruct i; discriminate | exact H2].
    + intros [[| i] [k' [H1 [H2 H3]]]]; cbn [nth_error] in *.
      * inversion H1; subst k'. left. split; [exact H3 |].
        destruct os as [| o' os']; [discriminate |]. inversion H2; subst o'.
        destruct o; reflexivity.
      * right. exists i, k'. repeat split; auto.
        destruct os; [discriminate | exact H2].
Qed.

Lemma find_append {A : Type} (f : A -> bool) (l1 l2 : list A) :
  find f (l1 ++ l2)
  = match find f l1 with Some x => Some x | None => find f l2 end.
Proof.
  induction l1 as [| x l1 IH]; cbn [app find]; [reflexivity |].
  destruct (f x); [reflexivity | exact IH].
Qed.

Lemma resolve_fold (rest : list LyraInstrument) :
  forall (matched : list (string * LyraInstrument)) (name : string),
    Map_get (fold_left (resolveStep parseFloat targetTime strikes optionTypes)
                       rest matched) name
    = match find (fun i => good i && String.eqb (ci_instrument_name i) name)
                 (rev rest) with
      | Some i => Some i
      | None => Map_get matched name
      end.
Proof.
  induction rest as [| inst rest IH]; intros matched name; [reflexivity |].
  cbn [fold_left rev]. rewrite IH, resolveStep_good, find_append.
  destruct (find _ (rev rest)) as [i |]; [reflexivity |].
  cbn [find]. destruct (good inst); cbn [andb]; [| reflexivity].
  rewrite Map_get_set. destruct (String.eqb (ci_instrument_name inst) name);
    reflexivity.
Qed.

(** X16.  [resolveInstruments]: every entry of the map it returns is a listed
    option, stored under its own name, that expires within one day of the
    target time and, for some index [i], has the option type
    [optionTypes[i]] and a strike within 1% of [strikes[i]]; and every
    listed option of that kind has an entry under its name. *)
Theorem resolveInstruments_spec (allInstruments : list LyraInstrument) :
  let matched :=
    resolveInstruments parseFloat allInstruments targetTime strikes optionTypes in
  (forall name inst,
     Map_get matched name = Some inst ->
     In inst allInstruments /\ ci_instrument_name inst = name
     /\ exists d,
          ci_option_details inst = Some d
          /\ expiryDistance targetTime (cd_expiry d) <= 24 * 60 * 60 * 1000
          /\ exists i k,
               nth_error strikes i = Some k
               /\ nth_error optionTypes i = Some (cd_option_type d)
               /\ Qabs (parseFloat (cd_strike d) - k) < k * (1 # 100))
  /\ (forall inst d i k,
        In inst allInstruments -> ci_option_details inst = Some d ->
        expiryDistance targetTime (cd_expiry d) <= 24 * 60 * 60 * 1000 ->
        nth_error strikes i = Some k ->
        nth_error optionTypes i = Some (cd_option_type d) ->
        Qabs (parseFloat (cd_strike d) - k) < k * (1 # 100) ->
        Map_has matched (ci_instrument_name inst) = true).
Proof.
  intros matched. subst matched. unfold resolveInstruments, Map_has. split.
  - intros name inst H. rewrite resolve_fold in H. cbn [Map_get] in H.
    destruct (find _ (rev allInstruments)) as [i |] eqn:Ef; [| discriminate].
    inversion H; subst i. apply find_some in Ef. destruct Ef as [Hin Hg].
    apply in_rev in Hin. apply andb_true_iff in Hg. destruct Hg as [Hg Hn].
    apply String.eqb_eq in Hn. split; [exact Hin |]. split; [exact Hn |].
    unfold good, resolves in Hg.
    destruct (ci_option_details inst) as [d |]; [| discriminate].
    apply andb_true_iff in Hg. destruct Hg as [Hd Hr].
    apply num_le_iff in Hd. apply anyRequest_iff in Hr.
    exists d. auto.
  - intros inst d i k Hin Hd Hdist Hk Ho Hclose. rewrite resolve_fold.
    destruct (find _ (rev allInstruments)) as [j |] eqn:Ef; [reflexivity |].
    exfalso. pose proof (find_none _ _ Ef inst) as Hnone. cbv beta in Hnone.
    rewrite String.eqb_refl, andb_true_r in Hnone.
    assert (Hg : good inst = true).
    { unfold good, resolves. rewrite Hd.
      apply andb_true_iff. split; [now apply num_le_iff |].
      apply anyRequest_iff. exists i, k. auto. }
    rewrite Hg in Hnone. apply in_rev in Hin. specialize (Hnone Hin).
    discriminate.
Qed.

End ResolveFacts.

(** *** Tickers of several instruments *)

Lemma tickers_fold (getTicker : string -> Agent.Outcome LyraTicker)
    (names : list string) :
  forall (acc : list (string * LyraTicker)) (name : string),
    Map_get (fold_left (fun tickers n =>
                          match getTicker n with
                          | Agent.Returned value => Map_set tickers n value
                          | Agent.Thrown _ => tickers
                          end) names acc) name
    = if existsb (String.eqb name) names
      then match getTicker name with
           | Agent.Returned value => Some value
           | Agent.Thrown _ => Map_get acc name
           end
      else Map_get acc name.
Proof.
  induction names as [| n rest IH]; intros acc name; [reflexivity |].
  cbn [fold_left existsb]. rewrite IH.
  assert (Hacc : Map_get match getTicker n with
                         | Agent.Returned value => Map_set acc n value
                         | Agent.Thrown _ => acc
                         end name
                 = if String.eqb name n
                   then match getTicker name with
                        | Agent.Returned value => Some value
                        | Agent.Thrown _ => Map_get acc name
                        end
                   else Map_get acc name).
  { destruct (String.eqb name n) eqn:En.
    - apply String.eqb_eq in En. subst n.
      destruct (getTicker name); [| reflexivity].
      now rewrite Map_get_set, String.eqb_refl.
    - destruct (getTicker n); [| reflexivity].
      now rewrite Map_get_set, (String.eqb_sym n name), En. }
  rewrite Hacc.
  destruct (String.eqb name n), (existsb (String.eqb name) rest),
    (getTicker name); reflexivity.
Qed.

End ClientFacts.

(** ** The debug log *)

Module DebugLogFacts.

Import DebugLog.

Lemma trim_firstn (x : LogEntry) (l : list LogEntry) :
  (if (maxLogs <? List.length (x :: l))%nat then firstn maxLogs (x :: l)
   else x :: l)
  = firstn maxLogs (x :: l).
Proof.
  destruct (maxLogs <? List.length (x :: l))%nat eqn:E; [reflexivity |].
  apply Nat.ltb_ge in E. symmetry. now apply firstn_all2.
Qed.

Lemma logs_perform (st : DebugLogger) (c : Call) (acc : list LogEntry) :
  logs st = firstn maxLogs (rev acc) ->
  logs (perform st c) = firstn maxLogs (rev (logged acc c)).
Proof.
  intros H. destruct c as [gid now entry | | l | l];
    cbn [perform log fst snd logged clear subscribe unsubscribe notifyListeners
         logs initialLogger]; try exact H; [| reflexivity].
  rewrite trim_firstn, H, rev_app_distr. cbn [rev app].
  change maxLogs with (S 99). rewrite !firstn_cons, firstn_firstn.
  reflexivity.
Qed.

Lemma logs_history_from (calls : list Call) :
  forall st acc,
    logs st = firstn maxLogs (rev acc) ->
    logs (fold_left perform calls st)
    = firstn maxLogs (rev (fold_left logged calls acc)).
Proof.
  induction calls as [| c rest IH]; intros st acc H; [exact H |].
  cbn [fold_left]. apply IH. now apply logs_perform.
Qed.

(** X17.  After any sequence of calls the debug log holds the last 100
    entries logged since the last [clear], newest first: never more than
    100, the entry just logged at the head, and nothing right after
    [clear]. *)
Theorem debug_log_keeps_latest (calls : list Call) :
  getLogs (history calls) = firstn 100 (rev (loggedSinceClear calls))
  /\ (List.length (getLogs (history calls)) <= 100)%nat
  /\ (forall generatedId now entry,
        hd_error (getLogs (history (calls ++ [CallLog generatedId now entry])))
        = Some (snd (log generatedId now entry (history calls))))
  /\ getLogs (history (calls ++ [CallClear])) = [].
Proof.
  assert (H : getLogs (history calls)
              = firstn 100 (rev (loggedSinceClear calls)))
    by (apply (logs_history_from calls initialLogger []); reflexivity).
  split; [exact H |]. split; [rewrite H; apply firstn_le_length |]. split.
  - intros gid now entry. unfold history. rewrite fold_left_app.
    cbn [fold_left perform log fst snd notifyListeners logs getLogs].
    rewrite trim_firstn. reflexivity.
  - unfold history. rewrite fold_left_app. reflexivity.
Qed.


(** *** Listeners *)

Lemma listeners_NoDup_perform (st : DebugLogger) (c : Call) :
  NoDup (listeners st) -> NoDup (listeners (perform st c)).
Proof.
  intros H. destruct c as [gid now entry | | l | l];
    cbn [perform log fst clear subscribe unsubscribe notifyListeners listeners];
    try exact H.
  - unfold Set_has. destruct (existsb (Nat.eqb l) (listeners st)) eqn:E; [exact H |].
    apply NoDup_app; [exact H | constructor; [intros [] | constructor] |].
    intros x Hx [<- | []].
    assert (Ht : existsb (Nat.eqb l) (listeners st) = true)
      by (apply existsb_exists; exists l; split; [exact Hx | apply Nat.eqb_refl]).
    congruence.
  - now apply NoDup_filter.
Qed.

Lemma listeners_NoDup (calls : list Call) : NoDup (listeners (history calls)).
Proof.
  unfold history.
  assert (G : forall st, NoDup (listeners st) ->
                         NoDup (listeners (fold_left perform calls st))).
  { induction calls as [| c rest IH]; intros st H; [exact H |].
    cbn [fold_left]. apply IH. now apply listeners_NoDup_perform. }
  apply G. constructor.
Qed.

(** The notifications of one round that go to [listener]. *)
Lemma round_to (listener : nat) (ls : list nat) (current : list LogEntry) :
  NoDup ls ->
  map snd (filter (fun n => Nat.eqb (fst n) listener)
                  (map (fun l => (l, current)) ls))
  = if Set_has ls listener then [current] else [].
Proof.
  unfold Set_has. induction 1 as [| l rest Hnin _ IH]; [reflexivity |].
  cbn [map filter fst existsb]. rewrite (Nat.eqb_sym listener l).
  destruct (Nat.eqb l listener) eqn:E; cbn [orb map snd].
  - apply Nat.eqb_eq in E. subst l. rewrite IH.
    destruct (existsb (Nat.eqb listener) rest) eqn:Ex; [| reflexivity].
    exfalso. apply existsb_exists in Ex. destruct Ex as [x [Hx Hxe]].
    apply Nat.eqb_eq in Hxe. subst x. contradiction.
  - exact IH.
Qed.

Lemma callsTo_app (listener : nat) (st : DebugLogger)
    (more : list (nat * list LogEntry)) :
  callsTo listener {| logs := logs st; listeners := listeners st;
                      notified := (notified st ++ more)%list |}
  = (callsTo listener st
       ++ map snd (filter (fun n => Nat.eqb (fst n) listener) more))%list.
Proof. unfold callsTo. cbn [notified]. now rewrite filter_app, map_app. Qed.

Lemma callsTo_perform (listener : nat) (st : DebugLogger) (c : Call) :
  NoDup (listeners st) ->
  callsTo listener (perform st c)
  = (callsTo listener st
       ++ match c with
          | CallLog _ _ _ | CallClear =>
              if Set_has (listeners st) listener
              then [getLogs (perform st c)] else []
          | CallSubscribe l =>
              if Nat.eqb l listener then [getLogs st] else []
          | CallUnsubscribe _ => []
          end)%list.
Proof.
  intros Hnd. unfold callsTo.
  destruct c as [gid now entry | | l | l];
    cbn [perform log fst clear subscribe unsubscribe notifyListeners notified
         logs listeners getLogs].
  - rewrite filter_app, map_app, round_to by exact Hnd. reflexivity.
  - rewrite filter_app, map_app, round_to by exact Hnd. reflexivity.
  - rewrite filter_app, map_app. cbn [filter fst].
    destruct (Nat.eqb l listener); reflexivity.
  - now rewrite app_nil_r.
Qed.

Lemma unsubscribed_stays (listener : nat) (more : list Call) :
  forallb (fun c => negb (subscribes listener c)) more = true ->
  forall st,
    NoDup (listeners st) -> Set_has (listeners st) listener = false ->
    callsTo listener (fold_left perform more st) = callsTo listener st.
Proof.
  induction more as [| c rest IH]; intros Hno st Hnd Hout; [reflexivity |].
  cbn [forallb fold_left] in *. apply andb_true_iff in Hno.
  destruct Hno as [Hc Hrest]. apply negb_true_iff in Hc.
  rewrite IH; [| exact Hrest | now apply listeners_NoDup_perform |].
  - rewrite callsTo_perform by exact Hnd. rewrite Hout.
    destruct c as [gid now entry | | l | l]; cbn [subscribes] in Hc;
      rewrite ?Hc; now rewrite app_nil_r.
  - destruct c as [gid now entry | | l | l];
      cbn [perform log fst clear subscribe unsubscribe notifyListeners listeners
           subscribes] in *; try exact Hout.
    + destruct (Set_has (listeners st) l); [exact Hout |].
      unfold Set_has in *. rewrite existsb_app, Hout.
      cbn [existsb]. rewrite (Nat.eqb_sym listener l), Hc. reflexivity.
    + unfold Set_has in *. apply not_true_is_false. intros Ht.
      apply existsb_exists in Ht. destruct Ht as [x [Hx Hxe]].
      apply filter_In in Hx. destruct Hx as [Hx _].
      assert (Hin : existsb (Nat.eqb listener) (listeners st) = true)
        by (apply existsb_exists; eauto).
      congruence.
Qed.

(** X18.  Listeners of the debug log.  [subscribe] calls the listener at
    once with the current logs.  A call that changes the logs ([log] or
    [clear]) calls a listener exactly when it is subscribed, once, with the
    logs after the change.  After [unsubscribe] the listener is not called
    again until it subscribes anew. *)
Theorem debug_log_listeners (calls : list Call) (listener : nat) :
  callsTo listener (history (calls ++ [CallSubscribe listener]))
  = (callsTo listener (history calls) ++ [getLogs (history calls)])%list
  /\ (forall c, changesLogs c = true ->
        callsTo listener (history (calls ++ [c]))
        = (callsTo listener (history calls)
             ++ if Set_has (listeners (history calls)) listener
                then [getLogs (history (calls ++ [c]))] else [])%list)
  /\ (forall more,
        forallb (fun c => negb (subscribes listener c)) more = true ->
        callsTo listener (history (calls ++ CallUnsubscribe listener :: more))
        = callsTo listener (history calls)).
Proof.
  pose proof (listeners_NoDup calls) as Hnd.
  split; [| split].
  - unfold history. rewrite fold_left_app. cbn [fold_left].
    rewrite callsTo_perform by exact Hnd. now rewrite Nat.eqb_refl.
  - intros c Hc. unfold history. rewrite fold_left_app. cbn [fold_left].
    rewrite callsTo_perform by exact Hnd.
    destruct c; try discriminate; reflexivity.
  - intros more Hno. unfold history. rewrite fold_left_app. cbn [fold_left].
    rewrite (unsubscribed_stays listener more Hno).
    + rewrite callsTo_perform by exact Hnd. now rewrite app_nil_r.
    + now apply listeners_NoDup_perform.
    + cbn [perform unsubscribe listeners]. unfold Set_has.
      apply not_true_is_false. intros Ht.
      apply existsb_exists in Ht. destruct Ht as [x [Hx Hxe]].
      apply filter_In in Hx. destruct Hx as [_ Hx].
      apply Nat.eqb_eq in Hxe. subst x. rewrite Nat.eqb_refl in Hx. discriminate.
Qed.

End DebugLogFacts.

(** ** The schema and the rounds of the loop *)

Module ConversationFacts.

Import Agent AgentFacts.

(** *** The schema accepts exactly the valid TradeSpecs *)

Section SchemaRoundTrip.

Variable invalidType : string -> option json -> string.

Lemma nonempty_length (s : string) : s <> "" -> (1 <=? String.length s)%nat = true.
Proof. destruct s; [congruence | reflexivity]. Qed.

Lemma LegSchema_LegJson (path : list string) (l : Leg) :
  LegValid l -> LegSchema invalidType path (Some (LegJson l)) = inr l.
Proof.
  intros [Hn Ha]. destruct l as [name sd amt]. cbn [instrument_name amount] in *.
  unfold LegSchema, LegJson. cbn [instrument_name side amount obj_get String.eqb
    Ascii.eqb Bool.eqb zString1 zNumber].
  rewrite (nonempty_length name Hn).
  assert (Hs : zSide invalidType (path ++ ["side"])%list
                 (Some (JStr (sideName sd))) = inr sd)
    by (destruct sd; reflexivity).
  rewrite Hs.
  rewrite (proj2 (num_gt_iff amt 0) Ha). reflexivity.
Qed.

Lemma zLegs_LegJson (path : list string) (ls : list Leg) :
  Forall LegValid ls ->
  forall i, zLegs invalidType path i (map LegJson ls) = inr ls.
Proof.
  induction 1 as [| l rest Hl _ IH]; intros i; [reflexivity |].
  cbn [map zLegs]. rewrite (LegSchema_LegJson _ l Hl), IH. reflexivity.
Qed.

Lemma safeParse_TradeSpecJson (t : TradeSpec) :
  TradeSpecValid t ->
  TradeSpecSchema_safeParse invalidType (TradeSpecJson t) = inr t.
Proof.
  intros [Hu [Hs [He [Hne [Hl [Hc [Hm Hx]]]]]]].
  destruct t as [und str exp lgs mc ml expl].
  cbn [underlying strategy expiry legs max_cost_usd max_loss_usd explanation] in *.
  unfold TradeSpecSchema_safeParse, TradeSpecJson.
  cbn [underlying strategy expiry legs max_cost_usd max_loss_usd explanation
       obj_get String.eqb Ascii.eqb Bool.eqb zString1 zNumber zLegArray].
  rewrite (nonempty_length und Hu), (nonempty_length str Hs),
    (nonempty_length exp He), (nonempty_length expl Hx).
  rewrite length_map.
  assert (Hlen : (1 <=? List.length lgs)%nat = true)
    by (destruct lgs; [congruence | reflexivity]).
  rewrite Hlen, (zLegs_LegJson _ lgs Hl).
  rewrite (proj2 (num_ge_iff mc 0) Hc), (proj2 (num_ge_iff ml 0) Hm).
  reflexivity.
Qed.

(** X19.  [TradeSpecSchema] accepts the JSON form of a TradeSpec exactly when
    the TradeSpec is valid, and returns that TradeSpec; whatever it returns
    for any input is valid, and parsing the JSON form of a result again
    gives the same result. *)
Theorem TradeSpecSchema_accepts_valid (t : TradeSpec) :
  (TradeSpecValid t
   <-> TradeSpecSchema_safeParse invalidType (TradeSpecJson t) = inr t)
  /\ (TradeSpecValid t
      <-> exists parsed, TradeSpecSchema_safeParse invalidType parsed = inr t)
  /\ (forall parsed t',
        TradeSpecSchema_safeParse invalidType parsed = inr t' ->
        TradeSpecSchema_safeParse invalidType (TradeSpecJson t') = inr t').
Proof.
  split; [| split].
  - split; [apply safeParse_TradeSpecJson |].
    intros H. eapply safeParse_valid; exact H.
  - split.
    + intros H. exists (TradeSpecJson t). now apply safeParse_TradeSpecJson.
    + intros [parsed H]. eapply safeParse_valid; exact H.
  - intros parsed t' H. apply safeParse_TradeSpecJson.
    eapply safeParse_valid; exact H.
Qed.

End SchemaRoundTrip.


(** *** A round of tool calls *)

Section RoundFacts.

Variable create : list MessageParam -> Outcome Response.
Variable executeLyraTool : string -> json -> Outcome json.
Variable JSON_stringify_pretty : json -> string.
Variable JSON_stringify : json -> string.
Variable JSON_parse : string -> option json.
Variable invalidType : string -> option json -> string.

Let answer := toolResultFor executeLyraTool JSON_stringify_pretty JSON_stringify.
Let body :=
  iteration create executeLyraTool JSON_stringify_pretty JSON_stringify
            JSON_parse invalidType.

Lemma executeTools_spec (toolUseBlocks : list ToolUseBlock) :
  forall processed toolResults,
    executeTools executeLyraTool JSON_stringify_pretty JSON_stringify
                 toolUseBlocks processed toolResults
    = (fold_left Set_add (map tu_id toolUseBlocks) processed,
       (toolResults ++ map answer toolUseBlocks)%list).
Proof.
  induction toolUseBlocks as [| b rest IH]; intros processed toolResults;
    cbn [executeTools map fold_left].
  - now rewrite app_nil_r.
  - rewrite IH, <- app_assoc. reflexivity.
Qed.

Lemma Set_has_add (ids : list string) (x id : string) :
  Set_has (Set_add ids x) id = Set_has ids id || String.eqb id x.
Proof.
  unfold Set_add. destruct (Set_has ids x) eqn:E.
  - destruct (String.eqb id x) eqn:Ei; [| now rewrite orb_false_r].
    apply String.eqb_eq in Ei. subst x. now rewrite E.
  - unfold Set_has. rewrite existsb_app. cbn [existsb]. now rewrite orb_false_r.
Qed.

Lemma Set_has_fold (xs : list string) :
  forall ids id,
    Set_has (fold_left Set_add xs ids) id
    = Set_has ids id || existsb (String.eqb id) xs.
Proof.
  induction xs as [| x rest IH]; intros ids id; cbn [fold_left existsb].
  - now rewrite orb_false_r.
  - rewrite IH, Set_has_add, orb_assoc. reflexivity.
Qed.

(** X20.  A round of the loop in which the model asks for tools.  If the
    response holds tool calls whose ids were not answered before, the loop
    goes on: the conversation grows by the assistant's response and by one
    user message with one result per new call, in order and under the id of
    its call; [toolCallCount] grows by the number of new calls; the ids of
    the new calls, and only they, join the set of processed ids, so that
    the same response holds no new call afterwards.  A tool that throws is
    answered with the error as content and [is_error] set.  A call whose id
    was processed before is not executed again. *)
Theorem tool_round (s : LoopState) (response : Response) :
  create (messages s) = Returned response ->
  let fresh := freshToolUses (toolIdsProcessed s) (content response) in
  (fresh <> [] ->
   exists s',
     body s = Continue s'
     /\ messages s'
        = (messages s
             ++ [ {| role := assistant; msg_content := Blocks (content response) |};
                  {| role := user;
                     msg_content := ToolResults (map answer fresh) |} ])%list
     /\ toolCallCount s' = (toolCallCount s + List.length fresh)%nat
     /\ (forall id, Set_has (toolIdsProcessed s') id
                    = Set_has (toolIdsProcessed s) id
                      || existsb (String.eqb id) (map tu_id fresh))
     /\ freshToolUses (toolIdsProcessed s') (content response) = [])
  /\ map tool_use_id (map answer fresh) = map tu_id fresh
  /\ (forall b e,
        executeLyraTool (tu_name b) (tu_input b) = Thrown e ->
        answer b = {| tool_use_id := tu_id b;
                      tr_content := JSON_stringify (JObj [ ("error", JStr e) ]);
                      is_error := true |})
  /\ (forall b, In b fresh -> Set_has (toolIdsProcessed s) (tu_id b) = false).
Proof.
  intros Hc fresh. split; [| split; [| split]].
  - intros Hne. unfold body, iteration. rewrite Hc, collectBlocks_spec.
    cbn [app]. fold fresh.
    assert (Hlen : (0 <? List.length fresh)%nat = true)
      by (destruct fresh; [congruence | reflexivity]).
    rewrite Hlen, executeTools_spec. cbn [app]. fold answer.
    eexists. split; [reflexivity |].
    cbn [messages toolCallCount toolIdsProcessed].
    split; [reflexivity |]. split; [reflexivity |]. split.
    + intros id. apply Set_has_fold.
    + unfold freshToolUses.
      assert (Hall : forall b, In b (toolUses (content response)) ->
                negb (Set_has (fold_left Set_add (map tu_id fresh)
                                 (toolIdsProcessed s)) (tu_id b)) = false).
      { intros b Hb. apply negb_false_iff. rewrite Set_has_fold.
        destruct (Set_has (toolIdsProcessed s) (tu_id b)) eqn:E; [reflexivity |].
        cbn [orb]. apply existsb_exists. exists (tu_id b).
        split; [| apply String.eqb_refl].
        apply in_map. unfold fresh, freshToolUses. apply filter_In.
        split; [exact Hb | now rewrite E]. }
      induction (toolUses (content response)) as [| b rest IH]; [reflexivity |].
      cbn [filter]. rewrite (Hall b (or_introl eq_refl)).
      apply IH. intros b' Hb'. apply Hall. now right.
  - rewrite map_map. apply map_ext. intros b. unfold answer, toolResultFor.
    destruct (executeLyraTool (tu_name b) (tu_input b)); reflexivity.
  - intros b e He. unfold answer, toolResultFor. rewrite He. reflexivity.
  - intros b Hb. unfold fresh, freshToolUses in Hb. apply filter_In in Hb.
    destruct Hb as [_ Hb]. now apply negb_true_iff in Hb.
Qed.

End RoundFacts.

(** The first round of the scripted model: one call of a tool, answered. *)
Lemma tool_round_witness :
  let s := initialState "buy a call" in
  let response :=
    {| content := [Examples.toolCall "t1" "lyra_get_index_price"];
       stop_reason := Some "tool_use" |} in
  let answer :=
    toolResultFor Examples.scriptedTools (fun _ => "[]") (fun _ => "{}") in
  let fresh := freshToolUses (toolIdsProcessed s) (content response) in
  (fresh <> [] ->
   exists s',
     iteration Examples.scriptedModel Examples.scriptedTools (fun _ => "[]")
       (fun _ => "{}") Examples.scriptedParse (fun _ _ => "Invalid input") s
     = Continue s'
     /\ messages s'
        = (messages s
             ++ [ {| role := assistant; msg_content := Blocks (content response) |};
                  {| role := user;
                     msg_content := ToolResults (map answer fresh) |} ])%list
     /\ toolCallCount s' = (toolCallCount s + List.length fresh)%nat
     /\ (forall id, Set_has (toolIdsProcessed s') id
                    = Set_has (toolIdsProcessed s) id
                      || existsb (String.eqb id) (map tu_id fresh))
     /\ freshToolUses (toolIdsProcessed s') (content response) = [])
  /\ map tool_use_id (map answer fresh) = map tu_id fresh
  /\ (forall b e,
        Examples.scriptedTools (tu_name b) (tu_input b) = Thrown e ->
        answer b = {| tool_use_id := tu_id b;
                      tr_content := "{}";
                      is_error := true |})
  /\ (forall b, In b fresh -> Set_has (toolIdsProcessed s) (tu_id b) = false).
Proof.
  intros s response answer fresh.
  apply (tool_round Examples.scriptedModel Examples.scriptedTools
           (fun _ => "[]") (fun _ => "{}") Examples.scriptedParse
           (fun _ _ => "Invalid input") s response).
  reflexivity.
Defined.

End ConversationFacts.

(** ** The single-call parser *)

Module ClaudeParserFacts.

Import Agent ClaudeParser AgentFacts.

Section ParserFacts.

Variable create : string -> string -> Outcome Response.
Variable getSystemPrompt : string -> list AvailableInstrument -> Q -> string.
Variable JSON_parse : string -> option json.
Variable invalidType : string -> option json -> string.

Let parse := parseIntent create getSystemPrompt JSON_parse invalidType.

(** X21.  [ClaudeParser.parseIntent] returns a TradeSpec exactly when the
    model answers, the candidate taken from its first text block is read
    by [JSON.parse], and the value passes [TradeSpecSchema]; the TradeSpec
    it returns is then valid.  The candidate is taken from the text without
    the white space at its two ends: the inside of its first fenced code
    block (without a leading [json] and without the white space at its two
    ends) if there is one, else the whole of it.  An error of the model is
    passed on; a response without a text block fails with [No text
    response from Claude]; a text that is not JSON fails with a message
    that quotes its first 200 code units. *)
Theorem claude_parseIntent_outcomes (intent underlying : string)
    (availableInstruments : list AvailableInstrument) (indexPrice : Q) :
  let call := create (getSystemPrompt underlying availableInstruments indexPrice)
                     (userPrompt intent) in
  let result := parse intent underlying availableInstruments indexPrice in
  (forall spec,
     result = Returned spec
     <-> exists response t parsed,
           call = Returned response
           /\ firstText (content response) = Some t
           /\ JSON_parse (jsonString (trim t)) = Some parsed
           /\ TradeSpecSchema_safeParse invalidType parsed = inr spec)
  /\ (forall spec, result = Returned spec -> TradeSpecValid spec)
  /\ (forall e, call = Thrown e -> result = Thrown e)
  /\ (forall response,
        call = Returned response -> firstText (content response) = None ->
        result = Thrown "No text response from Claude")
  /\ (forall response t,
        call = Returned response -> firstText (content response) = Some t ->
        JSON_parse (jsonString (trim t)) = None ->
        result = Thrown ("Failed to parse Claude response as JSON: "
                           ++ firstUnits 200 (trim t)))
  /\ (forall t,
        Trimmed (trim t) t
        /\ (forall inside,
              FencedBlock (trim t) inside ->
              jsonString (trim t) = trim (afterJson inside))
        /\ ((forall inside, ~ FencedBlock (trim t) inside) ->
            jsonString (trim t) = trim t)).
Proof.
  intros call result.
  assert (Hret : forall spec,
            result = Returned spec
            <-> exists response t parsed,
                  call = Returned response
                  /\ firstText (content response) = Some t
                  /\ JSON_parse (jsonString (trim t)) = Some parsed
                  /\ TradeSpecSchema_safeParse invalidType parsed = inr spec).
  { intros spec. subst result call. unfold parse, parseIntent.
    destruct (create _ _) as [response | e] eqn:Ec.
    - destruct (firstText (content response)) as [t |] eqn:Et.
      + cbv zeta.
        destruct (JSON_parse (jsonString (trim t))) as [parsed |] eqn:Ep.
        * destruct (TradeSpecSchema_safeParse invalidType parsed)
            as [issues | data] eqn:Es.
          -- split; [discriminate |].
             intros [r [t' [p [Hr [Ht [Hp Hs]]]]]].
             inversion Hr; subst r. rewrite Et in Ht. inversion Ht; subst t'.
             rewrite Ep in Hp. inversion Hp; subst p. congruence.
          -- split.
             ++ intros H. inversion H; subst data.
                exists response, t, parsed. auto.
             ++ intros [r [t' [p [Hr [Ht [Hp Hs]]]]]].
                inversion Hr; subst r. rewrite Et in Ht. inversion Ht; subst t'.
                rewrite Ep in Hp. inversion Hp; subst p. congruence.
        * split; [discriminate |].
          intros [r [t' [p [Hr [Ht [Hp _]]]]]].
          inversion Hr; subst r. rewrite Et in Ht. inversion Ht; subst t'.
          congruence.
      + split; [discriminate |].
        intros [r [t' [p [Hr [Ht _]]]]]. inversion Hr; subst r. congruence.
    - split; [discriminate |]. intros [r [t' [p [Hr _]]]]. discriminate. }
  split; [exact Hret |]. split; [| split; [| split; [| split]]].
  - intros spec H. apply Hret in H. destruct H as [_ [_ [parsed [_ [_ [_ Hs]]]]]].
    eapply safeParse_valid; exact Hs.
  - intros e He. subst result. unfold parse, parseIntent. fold call.
    rewrite He. reflexivity.
  - intros response Hr Hn. subst result. unfold parse, parseIntent. fold call.
    rewrite Hr, Hn. reflexivity.
  - intros response t Hr Ht Hp. subst result. unfold parse, parseIntent.
    fold call. rewrite Hr, Ht. cbv zeta. rewrite Hp. reflexivity.
  - intros t. split; [apply TextFacts.trim_Trimmed |]. unfold jsonString. split.
    + intros inside Hb. now rewrite (TextFacts.fencedMatch_block _ inside Hb).
    + intros Hn. now rewrite (TextFacts.fencedMatch_none _ Hn).
Qed.

End ParserFacts.

End ClaudeParserFacts.

(** ** The routes *)

Module RouteFacts.

Import Safety Agent LyraClient Routes AgentFacts ConversationFacts ClientFacts.

(** *** Limit prices *)

Lemma Math_ceil_bounds (x : Q) : x <= Math_ceil x /\ Math_ceil x < x + 1.
Proof.
  unfold Math_ceil. split; [apply Qle_ceiling |].
  pose proof (Qceiling_lt x) as H.
  unfold Z.sub in H. rewrite inject_Z_plus, inject_Z_opp in H.
  change (inject_Z 1) with 1 in H. lra.
Qed.

Lemma Math_floor_bounds (x : Q) : x - 1 < Math_floor x /\ Math_floor x <= x.
Proof.
  unfold Math_floor. split; [| apply Qfloor_le].
  pose proof (Qlt_floor x) as H.
  rewrite inject_Z_plus in H. change (inject_Z 1) with 1 in H. lra.
Qed.

Lemma positive_or_some (p : option Q) (d v : Q) :
  p = Some v -> 0 < v -> positive_or p d = v.
Proof.
  intros -> Hv. unfold positive_or.
  assert (E0 : Qeq_bool v 0 = false).
  { destruct (Qeq_bool v 0) eqn:E; [| reflexivity].
    apply Qeq_bool_iff in E. lra. }
  rewrite E0, (proj2 (num_gt_iff v 0) Hv). reflexivity.
Qed.

(** *** The execute route *)

Section ExecuteFacts.

Variable parseFloat : string -> Q.
Variable toFixed : Q -> nat -> string.
Variable numToString : Q -> string.
Variable env : ProcessEnv.
Variable getTicker : string -> Outcome LyraTicker.
Variable submitOrder : string -> Side -> string -> string -> Outcome OrderResponse.
Variable invalidType : string -> option json -> string.

Let config := getSafetyConfig parseFloat env.
Let run := execute parseFloat toFixed numToString env getTicker submitOrder.
Let handle :=
  executePOST parseFloat toFixed numToString env getTicker submitOrder invalidType.


Lemma priceLeg_spread (st : PricingState) (leg : Leg) (ticker : LyraTicker) :
  maxSpread (priceLeg parseFloat st leg ticker)
  = match spreadOf (pricesOf parseFloat ticker) with
    | Some spread =>
        Some match maxSpread st with
             | Some m => Payoff.Math_max2 m spread
             | None => spread
             end
    | None => maxSpread st
    end.
Proof.
  unfold priceLeg, spreadOf, pricesOf. cbn [maxSpread p_bid p_ask].
  destruct (price_or parseFloat (ct_best_bid_price ticker) Some None) as [b |];
    [| reflexivity].
  destruct (price_or parseFloat (ct_best_ask_price ticker) Some None) as [a |];
    [| reflexivity].
  destruct (num_gt b 0); [| reflexivity].
  destruct (num_gt ((b + a) / 2) 0); reflexivity.
Qed.

Lemma Math_max2_bounds (a b : Q) :
  a <= Payoff.Math_max2 a b /\ b <= Payoff.Math_max2 a b.
Proof. unfold Payoff.Math_max2. case_num_le a b E; lra. Qed.

Lemma priceLeg_inv (seen : list Leg) (st : PricingState) (leg : Leg)
    (ticker : LyraTicker) :
  getTicker (instrument_name leg) = Returned ticker ->
  pricedInv parseFloat getTicker seen st ->
  pricedInv parseFloat getTicker (seen ++ [leg])
            (priceLeg parseFloat st leg ticker).
Proof.
  intros Ht [Hcost Hall]. split.
  - unfold estimatedCost in *. rewrite map_app, EntryCostFacts.Qsum_app.
    cbn [map Payoff.Qsum]. rewrite Ht, <- Hcost.
    unfold priceLeg, legCost, pricesOf. cbn [totalEstimatedCost p_bid p_ask p_mark].
    destruct (side leg); ring.
  - assert (Hm : forall m, maxSpread st = Some m ->
              exists m', maxSpread (priceLeg parseFloat st leg ticker) = Some m'
                         /\ m <= m').
    { intros m Hm. rewrite priceLeg_spread, Hm.
      destruct (spreadOf (pricesOf parseFloat ticker)) as [sp |].
      - eexists. split; [reflexivity |]. apply Math_max2_bounds.
      - exists m. split; [reflexivity | lra]. }
    apply Forall_app. split.
    + eapply Forall_impl; [| exact Hall]. cbv beta.
      intros l [tk [Hl [Hget Hsp]]]. exists tk. split; [exact Hl |]. split.
      * unfold priceLeg. cbn [pricesMap]. rewrite Map_get_set.
        destruct (String.eqb (instrument_name leg) (instrument_name l)) eqn:E;
          [| exact Hget].
        apply String.eqb_eq in E. rewrite E in Ht.
        assert (tk = ticker) by congruence. subst tk. reflexivity.
      * destruct (spreadOf (pricesOf parseFloat tk)) as [sp |]; [| exact I].
        destruct Hsp as [m [Hm0 Hle]]. destruct (Hm m Hm0) as [m' [Hm' Hle']].
        exists m'. split; [exact Hm' | lra].
    + constructor; [| constructor]. exists ticker. split; [exact Ht |]. split.
      * unfold priceLeg. cbn [pricesMap]. rewrite Map_get_set, String.eqb_refl.
        reflexivity.
      * rewrite priceLeg_spread.
        destruct (spreadOf (pricesOf parseFloat ticker)) as [sp |]; [| exact I].
        eexists. split; [reflexivity |].
        destruct (maxSpread st); [apply Math_max2_bounds | lra].
Qed.

Lemma priceLegs_inv (ls : list Leg) :
  forall seen st,
    pricedInv parseFloat getTicker seen st ->
    match priceLegs parseFloat getTicker ls st with
    | inl st' => pricedInv parseFloat getTicker (seen ++ ls) st'
    | inr details =>
        exists pre leg post message,
          ls = (pre ++ leg :: post)%list
          /\ Forall (fun l => exists ticker,
                       getTicker (instrument_name l) = Returned ticker) pre
          /\ getTicker (instrument_name leg) = Thrown message
          /\ details = instrument_name leg ++ ": " ++ message
    end.
Proof.
  induction ls as [| leg rest IH]; intros seen st Hinv; cbn [priceLegs].
  - now rewrite app_nil_r.
  - destruct (getTicker (instrument_name leg)) as [ticker | message] eqn:Ht.
    + specialize (IH (seen ++ [leg])%list (priceLeg parseFloat st leg ticker)
                    (priceLeg_inv seen st leg ticker Ht Hinv)).
      destruct (priceLegs parseFloat getTicker rest _) as [st' | details].
      * now rewrite <- app_assoc in IH.
      * destruct IH as [pre [l [post [m [Hls [Hpre [Hl Hd]]]]]]].
        exists (leg :: pre), l, post, m. split; [now rewrite Hls |].
        split; [constructor; [eauto | exact Hpre] |]. auto.
    + exists [], leg, rest, message. repeat split; auto.
Qed.



(** What the request schema lets through. *)
Lemma ExecuteTradeRequest_ok (b : json) (t : TradeSpec) (c : bool) :
  ExecuteTradeRequestSchema_safeParse invalidType b = inr (t, c) ->
  c = true /\ TradeSpecValid t
  /\ exists fields v,
       b = JObj fields /\ obj_get fields "confirmed" = Some (JBool true)
       /\ obj_get fields "tradeSpec" = Some v
       /\ TradeSpecSchema_safeParse invalidType v = inr t.
Proof.
  unfold ExecuteTradeRequestSchema_safeParse.
  destruct b as [| | | | | fields]; try discriminate.
  destruct (obj_get fields "tradeSpec") as [v |] eqn:Ev.
  - destruct (TradeSpecSchema_safeParse invalidType v) as [issues | t'] eqn:Es;
      cbn [under].
    + destruct (zConfirmed invalidType ["confirmed"] (obj_get fields "confirmed"));
        discriminate.
    + unfold zConfirmed.
      destruct (obj_get fields "confirmed") as [[| [|] | | | |] |] eqn:Ec;
        try discriminate.
      intros H. inversion H; subst t' c.
      split; [reflexivity |]. split; [eapply safeParse_valid; exact Es |].
      exists fields, v. auto.
  - destruct (zConfirmed invalidType ["confirmed"] (obj_get fields "confirmed"));
      discriminate.
Qed.

(** X24.  Validation in the execute route.  A body that cannot be read gives
    500; a body that fails [ExecuteTradeRequestSchema] gives 400
    [Invalid request]; otherwise the trade was confirmed, its TradeSpec is
    valid, and the route goes on to price it.  No response has
    [Trade must be explicitly confirmed] or [Invalid trade specification]
    as its error: the two checks behind them are unreachable, since a
    request that is not confirmed or whose TradeSpec is invalid already
    fails the schema. *)
Theorem executePOST_validation (body : Outcome json) :
  (forall status details,
     handle body <> ExecuteError status "Trade must be explicitly confirmed" details)
  /\ (forall status details,
        handle body <> ExecuteError status "Invalid trade specification" details)
  /\ (forall message,
        body = Thrown message ->
        handle body = ExecuteError 500 "Failed to execute trade" (Some message))
  /\ (forall b,
        body = Returned b ->
        match ExecuteTradeRequestSchema_safeParse invalidType b with
        | inl issues =>
            handle body
            = ExecuteError 400 "Invalid request" (Some (issueMessages issues))
        | inr (t, c) =>
            c = true /\ TradeSpecValid t /\ handle body = run t
        end)
  /\ (forall fields,
        body = Returned (JObj fields) ->
        obj_get fields "confirmed" <> Some (JBool true) ->
        exists details, handle body = ExecuteError 400 "Invalid request" details).
Proof.
  assert (Hrun : forall t status error details,
            run t = ExecuteError status error details ->
            error = "Failed to fetch price for instrument").
  { intros t status error details H. unfold run, execute in H.
    destruct (priceLegs parseFloat getTicker (legs t) _) as [st | d];
      [| now inversion H].
    cbv zeta in H. destruct (negb _ && _); discriminate. }
  assert (Hok : forall b t c,
            ExecuteTradeRequestSchema_safeParse invalidType b = inr (t, c) ->
            handle (Returned b) = run t).
  { intros b t c H. unfold handle, executePOST. rewrite H.
    destruct (ExecuteTradeRequest_ok b t c H) as [-> [Hv _]]. cbn [negb].
    now rewrite (safeParse_TradeSpecJson invalidType t Hv). }
  assert (Hnot : forall error,
            error <> "Failed to fetch price for instrument" ->
            error <> "Invalid request" -> error <> "Failed to execute trade" ->
            forall status details, handle body <> ExecuteError status error details).
  { intros error H1 H2 H3 status details H.
    destruct body as [b | message].
    - destruct (ExecuteTradeRequestSchema_safeParse invalidType b)
        as [issues | [t c]] eqn:Es.
      + unfold handle, executePOST in H. rewrite Es in H. congruence.
      + rewrite (Hok b t c Es) in H. apply Hrun in H. congruence.
    - unfold handle, executePOST in H. congruence. }
  split; [apply Hnot; discriminate |]. split; [apply Hnot; discriminate |].
  split; [intros message ->; reflexivity |]. split.
  - intros b ->.
    destruct (ExecuteTradeRequestSchema_safeParse invalidType b)
      as [issues | [t c]] eqn:Es.
    + unfold handle, executePOST. now rewrite Es.
    + destruct (ExecuteTradeRequest_ok b t c Es) as [Hc [Hv _]].
      split; [exact Hc |]. split; [exact Hv |]. now apply (Hok b t c).
  - intros fields -> Hc.
    destruct (ExecuteTradeRequestSchema_safeParse invalidType (JObj fields))
      as [issues | [t c]] eqn:Es.
    + eexists. unfold handle, executePOST. now rewrite Es.
    + destruct (ExecuteTradeRequest_ok _ t c Es)
        as [_ [_ [fields' [v [Hf [Hcf _]]]]]].
      inversion Hf; subst fields'. contradiction.
Qed.

End ExecuteFacts.


(** *** The parse-intent route *)

Lemma json_null_dec (b : json) : b = JNull \/ b <> JNull.
Proof. destruct b; [now left | | | | |]; right; discriminate. Qed.

Section ParseIntentFacts.

Variable invalidType : string -> option json -> string.
Variable nullPropertyError : string.
Variable parserInstance : bool.
Variable ANTHROPIC_API_KEY : option string.
Variable parseIntent : string -> Outcome TradeSpec.

Let handle :=
  parseIntentPOST invalidType nullPropertyError parserInstance ANTHROPIC_API_KEY
                  parseIntent.
Let validate := ParseIntentRequestSchema_safeParse invalidType.

(** X25.  The parse-intent route answers with a TradeSpec exactly when the
    body is an object whose [intent] is a non-empty string, the parser can
    be built and the agent returns that TradeSpec.  A body that fails the
    schema gives 400 [Invalid request] (a [null] body gives 500: the route
    reads [body.intent] before validating).  Every error response is a 400
    with [Invalid request], a 422 with
    [Agent output failed schema validation] for an error message that
    contains [schema validation failed], or a 500 with
    [Failed to parse intent] for any other; exceeding the iterations is a
    500, and so is a missing API key. *)
Theorem parseIntentPOST_status (body : Outcome json) :
  (forall tradeSpec,
     handle body = ParseIntentOk tradeSpec
     <-> exists b intent,
           body = Returned b /\ validate b = inr intent
           /\ getAgentParser parserInstance ANTHROPIC_API_KEY = Returned tt
           /\ parseIntent intent = Returned tradeSpec)
  /\ (forall b intent,
        validate b = inr intent ->
        intent <> ""
        /\ exists fields,
             b = JObj fields /\ obj_get fields "intent" = Some (JStr intent))
  /\ (forall b issues,
        body = Returned b -> b <> JNull -> validate b = inl issues ->
        handle body = ParseIntentError 400 "Invalid request" (issueMessages issues))
  /\ (body = Returned JNull -> handle body = parseIntentFailure nullPropertyError)
  /\ (forall status error details,
        handle body = ParseIntentError status error details ->
        (status = 400%nat /\ error = "Invalid request")
        \/ (status = 422%nat /\ error = "Agent output failed schema validation"
            /\ includes "schema validation failed" details = true)
        \/ (status = 500%nat /\ error = "Failed to parse intent"
            /\ includes "schema validation failed" details = false))
  /\ (forall issues : string,
        parseIntentFailure ("TradeSpec schema validation failed: " ++ issues)
        = ParseIntentError 422 "Agent output failed schema validation"
            ("TradeSpec schema validation failed: " ++ issues))
  /\ parseIntentFailure exceededMessage
     = ParseIntentError 500 "Failed to parse intent" exceededMessage
  /\ (parserInstance = false -> ANTHROPIC_API_KEY = None ->
      forall fields intent,
        body = Returned (JObj fields) ->
        obj_get fields "intent" = Some (JStr intent) -> intent <> "" ->
        handle body
        = ParseIntentError 500 "Failed to parse intent"
            "ANTHROPIC_API_KEY environment variable is not set").
Proof.
  assert (Hfail : forall message status error details,
            parseIntentFailure message = ParseIntentError status error details ->
            (status = 422%nat /\ error = "Agent output failed schema validation"
             /\ includes "schema validation failed" details = true)
            \/ (status = 500%nat /\ error = "Failed to parse intent"
                /\ includes "schema validation failed" details = false)).
  { intros message status error details. unfold parseIntentFailure.
    destruct (includes "schema validation failed" message) eqn:E; intros H;
      inversion H; subst; auto. }
  assert (Hbody : forall b,
            b <> JNull ->
            handle (Returned b)
            = match validate b with
              | inl issues =>
                  ParseIntentError 400 "Invalid request" (issueMessages issues)
              | inr intent =>
                  match getAgentParser parserInstance ANTHROPIC_API_KEY with
                  | Thrown message => parseIntentFailure message
                  | Returned _ =>
                      match parseIntent intent with
                      | Thrown message => parseIntentFailure message
                      | Returned tradeSpec => ParseIntentOk tradeSpec
                      end
                  end
              end).
  { intros b Hb. destruct b; try reflexivity. congruence. }
  assert (Hnull : handle (Returned JNull) = parseIntentFailure nullPropertyError)
    by reflexivity.
  split; [| split; [| split; [| split; [| split; [| split; [| split]]]]]].
  - intros tradeSpec. split.
    + destruct body as [b | message];
        [| unfold handle, parseIntentPOST, parseIntentFailure;
           destruct (includes _ message); discriminate].
      destruct (json_null_dec b) as [-> | Hb];
        [rewrite Hnull; unfold parseIntentFailure;
         destruct (includes _ nullPropertyError); discriminate |].
      rewrite (Hbody b Hb). unfold parseIntentFailure.
      destruct (validate b) as [issues | intent] eqn:Ev; [discriminate |].
      destruct (getAgentParser parserInstance ANTHROPIC_API_KEY) as [[] | m] eqn:Eg;
        [| destruct (includes _ m); discriminate].
      destruct (parseIntent intent) as [t | m] eqn:Ep;
        [| destruct (includes _ m); discriminate].
      intros H. inversion H; subst t. exists b, intent. auto.
    + intros [b [intent [-> [Hv [Hg Hp]]]]].
      assert (Hb : b <> JNull) by (intros ->; discriminate).
      now rewrite (Hbody b Hb), Hv, Hg, Hp.
  - intros b intent. unfold validate, ParseIntentRequestSchema_safeParse, zString1.
    destruct b as [| | | | | fields]; try discriminate.
    destruct (obj_get fields "intent") as [[| | | s | |] |] eqn:Ei; try discriminate.
    destruct (1 <=? String.length s)%nat eqn:El; [| discriminate].
    intros H. inversion H; subst s. split; [| eauto].
    destruct intent; [discriminate | congruence].
  - intros b issues -> Hb Hv. now rewrite (Hbody b Hb), Hv.
  - intros ->. exact Hnull.
  - intros status error details.
    destruct body as [b | message]; [| intros H; right; eapply Hfail; exact H].
    destruct (json_null_dec b) as [-> | Hb];
      [rewrite Hnull; intros H; right; eapply Hfail; exact H |].
    rewrite (Hbody b Hb).
    destruct (validate b) as [issues | intent];
      [intros H; inversion H; subst; left; auto |].
    destruct (getAgentParser parserInstance ANTHROPIC_API_KEY) as [[] | m];
      [| intros H; right; eapply Hfail; exact H].
    destruct (parseIntent intent) as [t | m]; [discriminate |].
    intros H; right; eapply Hfail; exact H.
  - intros issues. reflexivity.
  - reflexivity.
  - intros -> -> fields intent -> Hi Hne. unfold handle, parseIntentPOST.
    cbn [ParseIntentRequestSchema_safeParse]. rewrite Hi. cbn [zString1].
    rewrite (nonempty_length intent Hne). reflexivity.
Qed.

End ParseIntentFacts.

(** *** The prices route *)

Section PricesFacts.

Variable parseFloat : string -> Q.
Variable getTicker : string -> Outcome LyraTicker.
Variable invalidType : string -> option json -> string.
Variable arrayTooSmall : string.
Variable nullPropertyError : string.

Let handle :=
  pricesPOST parseFloat getTicker invalidType arrayTooSmall nullPropertyError.
Let entry := priceEntry parseFloat.

Lemma Map_set_entries {V : Type} (m : list (string * V)) (k : string) (v : V)
    (k' : string) (v' : V) :
  In (k', v') (Map_set m k v) -> In (k', v') m \/ (k' = k /\ v' = v).
Proof.
  induction m as [| [k0 v0] rest IH]; cbn [Map_set].
  - intros [H | []]. inversion H. auto.
  - destruct (String.eqb k0 k) eqn:E.
    + apply String.eqb_eq in E. subst k0.
      intros [H | H]; [inversion H; auto | left; now right].
    + intros [H | H]; [left; now left |].
      destruct (IH H) as [H' | H']; [left; now right | auto].
Qed.

Lemma Map_get_In {V : Type} (m : list (string * V)) (k : string) (v : V) :
  Map_get m k = Some v -> In (k, v) m.
Proof.
  induction m as [| [k0 v0] rest IH]; [discriminate |].
  cbn [Map_get]. destruct (String.eqb k0 k) eqn:E.
  - apply String.eqb_eq in E. intros H. inversion H; subst. now left.
  - intros H. right. now apply IH.
Qed.

Lemma tickers_entries (names : list string) :
  forall acc,
    (forall k v, In (k, v) acc -> getTicker k = Returned v) ->
    forall k v,
      In (k, v) (fold_left (fun tickers n =>
                              match getTicker n with
                              | Returned value => Map_set tickers n value
                              | Thrown _ => tickers
                              end) names acc) ->
      getTicker k = Returned v.
Proof.
  induction names as [| n rest IH]; intros acc Hacc k v; cbn [fold_left];
    [apply Hacc |].
  apply IH. intros k' v' Hin.
  destruct (getTicker n) as [value |] eqn:En; [| now apply Hacc].
  apply Map_set_entries in Hin. destruct Hin as [Hin | [-> ->]];
    [now apply Hacc | exact En].
Qed.

Lemma prices_fold (m : list (string * LyraTicker)) :
  (forall k v, In (k, v) m -> getTicker k = Returned v) ->
  forall acc name,
    Map_get (fold_left (fun prices '(name, ticker) =>
                          Map_set prices name (entry ticker)) m acc) name
    = match Map_get m name with
      | Some ticker => Some (entry ticker)
      | None => Map_get acc name
      end.
Proof.
  induction m as [| [k v] rest IH]; intros Hm acc name; [reflexivity |].
  cbn [fold_left Map_get].
  rewrite IH by (intros k' v' H; apply Hm; now right).
  destruct (String.eqb k name) eqn:E.
  - apply String.eqb_eq in E. subst k.
    destruct (Map_get rest name) as [ticker |] eqn:Er.
    + pose proof (Map_get_In _ _ _ Er) as Hin.
      assert (H1 : getTicker name = Returned ticker) by (apply Hm; now right).
      assert (H2 : getTicker name = Returned v) by (apply Hm; now left).
      congruence.
    + now rewrite Map_get_set, String.eqb_refl.
  - destruct (Map_get rest name); [reflexivity |].
    now rewrite Map_get_set, E.
Qed.

(** X26.  When the prices route answers 200, the body named a non-empty list
    of instrument names; [prices] has an entry exactly for the requested
    names whose ticker was fetched, computed from that ticker;
    [not_found] lists, in order, the requested names whose ticker failed;
    and each requested name is in exactly one of the two. *)
Theorem pricesPOST_found (body : Outcome json)
    (prices : list (string * PriceEntry)) (not_found : list string) :
  handle body = PricesOk prices not_found ->
  exists b names,
    body = Returned b
    /\ PricesRequestSchema_safeParse invalidType arrayTooSmall b = inr names
    /\ names <> []
    /\ not_found
       = filter (fun name => match getTicker name with
                             | Returned _ => false
                             | Thrown _ => true
                             end) names
    /\ (forall name,
          Map_get prices name
          = if existsb (String.eqb name) names
            then match getTicker name with
                 | Returned ticker => Some (entry ticker)
                 | Thrown _ => None
                 end
            else None)
    /\ (forall name, In name names ->
          (Map_get prices name = None <-> In name not_found)).
Proof.
  unfold handle, pricesPOST. destruct body as [b | message]; [| discriminate].
  intros H.
  assert (H' : match PricesRequestSchema_safeParse invalidType arrayTooSmall b with
               | inl issues =>
                   PricesError 400 "Invalid request" (issueMessages issues)
               | inr instrument_names =>
                   PricesOk
                     (fold_left (fun prices '(name, ticker) =>
                                   Map_set prices name (priceEntry parseFloat ticker))
                                (getTickersForInstruments getTicker instrument_names)
                                [])
                     (filter (fun name =>
                                negb (Map_has (getTickersForInstruments getTicker
                                                 instrument_names) name))
                             instrument_names)
               end = PricesOk prices not_found)
    by (destruct b; try exact H; discriminate).
  clear H. rename H' into H.
  destruct (PricesRequestSchema_safeParse invalidType arrayTooSmall b)
    as [issues | names] eqn:Ev; [discriminate |].
  inversion H as [[Hp Hn]]. clear H.
  assert (Htk : forall name,
            Map_get (getTickersForInstruments getTicker names) name
            = if existsb (String.eqb name) names
              then match getTicker name with
                   | Returned value => Some value
                   | Thrown _ => None
                   end
              else None).
  { intros name. unfold getTickersForInstruments. rewrite tickers_fold.
    destruct (existsb _ names); [| reflexivity].
    destruct (getTicker name); reflexivity. }
  assert (Hnf : forall name, In name names ->
            negb (Map_has (getTickersForInstruments getTicker names) name)
            = match getTicker name with
              | Returned _ => false
              | Thrown _ => true
              end).
  { intros name Hin. unfold Map_has. rewrite Htk.
    assert (Hex : existsb (String.eqb name) names = true)
      by (apply existsb_exists; exists name; split;
          [exact Hin | apply String.eqb_refl]).
    rewrite Hex. destruct (getTicker name); reflexivity. }
  assert (Hprices : forall name,
            Map_get (fold_left (fun prices '(name, ticker) =>
                                  Map_set prices name (entry ticker))
                               (getTickersForInstruments getTicker names) [])
                    name
            = if existsb (String.eqb name) names
              then match getTicker name with
                   | Returned ticker => Some (entry ticker)
                   | Thrown _ => None
                   end
              else None).
  { intros name. rewrite prices_fold.
    - rewrite Htk. destruct (existsb _ names); [| reflexivity].
      destruct (getTicker name); reflexivity.
    - unfold getTickersForInstruments. apply tickers_entries. intros k v []. }
  subst prices not_found.
  exists b, names. split; [reflexivity |]. split; [exact Ev |]. split.
  - clear - Ev. unfold PricesRequestSchema_safeParse in Ev.
    destruct b as [| | | | | fields]; try discriminate.
    destruct (obj_get fields "instrument_names") as [[| | | | items |] |];
      try discriminate.
    destruct (zStrings invalidType ["instrument_names"] 0 items) as [| ns];
      [discriminate |].
    destruct (1 <=? List.length ns)%nat eqn:El; [| discriminate].
    inversion Ev; subst ns. destruct names; [discriminate | congruence].
  - split; [| split].
    + apply filter_ext_in. intros name Hin. now apply Hnf.
    + exact Hprices.
    + intros name Hin. rewrite Hprices.
      assert (Hex : existsb (String.eqb name) names = true)
        by (apply existsb_exists; exists name; split;
            [exact Hin | apply String.eqb_refl]).
      rewrite Hex, filter_In, (Hnf name Hin).
      destruct (getTicker name); split; try discriminate; try tauto.
      intros [_ Hf]. discriminate.
Qed.

End PricesFacts.

Section EntryFacts.

Variable parseFloat : string -> Q.


End EntryFacts.

(** A request for the prices of two instruments, of which the exchange
    knows the first. *)
Lemma pricesPOST_found_witness :
  let names := ["ETH-20250110-3500-C"; "ETH-20250110-9999-C"] in
  let prices :=
    [("ETH-20250110-3500-C", priceEntry parseDecimal Examples.quotedCall)] in
  let not_found := ["ETH-20250110-9999-C"] in
  exists b names,
    Returned Examples.pricesBody = Returned b
    /\ PricesRequestSchema_safeParse (fun _ _ => "Invalid input")
         "Too small" b = inr names
    /\ names <> []
    /\ not_found
       = filter (fun name => match Examples.oneCallExchange name with
                             | Returned _ => false
                             | Thrown _ => true
                             end) names
    /\ (forall name,
          Map_get prices name
          = if existsb (String.eqb name) names
            then match Examples.oneCallExchange name with
                 | Returned ticker => Some (priceEntry parseDecimal ticker)
                 | Thrown _ => None
                 end
            else None)
    /\ (forall name, In name names ->
          (Map_get prices name = None <-> In name not_found)).
Proof.
  intros names prices not_found.
  apply (pricesPOST_found parseDecimal Examples.oneCallExchange
           (fun _ _ => "Invalid input") "Too small"
           "Cannot read properties of null" (Returned Examples.pricesBody)
           prices not_found).
  vm_compute. reflexivity.
Defined.

End RouteFacts.
